(** * QuadriFlow parametrizer: integer-grid bookkeeping of [parametrizer.cpp]

    A shallow embedding of the integer part of [src/parametrizer.cpp]
    (edge ids, orientation singularities, the randomized perturbation of
    [BuildIntegerConstraints], the edge union-find with rotation labels, the
    collapse / [CheckMove] machinery of [FixFlipAdvance] and the greedy loop
    filling of [FixHoles]), followed by the properties proved about it.

    Conventions.
    - A C++ [int] is a [Z]; [/] and [%] are the truncating [Z.quot] and
      [Z.rem] of C++.  The clamp of [ComputeIndexMap] is modelled on 32-bit
      values, with the wrap-around of [abs] written out ([wrap_int]); on the
      states the other theorems speak about every intermediate value is tiny
      compared to the 32-bit range, and no wrap-around is written there.
    - [std::vector] and Eigen vectors are lists indexed by [Z]; an access
      outside the valid range is undefined behaviour in C++ and is the
      outcome [OutOfRange] here.
    - [exit(c)] is the outcome [Exited c].
    - Recursion and [while (true)] loops take a fuel argument; running out
      of it is the outcome [OutOfFuel]. *)

From stdpp Require Import prelude gmap.
From Stdlib Require Import ZArith Lia QArith Qcanon.

Local Open Scope Z_scope.

(* ================================================================== *)
(** * Part I: the embedding *)
(* ================================================================== *)

(** ** Outcomes of a run *)

Inductive result (A : Type) : Type :=
| Ok (a : A)
| OutOfRange
| Exited (code : Z)
| OutOfFuel.

Arguments Ok {A} a.
Arguments OutOfRange {A}.
Arguments Exited {A} code.
Arguments OutOfFuel {A}.

#[global] Instance result_ret : MRet result := fun A a => Ok a.

#[global] Instance result_bind : MBind result := fun A B f m =>
  match m with
  | Ok a => f a
  | OutOfRange => OutOfRange
  | Exited c => Exited c
  | OutOfFuel => OutOfFuel
  end.

(** ** Vectors indexed by [int] *)

Definition vget {A} (v : list A) (i : Z) : result A :=
  if decide (0 ≤ i) then
    match v !! Z.to_nat i with
    | Some x => Ok x
    | None => OutOfRange
    end
  else OutOfRange.

Definition vset {A} (v : list A) (i : Z) (x : A) : result (list A) :=
  if decide (0 ≤ i < Z.of_nat (length v)) then Ok (<[Z.to_nat i := x]> v)
  else OutOfRange.

Definition vsize {A} (v : list A) : Z := Z.of_nat (length v).

(** [Vector2i], [Vector3i]. *)
Definition Vector2i : Type := Z * Z.
Definition Vector3i : Type := Z * Z * Z.

Definition v2_add (a b : Vector2i) : Vector2i := (a.1 + b.1, a.2 + b.2).
Definition v2_sub (a b : Vector2i) : Vector2i := (a.1 - b.1, a.2 - b.2).
Definition v2_neg (a : Vector2i) : Vector2i := (- a.1, - a.2).
Definition v2_zero : Vector2i := (0, 0).

(** Component [k] of a [Vector2i] / [Vector3i] ([operator[]]). *)
Definition v2_get (a : Vector2i) (k : Z) : result Z :=
  if decide (k = 0) then Ok a.1 else if decide (k = 1) then Ok a.2 else OutOfRange.

Definition v2_set (a : Vector2i) (k : Z) (x : Z) : result Vector2i :=
  if decide (k = 0) then Ok (x, a.2) else if decide (k = 1) then Ok (a.1, x) else OutOfRange.

Definition v3_get (a : Vector3i) (k : Z) : result Z :=
  if decide (k = 0) then Ok a.1.1
  else if decide (k = 1) then Ok a.1.2
  else if decide (k = 2) then Ok a.2
  else OutOfRange.

Definition v3_set (a : Vector3i) (k : Z) (x : Z) : result Vector3i :=
  if decide (k = 0) then Ok (x, a.1.2, a.2)
  else if decide (k = 1) then Ok (a.1.1, x, a.2)
  else if decide (k = 2) then Ok (a.1.1, a.1.2, x)
  else OutOfRange.

(** Modelled from the spec: [rshift90] of field-math.hpp, which is not among
    the sources.  Glossary: "rshift90(v, r): rotate integer 2-vector v by
    r · 90° counter-clockwise". *)
Definition rshift90 (shift : Vector2i) (amount : Z) : Vector2i :=
  match amount `mod` 4 with
  | 0 => shift
  | 1 => (- shift.2, shift.1)
  | 2 => (- shift.1, - shift.2)
  | _ => (shift.2, - shift.1)
  end.

(** ** The edge union-find with rotation labels (lines 559-570) *)

(** [int get_parents(std::vector<std::pair<int,int>>& parents, int j)]:
    find with path compression; the vector is updated in place, so the
    model returns it next to the root. *)
Fixpoint get_parents (fuel : nat) (parents : list (Z * Z)) (j : Z)
  : result (list (Z * Z) * Z) :=
  match fuel with
  | O => OutOfFuel
  | S fuel' =>
      pj ← vget parents j;
      if decide (j = pj.1) then Ok (parents, j)
      else
        '(parents1, k) ← get_parents fuel' parents pj.1;
        pj1 ← vget parents1 j;
        pp ← vget parents1 pj1.1;
        parents2 ← vset parents1 j (pj1.1, Z.rem (pj1.2 + pp.2) 4);
        pj2 ← vget parents2 j;
        parents3 ← vset parents2 j (k, pj2.2);
        Ok (parents3, k)
  end.

(** [int get_parents_orient(std::vector<std::pair<int,int>>& parents, int j)]:
    never writes to the vector. *)
Fixpoint get_parents_orient (fuel : nat) (parents : list (Z * Z)) (j : Z)
  : result Z :=
  match fuel with
  | O => OutOfFuel
  | S fuel' =>
      pj ← vget parents j;
      if decide (j = pj.1) then Ok pj.2
      else
        o ← get_parents_orient fuel' parents pj.1;
        Ok (Z.rem (pj.2 + o) 4)
  end.

(** The parent chain of [j]: it reaches the self-parented entry [r] after
    [d] links, and the labels met on the way compose to [s] exactly as
    [get_parents_orient] composes them. *)
Inductive chain (parents : list (Z * Z)) : Z → Z → Z → nat → Prop :=
| chain_root j o :
    vget parents j = Ok (j, o) →
    chain parents j j o 0
| chain_link j p o r s d :
    vget parents j = Ok (p, o) →
    j ≠ p →
    chain parents p r s d →
    chain parents j r (Z.rem (o + s) 4) (S d).

(** Entries are in range, labels are rotations [0..3], roots carry label 0
    (the state [FixFlipAdvance] starts from, [(i, 0)], and every link it
    creates keep this). *)
Definition good_entries (parents : list (Z * Z)) : Prop :=
  ∀ j p o, vget parents j = Ok (p, o) →
    0 ≤ p < vsize parents ∧ 0 ≤ o < 4 ∧ (p = j → o = 0).

(** A well-formed forest: good entries, and every parent chain ends at a
    root. *)
Definition wf_forest (parents : list (Z * Z)) : Prop :=
  good_entries parents ∧
  ∀ j, 0 ≤ j < vsize parents → ∃ r s d, chain parents j r s d.

(** Executable check of [wf_forest] (used to evaluate it on concrete
    forests). *)
Definition wf_entryb (parents : list (Z * Z)) (j : Z) : bool :=
  match vget parents j, get_parents_orient (length parents) parents j with
  | Ok (p, o), Ok _ =>
      bool_decide (0 ≤ p < vsize parents ∧ 0 ≤ o < 4 ∧ (p = j → o = 0))
  | _, _ => false
  end.

Definition wf_forestb (parents : list (Z * Z)) : bool :=
  forallb (wf_entryb parents) (Z.of_nat <$> seq 0 (length parents)).

(** ** Loops *)

(** [for (int i = start; i < start + n; ++i) body] *)
Fixpoint for_loop {St} (n : nat) (start : Z) (body : Z → St → result St) (s : St)
  : result St :=
  match n with
  | O => Ok s
  | S n' => s' ← body start s; for_loop n' (start + 1) body s'
  end.

(** [for (auto& x : container) body] *)
Fixpoint for_each {A St} (l : list A) (body : A → St → result St) (s : St)
  : result St :=
  match l with
  | [] => Ok s
  | x :: l' => s' ← body x s; for_each l' body s'
  end.

(** Modelled from the spec: [DEdge] of dedge.hpp, which is not among the
    sources.  Section 3: "unordered pair {x,y}; equality/hash
    order-insensitive"; the pair is kept with the lower id first (the
    "lower-id endpoint" of the glossary is its [x]). *)
Definition DEdge (v1 v2 : Z) : Z * Z := (Z.min v1 v2, Z.max v1 v2).

(** ** [Parametrizer::BuildEdgeInfo] (lines 572-611) *)

Record EdgeInfo := {
  edge_values : list (Z * Z);
  edge_diff : list Vector2i;
  face_edgeIds : list Vector3i
}.

(** The body of the inner loop, for face [i] and corner [j].  [F] and
    [pos_rank] are matrices with three rows, [pos_index] has six; all are
    stored by columns. *)
Definition BuildEdgeInfo_corner
    (F pos_rank : list Vector3i) (pos_index : list (list Z)) (E2E : list Z)
    (singularities : gmap Z Z) (i j : Z) (st : EdgeInfo) : result EdgeInfo :=
  let k1 := j in
  let k2 := Z.rem (j + 1) 3 in
  Fi ← vget F i;
  v1 ← v3_get Fi k1;
  v2 ← v3_get Fi k2;
  let e2 := DEdge v1 v2 in
  ranks ← vget pos_rank i;
  idx ← vget pos_index i;
  px ← vget idx (k1 * 2);
  py ← vget idx (k1 * 2 + 1);
  diff2 ← (if decide (v1 > v2) then
             rank2 ← v3_get ranks k2; Ok (rshift90 (- px, - py) rank2)
           else
             rank2 ← v3_get ranks k1; Ok (rshift90 (px, py) rank2));
  let current_eid := i * 3 + k1 in
  eid ← vget E2E current_eid;
  row ← vget (face_edgeIds st) (Z.quot eid 3);
  eID2 ← v3_get row (Z.rem eid 3);
  if decide (eID2 = -1) then
    let eID2 := vsize (edge_values st) in
    let edge_values' := edge_values st ++ [e2] in
    let edge_diff' := edge_diff st ++ [diff2] in
    own ← vget (face_edgeIds st) i;
    own' ← v3_set own k1 eID2;
    ids1 ← vset (face_edgeIds st) i own';
    ids2 ← (if decide (eid ≠ -1) then
              opp ← vget ids1 (Z.quot eid 3);
              opp' ← v3_set opp (Z.rem eid 3) eID2;
              vset ids1 (Z.quot eid 3) opp'
            else Ok ids1);
    Ok {| edge_values := edge_values'; edge_diff := edge_diff'; face_edgeIds := ids2 |}
  else if decide (singularities !! i = None) then
    ed ← vset (edge_diff st) eID2 diff2;
    Ok {| edge_values := edge_values st; edge_diff := ed; face_edgeIds := face_edgeIds st |}
  else Ok st.

(** [edge_diff] and [edge_values] are cleared and [face_edgeIds] is sized to
    one [(-1,-1,-1)] per face before the loops. *)
Definition BuildEdgeInfo
    (F pos_rank : list Vector3i) (pos_index : list (list Z)) (E2E : list Z)
    (singularities : gmap Z Z) : result EdgeInfo :=
  for_loop (length F) 0
    (fun i => for_loop 3 0
       (BuildEdgeInfo_corner F pos_rank pos_index E2E singularities i))
    {| edge_values := []; edge_diff := [];
       face_edgeIds := replicate (length F) (-1, -1, -1) |}.

(** ** [Parametrizer::ComputeOrientationSingularities] (lines 241-263) *)

(** Modelled from the spec: [modulo] of the common headers, which is not
    among the sources.  Section 4.2 reads it as "the sum mod 4". *)
Definition modulo (a b : Z) : Z := a `mod` b.

Section OrientationSingularities.

(** Columns of [Q] and [N] are 3-vectors of doubles; the integer logic only
    negates them and feeds them to [compat_orientation_extrinsic_index_4]
    (field-math.hpp, not among the sources), so both are parameters. *)
Context {Vector3d : Type}.
Variable vneg : Vector3d → Vector3d.
Variable compat_orientation_extrinsic_index_4 :
  Vector3d → Vector3d → Vector3d → Vector3d → Z * Z.

(** The inner loop over [k]: the raw index sum of a face.  ([abs_index] is
    accumulated by the source but never read.) *)
Definition face_index (Q N : list Vector3d) (Ff : Vector3i) : result Z :=
  for_loop 3 0
    (fun k index =>
       i ← v3_get Ff k;
       j ← v3_get Ff (if decide (k = 2) then 0 else k + 1);
       qi ← vget Q i;
       ni ← vget N i;
       qj ← vget Q j;
       nj ← vget N j;
       let value := compat_orientation_extrinsic_index_4 qi ni qj nj in
       Ok (index + (value.2 - value.1)))
    0.

(** The body of the loop over faces; the state is [Q] and the
    [singularities] map. *)
Definition singularity_step (F : list Vector3i) (N : list Vector3d) (f : Z)
    (st : list Vector3d * gmap Z Z) : result (list Vector3d * gmap Z Z) :=
  let '(Q, singularities) := st in
  Ff ← vget F f;
  index ← face_index Q N Ff;
  let index_mod := modulo index 4 in
  if decide (index_mod = 1 ∨ index_mod = 3) then
    Q' ← (if decide (4 ≤ index ∨ index < 0) then
            v0 ← v3_get Ff 0;
            q ← vget Q v0;
            vset Q v0 (vneg q)
          else Ok Q);
    Ok (Q', <[f := index_mod]> singularities)
  else Ok (Q, singularities).

Definition ComputeOrientationSingularities
    (F : list Vector3i) (N Q : list Vector3d)
  : result (list Vector3d * gmap Z Z) :=
  for_loop (length F) 0 (singularity_step F N) (Q, ∅).

(** The state reached after the first [n] faces. *)
Definition singularities_prefix
    (F : list Vector3i) (N Q : list Vector3d) (n : nat)
  : result (list Vector3d * gmap Z Z) :=
  for_loop n 0 (singularity_step F N) (Q, ∅).

(** One term of [face_index]: the index difference of the pair [(i, j)]
    added to [acc]. *)
Definition edge_index_acc (Q N : list Vector3d) (i j acc : Z) : result Z :=
  qi ← vget Q i; ni ← vget N i; qj ← vget Q j; nj ← vget N j;
  let value := compat_orientation_extrinsic_index_4 qi ni qj nj in
  Ok (acc + (value.2 - value.1)).

(** Two states of [Q] are index-equivalent when every face has the same
    raw index sum modulo 4 on both. *)
Definition index_equiv (N Q Q' : list Vector3d) : Prop :=
  length Q = length Q' ∧
  ∀ Ff i, face_index Q N Ff = Ok i →
    ∃ i', face_index Q' N Ff = Ok i' ∧ i' `mod` 4 = i `mod` 4.

End OrientationSingularities.

(** ** The hole-filling loop of [Parametrizer::FixHoles] (lines 1029-1068) *)

Definition Vector4i : Type := Z * Z * Z * Z.

(** [vec.erase(vec.begin() + i)] *)
Definition verase {A} (v : list A) (i : Z) : result (list A) :=
  if decide (0 ≤ i < vsize v) then Ok (delete (Z.to_nat i) v) else OutOfRange.

Section FixHoles.

(** Positions are 3-vectors of doubles; the loop only compares the norms
    of their differences.  [norm_sub a b] stands for [(a - b).norm()], with
    rational values in place of doubles. *)
Context {Vector3d : Type}.
Variable norm_sub : Vector3d → Vector3d → Qc.

Variable O_compact : list Vector3d.
Variable directed_edges : gset Z.
Variable numV : Z.

(** [double min_dis = 1e30] *)
Definition min_dis_init : Qc := Q2Qc (inject_Z (10 ^ 30)).

(** [F_compact.push_back(q)] followed by the winding test
    [if (directed_edges.count(q[0] * numV + q[1])) swap(q[1], q[3])]. *)
Definition push_quad (F_compact : list Vector4i) (q : Vector4i) : list Vector4i :=
  let '(a, b, c, d) := q in
  F_compact ++ [if decide (a * numV + b ∈ directed_edges) then (a, d, c, b) else q].

(** The body of the scan [for (int i = 0; i < loop_edge.size(); ++i)]; the
    state is [(min_dis, v_start)].  The bound and the modulus are the size of
    [loop_edge], as in the source. *)
Definition scan_step (loop_vertices : list Z) (loop_edge_size : Z) (i : Z)
    (st : Qc * Z) : result (Qc * Z) :=
  let '(min_dis, v_start) := st in
  v1 ← vget loop_vertices i;
  v2 ← vget loop_vertices (Z.rem (i + 3) loop_edge_size);
  o1 ← vget O_compact v1;
  o2 ← vget O_compact v2;
  let dis := norm_sub o1 o2 in
  if decide (dis < min_dis)%Qc then Ok (dis, i) else Ok (min_dis, v_start).

(** [while (!loop_vertices.empty()) { ... }] for one boundary loop;
    [loop_edge_size] is [loop_edge.size()], which the loop never changes
    before it leaves. *)
Fixpoint fill_loop (fuel : nat) (loop_edge_size : Z) (loop_vertices : list Z)
    (F_compact : list Vector4i) : result (list Vector4i) :=
  match fuel with
  | O => OutOfFuel
  | S fuel' =>
      if decide (loop_vertices = []) then Ok F_compact
      else if decide (vsize loop_vertices ≤ 4) then
        a ← vget loop_vertices 0;
        b ← vget loop_vertices 1;
        c ← vget loop_vertices 2;
        q ← (if decide (vsize loop_vertices = 4) then
               d ← vget loop_vertices 3; Ok (a, b, c, d)
             else Ok (a, b, c, c));
        Ok (push_quad F_compact q)
      else
        '(min_dis, v_start) ←
          for_loop (Z.to_nat loop_edge_size) 0
            (scan_step loop_vertices loop_edge_size) (min_dis_init, -1);
        let n := vsize loop_vertices in
        a ← vget loop_vertices v_start;
        b ← vget loop_vertices (Z.rem (v_start + 1) n);
        c ← vget loop_vertices (Z.rem (v_start + 2) n);
        d ← vget loop_vertices (Z.rem (v_start + 3) n);
        let F_compact' := push_quad F_compact (a, b, c, d) in
        let delete_v1 := Z.rem (v_start + 1) n in
        let delete_v2 := Z.rem (v_start + 2) n in
        let '(delete_v1, delete_v2) :=
          if decide (delete_v1 > delete_v2) then (delete_v2, delete_v1)
          else (delete_v1, delete_v2) in
        lv1 ← verase loop_vertices delete_v2;
        lv2 ← verase lv1 delete_v1;
        fill_loop fuel' loop_edge_size lv2 F_compact'
  end.

End FixHoles.

(** ** The randomized perturbation of [BuildIntegerConstraints]
       (lines 1291-1339) *)

(** [edge_diff[v / 2][v % 2]]: the component addressed by the flat
    variable index [v]. *)
Definition diff_component (edge_diff : list Vector2i) (v : Z) : result Z :=
  e ← vget edge_diff (Z.quot v 2); v2_get e (Z.rem v 2).

(** The residual [sign[0]*diff1 + sign[1]*diff2 + sign[2]*diff3] of one
    constraint row. *)
Definition constraint_residual (edge_diff : list Vector2i)
    (index sign : Vector3i) : result Z :=
  diff1 ← diff_component edge_diff index.1.1;
  diff2 ← diff_component edge_diff index.1.2;
  diff3 ← diff_component edge_diff index.2;
  Ok (sign.1.1 * diff1 + sign.1.2 * diff2 + sign.2 * diff3).

(** One entry of a row enters [variables]: the row is noted on the side of
    its sign and the sign is added to the net sign. *)
Definition variables_entry (index sign : Vector3i) (i j : Z)
    (variables : list (Vector2i * Z)) : result (list (Vector2i * Z)) :=
  ij ← v3_get index j;
  sj ← v3_get sign j;
  var ← vget variables ij;
  let p := if decide (sj > 0) then (i, var.1.2) else (var.1.1, i) in
  vset variables ij (p, var.2 + sj).

(** The body of the loop of lines 1294-1310; the state is
    [(variables, total_flow)]. *)
Definition variables_row (constraints_index constraints_sign : list Vector3i)
    (edge_diff : list Vector2i) (i : Z) (st : list (Vector2i * Z) * Z)
  : result (list (Vector2i * Z) * Z) :=
  let '(variables, total_flow) := st in
  index ← vget constraints_index i;
  sign ← vget constraints_sign i;
  diff ← constraint_residual edge_diff index sign;
  variables' ← for_loop 3 0 (variables_entry index sign i) variables;
  Ok (variables', total_flow + diff).

(** [total_flow = 0; variables.resize(edge_diff.size() * 2, ((-1,-1), 0))]
    and the loop over the rows. *)
Definition build_variables (constraints_index constraints_sign : list Vector3i)
    (edge_diff : list Vector2i) : result (list (Vector2i * Z) * Z) :=
  for_loop (length constraints_index) 0
    (variables_row constraints_index constraints_sign edge_diff)
    (replicate (2 * length edge_diff) ((-1, -1), 0), 0).

(** The body of the loop of lines 1313-1332; the state is
    [(cuts, modified_variables)]. *)
Definition collect_variable (edge_values : list (Z * Z))
    (edge_diff : list Vector2i) (target_flow : Z)
    (variables : list (Vector2i * Z)) (i : Z)
    (st : gset (Z * Z) * list (Z * Z)) : result (gset (Z * Z) * list (Z * Z)) :=
  let '(cuts, mv) := st in
  var ← vget variables i;
  if decide (var.2 ≠ 0) then
    ev ← vget edge_values (Z.quot i 2);
    let cuts' := {[ev]} ∪ cuts in
    if decide (target_flow > 0) then
      mv1 ← (if decide (var.2 > 0) then
               c ← diff_component edge_diff i;
               Ok (if decide (c > -1) then mv ++ [(i, -1)] else mv)
             else Ok mv);
      mv2 ← (if decide (var.2 < 0) then
               c ← diff_component edge_diff i;
               Ok (if decide (c < 1) then mv1 ++ [(i, 1)] else mv1)
             else Ok mv1);
      Ok (cuts', mv2)
    else if decide (target_flow < 0) then
      mv1 ← (if decide (var.2 < 0) then
               c ← diff_component edge_diff i;
               Ok (if decide (c > -1) then mv ++ [(i, -1)] else mv)
             else Ok mv);
      mv2 ← (if decide (var.2 > 0) then
               c ← diff_component edge_diff i;
               Ok (if decide (c < 1) then mv1 ++ [(i, 1)] else mv1)
             else Ok mv1);
      Ok (cuts', mv2)
    else Ok (cuts', mv)
  else Ok (cuts, mv).

(** [edge_diff[info.first / 2][info.first % 2] += info.second] for
    [info = modified_variables[i]]. *)
Definition perturb_one (modified_variables : list (Z * Z)) (i : Z)
    (edge_diff : list Vector2i) : result (list Vector2i) :=
  info ← vget modified_variables i;
  e ← vget edge_diff (Z.quot info.1 2);
  c ← v2_get e (Z.rem info.1 2);
  e' ← v2_set e (Z.rem info.1 2) (c + info.2);
  vset edge_diff (Z.quot info.1 2) e'.

Section Perturbation.

(** [std::random_shuffle]: some rearrangement of its argument. *)
Variable random_shuffle : list (Z * Z) → list (Z * Z).

(** Lines 1291-1339.  Returns [variables], the recomputed [total_flow],
    [cuts] and the perturbed [edge_diff]. *)
Definition perturb_edge_diff (constraints_index constraints_sign : list Vector3i)
    (edge_values : list (Z * Z)) (edge_diff : list Vector2i) (target_flow : Z)
  : result (list (Vector2i * Z) * Z * gset (Z * Z) * list Vector2i) :=
  '(variables, total_flow) ←
    build_variables constraints_index constraints_sign edge_diff;
  '(cuts, mv) ←
    for_loop (length variables) 0
      (collect_variable edge_values edge_diff target_flow variables) (∅, []);
  let mv' := random_shuffle mv in
  edge_diff' ←
    for_loop (Z.to_nat (Z.quot (Z.abs target_flow) 2)) 0 (perturb_one mv') edge_diff;
  Ok (variables, total_flow, cuts, edge_diff').

End Perturbation.

(** ** The clamp of [ComputeIndexMap] (lines 754-760) *)

(** The 32-bit [int]: its least and greatest value, and the value a
    two's-complement machine keeps of an integer result. *)
Definition INT_MIN : Z := -2147483648.
Definition INT_MAX : Z := 2147483647.

Definition is_int (x : Z) : Prop := INT_MIN ≤ x ≤ INT_MAX.

Definition wrap_int (x : Z) : Z := (x - INT_MIN) `mod` 4294967296 + INT_MIN.

(** [abs(x)] on an [int]: the absolute value of [INT_MIN] is not an
    [int], and the negation that computes it wraps around to [INT_MIN]
    itself. *)
Definition abs_int (x : Z) : Z := wrap_int (Z.abs x).

(** [if (abs(x) > 1) x /= abs(x)] *)
Definition clamp_component (x : Z) : Z :=
  if decide (abs_int x > 1) then wrap_int (Z.quot x (abs_int x)) else x.

Definition clamp_edge_diff (edge_diff : list Vector2i) : list Vector2i :=
  (λ d : Vector2i, (clamp_component d.1, clamp_component d.2)) <$> edge_diff.

(** An [int] other than the least one. *)
Definition clampable (x : Z) : Prop := is_int x ∧ x ≠ INT_MIN.

(** Both components in [{-1, 0, 1}]. *)
Definition in_unit_range (d : Vector2i) : Prop :=
  -1 ≤ d.1 ≤ 1 ∧ -1 ≤ d.2 ≤ 1.

(** The value of a component, 0 where there is none (only used to state
    sums). *)
Definition component_value (edge_diff : list Vector2i) (v : Z) : Z :=
  match diff_component edge_diff v with Ok c => c | _ => 0 end.

(** The sum over the variables [start, start + 1, ...] of net sign times
    component. *)
Fixpoint flow_sum (edge_diff : list Vector2i) (start : Z)
    (variables : list (Vector2i * Z)) : Z :=
  match variables with
  | [] => 0
  | var :: vs => var.2 * component_value edge_diff start + flow_sum edge_diff (start + 1) vs
  end.

(** What the tests of lines 1316-1330 push for a variable with net sign
    [net] and current component [c]: nothing, or the one step [-1] or [+1]. *)
Definition candidate (target_flow net c : Z) : list Z :=
  if decide (net = 0) then []
  else if decide (target_flow > 0) then
    (if decide (net > 0) then (if decide (c > -1) then [-1] else [])
     else (if decide (c < 1) then [1] else []))
  else if decide (target_flow < 0) then
    (if decide (net < 0) then (if decide (c > -1) then [-1] else [])
     else (if decide (c < 1) then [1] else []))
  else [].

(** ** [std::set<int>] and [std::list<int>] *)

(** A [std::set<int>] is the strictly increasing list of its elements, the
    order in which it is iterated. *)
Fixpoint set_insert (x : Z) (s : list Z) : list Z :=
  match s with
  | [] => [x]
  | y :: s' =>
      if decide (x < y) then x :: s
      else if decide (x = y) then s
      else y :: set_insert x s'
  end.

Definition set_erase (x : Z) (s : list Z) : list Z := filter (λ y, y ≠ x) s.

(** [dst.insert(src.begin(), src.end())] *)
Definition set_insert_all (src dst : list Z) : list Z := foldr set_insert dst src.

(** [it = std::find(l.begin(), l.end(), x); if (it != l.end()) l.erase(it)] *)
Fixpoint list_erase_first (x : Z) (l : list Z) : list Z :=
  match l with
  | [] => []
  | y :: l' => if decide (y = x) then l' else y :: list_erase_first x l'
  end.

(** ** The lambdas of [Parametrizer::FixFlipAdvance] (lines 1601-1866) *)

Module FixFlip.

Section Model.

(** Modelled from the spec: [DisjointTree] of dset.hpp, which is not among
    the sources.  Section 3 lists its operations; only [Parent] and
    [MergeFromTo] are used here, and they are taken as parameters ([Parent]
    as the class root it returns). *)
Context {DisjointTree : Type}.
Variable tree_Parent : DisjointTree → Z → Z.
Variable tree_MergeFromTo : DisjointTree → Z → Z → DisjointTree.

(** Captured and only read: the faces, the edge endpoints and the per-face
    edge ids and orientations. *)
Variable F : list Vector3i.
Variable edge_values : list (Z * Z).
Variable face_edgeIds : list Vector3i.
Variable face_edgeOrients : list Vector3i.

(** Captured by reference and read by [ExtractEdgeSet]. *)
Variable edge_len : Z.

(** Captured and updated.  A [std::unordered_map] is a [gmap], iterated in
    the order of [map_to_list] (the C++ order is unspecified). *)
Record State := {
  edge_diff : list Vector2i;
  parent_edge : list (Z * Z);
  edge_to_faces : list (list Z);
  vertices_to_edges : list (gmap Z (list Z));
  tree : DisjointTree
}.

(** *** State and outcome monad *)

Definition M (A : Type) : Type := State → result (A * State).

#[global] Instance M_ret : MRet M := λ A x st, Ok (x, st).

#[global] Instance M_bind : MBind M := λ A B f m st,
  match m st with
  | Ok (x, st') => f x st'
  | OutOfRange => OutOfRange
  | Exited c => Exited c
  | OutOfFuel => OutOfFuel
  end.

Definition lift {A} (r : result A) : M A := λ st, x ← r; Ok (x, st).
Definition exit_with {A} (code : Z) : M A := λ _, Exited code.
Definition out_of_fuel {A} : M A := λ _, OutOfFuel.
Definition undefined {A} : M A := λ _, OutOfRange.
Definition get {A} (field : State → A) : M A := λ st, Ok (field st, st).

Definition set_edge_diff (x : list Vector2i) : M unit := λ st,
  Ok ((), {| edge_diff := x; parent_edge := parent_edge st;
             edge_to_faces := edge_to_faces st;
             vertices_to_edges := vertices_to_edges st; tree := tree st |}).

Definition set_parent_edge (x : list (Z * Z)) : M unit := λ st,
  Ok ((), {| edge_diff := edge_diff st; parent_edge := x;
             edge_to_faces := edge_to_faces st;
             vertices_to_edges := vertices_to_edges st; tree := tree st |}).

Definition set_edge_to_faces (x : list (list Z)) : M unit := λ st,
  Ok ((), {| edge_diff := edge_diff st; parent_edge := parent_edge st;
             edge_to_faces := x;
             vertices_to_edges := vertices_to_edges st; tree := tree st |}).

Definition set_vertices_to_edges (x : list (gmap Z (list Z))) : M unit := λ st,
  Ok ((), {| edge_diff := edge_diff st; parent_edge := parent_edge st;
             edge_to_faces := edge_to_faces st;
             vertices_to_edges := x; tree := tree st |}).

Definition set_tree (x : DisjointTree) : M unit := λ st,
  Ok ((), {| edge_diff := edge_diff st; parent_edge := parent_edge st;
             edge_to_faces := edge_to_faces st;
             vertices_to_edges := vertices_to_edges st; tree := x |}).

(** [for (auto& x : l) acc = body(x, acc)] *)
Fixpoint mfold {A B} (l : list A) (body : A → B → M B) (acc : B) : M B :=
  match l with
  | [] => mret acc
  | x :: l' => acc' ← body x acc; mfold l' body acc'
  end.

(** [for (auto& x : l) body(x)] *)
Fixpoint mfor {A} (l : list A) (body : A → M unit) : M unit :=
  match l with
  | [] => mret ()
  | x :: l' => _ ← body x; mfor l' body
  end.

(** [get_parents(parent_edge, eid)]: the recursion is given as many levels
    as the vector has entries. *)
Definition find (eid : Z) : M Z := λ st,
  '(ps, r) ← get_parents (length (parent_edge st)) (parent_edge st) eid;
  Ok (r, {| edge_diff := edge_diff st; parent_edge := ps;
            edge_to_faces := edge_to_faces st;
            vertices_to_edges := vertices_to_edges st; tree := tree st |}).

(** [get_parents_orient(parent_edge, eid)] *)
Definition find_orient (eid : Z) : M Z := λ st,
  o ← get_parents_orient (length (parent_edge st)) (parent_edge st) eid;
  Ok (o, st).

(** [tree.Parent(x)] *)
Definition tree_parent (x : Z) : M Z :=
  t ← get tree; mret (tree_Parent t x).

(** [F(j, f)], [face_edgeIds[f][j]], [face_edgeOrients[f][j]] *)
Definition F_at (j f : Z) : M Z := lift (col ← vget F f; v3_get col j).
Definition face_edge_id (f j : Z) : M Z :=
  lift (ids ← vget face_edgeIds f; v3_get ids j).
Definition face_edge_orient (f j : Z) : M Z :=
  lift (os ← vget face_edgeOrients f; v3_get os j).

(** [edge_diff[e]] *)
Definition diff_of (e : Z) : M Vector2i :=
  ed ← get edge_diff; lift (vget ed e).

(** *** [ExtractEdgeSet] (lines 1601-1670) *)

(** One pass of the loop of lines 1618-1626: the class root of corner [i],
    its orientation in the face and its rotated remaining diff. *)
Definition corner_frame (edge_set : gmap Z Vector2i) (f i : Z)
  : M (Z * Z * Vector2i) :=
  eid ← face_edge_id f i;
  pid ← find eid;
  po ← find_orient eid;
  fo ← face_edge_orient f i;
  let orient := Z.rem (po + fo) 4 in
  diff ← diff_of pid;
  let diff := match edge_set !! pid with
              | Some c => v2_sub diff c
              | None => diff
              end in
  mret (pid, orient, rshift90 diff orient).

(** The test of lines 1629-1631 and 1636-1638: the edge does not touch
    [v1], or it is already in the set. *)
Definition blocked (v1 : Z) (edge_set : gmap Z Vector2i) (pid : Z) : M bool :=
  ev ← lift (vget edge_values pid);
  px ← tree_parent ev.1;
  py ← tree_parent ev.2;
  mret (bool_decide ((px ≠ v1 ∧ py ≠ v1) ∨ is_Some (edge_set !! pid))).

(** [while (blocked(eids[next_e])) { next_e += 1; if (next_e == 3) break; }] *)
Fixpoint next_escape (n : nat) (v1 : Z) (edge_set : gmap Z Vector2i)
    (eids : Vector3i) (next_e : Z) : M Z :=
  match n with
  | O => mret next_e
  | S n' =>
      pid ← lift (v3_get eids next_e);
      blocked v1 edge_set pid ≫= λ b : bool,
      if b then
        if decide (next_e + 1 = 3) then mret 3
        else next_escape n' v1 edge_set eids (next_e + 1)
      else mret next_e
  end.

(** [while (e < 3 && eids[next_e] != eids[e]) e += 1;] *)
Fixpoint same_edge_later (n : nat) (eids : Vector3i) (next_e e : Z) : result Z :=
  match n with
  | O => Ok e
  | S n' =>
      if decide (e < 3) then
        a ← v3_get eids next_e;
        b ← v3_get eids e;
        if decide (a ≠ b) then same_edge_later n' eids next_e (e + 1) else Ok e
      else Ok e
  end.

(** The [while (!faces.empty())] loop.  An empty result is the
    [edge_change.clear(); return;] of the source.  (The local set
    [modified] and the counter [count] are written but never read; the
    three evaluations of the test that [count] makes are kept.) *)
Fixpoint extract_loop (fuel : nat) (v1 : Z)
    (edge_change : list (Z * Vector2i)) (edge_set : gmap Z Vector2i)
    (faces : list Z) : M (list (Z * Vector2i)) :=
  match fuel with
  | O => out_of_fuel
  | S fuel' =>
      match faces with
      | [] => mret edge_change
      | f :: faces' =>
          '(p0, o0, d0) ← corner_frame edge_set f 0;
          '(p1, o1, d1) ← corner_frame edge_set f 1;
          '(p2, o2, d2) ← corner_frame edge_set f 2;
          let eids : Vector3i := (p0, p1, p2) in
          let orient : Vector3i := (o0, o1, o2) in
          let total_diff := v2_add (v2_add (v2_add v2_zero d0) d1) d2 in
          _ ← blocked v1 edge_set p0;
          _ ← blocked v1 edge_set p1;
          _ ← blocked v1 edge_set p2;
          next_e ← next_escape 3 v1 edge_set eids 0;
          if decide (total_diff = v2_zero) then
            extract_loop fuel' v1 edge_change edge_set faces'
          else if decide (next_e = 3) then mret []
          else
            e ← lift (same_edge_later 3 eids next_e (next_e + 1));
            if decide (e ≠ 3) then mret []
            else
              change_pid ← lift (v3_get eids next_e);
              on ← lift (v3_get orient next_e);
              let new_diff := rshift90 total_diff (Z.rem (4 - on) 4) in
              cur ← diff_of change_pid;
              if decide (Z.abs (cur.1 - new_diff.1) > edge_len ∨
                         Z.abs (cur.2 - new_diff.2) > edge_len) then mret []
              else
                let edge_change' := edge_change ++ [(change_pid, new_diff)] in
                let edge_set' :=
                  match edge_set !! change_pid with
                  | Some _ => edge_set
                  | None => <[change_pid := new_diff]> edge_set
                  end in
                e2f ← get edge_to_faces;
                nfs ← lift (vget e2f change_pid);
                extract_loop fuel' v1 edge_change' edge_set'
                  (faces' ++ filter (λ nf, nf ≠ f) nfs)
      end
  end.

Definition ExtractEdgeSet (fuel : nat) (v1 v2 pid : Z)
  : M (list (Z * Vector2i)) :=
  d ← diff_of pid;
  e2f ← get edge_to_faces;
  faces ← lift (vget e2f pid);
  extract_loop fuel v1 [(pid, d)] {[pid := d]} faces.

(** *** [collapse] (lines 1672-1807) *)

(** Lines 1676-1683: the faces on zero-diff edges between [v1] and [v2].
    [vertices_to_edges[v1][v2]] creates an empty list when there is none. *)
Definition collapse_faces (v1 v2 : Z) : M (list Z) :=
  vte ← get vertices_to_edges;
  m1 ← lift (vget vte v1);
  let edges := default [] (m1 !! v2) in
  vte' ← lift (vset vte v1 (<[v2 := edges]> m1));
  _ ← set_vertices_to_edges vte';
  mfold edges
    (λ collapsed_edge collapsed_faces,
       d ← diff_of collapsed_edge;
       if decide (d = v2_zero) then
         e2f ← get edge_to_faces;
         fs ← lift (vget e2f collapsed_edge);
         e2f' ← lift (vset e2f collapsed_edge []);
         _ ← set_edge_to_faces e2f';
         mret (set_insert_all fs collapsed_faces)
       else mret collapsed_faces)
    [].

(** [for (auto& li : l.second) if (edge_diff[li] != Zero || l.first != v2)
    neighbor_edges.push_back(li)] *)
Definition neighbor_edges_of (v2 m : Z) (edges : list Z) : M (list Z) :=
  mfold edges
    (λ li acc,
       d ← diff_of li;
       if decide (d ≠ v2_zero ∨ m ≠ v2) then mret (acc ++ [li]) else mret acc)
    [].

(** [it->second.push_back(li); vertices_to_edges[next_m][v2].push_back(li)]
    where [it] points at the entry of [next_m] in [vertices_to_edges[v2]]. *)
Definition push_both (v2 next_m li : Z) : M unit :=
  vte ← get vertices_to_edges;
  mv2 ← lift (vget vte v2);
  match mv2 !! next_m with
  | None => undefined
  | Some cur =>
      vte1 ← lift (vset vte v2 (<[next_m := cur ++ [li]]> mv2));
      mn ← lift (vget vte1 next_m);
      vte2 ← lift (vset vte1 next_m (<[v2 := default [] (mn !! v2) ++ [li]]> mn));
      set_vertices_to_edges vte2
  end.

(** The body of the loop of lines 1687-1714 for the entry [l] of
    [vertices_to_edges[v1]].  Dereferencing [it0] when [v1] is not a key of
    [vertices_to_edges[l.first]] is undefined. *)
Definition rewire_entry (v1 v2 : Z) (l : Z * list Z) : M unit :=
  vte ← get vertices_to_edges;
  ml ← lift (vget vte l.1);
  match ml !! v1 with
  | None => undefined
  | Some rec =>
      next_m ←
        (if decide (l.1 ≠ v1) then
           vte' ← lift (vset vte l.1 (delete v1 ml));
           _ ← set_vertices_to_edges vte';
           mret l.1
         else mret v2);
      neighbor_edges ← neighbor_edges_of v2 l.1 l.2;
      vte1 ← get vertices_to_edges;
      mv2 ← lift (vget vte1 v2);
      match mv2 !! next_m with
      | Some _ => mfor neighbor_edges (push_both v2 next_m)
      | None =>
          vte2 ← (if decide (neighbor_edges ≠ []) then
                    lift (vset vte1 v2 (<[next_m := neighbor_edges]> mv2))
                  else mret vte1);
          vte3 ← (if decide (next_m ≠ v2) then
                    mn ← lift (vget vte2 next_m);
                    match mn !! v2 with
                    | Some _ => mret vte2
                    | None => lift (vset vte2 next_m (<[v2 := rec]> mn))
                    end
                  else mret vte2);
          set_vertices_to_edges vte3
      end
  end.

(** [while (orient < 4 && rshift90(diff1, orient) != diff2) orient += 1;] *)
Fixpoint rotation_search (n : nat) (diff1 diff2 : Vector2i) (orient : Z) : Z :=
  match n with
  | O => orient
  | S n' =>
      if decide (orient < 4 ∧ rshift90 diff1 orient ≠ diff2) then
        rotation_search n' diff1 diff2 (orient + 1)
      else orient
  end.

(** Lines 1751-1781: the two class roots [peid] and [npeid] carry the same
    quotient edge and are united.  (The local set [modified_faces] of
    [collapse] is written but never read.) *)
Definition union_edges (peid npeid nf nv0 nv1 : Z) : M unit :=
  diff1 ← diff_of peid;
  diff2 ← diff_of npeid;
  let orient := rotation_search 4 diff1 diff2 0 in
  _ ← (if decide (orient = 4) then exit_with 0
       else
         ps ← get parent_edge;
         ps' ← lift (vset ps npeid (peid, orient));
         set_parent_edge ps');
  e2f ← get edge_to_faces;
  src ← lift (vget e2f npeid);
  dst ← lift (vget e2f peid);
  e2f1 ← lift (vset e2f peid (set_erase nf (set_insert_all src dst)));
  e2f2 ← lift (vset e2f1 npeid []);
  _ ← set_edge_to_faces e2f2;
  vte ← get vertices_to_edges;
  m0 ← lift (vget vte nv0);
  vte1 ← lift (vset vte nv0
                 (<[nv1 := list_erase_first npeid (default [] (m0 !! nv1))]> m0));
  m1 ← lift (vget vte1 nv1);
  vte2 ← lift (vset vte1 nv1
                 (<[nv0 := list_erase_first npeid (default [] (m1 !! nv0))]> m1));
  set_vertices_to_edges vte2.

(** [vv0 != vv1 || edge_diff[get_parents(parent_edge, face_edgeIds[f][j])]
    != Zero]: the right operand is only evaluated when the left one is
    false. *)
Definition corner_alive (f j : Z) : M (bool * Z * Z) :=
  a ← F_at j f;
  vv0 ← tree_parent a;
  b ← F_at (Z.rem (j + 1) 3) f;
  vv1 ← tree_parent b;
  if decide (vv0 ≠ vv1) then mret (true, vv0, vv1)
  else
    eid ← face_edge_id f j;
    p ← find eid;
    d ← diff_of p;
    mret (bool_decide (d ≠ v2_zero), vv0, vv1).

(** Lines 1734-1740: how many corner edges of [nf] have a nonzero class
    diff. *)
Definition non_collapse_count (nf : Z) : M Z :=
  mfold [0; 1; 2]
    (λ nj count,
       eid ← face_edge_id nf nj;
       p ← find eid;
       d ← diff_of p;
       mret (if decide (d ≠ v2_zero) then count + 1 else count))
    0.

(** The loop over [nj] of lines 1742-1785; returns [update]. *)
Fixpoint merge_corners (n : nat) (nf nj peid vv0 vv1 : Z) : M bool :=
  match n with
  | O => mret false
  | S n' =>
      corner_alive nf nj ≫= λ '(alive, nv0, nv1),
      if (alive : bool) then
        neid ← face_edge_id nf nj;
        npeid ← find neid;
        if decide (npeid ≠ peid ∧ DEdge nv0 nv1 = DEdge vv0 vv1) then
          _ ← union_edges peid npeid nf nv0 nv1;
          mret true
        else merge_corners n' nf (nj + 1) peid vv0 vv1
      else merge_corners n' nf (nj + 1) peid vv0 vv1
  end.

(** The loop [for (auto& nf : edge_to_faces[peid])] of lines 1732-1789, over
    the elements the set had when the loop started; it is left as soon as
    the set is changed. *)
Fixpoint merge_scan (fs : list Z) (f peid vv0 vv1 : Z) : M bool :=
  match fs with
  | [] => mret false
  | nf :: fs' =>
      if decide (nf ≠ f) then merge_scan fs' f peid vv0 vv1
      else
        count ← non_collapse_count nf;
        if decide (count = 3) then merge_scan fs' f peid vv0 vv1
        else
          merge_corners 3 nf 0 peid vv0 vv1 ≫= λ update : bool,
          if update then mret true else merge_scan fs' f peid vv0 vv1
  end.

(** [while (true) { ...; if (!update) break; }] of lines 1730-1791. *)
Fixpoint merge_loop (fuel : nat) (f peid vv0 vv1 : Z) : M unit :=
  match fuel with
  | O => out_of_fuel
  | S fuel' =>
      e2f ← get edge_to_faces;
      fs ← lift (vget e2f peid);
      merge_scan fs f peid vv0 vv1 ≫= λ update : bool,
      if update then merge_loop fuel' f peid vv0 vv1 else mret ()
  end.

(** The body of the loop over [j] of lines 1723-1793. *)
Definition merge_corner (fuel : nat) (f j : Z) : M unit :=
  corner_alive f j ≫= λ '(alive, vv0, vv1),
  if (alive : bool) then
    eid ← face_edge_id f j;
    peid ← find eid;
    merge_loop fuel f peid vv0 vv1
  else mret ().

(** Lines 1798-1803. *)
Definition forget_face (f i : Z) : M unit :=
  eid ← face_edge_id f i;
  peid ← find eid;
  e2f ← get edge_to_faces;
  fs ← lift (vget e2f peid);
  e2f' ← lift (vset e2f peid (set_erase f fs));
  set_edge_to_faces e2f'.

Definition collapse (fuel : nat) (v1 v2 : Z) : M unit :=
  if decide (v1 = v2) then mret ()
  else
    collapsed_faces ← collapse_faces v1 v2;
    vte ← get vertices_to_edges;
    m1 ← lift (vget vte v1);
    _ ← mfor (map_to_list m1) (rewire_entry v1 v2);
    t ← get tree;
    _ ← set_tree (tree_MergeFromTo t v1 v2);
    _ ← mfor collapsed_faces
          (λ f, mfor [0; 1; 2] (merge_corner fuel f));
    _ ← mfor collapsed_faces
          (λ f, mfor [0; 1; 2] (forget_face f));
    vte' ← get vertices_to_edges;
    vte'' ← lift (vset vte' v1 ∅);
    set_vertices_to_edges vte''.

(** *** [CheckMove] (lines 1809-1866) *)

(** The term a face adds to [original_face_area] / [current_face_area]. *)
Definition face_negative_area (f : Z) : M Z :=
  eid0 ← face_edge_id f 0;
  pid0 ← find eid0;
  eid1 ← face_edge_id f 2;
  pid1 ← find eid1;
  po0 ← find_orient eid0;
  fo0 ← face_edge_orient f 0;
  let orient0 := Z.rem (po0 + fo0) 4 in
  po1 ← find_orient eid1;
  fo1 ← face_edge_orient f 2;
  let orient1 := Z.rem (po1 + fo1) 4 in
  d0 ← diff_of pid0;
  d1 ← diff_of pid1;
  let diff1 := rshift90 d0 orient0 in
  let diff2 := rshift90 d1 orient1 in
  let area := - diff1.1 * diff2.2 + diff1.2 * diff2.1 in
  mret (if decide (area < 0) then - area else 0).

Definition negative_area_sum (faces : list Z) : M Z :=
  mfold faces (λ f total, a ← face_negative_area f; mret (total + a)) 0.

(** [for (auto& e : edge_change) for (auto& f : edge_to_faces[e.first])
    modified_faces.insert(f)] *)
Definition modified_faces_of (edge_change : list (Z * Vector2i)) : M (list Z) :=
  mfold edge_change
    (λ e acc,
       e2f ← get edge_to_faces;
       fs ← lift (vget e2f e.1);
       mret (set_insert_all fs acc))
    [].

(** [edge_diff[p.first] -= p.second] and [edge_diff[p.first] += p.second] *)
Definition subtract_change (p : Z * Vector2i) : M unit :=
  ed ← get edge_diff;
  d ← lift (vget ed p.1);
  ed' ← lift (vset ed p.1 (v2_sub d p.2));
  set_edge_diff ed'.

Definition add_change (p : Z * Vector2i) : M unit :=
  ed ← get edge_diff;
  d ← lift (vget ed p.1);
  ed' ← lift (vset ed p.1 (v2_add d p.2));
  set_edge_diff ed'.

(** Lines 1853-1858. *)
Definition collapse_if_zero (fuel : nat) (p : Z * Vector2i) : M unit :=
  d ← diff_of p.1;
  if decide (d = v2_zero) then
    ev ← lift (vget edge_values p.1);
    a ← tree_parent ev.1;
    b ← tree_parent ev.2;
    collapse fuel a b
  else mret ().

Definition CheckMove (fuel : nat) (v1 v2 pid check_face : Z) : M bool :=
  edge_change ← ExtractEdgeSet fuel v1 v2 pid;
  if decide (edge_change = []) then mret false
  else
    modified_faces ← modified_faces_of edge_change;
    original_face_area ← negative_area_sum modified_faces;
    _ ← mfor edge_change subtract_change;
    current_face_area ← negative_area_sum modified_faces;
    if decide (current_face_area < original_face_area ∨ check_face = 0) then
      _ ← mfor edge_change (collapse_if_zero fuel);
      mret true
    else
      _ ← mfor edge_change add_change;
      mret false.

(** *** The first loop of [FixFlipAdvance] (lines 1869-1873) *)

(** [if (edge_diff[i] == Vector2i::Zero())
       collapse(tree.Parent(edge_values[i].x), tree.Parent(edge_values[i].y));] *)
Definition collapse_zero_edge (fuel : nat) (i : Z) : M unit :=
  d ← diff_of i;
  if decide (d = v2_zero) then
    ev ← lift (vget edge_values i);
    a ← tree_parent ev.1;
    b ← tree_parent ev.2;
    collapse fuel a b
  else mret ().

(** [for (int i = 0; i < edge_diff.size(); ++i)]; nothing in the loop
    changes the size of [edge_diff]. *)
Definition initial_collapse (fuel : nat) : M unit :=
  ed ← get edge_diff;
  mfor (seqZ 0 (vsize ed)) (collapse_zero_edge fuel).

(** *** The end of [FixFlipAdvance] (lines 1975-1979) *)

(** [int orient = get_parents_orient(parent_edge, i);
     int p = get_parents(parent_edge, i);
     edge_diff[i] = rshift90(edge_diff[p], orient);] *)
Definition propagate_edge (i : Z) : M unit :=
  orient ← find_orient i;
  p ← find i;
  d ← diff_of p;
  ed ← get edge_diff;
  ed' ← lift (vset ed i (rshift90 d orient));
  set_edge_diff ed'.

(** [for (int i = 0; i < parent_edge.size(); ++i)]; [get_parents] keeps
    the size of [parent_edge]. *)
Definition final_propagation : M unit :=
  ps ← get parent_edge;
  mfor (seqZ 0 (vsize ps)) propagate_edge.

(** What a run leaves in [edge_diff], next to the returned value. *)
Definition edge_diff_after {A} (r : result (A * State)) : result (A * list Vector2i) :=
  '(a, st) ← r; Ok (a, edge_diff st).

(** *** Values read off a state without compressing it *)

(** The class root of [e]. *)
Definition root_of (ps : list (Z * Z)) (e : Z) : result Z :=
  '(_, r) ← get_parents (length ps) ps e; Ok r.

(** The diff of [e] in the frame of its class root:
    [rshift90(edge_diff[root], orient)]. *)
Definition frame_diff (ps : list (Z * Z)) (ed : list Vector2i) (e : Z)
  : result Vector2i :=
  r ← root_of ps e;
  o ← get_parents_orient (length ps) ps e;
  x ← vget ed r;
  Ok (rshift90 x o).

(** The term of face [f] in the negative-area sum, from the frame diffs of
    its corner edges 0 and 2. *)
Definition static_negative_area (ps : list (Z * Z)) (ed : list Vector2i)
    (f : Z) : result Z :=
  ids ← vget face_edgeIds f;
  eid0 ← v3_get ids 0;
  eid1 ← v3_get ids 2;
  os ← vget face_edgeOrients f;
  fo0 ← v3_get os 0;
  fo1 ← v3_get os 2;
  a ← frame_diff ps ed eid0;
  b ← frame_diff ps ed eid1;
  let diff1 := rshift90 a fo0 in
  let diff2 := rshift90 b fo1 in
  let area := - diff1.1 * diff2.2 + diff1.2 * diff2.1 in
  Ok (if decide (area < 0) then - area else 0).

Fixpoint static_negative_area_sum (ps : list (Z * Z)) (ed : list Vector2i)
    (faces : list Z) : result Z :=
  match faces with
  | [] => Ok 0
  | f :: faces' =>
      a ← static_negative_area ps ed f;
      rest ← static_negative_area_sum ps ed faces';
      Ok (a + rest)
  end.

(** The faces on the edges of [edge_change], read off [edge_to_faces]. *)
Fixpoint static_modified_faces (e2f : list (list Z))
    (edge_change : list (Z * Vector2i)) (acc : list Z) : result (list Z) :=
  match edge_change with
  | [] => Ok acc
  | e :: rest =>
      fs ← vget e2f e.1;
      static_modified_faces e2f rest (set_insert_all fs acc)
  end.

(** Forest [ps'] is [ps] after some path compressions: every chain of [ps]
    is still there, with its root and its composed label. *)
Definition compressed (st st' : State) : Prop :=
  edge_diff st' = edge_diff st ∧
  edge_to_faces st' = edge_to_faces st ∧
  vertices_to_edges st' = vertices_to_edges st ∧
  tree st' = tree st ∧
  length (parent_edge st') = length (parent_edge st) ∧
  good_entries (parent_edge st') ∧
  ∀ e r s d, chain (parent_edge st) e r s d →
    ∃ d', chain (parent_edge st') e r s d'.

(** Forest [ps'] gives every edge the frame diff it had in [ps] (classes
    may have been united). *)
Definition same_frames (ed : list Vector2i) (ps ps' : list (Z * Z)) : Prop :=
  length ps' = length ps ∧
  good_entries ps' ∧
  ∀ e r s d, chain ps e r s d →
    ∃ r' s' d', chain ps' e r' s' d' ∧
      ((r' = r ∧ s' = s) ∨
       ∃ x x', vget ed r = Ok x ∧ vget ed r' = Ok x' ∧
               rshift90 x' s' = rshift90 x s).

(** [p] is the root of a class. *)
Definition is_root (p : Z) (st : State) : Prop :=
  ∃ o, vget (parent_edge st) p = Ok (p, o).

(** What [collapse] keeps: [edge_diff], and every edge's frame diff. *)
Definition frames_kept (st st' : State) : Prop :=
  edge_diff st' = edge_diff st ∧
  same_frames (edge_diff st) (parent_edge st) (parent_edge st').

(** What [ExtractEdgeSet] guarantees about a change [(e, c)] against the
    current diff [cur] of [e]: it cancels it, or it leaves at most [bound]
    in each component. *)
Definition change_within (bound : Z) (ed : list Vector2i)
    (p : Z * Vector2i) : Prop :=
  ∃ cur, vget ed p.1 = Ok cur ∧
    (p.2 = cur ∨
     (Z.abs (cur.1 - p.2.1) ≤ bound ∧ Z.abs (cur.2 - p.2.2) ≤ bound)).

(** The sum of the changes that [edge_change] holds for edge [k]. *)
Fixpoint change_total (edge_change : list (Z * Vector2i)) (k : Z) : Vector2i :=
  match edge_change with
  | [] => v2_zero
  | p :: rest =>
      if decide (p.1 = k) then v2_add p.2 (change_total rest k)
      else change_total rest k
  end.

(** The other captured structures are untouched. *)
Definition only_edge_diff (st st' : State) : Prop :=
  parent_edge st' = parent_edge st ∧
  edge_to_faces st' = edge_to_faces st ∧
  vertices_to_edges st' = vertices_to_edges st ∧
  tree st' = tree st.

Definition root_opt (o : option Z) (st : State) : Prop :=
  match o with
  | None => True
  | Some p => is_root p st
  end.

(** *** What the scan of [collapse] reads at a corner *)

(** Corner [k] of face [f] in a state: its endpoints in the quotient graph,
    [tree.Parent(F(k, f))] and [tree.Parent(F((k + 1) % 3, f))], the class
    root of its edge, [get_parents(parent_edge, face_edgeIds[f][k])], and
    the diff of that root. *)
Record CornerView := {
  cv_v0 : Z;
  cv_v1 : Z;
  cv_root : Z;
  cv_diff : Vector2i
}.

Definition corner_view (st : State) (f k : Z) : result CornerView :=
  col ← vget F f;
  a ← v3_get col k;
  b ← v3_get col (Z.rem (k + 1) 3);
  ids ← vget face_edgeIds f;
  e ← v3_get ids k;
  r ← root_of (parent_edge st) e;
  d ← vget (edge_diff st) r;
  Ok {| cv_v0 := tree_Parent (tree st) a; cv_v1 := tree_Parent (tree st) b;
        cv_root := r; cv_diff := d |}.

(** The test [nv0 != nv1 || edge_diff[root] != Vector2i::Zero()] of lines
    1726-1727 and 1745-1747: the corner edge is not collapsed. *)
Definition cv_live (c : CornerView) : Prop :=
  cv_v0 c ≠ cv_v1 c ∨ cv_diff c ≠ v2_zero.

(** Corner [c'] is live and lies on the quotient edge of corner [c] in
    another edge class (the test of line 1750). *)
Definition cv_clash (c c' : CornerView) : Prop :=
  cv_live c' ∧ cv_root c' ≠ cv_root c ∧
  DEdge (cv_v0 c') (cv_v1 c') = DEdge (cv_v0 c) (cv_v1 c).

(** No rotation takes [d1] to [d2]. *)
Definition no_rotation (d1 d2 : Vector2i) : Prop :=
  ∀ r, 0 ≤ r < 4 → rshift90 d1 r ≠ d2.

(** Every [exit] a computation can take has status 0. *)
Definition exits_zero {A} (m : M A) : Prop :=
  ∀ st code, m st = Exited code → code = 0.

(** A computation keeps the frames and, when one is named, keeps
    that class root a root. *)
Definition keeps {A} (o : option Z) (m : M A) : Prop :=
  ∀ st a st',
    wf_forest (parent_edge st) → root_opt o st → m st = Ok (a, st') →
    frames_kept st st' ∧ root_opt o st'.

End Model.

End FixFlip.

(** ** The ladder of [edge_len] (lines 1467 and 1877-1907) *)

(** [for (; edge_len < 2; edge_len += 1) { round; if (edge_len == 1) {
    ...; break; } }], where [round] is the [while (true)] loop of
    [CheckMove] calls made with the current [edge_len].  (The block before
    the [break] only rewrites [edge_around_singularities].)  Returns the
    value [edge_len] is left with, which the later calls of [CheckMove]
    read. *)
Fixpoint edge_len_loop {St} (fuel : nat) (round : Z → St → result St)
    (edge_len : Z) (s : St) : result (Z * St) :=
  match fuel with
  | O => OutOfFuel
  | S fuel' =>
      if decide (edge_len < 2) then
        s' ← round edge_len s;
        if decide (edge_len = 1) then Ok (edge_len, s')
        else edge_len_loop fuel' round (edge_len + 1) s'
      else Ok (edge_len, s)
  end.

(** ** Concrete instances on which the model is evaluated *)

(** A one-dimensional stand-in for positions: [norm_sub] is the absolute
    difference. *)
Definition ex_norm_sub (a b : Z) : Qc := Q2Qc (inject_Z (Z.abs (a - b))).

(** A stand-in for tangents and normals: a tangent is an angle in units of
    90 degrees, negation adds 180 degrees, and the index difference of a pair
    is the angle difference plus a twist carried by the first normal. *)
Definition ex_vneg (q : Z) : Z := q + 2.
Definition ex_index4 (q0 n0 q1 n1 : Z) : Z * Z := (0, (q1 - q0 + n0) `mod` 4).
Definition ex_F : list Vector3i := [(0, 1, 2); (0, 2, 3); (1, 3, 2)].
Definition ex_N : list Z := [1; 0; 0; 0].
Definition ex_Q : list Z := [0; 1; 3; 0].


(** Modelled from the spec: [DisjointTree] of disajoint-tree.hpp, which is
    not among the sources.  Section 4.9: "Plain union-find with path
    compression and MergeFromTo(a,b) that sets a's root to b
    unconditionally".  A tree is its parent table; [Parent] is the root
    (the compression is not visible in what it returns). *)
Fixpoint ex_root (fuel : nat) (t : list Z) (x : Z) : Z :=
  match fuel with
  | O => x
  | S fuel' =>
      let p := default x (t !! Z.to_nat x) in
      if decide (p = x) then x else ex_root fuel' t p
  end.

Definition ex_Parent (t : list Z) (x : Z) : Z := ex_root (length t) t x.

Definition ex_MergeFromTo (t : list Z) (a b : Z) : list Z :=
  <[Z.to_nat (ex_Parent t a) := ex_Parent t b]> t.

(** A fan of four triangles around vertex 0, with the tables
    [FixFlipAdvance] starts from (lines 1441-1466). *)
Definition fan_F : list Vector3i := [(0, 1, 2); (0, 2, 3); (0, 3, 4); (0, 4, 1)].

Definition fan_edge_values : list (Z * Z) :=
  [(0, 1); (0, 2); (0, 3); (0, 4); (1, 2); (2, 3); (3, 4); (1, 4)].

Definition fan_face_edgeIds : list Vector3i :=
  [(0, 4, 1); (1, 5, 2); (2, 6, 3); (3, 7, 0)].

Definition fan_face_edgeOrients : list Vector3i :=
  [(0, 0, 2); (0, 0, 2); (0, 0, 2); (0, 2, 2)].

Definition fan_state (edge_diff : list Vector2i) : FixFlip.State :=
  {| FixFlip.edge_diff := edge_diff;
     FixFlip.parent_edge :=
       [(0, 0); (1, 0); (2, 0); (3, 0); (4, 0); (5, 0); (6, 0); (7, 0)];
     FixFlip.edge_to_faces := [[0; 3]; [0; 1]; [1; 2]; [2; 3]; [0]; [1]; [2]; [3]];
     FixFlip.vertices_to_edges :=
       [ {[1 := [0]; 2 := [1]; 3 := [2]; 4 := [3]]};
         {[2 := [4]; 0 := [0]]};
         {[0 := [1]; 3 := [5]]};
         {[0 := [2]; 4 := [6]]};
         {[0 := [3]; 1 := [7]]} ];
     FixFlip.tree := [0; 1; 2; 3; 4] |}.

(** Two flipped faces that moving vertex 0 onto vertex 1 repairs. *)
Definition fan_flipped : FixFlip.State :=
  fan_state [(-1, 0); (-1, -1); (-1, 0); (-1, 1); (0, -1); (0, 1); (0, 1); (0, 1)].

(** Edge (0,1) has diff zero; edges (0,2) and (1,2), which its collapse
    makes one, carry diffs of different length. *)
Definition fan_mismatch : FixFlip.State :=
  fan_state [(0, 0); (1, 1); (1, -1); (0, -1); (1, 0); (1, 0); (-1, 0); (1, -1)].

(** [fan_mismatch] once [tree.MergeFromTo(0, 1)] has run. *)
Definition fan_mismatch_merged : FixFlip.State :=
  {| FixFlip.edge_diff := FixFlip.edge_diff fan_mismatch;
     FixFlip.parent_edge := FixFlip.parent_edge fan_mismatch;
     FixFlip.edge_to_faces := FixFlip.edge_to_faces fan_mismatch;
     FixFlip.vertices_to_edges := FixFlip.vertices_to_edges fan_mismatch;
     FixFlip.tree := ex_MergeFromTo (FixFlip.tree fan_mismatch) 0 1 |}.

(** A closed tetrahedron with its opposite-corner table [E2E].  The
    position index is small everywhere except at corner 0 of face 3 (the
    directed edge 0 -> 2), where its first component is the least [int]. *)
Definition tet_F : list Vector3i := [(0, 1, 2); (0, 3, 1); (1, 3, 2); (0, 2, 3)].

Definition tet_E2E : list Z := [5; 8; 9; 11; 6; 0; 4; 10; 1; 2; 7; 3].

Definition tet_pos_rank : list Vector3i := [(0, 0, 0); (0, 0, 0); (0, 0, 0); (0, 0, 0)].

Definition tet_pos_index : list (list Z) :=
  [ [3; 0; 0; 1; -1; 0];
    [0; -5; 1; 0; -3; 0];
    [0; 1; 0; 2; -1; 1];
    [INT_MIN; 0; 1; 1; 0; 5] ].

(** A closed mesh of eight triangles on six vertices, with the edge ids
    [BuildEdgeInfo] gives it and the tables [FixFlipAdvance] starts from.
    Edges 7 (0,3) and 9 (1,3) have diff zero; edges 0 (0,4) and 2 (1,4) of
    face 0 carry [(0,1)] and [(1,1)]. *)
Definition oct_F : list Vector3i :=
  [(4, 0, 1); (4, 1, 2); (4, 2, 0); (5, 0, 3); (5, 3, 1); (5, 1, 0); (1, 3, 2); (0, 2, 3)].

Definition oct_E2E : list Z :=
  [8; 16; 3; 2; 20; 6; 5; 21; 0; 17; 23; 12; 11; 18; 15; 14; 1; 9; 13; 22; 4; 7; 19; 10].

Definition oct_edge_values : list (Z * Z) :=
  [(0, 4); (0, 1); (1, 4); (1, 2); (2, 4); (0, 2); (0, 5); (0, 3); (3, 5); (1, 3);
   (1, 5); (2, 3)].

Definition oct_face_edgeIds : list Vector3i :=
  [(0, 1, 2); (2, 3, 4); (4, 5, 0); (6, 7, 8); (8, 9, 10); (10, 1, 6); (9, 11, 3);
   (5, 11, 7)].

Definition oct_state : FixFlip.State :=
  {| FixFlip.edge_diff :=
       [(0, 1); (1, 0); (1, 1); (1, 0); (1, 0); (1, 0); (1, 0); (0, 0); (1, 0); (0, 0);
        (0, -1); (0, 1)];
     FixFlip.parent_edge :=
       [(0, 0); (1, 0); (2, 0); (3, 0); (4, 0); (5, 0); (6, 0); (7, 0); (8, 0); (9, 0);
        (10, 0); (11, 0)];
     FixFlip.edge_to_faces :=
       [[0; 2]; [0; 5]; [0; 1]; [1; 6]; [1; 2]; [2; 7]; [3; 5]; [3; 7]; [3; 4]; [4; 6];
        [4; 5]; [6; 7]];
     FixFlip.vertices_to_edges :=
       [ {[4 := [0]; 1 := [1]; 2 := [5]; 5 := [6]; 3 := [7]]};
         {[0 := [1]; 4 := [2]; 2 := [3]; 3 := [9]; 5 := [10]]};
         {[1 := [3]; 4 := [4]; 0 := [5]; 3 := [11]]};
         {[0 := [7]; 5 := [8]; 1 := [9]; 2 := [11]]};
         {[0 := [0]; 1 := [2]; 2 := [4]]};
         {[0 := [6]; 3 := [8]; 1 := [10]]} ];
     FixFlip.tree := [0; 1; 2; 3; 4; 5] |}.

From Stdlib Require Import Sorted.

(** ** The tables [FixFlipAdvance] starts from (lines 1441-1466) *)

(** [for (int i = 0; i < parent_edge.size(); ++i)
       parent_edge[i] = std::make_pair(i, 0);] on a vector of [n] entries. *)
Definition init_parent_edge (n : nat) : list (Z * Z) :=
  (λ i : Z, (i, 0)) <$> seqZ 0 (Z.of_nat n).

(** [edge_to_faces[face_edgeIds[i][j]].insert(i)], for the edge [e] of
    corner [j] of face [i]. *)
Definition edge_to_faces_corner (i e : Z) (e2f : list (list Z))
  : result (list (list Z)) :=
  fs ← vget e2f e;
  vset e2f e (set_insert i fs).

(** [std::vector<std::set<int>> edge_to_faces(edge_values.size());] and the
    two loops over the corners. *)
Definition init_edge_to_faces (num_edges : nat) (face_edgeIds : list Vector3i)
  : result (list (list Z)) :=
  for_loop (length face_edgeIds) 0
    (λ i, for_loop 3 0
       (λ j e2f,
          ids ← vget face_edgeIds i;
          e ← v3_get ids j;
          edge_to_faces_corner i e e2f))
    (replicate num_edges []).

(** The body of the loops of lines 1457-1466 for corner [j] of face [i]:
    [vertices_to_edges[v0].insert(std::make_pair(v1, l))] with [l] the
    one-element list [eid]; [insert] leaves an entry that is already there
    as it is. *)
Definition vertices_to_edges_corner (F face_edgeIds : list Vector3i) (i j : Z)
    (vte : list (gmap Z (list Z))) : result (list (gmap Z (list Z))) :=
  col ← vget F i;
  v0 ← v3_get col j;
  v1 ← v3_get col (Z.rem (j + 1) 3);
  ids ← vget face_edgeIds i;
  eid ← v3_get ids j;
  m ← vget vte v0;
  vset vte v0 (match m !! v1 with
               | Some _ => m
               | None => <[v1 := [eid]]> m
               end).

(** [std::vector<std::unordered_map<int, std::list<int>>>
    vertices_to_edges(V.cols());] and the two loops over the corners. *)
Definition init_vertices_to_edges (num_vertices : nat)
    (F face_edgeIds : list Vector3i) : result (list (gmap Z (list Z))) :=
  for_loop (length F) 0
    (λ i, for_loop 3 0 (vertices_to_edges_corner F face_edgeIds i))
    (replicate num_vertices ∅).

(** Corner [j] of face [i] runs from [v0] to [v1] along edge [eid]. *)
Definition corner_edge (F face_edgeIds : list Vector3i) (i j v0 v1 eid : Z) : Prop :=
  0 ≤ j < 3 ∧
  ∃ col ids, vget F i = Ok col ∧ v3_get col j = Ok v0 ∧
             v3_get col (Z.rem (j + 1) 3) = Ok v1 ∧
             vget face_edgeIds i = Ok ids ∧ v3_get ids j = Ok eid.

(** The table after the corners before number [c], counted as [3 i + j]. *)
Definition vte_inv (num_vertices : nat) (F face_edgeIds : list Vector3i) (c : Z)
    (vte : list (gmap Z (list Z))) : Prop :=
  length vte = num_vertices ∧
  (∀ v0 m v1 l, vget vte v0 = Ok m → m !! v1 = Some l →
     ∃ i j eid, corner_edge F face_edgeIds i j v0 v1 eid ∧ l = [eid] ∧
       ∀ i' j' eid', corner_edge F face_edgeIds i' j' v0 v1 eid' →
                     3 * i + j ≤ 3 * i' + j') ∧
  (∀ v0 m v1, vget vte v0 = Ok m → m !! v1 = None →
     ∀ i j eid, corner_edge F face_edgeIds i j v0 v1 eid → c ≤ 3 * i + j).

(** ** The edge-to-face table of [Parametrizer::ComputeMaxFlow]
    (lines 1354-1363) *)

(** [if (E2F[e][0] == -1) E2F[e][0] = i; else E2F[e][1] = i;] for the edge
    [e] of corner [j] of face [i]. *)
Definition E2F_corner (i e : Z) (E2F : list Vector2i) : result (list Vector2i) :=
  cur ← vget E2F e;
  if decide (cur.1 = -1) then vset E2F e (i, cur.2)
  else vset E2F e (cur.1, i).

(** [std::vector<Vector2i> E2F(edge_diff.size(), Vector2i(-1, -1))] and the
    two loops over the corners. *)
Definition build_E2F (num_edges : nat) (face_edgeIds : list Vector3i)
  : result (list Vector2i) :=
  for_loop (length face_edgeIds) 0
    (λ i, for_loop 3 0
       (λ j E2F,
          ids ← vget face_edgeIds i;
          e ← v3_get ids j;
          E2F_corner i e E2F))
    (replicate num_edges (-1, -1)).

(** The corners [(face, edge id)] in the order in which the two loops
    [for (i...) for (j < 3)] over [face_edgeIds] visit them, the faces
    numbered from [start]. *)
Fixpoint corners_from (start : Z) (face_edgeIds : list Vector3i) : list (Z * Z) :=
  match face_edgeIds with
  | [] => []
  | row :: rest =>
      (start, row.1.1) :: (start, row.1.2) :: (start, row.2) ::
      corners_from (start + 1) rest
  end.

(** The faces of the corners that carry edge [e], in that order. *)
Definition corner_faces (face_edgeIds : list Vector3i) (e : Z) : list Z :=
  (filter (λ p : Z * Z, p.2 = e) (corners_from 0 face_edgeIds)).*1.

(** The first of a list of faces and the last of those after it, [-1]
    where there is none. *)
Definition first_and_last (faces : list Z) : Vector2i :=
  match faces with
  | [] => (-1, -1)
  | a :: rest => (a, default (-1) (last rest))
  end.

(** ** Signed variable indices of [BuildIntegerConstraints]
    (lines 1082-1163) *)

(** [vid[i] = Vector2i(eid[i] * 2 + 1, eid[i] * 2 + 2)]: the two components
    of the diff of edge [eid], as variable numbers shifted by one so that a
    sign can be put on them. *)
Definition signed_index (eid : Z) : Vector2i := (eid * 2 + 1, eid * 2 + 2).

(** Lines 1153-1159: [ind = abs(s); if (ind == 0) { printf; exit(0); }
    sign = s / ind; ind -= 1;], giving [(ind, sign)]. *)
Definition decode_signed (s : Z) : result (Z * Z) :=
  let ind := Z.abs s in
  if decide (ind = 0) then Exited 0 else Ok (ind - 1, Z.quot s ind).

(** The row [j] of a face (lines 1150-1163) from its three signed index
    pairs: [(constraints_index, constraints_sign)]. *)
Definition constraint_row (s0 s1 s2 : Vector2i) (j : Z)
  : result (Vector3i * Vector3i) :=
  a0 ← v2_get s0 j;
  '(i0, g0) ← decode_signed a0;
  a1 ← v2_get s1 j;
  '(i1, g1) ← decode_signed a1;
  a2 ← v2_get s2 j;
  '(i2, g2) ← decode_signed a2;
  Ok ((i0, i1, i2), (g0, g1, g2)).

(** Lines 1083-1123 for one face with corners [v0 v1 v2] and corner edges
    [eid], given the two ranks read off
    [compat_orientation_extrinsic_index_4]: the three signed index pairs
    pushed on [sign_indices] and the entry of [face_edgeOrients]. *)
Definition face_sign_indices (v0 v1 v2 : Z) (eid : Vector3i) (rank1 rank2 : Z)
  : list Vector2i * Vector3i :=
  let vid0 := signed_index eid.1.1 in
  let vid1 := signed_index eid.1.2 in
  let vid2 := signed_index eid.2 in
  let '(vid0, o0) :=
    if decide (v1 < v0) then (v2_neg (rshift90 vid0 rank1), Z.rem (rank1 + 2) 4)
    else (vid0, 0) in
  let '(vid1, o1) :=
    if decide (v2 < v1) then (v2_neg (rshift90 vid1 rank2), Z.rem (rank2 + 2) 4)
    else (rshift90 vid1 rank1, rank1) in
  let '(vid2, o2) :=
    if decide (v2 < v0) then (rshift90 vid2 rank2, rank2)
    else (v2_neg vid2, 2) in
  ([vid0; vid1; vid2], (o0, o1, o2)).

(** Lines 1144-1163 for a face whose signed index pairs are [s] and whose
    rotation in the orientation forest is [orient]: the pairs are rotated
    and the two rows are pushed. *)
Definition face_constraints (s : list Vector2i) (orient : Z)
  : result (list Vector2i * list (Vector3i * Vector3i)) :=
  s0 ← vget s 0;
  s1 ← vget s 1;
  s2 ← vget s 2;
  let s0 := rshift90 s0 orient in
  let s1 := rshift90 s1 orient in
  let s2 := rshift90 s2 orient in
  row0 ← constraint_row s0 s1 s2 0;
  row1 ← constraint_row s0 s1 s2 1;
  Ok ([s0; s1; s2], [row0; row1]).

(** ** Edge keys of [Parametrizer::FixHoles] (lines 946-982) *)

(** [long long hash = (long long)numV * e.x + e.y] for [DEdge e(v1, v2)],
    and the edge [DEdge(p.first / numV, p.first % numV)] read back from a
    key. *)
Definition edge_key (numV v1 v2 : Z) : Z :=
  let e := DEdge v1 v2 in numV * e.1 + e.2.

Definition edge_of_key (numV key : Z) : Z * Z :=
  DEdge (Z.quot key numV) (Z.rem key numV).

(** The fan after two unions: edge 1 hangs under edge 4 with rotation 1
    and edge 7 under edge 3 with rotation 2; their own diffs are stale. *)
Definition fan_linked : FixFlip.State :=
  {| FixFlip.edge_diff :=
       [(0, 0); (0, 0); (1, 1); (1, -1); (1, 0); (1, 0); (-1, 0); (0, 0)];
     FixFlip.parent_edge :=
       [(0, 0); (4, 1); (2, 0); (3, 0); (4, 0); (5, 0); (6, 0); (3, 2)];
     FixFlip.edge_to_faces := FixFlip.edge_to_faces fan_flipped;
     FixFlip.vertices_to_edges := FixFlip.vertices_to_edges fan_flipped;
     FixFlip.tree := FixFlip.tree fan_flipped |}.

(** The fan with the diff of edge (0,1) cancelled and the diffs around
    vertex 0 adjusted to it: edge (0,1) can be collapsed. *)
Definition fan_collapsible : FixFlip.State :=
  fan_state [(0, 0); (0, -1); (0, 0); (0, 1); (0, -1); (0, 1); (0, 1); (0, 1)].

(** ** The choice of a branch for every singular face in
    [BuildIntegerConstraints] (lines 1220-1250) *)

Section SingularityBranches.

(** [for (auto& p : prev)] visits the entries of a [std::unordered_map] in
    an order the language leaves open. *)
Variable enumerate : gmap Z (Z * Z) → list (Z * (Z * Z)).

(** The body of [for (int j = 0; j < 3; ++j)] for the entry [p] of [prev]:
    [next[v]] becomes [(t, j)] when [v] is new or [t] is cheaper. *)
Definition branch_step (d : Vector3i) (p : Z * (Z * Z)) (j : Z)
    (next : gmap Z (Z * Z)) : result (gmap Z (Z * Z)) :=
  dj ← v3_get d j;
  let v := p.1 + dj in
  let t := p.2.1 + Z.abs dj in
  match next !! v with
  | None => Ok (<[v := (t, j)]> next)
  | Some cur => if decide (t < cur.1) then Ok (<[v := (t, j)]> next) else Ok next
  end.

(** [sing_maps[i + 1]] from [sing_maps[i]] and [sing_diff[i]]. *)
Definition next_map (prev : gmap Z (Z * Z)) (d : Vector3i) : result (gmap Z (Z * Z)) :=
  for_each (enumerate prev) (λ p, for_loop 3 0 (branch_step d p)) ∅.

(** [sing_maps], from [sing_maps[0] = cur] on. *)
Fixpoint build_sing_maps (sing_diff : list Vector3i) (cur : gmap Z (Z * Z))
  : result (list (gmap Z (Z * Z))) :=
  match sing_diff with
  | [] => Ok [cur]
  | d :: rest =>
      next ← next_map cur d;
      maps ← build_sing_maps rest next;
      Ok (cur :: maps)
  end.

(** [while (sing_maps.back().count(target_flow) == 0 &&
           sing_maps.back().count(-target_flow) == 0) target_flow += 2;] *)
Fixpoint find_target (fuel : nat) (last : gmap Z (Z * Z)) (target_flow : Z) : result Z :=
  match fuel with
  | O => OutOfFuel
  | S fuel' =>
      if decide (last !! target_flow = None ∧ last !! (- target_flow) = None) then
        find_target fuel' last (target_flow + 2)
      else Ok target_flow
  end.

(** [for (int i = sing_diff.size(); i > 0; i--)], with [i = n]:
    [sing_maps[i][remain_flow]] reads the entry, a default [(0, 0)] where
    there is none (the entry it would add is not read again). *)
Fixpoint backtrack (n : nat) (sing_maps : list (gmap Z (Z * Z)))
    (sing_diff : list Vector3i) (remain_flow : Z) (sing_selection : list Z)
  : result (list Z * Z) :=
  match n with
  | O => Ok (sing_selection, remain_flow)
  | S n' =>
      m ← vget sing_maps (Z.of_nat (S n'));
      let p := default (0, 0) (m !! remain_flow) in
      d ← vget sing_diff (Z.of_nat n');
      dj ← v3_get d p.2;
      backtrack n' sing_maps sing_diff (remain_flow - dj) (sing_selection ++ [p.2])
  end.

(** Lines 1220-1250: returns [target_flow] and [sing_selection]. *)
Definition select_branches (fuel : nat) (sing_diff : list Vector3i) (total_flow : Z)
  : result (Z * list Z) :=
  sing_maps ← build_sing_maps sing_diff {[total_flow := (0, 0)]};
  last ← vget sing_maps (vsize sing_maps - 1);
  t ← find_target fuel last 0;
  let target_flow := if decide (last !! t = None) then - t else t in
  '(sing_selection, _) ←
    backtrack (length sing_diff) sing_maps sing_diff target_flow [];
  Ok (target_flow, reverse sing_selection).

End SingularityBranches.

(** The sum of the residuals [sing_diff[i][selection[i]]] of the chosen
    branches. *)
Fixpoint branch_sum (sing_diff : list Vector3i) (selection : list Z) : result Z :=
  match sing_diff, selection with
  | [], [] => Ok 0
  | d :: ds, j :: js =>
      dj ← v3_get d j;
      rest ← branch_sum ds js;
      Ok (dj + rest)
  | _, _ => OutOfRange
  end.

(** ** Vertices of low valence in [ComputeIndexMap] (lines 832-853) *)

(** [(vertices, bad_vertices, badq)] *)
Definition peel_state : Type := list (list Z) * list Z * list Z.

(** Lines 834-839: [if (vertices[i].size() < 3) { badq.push(i);
    bad_vertices[i] = 1; }]; the state is [(bad_vertices, badq)]. *)
Definition mark_low_valence (vertices : list (list Z)) (i : Z)
    (st : list Z * list Z) : result (list Z * list Z) :=
  let '(bad_vertices, badq) := st in
  s ← vget vertices i;
  if decide (vsize s < 3) then
    bad' ← vset bad_vertices i 1;
    Ok (bad', badq ++ [i])
  else Ok st.

(** The body of [for (auto& v1 : vertices[v])] (lines 844-850).  For
    [v1 = v] the [erase] would remove the element the loop stands on, which
    is undefined. *)
Definition peel_neighbor (v v1 : Z) (st : peel_state) : result peel_state :=
  let '(vertices, bad_vertices, badq) := st in
  if decide (v1 = v) then OutOfRange
  else
    s1 ← vget vertices v1;
    let s1' := set_erase v s1 in
    vertices' ← vset vertices v1 s1';
    b ← vget bad_vertices v1;
    if decide (vsize s1' < 3 ∧ b = 0) then
      bad' ← vset bad_vertices v1 1;
      Ok (vertices', bad', badq ++ [v1])
    else Ok (vertices', bad_vertices, badq).

(** [while (!badq.empty()) { int v = badq.front(); badq.pop(); ... }] *)
Fixpoint peel (fuel : nat) (st : peel_state) : result (list (list Z) * list Z) :=
  match fuel with
  | O => OutOfFuel
  | S fuel' =>
      let '(vertices, bad_vertices, badq) := st in
      match badq with
      | [] => Ok (vertices, bad_vertices)
      | v :: badq' =>
          nbrs ← vget vertices v;
          st' ← for_each nbrs (peel_neighbor v) (vertices, bad_vertices, badq');
          peel fuel' st'
      end
  end.

(** Lines 832-853 on the adjacency sets [vertices] of the [num_v] compact
    vertices: returns the thinned sets and [bad_vertices]. *)
Definition extract_bad_vertices (vertices : list (list Z))
  : result (list (list Z) * list Z) :=
  let num_v := length vertices in
  '(bad_vertices, badq) ←
    for_loop num_v 0 (mark_low_valence vertices) (replicate num_v 0, []);
  peel (S num_v) (vertices, bad_vertices, badq).

(** [x] is in the set of [w]. *)
Definition adjacent (vertices : list (list Z)) (w x : Z) : Prop :=
  ∃ s, vget vertices w = Ok s ∧ x ∈ s.

(** How many entries of [bad_vertices] are still 0. *)
Definition unmarked (bad_vertices : list Z) : nat :=
  length (filter (λ b, b = 0) bad_vertices).

(** The state inside [for (auto& v1 : vertices[v])] after the neighbours
    [visited], against the state [(vertices, bad_vertices)] at its start;
    [new] are the vertices pushed so far. *)
Definition peel_inner_inv (v : Z) (vertices : list (list Z)) (bad_vertices : list Z)
    (visited : list Z) (vertices1 : list (list Z)) (bad1 new : list Z) : Prop :=
  length vertices1 = length vertices ∧ length bad1 = length bad_vertices ∧
  (∀ w s, vget vertices w = Ok s →
     vget vertices1 w = Ok (if decide (w ∈ visited) then set_erase v s else s)) ∧
  (∀ w, w ∈ new → vget bad_vertices w = Ok 0 ∧ vget bad1 w = Ok 1) ∧
  (∀ w, w ∉ new → vget bad1 w = vget bad_vertices w) ∧
  NoDup new ∧
  (∀ w s, w ∈ visited → vget bad1 w = Ok 0 → vget vertices1 w = Ok s → 3 ≤ vsize s) ∧
  (unmarked bad1 + length new = unmarked bad_vertices)%nat.

(** The state of the [while] loop against the sets [vertices0] it started
    from.  A vertex is done when it is marked and has left the queue. *)
Definition peel_inv (vertices0 : list (list Z)) (st : peel_state) : Prop :=
  let '(vertices, bad_vertices, badq) := st in
  let done_with x := vget bad_vertices x = Ok 1 ∧ x ∉ badq in
  length vertices = length vertices0 ∧ length bad_vertices = length vertices0 ∧
  (∀ w x, adjacent vertices w x → adjacent vertices0 w x) ∧
  (∀ w, 0 ≤ w < vsize vertices0 →
     vget bad_vertices w = Ok 0 ∨ vget bad_vertices w = Ok 1) ∧
  (∀ w, w ∈ badq → vget bad_vertices w = Ok 1) ∧
  NoDup badq ∧
  (∀ w s, vget bad_vertices w = Ok 0 → vget vertices w = Ok s → 3 ≤ vsize s) ∧
  (∀ w x, adjacent vertices0 w x → ¬ done_with x → adjacent vertices w x) ∧
  (∀ w x, done_with x → ¬ done_with w → ¬ adjacent vertices w x) ∧
  Forall NoDup vertices.

(** ** The graph of compact vertices in [ComputeIndexMap] (lines 818-829) *)

(** [sets[p1].insert(p2); sets[p2].insert(p1);] *)
Definition link (p1 p2 : Z) (sets : list (list Z)) : result (list (list Z)) :=
  s1 ← vget sets p1;
  sets1 ← vset sets p1 (set_insert p2 s1);
  s2 ← vget sets1 p2;
  vset sets1 p2 (set_insert p1 s2).

Section CompactGraph.
(** [disajoint_tree.Index]: the compact id of a vertex. *)
Variable Index : Z → Z.

(** The body of the loop over the edges; the state is
    [(vertices, complete_set)]. *)
Definition graph_edge (edge_values : list (Z * Z)) (edge_diff : list Vector2i)
    (i : Z) (st : list (list Z) * list (list Z))
  : result (list (list Z) * list (list Z)) :=
  let '(vertices, complete_set) := st in
  ev ← vget edge_values i;
  let p1 := Index ev.1 in
  let p2 := Index ev.2 in
  if decide (p1 = p2) then Ok st
  else
    complete_set' ← link p1 p2 complete_set;
    d ← vget edge_diff i;
    if decide (Z.abs d.1 + Z.abs d.2 = 1) then
      vertices' ← link p1 p2 vertices;
      Ok (vertices', complete_set')
    else Ok (vertices, complete_set').

Definition extract_graph (num_v : nat) (edge_values : list (Z * Z))
    (edge_diff : list Vector2i) : result (list (list Z) * list (list Z)) :=
  for_loop (length edge_diff) 0 (graph_edge edge_values edge_diff)
    (replicate num_v [], replicate num_v []).

(** Edge [i] joins the compact vertices [w] and [x]; with [unit_only] the
    edge also has a difference of length one. *)
Definition joins (unit_only : bool) (edge_values : list (Z * Z))
    (edge_diff : list Vector2i) (i w x : Z) : Prop :=
  ∃ ev d, vget edge_values i = Ok ev ∧ vget edge_diff i = Ok d ∧
    (unit_only = true → Z.abs d.1 + Z.abs d.2 = 1) ∧
    w ≠ x ∧
    ((w = Index ev.1 ∧ x = Index ev.2) ∨ (w = Index ev.2 ∧ x = Index ev.1)).
End CompactGraph.

(** ** The vertex numbering of [ExtractMesh] (lines 1983-1992) *)

(** [compact_answer]: the running count of the vertices that are not bad. *)
Definition compact_answer (bad_vertices : list Z) : result (list Z) :=
  let n := length bad_vertices in
  b0 ← vget bad_vertices 0;
  ca0 ← vset (replicate n 0) 0 (1 - b0);
  for_loop (n - 1) 1
    (λ i ca,
       prev ← vget ca (i - 1);
       b ← vget bad_vertices i;
       vset ca i (prev + (1 - b)))
    ca0.

(** The vertices whose [v] line is written, in the order of the lines. *)
Definition vertex_lines (bad_vertices : list Z) : result (list Z) :=
  for_loop (length bad_vertices) 0
    (λ i out,
       b ← vget bad_vertices i;
       if decide (b ≠ 0) then Ok out else Ok (out ++ [i]))
    [].

(** ** Edge ids of [Parametrizer::BuildEdgeInfo] on a mesh without boundary *)

(** [face_edgeIds[c / 3][c % 3]] for the corner number [c = 3 i + j]. *)
Definition corner_id (face_edgeIds : list Vector3i) (c : Z) : result Z :=
  row ← vget face_edgeIds (Z.quot c 3);
  v3_get row (Z.rem c 3).

(** [DEdge(F(j, i), F((j + 1) % 3, i))] for the corner number [c = 3 i + j]. *)
Definition corner_DEdge (F : list Vector3i) (c : Z) : result (Z * Z) :=
  Fi ← vget F (Z.quot c 3);
  v1 ← v3_get Fi (Z.rem c 3);
  v2 ← v3_get Fi (Z.rem (Z.rem c 3 + 1) 3);
  Ok (DEdge v1 v2).

(** The state of [BuildEdgeInfo] after the corners before number [c], on
    a mesh of [n] faces whose opposite corners are given by [E2E]. *)
Definition edge_info_inv (F : list Vector3i) (E2E : list Z) (c : Z) (st : EdgeInfo)
  : Prop :=
  let n := Z.of_nat (length F) in
  length (edge_values st) = length (edge_diff st) ∧
  length (face_edgeIds st) = length F ∧
  (∀ c', 0 ≤ c' < 3 * n →
     ∃ x, corner_id (face_edgeIds st) c' = Ok x ∧
          (x = -1 ∨ ∃ e, corner_DEdge F c' = Ok e ∧ vget (edge_values st) x = Ok e)) ∧
  (∀ c' x o, 0 ≤ c' < 3 * n → corner_id (face_edgeIds st) c' = Ok x → x ≠ -1 →
     vget E2E c' = Ok o → corner_id (face_edgeIds st) o = Ok x) ∧
  (∀ c', 0 ≤ c' < c → corner_id (face_edgeIds st) c' ≠ Ok (-1)).

(** ** Holes of five or six vertices in [Parametrizer::FixHoles] *)

(** [(O_compact[v1] - O_compact[v2]).norm()] for [v1 = loop_vertices[i]]
    and [v2 = loop_vertices[(i + 3) % loop_edge.size()]] (lines 1047-1049). *)
Definition diagonal {Vector3d : Type} (norm_sub : Vector3d → Vector3d → Qc)
    (O_compact : list Vector3d) (loop_vertices : list Z) (loop_edge_size i : Z)
  : result Qc :=
  v1 ← vget loop_vertices i;
  v2 ← vget loop_vertices (Z.rem (i + 3) loop_edge_size);
  o1 ← vget O_compact v1;
  o2 ← vget O_compact v2;
  Ok (norm_sub o1 o2).

(** The four corners of a quad. *)
Definition quad_corners (q : Vector4i) : list Z :=
  let '(a, b, c, d) := q in [a; b; c; d].

(** ** Tracing a boundary loop in [Parametrizer::FixHoles] (lines 996-1015) *)

(** [for (auto& next_vert : graph[vert]) if (visited[next_vert] == -1)
    { ...; break; }]: the first neighbour not yet visited, if any. *)
Fixpoint first_unvisited (nbrs : list Z) (visited : list Z) : result (option Z) :=
  match nbrs with
  | [] => Ok None
  | next_vert :: rest =>
      mark ← vget visited next_vert;
      if decide (mark = -1) then Ok (Some next_vert)
      else first_unvisited rest visited
  end.

(** [while (true) { ... if (!update) break; }]; the state is
    [(visited, loop_edge)].  [loop_edge.back()] of an empty vector is
    undefined. *)
Fixpoint walk (fuel : nat) (graph : list (list Z)) (loop_id : Z)
    (visited loop_edge : list Z) : result (list Z * list Z) :=
  match fuel with
  | O => OutOfFuel
  | S fuel' =>
      match last loop_edge with
      | None => OutOfRange
      | Some vert =>
          nbrs ← vget graph vert;
          r ← first_unvisited nbrs visited;
          match r with
          | None => Ok (visited, loop_edge)
          | Some next_vert =>
              visited' ← vset visited next_vert loop_id;
              walk fuel' graph loop_id visited' (loop_edge ++ [next_vert])
          end
      end
  end.

(** Lines 1000-1015 for a boundary edge [i] that is not yet visited:
    [loop_edge.push_back(i); visited[i] = loop_id;] and the walk. *)
Definition trace_loop (fuel : nat) (graph : list (list Z)) (loop_id : Z)
    (visited : list Z) (i : Z) : result (list Z * list Z) :=
  visited' ← vset visited i loop_id;
  walk fuel graph loop_id visited' [i].

(** How many entries of [visited] are still -1. *)
Definition unvisited (visited : list Z) : nat :=
  length (filter (λ mark, mark = -1) visited).

(** ** The edge table of [Parametrizer::FixHoles] (lines 946-971) *)

Definition v4_get (a : Vector4i) (k : Z) : result Z :=
  if decide (k = 0) then Ok a.1.1.1
  else if decide (k = 1) then Ok a.1.1.2
  else if decide (k = 2) then Ok a.1.2
  else if decide (k = 3) then Ok a.2
  else OutOfRange.

(** The body of the loops for corner [j] of quad [i]; the state is
    [(edge_to_faces, directed_edges)].  The keys are [long long] in the
    source and unbounded here. *)
Definition hole_table_corner (numV : Z) (F_compact : list Vector4i) (i j : Z)
    (st : gmap Z (Z * Z) * gset Z) : result (gmap Z (Z * Z) * gset Z) :=
  let '(edge_to_faces, directed_edges) := st in
  q ← vget F_compact i;
  v1 ← v4_get q j;
  v2 ← v4_get q (Z.rem (j + 1) 4);
  let hash := edge_key numV v1 v2 in
  let directed_edges' := {[numV * v1 + v2]} ∪ directed_edges in
  let it := edge_to_faces !! hash in
  if decide (v1 < v2) then
    match it with
    | None => Ok (<[hash := (i * 4 + j, -1)]> edge_to_faces, directed_edges')
    | Some p => Ok (<[hash := (i * 4 + j, p.2)]> edge_to_faces, directed_edges')
    end
  else
    match it with
    | None => Ok (<[hash := (-1, i * 4 + j)]> edge_to_faces, directed_edges')
    | Some p => Ok (<[hash := (p.1, i * 4 + j)]> edge_to_faces, directed_edges')
    end.

Definition hole_table (numV : Z) (F_compact : list Vector4i)
  : result (gmap Z (Z * Z) * gset Z) :=
  for_loop (length F_compact) 0
    (λ i, for_loop 4 0 (hole_table_corner numV F_compact i))
    (∅, ∅).

(** Corner [j] of quad [i] runs from [v1] to [v2]. *)
Definition quad_edge (F_compact : list Vector4i) (i j v1 v2 : Z) : Prop :=
  ∃ q, vget F_compact i = Ok q ∧ v4_get q j = Ok v1 ∧
       v4_get q (Z.rem (j + 1) 4) = Ok v2.

(** [x] is the entry of the key [h] on the side [up] (the first component
    for corners with [v1 < v2], the second for the others) after the
    corners before number [c]: -1 when no such corner has come, else the
    slot [i * 4 + j] of the last one. *)
Definition table_side (numV : Z) (F_compact : list Vector4i) (up : bool)
    (c h x : Z) : Prop :=
  (x = -1 ∧
   ∀ i j v1 v2, quad_edge F_compact i j v1 v2 → bool_decide (v1 < v2) = up →
                edge_key numV v1 v2 = h → c ≤ i * 4 + j) ∨
  (∃ i j v1 v2, quad_edge F_compact i j v1 v2 ∧ bool_decide (v1 < v2) = up ∧
                edge_key numV v1 v2 = h ∧ x = i * 4 + j ∧ i * 4 + j < c ∧
     ∀ i' j' v1' v2', quad_edge F_compact i' j' v1' v2' →
                      bool_decide (v1' < v2') = up →
                      edge_key numV v1' v2' = h → i' * 4 + j' < c →
                      i' * 4 + j' ≤ i * 4 + j).

(** The state of the table loops after the corners before number [c]. *)
Definition hole_table_inv (numV : Z) (F_compact : list Vector4i) (c : Z)
    (st : gmap Z (Z * Z) * gset Z) : Prop :=
  (∀ k, k ∈ st.2 ↔
        ∃ i j v1 v2, quad_edge F_compact i j v1 v2 ∧ i * 4 + j < c ∧
                     k = numV * v1 + v2) ∧
  (∀ h, st.1 !! h = None →
        ∀ i j v1 v2, quad_edge F_compact i j v1 v2 → edge_key numV v1 v2 = h →
                     c ≤ i * 4 + j) ∧
  (∀ h p, st.1 !! h = Some p →
          table_side numV F_compact true c h p.1 ∧
          table_side numV F_compact false c h p.2) ∧
  (∀ h p, st.1 !! h = Some p →
          ∃ i j v1 v2, quad_edge F_compact i j v1 v2 ∧ edge_key numV v1 v2 = h).

(** [x] is -1 when no corner on the side [up] has the key [h], else the
    slot [i * 4 + j] of the last such corner. *)
Definition last_slot (numV : Z) (F_compact : list Vector4i) (up : bool)
    (h x : Z) : Prop :=
  (x = -1 ∧
   ∀ i j v1 v2, quad_edge F_compact i j v1 v2 → bool_decide (v1 < v2) = up →
                edge_key numV v1 v2 ≠ h) ∨
  (∃ i j v1 v2, quad_edge F_compact i j v1 v2 ∧ bool_decide (v1 < v2) = up ∧
                edge_key numV v1 v2 = h ∧ x = i * 4 + j ∧
     ∀ i' j' v1' v2', quad_edge F_compact i' j' v1' v2' →
                      bool_decide (v1' < v2') = up →
                      edge_key numV v1' v2' = h → i' * 4 + j' ≤ i * 4 + j).

(** ** [Parametrizer::BuildIntegerConstraints] (lines 1073-1349) *)

Definition v4_set (a : Vector4i) (k : Z) (x : Z) : result Vector4i :=
  if decide (k = 0) then Ok (x, a.1.1.2, a.1.2, a.2)
  else if decide (k = 1) then Ok (a.1.1.1, x, a.1.2, a.2)
  else if decide (k = 2) then Ok (a.1.1.1, a.1.1.2, x, a.2)
  else if decide (k = 3) then Ok (a.1.1.1, a.1.1.2, a.1.2, x)
  else OutOfRange.

(** [edge_to_constraints[e][(v0 > v1) * 2] = i;
     edge_to_constraints[e][(v0 > v1) * 2 + 1] = o;] *)
Definition note_edge_side (edge_to_constraints : list Vector4i) (e v0 v1 i o : Z)
  : result (list Vector4i) :=
  let k := if decide (v0 > v1) then 2 else 0 in
  c ← vget edge_to_constraints e;
  c1 ← v4_set c k i;
  c2 ← v4_set c1 (k + 1) o;
  vset edge_to_constraints e c2.

(** Lines 1188-1190 and 1275-1280: [ind = abs(s); sign = s / ind;
    ind -= 1;] with no test before the division; dividing by zero is
    undefined. *)
Definition decode_unguarded (s : Z) : result (Z * Z) :=
  let ind := Z.abs s in
  if decide (ind = 0) then OutOfRange else Ok (ind - 1, Z.quot s ind).

(** [std::set<int>]-like order of the keys of a [std::map<int, int>]:
    [singularities] is declared in parametrizer.hpp (not among the
    sources) as a [std::map]; [for (auto& f : singularities)] visits its
    entries by increasing face. *)
Definition map_entries (m : gmap Z Z) : list (Z * Z) :=
  (λ f, (f, default 0 (m !! f))) <$> set_insert_all (map_to_list m).*1 [].

(** *** Notions used to state what the rows hold *)

(** The signed pair [p] names the two components of edge [e]: up to sign
    and order its entries are [e * 2 + 1] and [e * 2 + 2]. *)
Definition names (p : Vector2i) (e : Z) : Prop :=
  0 ≤ e ∧
  ((Z.abs p.1 = e * 2 + 1 ∧ Z.abs p.2 = e * 2 + 2) ∨
   (Z.abs p.1 = e * 2 + 2 ∧ Z.abs p.2 = e * 2 + 1)).

(** What a signed index stands for: its sign times the component of
    [edge_diff] it names; and the sum for the two entries of a pair. *)
Definition signed_value (edge_diff : list Vector2i) (a : Z) : Z :=
  Z.sgn a * component_value edge_diff (Z.abs a - 1).

Definition pair_value (edge_diff : list Vector2i) (p : Vector2i) : Z :=
  signed_value edge_diff p.1 + signed_value edge_diff p.2.

(** Entry [k] of a pair, and the row [k] that lines 1150-1163 make of the
    signed pairs of the three corners: [(index, sign)]. *)
Definition entry (k : Z) (p : Vector2i) : Z := if decide (k = 0) then p.1 else p.2.

Definition row_of (s0 s1 s2 : Vector2i) (k : Z) : Vector3i * Vector3i :=
  ((Z.abs (entry k s0) - 1, Z.abs (entry k s1) - 1, Z.abs (entry k s2) - 1),
   (Z.sgn (entry k s0), Z.sgn (entry k s1), Z.sgn (entry k s2))).

(** The sum of [g 0], ..., [g (n - 1)]. *)
Fixpoint sum_upto (g : Z → Z) (n : nat) : Z :=
  match n with
  | O => 0
  | S n' => sum_upto g n' + g (Z.of_nat n')
  end.

(** How many corners of a face, and of all faces, carry the edge [e]. *)
Definition row_count (e : Z) (row : Vector3i) : nat :=
  ((if decide (row.1.1 = e) then 1 else 0) + (if decide (row.1.2 = e) then 1 else 0)
   + (if decide (row.2 = e) then 1 else 0))%nat.

Definition id_count (e : Z) (face_edgeIds : list Vector3i) : nat :=
  sum_list (row_count e <$> face_edgeIds).

(** The residual of row [i], 0 where it is not defined. *)
Definition row_residual (edge_diff : list Vector2i)
    (constraints_index constraints_sign : list Vector3i) (i : Z) : Z :=
  match vget constraints_index i, vget constraints_sign i with
  | Ok index, Ok sign =>
      match constraint_residual edge_diff index sign with Ok r => r | _ => 0 end
  | _, _ => 0
  end.

(** How often the variable [v] is an entry of a row. *)
Definition index_count (v : Z) (index : Vector3i) : nat :=
  ((if decide (index.1.1 = v) then 1 else 0) + (if decide (index.1.2 = v) then 1 else 0)
   + (if decide (index.2 = v) then 1 else 0))%nat.

Section IntegerConstraints.

(** The columns of [Q] and [N] and [compat_orientation_extrinsic_index_4]
    are parameters, as for [ComputeOrientationSingularities]. *)
Context {Vector3d : Type}.
Variable compat_orientation_extrinsic_index_4 :
  Vector3d → Vector3d → Vector3d → Vector3d → Z * Z.

(** Modelled from the spec: [DisajointOrientTree] of disajoint-tree.hpp,
    which is not among the sources.  Section 3: "union-find over faces
    carrying a 0-3 rotation per link, combined by addition mod 4 along the
    find path".  Its constructor, [Merge] and [Orient] are parameters. *)
Context {DisajointOrientTree : Type}.
Variable tree_new : Z → DisajointOrientTree.
Variable tree_Merge : DisajointOrientTree → Z → Z → Z → Z → DisajointOrientTree.
Variable tree_Orient : DisajointOrientTree → Z → Z.

(** The iteration order of [std::unordered_map] and [std::random_shuffle]. *)
Variable enumerate : gmap Z (Z * Z) → list (Z * (Z * Z)).
Variable random_shuffle : list (Z * Z) → list (Z * Z).

(** Read and not written by the function, except [edge_diff], which only
    the perturbation at the end writes. *)
Variable F : list Vector3i.
Variable Q N : list Vector3d.
Variable face_edgeIds : list Vector3i.
Variable edge_values : list (Z * Z).
Variable edge_diff : list Vector2i.
Variable singularities : gmap Z Z.

(** *** The signed indices of every face (lines 1082-1128) *)

(** The body of the loop; the state is
    [(sign_indices, face_edgeOrients, edge_to_constraints)]. *)
Definition sign_indices_face (i : Z)
    (st : list Vector2i * list Vector3i * list Vector4i)
  : result (list Vector2i * list Vector3i * list Vector4i) :=
  let '(sign_indices, face_edgeOrients, edge_to_constraints) := st in
  Fi ← vget F i;
  let v0 := Fi.1.1 in
  let v1 := Fi.1.2 in
  let v2 := Fi.2 in
  eid ← vget face_edgeIds i;
  q0 ← vget Q v0;
  n0 ← vget N v0;
  q1 ← vget Q v1;
  n1 ← vget N v1;
  q2 ← vget Q v2;
  n2 ← vget N v2;
  let index1 := compat_orientation_extrinsic_index_4 q0 n0 q1 n1 in
  let index2 := compat_orientation_extrinsic_index_4 q0 n0 q2 n2 in
  let rank1 := Z.rem (index1.1 - index1.2 + 4) 4 in
  let rank2 := Z.rem (index2.1 - index2.2 + 4) 4 in
  let vo := face_sign_indices v0 v1 v2 eid rank1 rank2 in
  feo ← vset face_edgeOrients i vo.2;
  e2c1 ← note_edge_side edge_to_constraints eid.1.1 v0 v1 i vo.2.1.1;
  e2c2 ← note_edge_side e2c1 eid.1.2 v1 v2 i vo.2.1.2;
  e2c3 ← note_edge_side e2c2 eid.2 v2 v0 i vo.2.2;
  Ok (sign_indices ++ vo.1, feo, e2c3).

(** *** The orientation forest over the faces (lines 1130-1139) *)

Definition merge_edge_faces (t : DisajointOrientTree) (edge_c : Vector4i)
  : DisajointOrientTree :=
  let v0 := edge_c.1.1.1 in
  let v1 := edge_c.1.2 in
  if decide (is_Some (singularities !! v0) ∨ is_Some (singularities !! v1)) then t
  else
    let orient1 := edge_c.1.1.2 in
    let orient0 := Z.rem (edge_c.2 + 2) 4 in
    tree_Merge t v0 v1 orient0 orient1.

(** *** The rows, and the residuals of the branches of a singular face
    (lines 1144-1204) *)

(** Lines 1184-1197 for [k]: the row [f * 2 + k] is copied, every entry of
    the copy is overwritten from the rotated signed indices, and the
    residual of the copy is returned. *)
Definition branch_row (constraints_index constraints_sign : list Vector3i)
    (f : Z) (s0 s1 s2 : Vector2i) (k : Z) : result Z :=
  _ ← vget constraints_index (f * 2 + k);
  _ ← vget constraints_sign (f * 2 + k);
  a0 ← v2_get s0 k;
  '(i0, g0) ← decode_unguarded a0;
  a1 ← v2_get s1 k;
  '(i1, g1) ← decode_unguarded a1;
  a2 ← v2_get s2 k;
  '(i2, g2) ← decode_unguarded a2;
  constraint_residual edge_diff (i0, i1, i2) (g0, g1, g2).

(** The body of the loop over [j] of lines 1168-1200, for the face [f]
    whose signed indices start at [i]: [(diffs[j], orient_diffs[j])]. *)
Definition sing_branch (tree : DisajointOrientTree)
    (edge_to_constraints : list Vector4i) (sign_indices : list Vector2i)
    (constraints_index constraints_sign : list Vector3i)
    (i f orient_base j : Z) : result (Z * Z) :=
  ids ← vget face_edgeIds f;
  eid ← v3_get ids (Z.rem (j + 1) 3);
  c ← vget edge_to_constraints eid;
  let v0 := c.1.1.1 in
  let v1 := c.1.2 in
  let orientp0 := tree_Orient tree v0 + c.1.1.2 in
  let orientp1 := tree_Orient tree v1 + c.2 in
  let orient_diff :=
    if decide (v1 = f) then Z.rem (orientp0 - orientp1 + 6) 4
    else Z.rem (orientp1 - orientp0 + 6) 4 in
  a0 ← vget sign_indices (i + j);
  a1 ← vget sign_indices (i + Z.rem (j + 1) 3);
  a2 ← vget sign_indices (i + Z.rem (j + 2) 3);
  let s0 := rshift90 a0 (Z.rem (orient_base + orient_diff) 4) in
  let s1 := rshift90 a1 orient_diff in
  let s2 := rshift90 a2 orient_diff in
  d0 ← branch_row constraints_index constraints_sign f s0 s1 s2 0;
  d1 ← branch_row constraints_index constraints_sign f s0 s1 s2 1;
  Ok (d0 + d1, orient_diff).

(** The body of [for (int i = 0; i < sign_indices.size(); i += 3)], for
    its round number [f = i / 3]; the state is [(sign_indices,
    constraints_index, constraints_sign, sing_diff, sing_orients)]. *)
Definition constraint_rows_face (tree : DisajointOrientTree)
    (edge_to_constraints : list Vector4i) (f : Z)
    (st : list Vector2i * list Vector3i * list Vector3i * list Vector3i * list Vector3i)
  : result (list Vector2i * list Vector3i * list Vector3i * list Vector3i * list Vector3i) :=
  let '(sign_indices, constraints_index, constraints_sign, sing_diff, sing_orients) := st in
  let i := f * 3 in
  let orient := tree_Orient tree f in
  s0 ← vget sign_indices i;
  si1 ← vset sign_indices i (rshift90 s0 orient);
  s1 ← vget si1 (i + 1);
  si2 ← vset si1 (i + 1) (rshift90 s1 orient);
  s2 ← vget si2 (i + 2);
  si3 ← vset si2 (i + 2) (rshift90 s2 orient);
  sr ← face_constraints [s0; s1; s2] orient;
  let ci := constraints_index ++ sr.2.*1 in
  let cs := constraints_sign ++ sr.2.*2 in
  match singularities !! f with
  | None => Ok (si3, ci, cs, sing_diff, sing_orients)
  | Some orient_base =>
      b0 ← sing_branch tree edge_to_constraints si3 ci cs i f orient_base 0;
      b1 ← sing_branch tree edge_to_constraints si3 ci cs i f orient_base 1;
      b2 ← sing_branch tree edge_to_constraints si3 ci cs i f orient_base 2;
      Ok (si3, ci, cs, sing_diff ++ [(b0.1, b1.1, b2.1)],
          sing_orients ++ [(b0.2, b1.2, b2.2)])
  end.

(** *** The total flow of the regular faces (lines 1206-1218) *)

Definition flow_row (constraints_index constraints_sign : list Vector3i) (i : Z)
    (total_flow : Z) : result Z :=
  if decide (is_Some (singularities !! Z.quot i 2)) then Ok total_flow
  else
    index ← vget constraints_index i;
    sign ← vget constraints_sign i;
    diff ← constraint_residual edge_diff index sign;
    Ok (total_flow + diff).

(** *** The chosen branch enters the rows (lines 1252-1290) *)

(** The body of the loop over the corners [i] of the singular face
    [f.first = f], [f.second = second]; the state is [(index1, index2,
    sign1, sign2, edge_to_constraints, face_edgeOrients, eid0)], with the
    four rows held by reference and [eid0] not yet assigned at first. *)
Definition rewrite_corner (f second select orient_diff : Z) (i : Z)
    (st : Vector3i * Vector3i * Vector3i * Vector3i * list Vector4i * list Vector3i
          * option Z)
  : result (Vector3i * Vector3i * Vector3i * Vector3i * list Vector4i * list Vector3i
            * option Z) :=
  let '(index1, index2, sign1, sign2, edge_to_constraints, face_edgeOrients, eid0) := st in
  s1 ← v3_get sign1 i;
  i1 ← v3_get index1 i;
  s2 ← v3_get sign2 i;
  i2 ← v3_get index2 i;
  let diff : Vector2i := (s1 * (i1 + 1), s2 * (i2 + 1)) in
  let t := if decide (i = select) then Z.rem (orient_diff + second) 4 else orient_diff in
  Ff ← vget F f;
  v0 ← v3_get Ff i;
  v1 ← v3_get Ff (Z.rem (i + 1) 3);
  ids ← vget face_edgeIds f;
  eid ← v3_get ids i;
  let eid0' := if decide (Z.rem (select + 1) 3 = i) then Some eid else eid0 in
  let k := if decide (v0 > v1) then 2 else 0 in
  c ← vget edge_to_constraints eid;
  c1 ← v4_set c k f;
  o ← v4_get c1 (k + 1);
  c2 ← v4_set c1 (k + 1) (Z.rem (o + t) 4);
  e2c ← vset edge_to_constraints eid c2;
  row ← vget face_edgeOrients f;
  fo ← v3_get row i;
  row' ← v3_set row i (Z.rem (fo + t) 4);
  feo ← vset face_edgeOrients f row';
  let diff' := rshift90 diff t in
  d1 ← decode_unguarded diff'.1;
  index1' ← v3_set index1 i d1.1;
  sign1' ← v3_set sign1 i d1.2;
  d2 ← decode_unguarded diff'.2;
  index2' ← v3_set index2 i d2.1;
  sign2' ← v3_set sign2 i d2.2;
  Ok (index1', index2', sign1', sign2', e2c, feo, eid0').

(** The body of [for (auto& f : singularities)]; the state is
    [(constraints_index, constraints_sign, edge_to_constraints,
    face_edgeOrients, disajoint_orient_tree, sing_count)]. *)
Definition apply_branch (sing_selection : list Z) (sing_orients : list Vector3i)
    (p : Z * Z)
    (st : list Vector3i * list Vector3i * list Vector4i * list Vector3i
          * DisajointOrientTree * Z)
  : result (list Vector3i * list Vector3i * list Vector4i * list Vector3i
            * DisajointOrientTree * Z) :=
  let '(constraints_index, constraints_sign, edge_to_constraints, face_edgeOrients,
        tree, sing_count) := st in
  let f := p.1 in
  select ← vget sing_selection sing_count;
  od ← vget sing_orients sing_count;
  orient_diff ← v3_get od select;
  index1 ← vget constraints_index (f * 2);
  index2 ← vget constraints_index (f * 2 + 1);
  sign1 ← vget constraints_sign (f * 2);
  sign2 ← vget constraints_sign (f * 2 + 1);
  r ← for_loop 3 0 (rewrite_corner f p.2 select orient_diff)
        (index1, index2, sign1, sign2, edge_to_constraints, face_edgeOrients, None);
  let '(index1', index2', sign1', sign2', e2c, feo, eid0) := r in
  ci1 ← vset constraints_index (f * 2) index1';
  ci2 ← vset ci1 (f * 2 + 1) index2';
  cs1 ← vset constraints_sign (f * 2) sign1';
  cs2 ← vset cs1 (f * 2 + 1) sign2';
  e ← match eid0 with Some e => Ok e | None => OutOfRange end;
  edge_c ← vget e2c e;
  let v0 := edge_c.1.1.1 in
  let v1 := edge_c.1.2 in
  let orient1 := edge_c.1.1.2 in
  let orient0 := Z.rem (edge_c.2 + 2) 4 in
  Ok (ci2, cs2, e2c, feo, tree_Merge tree v0 v1 orient0 orient1, sing_count + 1).

(** *** Lines 1078-1290 *)

(** What the function has built when the perturbation starts. *)
Record Branches := {
  br_constraints_index : list Vector3i;
  br_constraints_sign : list Vector3i;
  br_target_flow : Z;
  br_face_edgeOrients : list Vector3i;
  br_tree : DisajointOrientTree
}.

(** [face_edgeOrients] is resized to one entry per face and
    [edge_to_constraints] starts with [(-1,-1,-1,-1)] for every edge;
    [constraints_index] and [constraints_sign] are empty when the function
    is entered.  [fuel] bounds the search of [target_flow]. *)
Definition choose_branches (fuel : nat) : result Branches :=
  st1 ← for_loop (length F) 0 sign_indices_face
          ([], replicate (length F) (0, 0, 0),
           replicate (length edge_values) (-1, -1, -1, -1));
  let '(sign_indices, face_edgeOrients, edge_to_constraints) := st1 in
  let tree := foldl merge_edge_faces (tree_new (vsize F)) edge_to_constraints in
  st3 ← for_loop (Nat.div (length sign_indices + 2) 3) 0
          (constraint_rows_face tree edge_to_constraints)
          (sign_indices, [], [], [], []);
  let '(_, constraints_index, constraints_sign, sing_diff, sing_orients) := st3 in
  total_flow ← for_loop (length constraints_index) 0
                 (flow_row constraints_index constraints_sign) 0;
  ts ← select_branches enumerate fuel sing_diff total_flow;
  st6 ← for_each (map_entries singularities) (apply_branch ts.2 sing_orients)
          (constraints_index, constraints_sign, edge_to_constraints, face_edgeOrients,
           tree, 0);
  let '(ci, cs, _, feo, tree', _) := st6 in
  Ok {| br_constraints_index := ci; br_constraints_sign := cs;
        br_target_flow := ts.1; br_face_edgeOrients := feo; br_tree := tree' |}.

(** *** The whole function *)

(** Lines 1341-1346: [face_edgeOrients[i][j] =
    (face_edgeOrients[i][j] + disajoint_orient_tree.Orient(i)) % 4]. *)
Definition final_orients (tree : DisajointOrientTree) (face_edgeOrients : list Vector3i)
  : list Vector3i :=
  imap (λ i (row : Vector3i),
          let o := tree_Orient tree (Z.of_nat i) in
          (Z.rem (row.1.1 + o) 4, Z.rem (row.1.2 + o) 4, Z.rem (row.2 + o) 4))
       face_edgeOrients.

(** What [BuildIntegerConstraints] leaves in the members it writes. *)
Record IntegerConstraints := {
  constraints_index : list Vector3i;
  constraints_sign : list Vector3i;
  variables : list (Vector2i * Z);
  cuts : gset (Z * Z);
  new_edge_diff : list Vector2i;
  face_edgeOrients : list Vector3i
}.

Definition BuildIntegerConstraints (fuel : nat) : result IntegerConstraints :=
  br ← choose_branches fuel;
  p ← perturb_edge_diff random_shuffle (br_constraints_index br)
         (br_constraints_sign br) edge_values edge_diff (br_target_flow br);
  Ok {| constraints_index := br_constraints_index br;
        constraints_sign := br_constraints_sign br;
        variables := p.1.1.1;
        cuts := p.1.2;
        new_edge_diff := p.2;
        face_edgeOrients := final_orients (br_tree br) (br_face_edgeOrients br) |}.

End IntegerConstraints.
(* ================================================================== *)
(** * Part II: properties *)
(* ================================================================== *)

(** ** Vectors *)

Lemma vget_Ok_range {A} (v : list A) i x :
  vget v i = Ok x → 0 ≤ i < vsize v.
Proof.
  unfold vget, vsize. case_decide; [|done].
  destruct (v !! Z.to_nat i) eqn:E; [|done]. intros _.
  apply lookup_lt_Some in E. lia.
Qed.

Lemma vget_in_range {A} (v : list A) i :
  0 ≤ i < vsize v → ∃ x, vget v i = Ok x.
Proof.
  unfold vget, vsize. intros H. rewrite decide_True by lia.
  destruct (lookup_lt_is_Some_2 v (Z.to_nat i)) as [x ->]; [lia|]. eauto.
Qed.

Lemma vset_length {A} (v v' : list A) i x :
  vset v i x = Ok v' → length v' = length v.
Proof.
  unfold vset. case_decide; [|done]. intros [= <-]. apply length_insert.
Qed.

Lemma vset_in_range {A} (v : list A) i x :
  0 ≤ i < vsize v → vset v i x = Ok (<[Z.to_nat i := x]> v).
Proof. unfold vset, vsize. intros H. by rewrite decide_True. Qed.

Lemma vget_insert_eq {A} (v : list A) i x :
  0 ≤ i < vsize v → vget (<[Z.to_nat i := x]> v) i = Ok x.
Proof.
  unfold vget, vsize. intros H. rewrite decide_True by lia.
  rewrite list_lookup_insert_eq by lia. done.
Qed.

Lemma vget_insert_ne {A} (v : list A) i j x :
  0 ≤ i → i ≠ j → vget (<[Z.to_nat i := x]> v) j = vget v j.
Proof.
  unfold vget. intros Hi Hne. case_decide; [|done].
  rewrite list_lookup_insert_ne by lia. done.
Qed.

(** ** Path compression keeps roots and composed rotations (C9) *)

Lemma rbind_Ok {A B} (m : result A) (f : A → result B) b :
  m ≫= f = Ok b → ∃ a, m = Ok a ∧ f a = Ok b.
Proof. destruct m; simpl; try done. eauto. Qed.

Lemma rbind_Ok_l {A B} (a : A) (f : A → result B) : Ok a ≫= f = f a.
Proof. reflexivity. Qed.

Lemma chain_det ps j r s d r' s' d' :
  chain ps j r s d → chain ps j r' s' d' → r = r' ∧ s = s' ∧ d = d'.
Proof.
  intros H. revert r' s' d'.
  induction H as [j o Hj | j p o r s d Hj Hne Hc IH]; intros r' s' d' H'.
  - inversion H' as [j' o' Hj' | j' p' o' r'' s'' d'' Hj' Hne' Hc']; subst;
      [|congruence]. split_and!; congruence.
  - inversion H' as [j' o' Hj' | j' p' o' r'' s'' d'' Hj' Hne' Hc']; subst;
      [congruence|].
    assert (p' = p ∧ o' = o) as [-> ->] by (split; congruence).
    destruct (IH _ _ _ Hc') as (-> & -> & ->). done.
Qed.

Lemma chain_root_entry ps j r s d :
  chain ps j r s d → ∃ o, vget ps r = Ok (r, o).
Proof. induction 1; eauto. Qed.

Lemma chain_label_range ps j r s d :
  good_entries ps → chain ps j r s d → 0 ≤ s < 4.
Proof.
  intros Hg. induction 1 as [j o Hj | j p o r s d Hj Hne Hc IH].
  - destruct (Hg _ _ _ Hj) as (_ & ? & _). done.
  - destruct (Hg _ _ _ Hj) as (_ & ? & _).
    pose proof (Z.rem_bound_pos (o + s) 4). lia.
Qed.

Lemma chain_root_label ps j r s d o :
  good_entries ps → chain ps j r s d → vget ps r = Ok (r, o) → o = 0.
Proof. intros Hg _ Hr. destruct (Hg _ _ _ Hr) as (_ & _ & H). by apply H. Qed.

Lemma get_parents_orient_chain fuel ps j v :
  get_parents_orient fuel ps j = Ok v ↔
  ∃ r d, chain ps j r v d ∧ (d < fuel)%nat.
Proof.
  revert j v. induction fuel as [|fuel IH]; intros j v; simpl.
  { split; [done|]. intros (? & ? & _ & ?). lia. }
  split.
  - intros H. apply rbind_Ok in H as ([p o] & Hj & H). simpl in H.
    case_decide as Hd.
    + injection H as <-. subst p. exists j, 0%nat. split; [by constructor | lia].
    + apply rbind_Ok in H as (o' & Ho' & [= <-]).
      apply IH in Ho' as (r & d & Hc & Hlt).
      exists r, (S d). split; [by econstructor | lia].
  - intros (r & d & Hc & Hlt). inversion Hc; subst.
    + rewrite H. simpl. by rewrite decide_True.
    + rewrite H. simpl. rewrite decide_False by done.
      assert (get_parents_orient fuel ps p = Ok s) as ->.
      { apply IH. exists r, d0. split; [done | lia]. }
      done.
Qed.

(** Redirecting a non-root [j] straight to its root, with its composed
    label, changes nobody's root or composed label. *)
Lemma chain_insert_direct ps j r s dj :
  good_entries ps → chain ps j r s dj → j ≠ r →
  ∀ k rk sk dk, chain ps k rk sk dk →
    ∃ dk', chain (<[Z.to_nat j := (r, s)]> ps) k rk sk dk' ∧ (dk' ≤ dk)%nat.
Proof.
  intros Hg Hj Hne.
  assert (0 ≤ j < vsize ps) as Hjr.
  { inversion Hj; subst; eapply vget_Ok_range; eauto. }
  destruct (chain_root_entry _ _ _ _ _ Hj) as [o Hr].
  assert (o = 0) as -> by (eapply chain_root_label; eauto).
  pose proof (chain_label_range _ _ _ _ _ Hg Hj) as Hs.
  induction 1 as [k o Hk | k p o rk sk dk Hk Hkp Hc IH].
  - exists 0%nat. split; [|lia]. constructor.
    rewrite vget_insert_ne; [done | lia |].
    intros ->. destruct (chain_det _ _ _ _ _ _ _ _ Hj (chain_root _ _ _ Hk)) as (? & _).
    congruence.
  - destruct IH as (dk' & IH & Hle).
    destruct (decide (k = j)) as [->|Hkj].
    + destruct (chain_det _ _ _ _ _ _ _ _ Hj (chain_link _ _ _ _ _ _ _ Hk Hkp Hc))
        as (<- & <- & ->).
      exists 1%nat. split; [|lia].
      replace s with (Z.rem (s + 0) 4) at 2
        by (rewrite Z.add_0_r; apply Z.rem_small; lia).
      apply chain_link with (p := r); [by apply vget_insert_eq | done |].
      constructor. rewrite vget_insert_ne; [done | lia | done].
    + exists (S dk'). split; [|lia].
      apply chain_link with (p := p); [|done|exact IH].
      rewrite vget_insert_ne; [done | lia | done].
Qed.

Lemma good_entries_insert ps j r s :
  good_entries ps → 0 ≤ j < vsize ps → 0 ≤ r < vsize ps → 0 ≤ s < 4 → j ≠ r →
  good_entries (<[Z.to_nat j := (r, s)]> ps).
Proof.
  intros Hg Hj Hr Hs Hne i p o Hi.
  assert (vsize (<[Z.to_nat j := (r, s)]> ps) = vsize ps) as Hlen
    by (unfold vsize; by rewrite length_insert).
  rewrite Hlen.
  destruct (decide (i = j)) as [->|Hij].
  - rewrite vget_insert_eq in Hi by done. injection Hi as <- <-.
    split_and!; [lia..|]. intros ->. done.
  - rewrite vget_insert_ne in Hi by lia. by apply Hg.
Qed.

Lemma get_parents_spec fuel :
  ∀ ps j r s d,
    good_entries ps → chain ps j r s d → (d < fuel)%nat →
    ∃ ps',
      get_parents fuel ps j = Ok (ps', r) ∧
      length ps' = length ps ∧
      good_entries ps' ∧
      (∀ i, vget ps' i = vget ps i ∨
            ∃ si di, chain ps i r si di ∧ i ≠ r ∧ vget ps' i = Ok (r, si)) ∧
      (j = r ∨ vget ps' j = Ok (r, s)) ∧
      (∀ k rk sk dk, chain ps k rk sk dk →
         ∃ dk', chain ps' k rk sk dk' ∧ (dk' ≤ dk)%nat).
Proof.
  induction fuel as [|fuel IH]; intros ps j r s d Hg Hc Hlt; [lia|].
  inversion Hc as [j' o Hj | j' p o r' s0 d0 Hj Hne Hp]; subst.
  - exists ps. simpl. rewrite Hj. simpl. rewrite decide_True by done.
    split_and!; eauto.
  - destruct (IH ps p r s0 d0 Hg Hp ltac:(lia))
      as (ps1 & Hrec & Hlen1 & Hg1 & Hent1 & Hp1 & Hch1).
    destruct (chain_root_entry _ _ _ _ _ Hp) as [o_r Hr].
    assert (o_r = 0) as -> by exact (chain_root_label _ _ _ _ _ _ Hg Hp Hr).
    assert (j ≠ r) as Hjr by (intros ->; congruence).
    assert (vget ps1 r = Ok (r, 0)) as Hr1.
    { destruct (Hent1 r) as [-> | (? & ? & _ & ? & _)]; done. }
    pose proof (chain_label_range _ _ _ _ _ Hg Hc) as Hs.
    pose proof (vget_Ok_range _ _ _ Hj) as Hjrange.
    pose proof (vget_Ok_range _ _ _ Hr) as Hrrange.
    assert (vsize ps1 = vsize ps) as Hsz1 by (unfold vsize; by rewrite Hlen1).
    assert (∃ q oq oqq, vget ps1 j = Ok (q, oq) ∧ vget ps1 q = Ok (r, oqq) ∧
                        Z.rem (oq + oqq) 4 = Z.rem (o + s0) 4) as (q & oq & oqq & Hq1 & Hq2 & Hq3).
    { destruct (Hent1 j) as [E | (sj & dj & Hcj & _ & E)].
      - rewrite Hj in E. destruct Hp1 as [-> | Hp1].
        + exists r, o, 0. split_and!; [done..|].
          destruct (chain_det _ _ _ _ _ _ _ _ Hp (chain_root _ _ _ Hr)) as (_ & -> & _).
          done.
        + exists p, o, s0. done.
      - destruct (chain_det _ _ _ _ _ _ _ _ Hc Hcj) as (_ & <- & _).
        exists r, (Z.rem (o + s0) 4), 0. split_and!; [done..|].
        rewrite Z.add_0_r. apply Z.rem_small. lia. }
    exists (<[Z.to_nat j := (r, Z.rem (o + s0) 4)]> ps1).
    split_and!.
    + simpl. rewrite Hj. simpl. rewrite decide_False by done.
      rewrite Hrec. simpl. rewrite Hq1. simpl. rewrite Hq2. simpl.
      rewrite vset_in_range by lia. simpl.
      rewrite vget_insert_eq by lia. simpl.
      rewrite vset_in_range by (unfold vsize in *; rewrite length_insert; lia).
      simpl. rewrite list_insert_insert_eq. rewrite Hq3. done.
    + rewrite length_insert. done.
    + apply good_entries_insert; [done | lia | lia | lia | done].
    + intros i. destruct (decide (i = j)) as [->|Hij].
      * right. exists (Z.rem (o + s0) 4), (S d0). split_and!; [done..|].
        apply vget_insert_eq. lia.
      * rewrite vget_insert_ne by lia. apply Hent1.
    + right. apply vget_insert_eq. lia.
    + intros k rk sk dk Hk.
      destruct (Hch1 _ _ _ _ Hk) as (dk1 & Hk1 & Hle1).
      destruct (Hch1 _ _ _ _ Hc) as (dj1 & Hj1 & _).
      destruct (chain_insert_direct _ _ _ _ _ Hg1 Hj1 Hjr _ _ _ _ Hk1) as (dk' & ? & ?).
      exists dk'. split; [done | lia].
Qed.

(** A chain never visits an index twice, so it is shorter than the
    vector. *)
Lemma chain_nodes ps j r s d :
  chain ps j r s d →
  ∃ l : list Z, length l = S d ∧ NoDup l ∧
    ∀ x, x ∈ l → 0 ≤ x < vsize ps ∧ ∃ s' d', chain ps x r s' d' ∧ (d' ≤ d)%nat.
Proof.
  induction 1 as [j o Hj | j p o r s d Hj Hne Hc (l & Hlen & Hnd & Hl)].
  - exists [j]. split_and!; [done | apply NoDup_singleton |].
    intros x ->%list_elem_of_singleton. split; [by eapply vget_Ok_range|].
    exists o, 0%nat. split; [by constructor | lia].
  - exists (j :: l). split_and!; [simpl; lia | |].
    + apply NoDup_cons. split; [|done]. intros Hin.
      destruct (Hl _ Hin) as (_ & s' & d' & Hc' & Hle).
      destruct (chain_det _ _ _ _ _ _ _ _ Hc' (chain_link _ _ _ _ _ _ _ Hj Hne Hc))
        as (_ & _ & ->). lia.
    + intros x [->|Hin]%elem_of_cons.
      * split; [by eapply vget_Ok_range|]. exists (Z.rem (o + s) 4), (S d).
        split; [by econstructor | lia].
      * destruct (Hl _ Hin) as (? & s' & d' & ? & ?). split; [done|].
        exists s', d'. split; [done | lia].
Qed.

Lemma chain_depth_bound ps j r s d :
  chain ps j r s d → (d < length ps)%nat.
Proof.
  intros (l & Hlen & Hnd & Hl)%chain_nodes.
  assert (l ⊆+ seqZ 0 (vsize ps)) as Hsub.
  { apply NoDup_submseteq; [done|]. intros x Hx. apply elem_of_seqZ.
    destruct (Hl _ Hx) as [? _]. lia. }
  apply submseteq_length in Hsub. rewrite length_seqZ in Hsub.
  unfold vsize in Hsub. lia.
Qed.

Lemma wf_forestb_sound ps : wf_forestb ps = true → wf_forest ps.
Proof.
  unfold wf_forestb. rewrite forallb_forall. intros H.
  assert (∀ j, 0 ≤ j < vsize ps → wf_entryb ps j = true) as H'.
  { intros j Hj. apply H. apply list_elem_of_In, list_elem_of_fmap.
    exists (Z.to_nat j). split; [lia|]. apply elem_of_seq. unfold vsize in Hj. lia. }
  clear H. split.
  - intros j p o Hj. pose proof (vget_Ok_range _ _ _ Hj) as Hr.
    specialize (H' j Hr). unfold wf_entryb in H'. rewrite Hj in H'.
    destruct (get_parents_orient _ _ _); try done.
    by apply bool_decide_eq_true in H'.
  - intros j Hr. specialize (H' j Hr). unfold wf_entryb in H'.
    destruct (vget ps j) as [[p o]| | |]; try done.
    destruct (get_parents_orient _ _ _) as [v| | |] eqn:E; try done.
    apply get_parents_orient_chain in E as (r & d & Hc & Hlt). eauto.
Qed.


(** C9.  On a well-formed forest [get_parents] terminates within
    [length parents] levels of recursion and returns the root [r] that the
    parent chain of [j] ends in; the compressed forest is again well formed,
    and for every index [k] both the root returned by [get_parents] and the
    value of [get_parents_orient] (hence its value mod 4) are what they were
    before the call. *)
Theorem get_parents_compression_preserves (parents : list (Z * Z)) (j : Z) :
  wf_forest parents →
  0 ≤ j < vsize parents →
  ∃ parents' r,
    get_parents (length parents) parents j = Ok (parents', r) ∧
    (∃ s d, chain parents j r s d) ∧
    wf_forest parents' ∧
    length parents' = length parents ∧
    ∀ k, 0 ≤ k < vsize parents →
      ∃ rk o o' p1 p2,
        get_parents (length parents) parents k = Ok (p1, rk) ∧
        get_parents (length parents) parents' k = Ok (p2, rk) ∧
        get_parents_orient (length parents) parents k = Ok o ∧
        get_parents_orient (length parents) parents' k = Ok o' ∧
        o' `mod` 4 = o `mod` 4.
Proof.
  intros [Hg Hch] Hj.
  destruct (Hch j Hj) as (r & s & d & Hc).
  pose proof (chain_depth_bound _ _ _ _ _ Hc) as Hlt.
  destruct (get_parents_spec _ _ _ _ _ _ Hg Hc Hlt)
    as (ps' & Hrun & Hlen & Hg' & _ & _ & Hpres).
  exists ps', r. split_and!; [done | eauto | | done |].
  - split; [done|]. intros k Hk. unfold vsize in Hk. rewrite Hlen in Hk.
    destruct (Hch k Hk) as (rk & sk & dk & Hk1).
    destruct (Hpres _ _ _ _ Hk1) as (dk' & ? & ?).
    exists rk, sk, dk'. done.
  - intros k Hk.
    destruct (Hch k Hk) as (rk & sk & dk & Hk1).
    pose proof (chain_depth_bound _ _ _ _ _ Hk1) as Hk2.
    destruct (Hpres _ _ _ _ Hk1) as (dk' & Hk1' & Hle).
    destruct (get_parents_spec _ _ _ _ _ _ Hg Hk1 Hk2) as (p1 & Hp1 & _).
    destruct (get_parents_spec (length parents) _ _ _ _ _ Hg' Hk1' ltac:(lia))
      as (p2 & Hp2 & _).
    exists rk, sk, sk, p1, p2. split_and!; [done | done | | | done].
    + apply get_parents_orient_chain. eauto.
    + apply get_parents_orient_chain. exists rk, dk'. split; [done | lia].
Qed.

Lemma get_parents_compression_preserves_witness :
  wf_forest [(0, 0); (0, 1); (1, 2); (2, 3); (4, 0)] ∧
  ∃ parents' r,
    get_parents 5 [(0, 0); (0, 1); (1, 2); (2, 3); (4, 0)] 3 = Ok (parents', r) ∧
    (∃ s d, chain [(0, 0); (0, 1); (1, 2); (2, 3); (4, 0)] 3 r s d) ∧
    wf_forest parents' ∧
    length parents' = 5%nat ∧
    ∀ k, 0 ≤ k < 5 →
      ∃ rk o o' p1 p2,
        get_parents 5 [(0, 0); (0, 1); (1, 2); (2, 3); (4, 0)] k = Ok (p1, rk) ∧
        get_parents 5 parents' k = Ok (p2, rk) ∧
        get_parents_orient 5 [(0, 0); (0, 1); (1, 2); (2, 3); (4, 0)] k = Ok o ∧
        get_parents_orient 5 parents' k = Ok o' ∧
        o' `mod` 4 = o `mod` 4.
Proof.
  split.
  - apply wf_forestb_sound. vm_compute. reflexivity.
  - apply (get_parents_compression_preserves [(0, 0); (0, 1); (1, 2); (2, 3); (4, 0)] 3).
    + apply wf_forestb_sound. vm_compute. reflexivity.
    + vm_compute. split; [discriminate | reflexivity].
Defined.

(** ** Loops *)

Lemma for_loop_split {St} (a b : nat) start (body : Z → St → result St) s :
  for_loop (a + b) start body s =
  for_loop a start body s ≫= for_loop b (start + Z.of_nat a) body.
Proof.
  revert start s. induction a as [|a IH]; intros start s; simpl.
  - by rewrite Z.add_0_r.
  - destruct (body start s) as [s'| | |]; simpl; try done.
    rewrite IH. by replace (start + 1 + Z.of_nat a) with (start + Z.pos (Pos.of_succ_nat a)) by lia.
Qed.

Lemma for_loop_snoc {St} (n : nat) start (body : Z → St → result St) s :
  for_loop (S n) start body s =
  for_loop n start body s ≫= body (start + Z.of_nat n).
Proof.
  replace (S n) with (n + 1)%nat by lia. rewrite for_loop_split.
  destruct (for_loop n start body s); simpl; try done.
  by destruct (body _ _).
Qed.

Lemma for_loop_prefix_Ok {St} (a b : nat) start (body : Z → St → result St) s s' :
  for_loop (a + b) start body s = Ok s' →
  ∃ sa, for_loop a start body s = Ok sa ∧
        for_loop b (start + Z.of_nat a) body sa = Ok s'.
Proof. rewrite for_loop_split. intros H. by apply rbind_Ok in H. Qed.

Lemma for_loop_body_Ok {St} (n : nat) start (body : Z → St → result St) s s' i :
  for_loop n start body s = Ok s' →
  start ≤ i < start + Z.of_nat n →
  ∃ si si', for_loop (Z.to_nat (i - start)) start body s = Ok si ∧
            body i si = Ok si' ∧
            for_loop (S (Z.to_nat (i - start))) start body s = Ok si'.
Proof.
  intros H Hi.
  replace n with (S (Z.to_nat (i - start)) + (n - S (Z.to_nat (i - start))))%nat in H by lia.
  apply for_loop_prefix_Ok in H as (si' & H & _).
  pose proof H as H'. rewrite for_loop_snoc in H'.
  apply rbind_Ok in H' as (si & H1 & H2).
  replace (start + Z.of_nat (Z.to_nat (i - start))) with i in H2 by lia.
  eauto.
Qed.

(** ** [BuildEdgeInfo] on a mesh with boundary (C4) *)

Lemma v3_get_Ok_range a k x : v3_get a k = Ok x → 0 ≤ k < 3.
Proof. unfold v3_get. repeat case_decide; try done; lia. Qed.

Lemma BuildEdgeInfo_corner_Ok_E2E F pos_rank pos_index E2E sing i j st st' :
  BuildEdgeInfo_corner F pos_rank pos_index E2E sing i j st = Ok st' →
  ∃ eid, vget E2E (i * 3 + j) = Ok eid ∧ eid ≠ -1.
Proof.
  unfold BuildEdgeInfo_corner. intros H.
  do 8 (apply rbind_Ok in H as (? & _ & H)).
  apply rbind_Ok in H as (eid & He & H).
  apply rbind_Ok in H as (row & _ & H).
  apply rbind_Ok in H as (eID2 & Hget & _).
  exists eid. split; [done|]. intros ->. apply v3_get_Ok_range in Hget.
  change (Z.rem (-1) 3) with (-1) in Hget. lia.
Qed.

(** No run of [BuildEdgeInfo] over a mesh with a boundary half-edge is
    free of out-of-range accesses: the lookup [face_edgeIds[eid / 3][eid % 3]]
    of line 599 is made before [eid] is compared with -1. *)
Lemma BuildEdgeInfo_Ok_closed F pos_rank pos_index E2E sing st :
  BuildEdgeInfo F pos_rank pos_index E2E sing = Ok st →
  ∀ i j, 0 ≤ i < vsize F → 0 ≤ j < 3 → vget E2E (i * 3 + j) ≠ Ok (-1).
Proof.
  unfold BuildEdgeInfo. intros H i j Hi Hj.
  destruct (for_loop_body_Ok _ _ _ _ _ i H) as (si & si' & _ & Hb & _);
    [unfold vsize in Hi; lia|].
  destruct (for_loop_body_Ok _ _ _ _ _ j Hb) as (sj & sj' & _ & Hc & _); [lia|].
  apply BuildEdgeInfo_corner_Ok_E2E in Hc as (eid & -> & Hne). congruence.
Qed.

(** C4 (the code does not do what the claim says).  On the mesh made of a
    single triangle, whose three half-edges are boundary half-edges
    ([E2E = -1]), the first corner already reads [face_edgeIds[0][-1]]:
    [-1 / 3 = 0] and [-1 % 3 = -1] in C++. *)
Theorem BuildEdgeInfo_boundary_triangle_out_of_range :
  BuildEdgeInfo [(0, 1, 2)] [(0, 0, 0)] [[0; 0; 0; 0; 0; 0]] [-1; -1; -1] ∅
  = OutOfRange.
Proof. vm_compute. reflexivity. Qed.

(** ** Orientation singularities (C5, C10) *)

Section OrientationSingularitiesProps.

Context {Vector3d : Type}.
Variable vneg : Vector3d → Vector3d.
Variable index4 : Vector3d → Vector3d → Vector3d → Vector3d → Z * Z.

Local Abbreviation step := (singularity_step vneg index4).
Local Abbreviation idiff q0 n0 q1 n1 :=
  ((index4 q0 n0 q1 n1).2 - (index4 q0 n0 q1 n1).1).
Local Abbreviation edge_index_acc := (edge_index_acc index4).
Local Abbreviation index_equiv := (index_equiv index4).

Lemma singularity_step_other F N f Q S Q' S' :
  step F N f (Q, S) = Ok (Q', S') →
  length Q' = length Q ∧ ∀ g, g ≠ f → S' !! g = S !! g.
Proof.
  unfold singularity_step. intros H.
  apply rbind_Ok in H as (Ff & _ & H).
  apply rbind_Ok in H as (index & _ & H).
  case_decide.
  - apply rbind_Ok in H as (Qn & HQ & [= <- <-]). split.
    + case_decide; [|by injection HQ as <-].
      apply rbind_Ok in HQ as (v0 & _ & HQ). apply rbind_Ok in HQ as (q & _ & HQ).
      by apply vset_length in HQ.
    + intros g Hg. by rewrite lookup_insert_ne.
  - by injection H as <- <-.
Qed.

Lemma singularity_loop_other F N n start Q S Q' S' :
  for_loop n start (step F N) (Q, S) = Ok (Q', S') →
  length Q' = length Q ∧
  ∀ g, g < start ∨ start + Z.of_nat n ≤ g → S' !! g = S !! g.
Proof.
  revert start Q S. induction n as [|n IH]; intros start Q S; simpl.
  - by intros [= <- <-].
  - intros H. apply rbind_Ok in H as ([Q1 S1] & H1 & H).
    apply singularity_step_other in H1 as [Hl1 H1].
    apply IH in H as [Hl H]. split; [congruence|].
    intros g Hg. rewrite H by lia. apply H1. lia.
Qed.

(** C5.  If [ComputeOrientationSingularities] returns, its map has entries
    for faces only, and for every face [f], with [index] the raw sum of the
    three index differences on the [Q] reached when the loop arrives at [f]:
    [f] is recorded, with value [index mod 4], exactly when [index mod 4] is
    1 or 3; and the column of [Q] at vertex [F(0,f)] is negated by that
    iteration exactly when, in addition, [index] is outside [0,3]
    (otherwise the iteration leaves [Q] as it is). *)
Theorem singularities_recorded_iff_odd_index
    (F : list Vector3i) (N Q Q' : list Vector3d) (S : gmap Z Z) :
  ComputeOrientationSingularities vneg index4 F N Q = Ok (Q', S) →
  (∀ f, S !! f ≠ None → 0 ≤ f < vsize F) ∧
  ∀ f, 0 ≤ f < vsize F →
    ∃ Qf Sf Ff index Qn Sn,
      singularities_prefix vneg index4 F N Q (Z.to_nat f) = Ok (Qf, Sf) ∧
      vget F f = Ok Ff ∧
      face_index index4 Qf N Ff = Ok index ∧
      S !! f = (if decide (index `mod` 4 = 1 ∨ index `mod` 4 = 3)
                then Some (index `mod` 4) else None) ∧
      singularities_prefix vneg index4 F N Q (Datatypes.S (Z.to_nat f)) = Ok (Qn, Sn) ∧
      ((index `mod` 4 = 1 ∨ index `mod` 4 = 3) ∧ (index < 0 ∨ 3 < index) →
         ∃ v0 q, v3_get Ff 0 = Ok v0 ∧ vget Qf v0 = Ok q ∧
                 Qn = <[Z.to_nat v0 := vneg q]> Qf) ∧
      (¬ ((index `mod` 4 = 1 ∨ index `mod` 4 = 3) ∧ (index < 0 ∨ 3 < index)) →
         Qn = Qf).
Proof.
  unfold ComputeOrientationSingularities, singularities_prefix. intros Hrun. split.
  - intros f Hf. destruct (decide (0 ≤ f < vsize F)) as [|Hout]; [done|].
    exfalso. apply Hf.
    apply singularity_loop_other in Hrun as [_ ->]; [done | unfold vsize in Hout; lia].
  - intros f Hf.
    destruct (for_loop_body_Ok _ _ _ _ _ f Hrun) as ([Qf Sf] & [Qn Sn] & Hpre & Hb & Hpost);
      [unfold vsize in Hf; lia|].
    rewrite Z.sub_0_r in Hpre, Hpost.
    assert (S !! f = Sn !! f) as HS.
    { replace (length F) with (Datatypes.S (Z.to_nat f) + (length F - Datatypes.S (Z.to_nat f)))%nat
        in Hrun by (unfold vsize in Hf; lia).
      apply for_loop_prefix_Ok in Hrun as (sa & Ha & Hrest).
      rewrite Hpost in Ha. injection Ha as <-.
      apply singularity_loop_other in Hrest as [_ ->]; [done | lia]. }
    assert (Sf !! f = None) as HSf.
    { apply singularity_loop_other in Hpre as [_ ->]; [done | lia]. }
    unfold singularity_step in Hb.
    apply rbind_Ok in Hb as (Ff & HFf & Hb).
    apply rbind_Ok in Hb as (index & Hidx & Hb).
    exists Qf, Sf, Ff, index, Qn, Sn. unfold modulo in Hb.
    split_and!; [done | done | done | | done | |].
    + rewrite HS. case_decide.
      * apply rbind_Ok in Hb as (? & _ & [= _ <-]). by rewrite lookup_insert_eq.
      * by injection Hb as _ <-.
    + intros [Hodd Hrange]. rewrite decide_True in Hb by done.
      apply rbind_Ok in Hb as (Q1 & HQ & [= <- _]).
      rewrite decide_True in HQ by lia.
      apply rbind_Ok in HQ as (v0 & Hv0 & HQ). apply rbind_Ok in HQ as (q & Hq & HQ).
      exists v0, q. split_and!; [done..|].
      unfold vset in HQ. case_decide; [|done]. by injection HQ as <-.
    + intros Hno. case_decide as Hodd.
      * apply rbind_Ok in Hb as (Q1 & HQ & [= <- _]).
        rewrite decide_False in HQ by lia. by injection HQ as <-.
      * by injection Hb as <- _.
Qed.

Lemma mod4_zero_multiple x : x `mod` 4 = 0 → ∃ t, x = 4 * t.
Proof. intros H. exists (x `div` 4). pose proof (Z.div_mod x 4). lia. Qed.

Lemma mod4_shift i t : (i + 4 * t) `mod` 4 = i `mod` 4.
Proof. by rewrite (Z.mul_comm 4 t), Z_mod_plus_full. Qed.

Lemma face_index_unfold Q N a b c :
  face_index index4 Q N (a, b, c) =
  (x ← edge_index_acc Q N a b 0; y ← edge_index_acc Q N b c x;
   z ← edge_index_acc Q N c a y; Ok z).
Proof. reflexivity. Qed.

Lemma edge_index_acc_Ok Q N i j acc r :
  edge_index_acc Q N i j acc = Ok r ↔
  ∃ qi ni qj nj, vget Q i = Ok qi ∧ vget N i = Ok ni ∧
                 vget Q j = Ok qj ∧ vget N j = Ok nj ∧
                 r = acc + idiff qi ni qj nj.
Proof.
  unfold edge_index_acc. split.
  - intros H.
    apply rbind_Ok in H as (qi & ? & H). apply rbind_Ok in H as (ni & ? & H).
    apply rbind_Ok in H as (qj & ? & H). apply rbind_Ok in H as (nj & ? & H).
    injection H as <-. exists qi, ni, qj, nj. done.
  - intros (qi & ni & qj & nj & -> & -> & -> & -> & ->). done.
Qed.

Lemma face_index_Ok Q N a b c i :
  face_index index4 Q N (a, b, c) = Ok i ↔
  ∃ qa na qb nb qc nc,
    vget Q a = Ok qa ∧ vget N a = Ok na ∧
    vget Q b = Ok qb ∧ vget N b = Ok nb ∧
    vget Q c = Ok qc ∧ vget N c = Ok nc ∧
    i = idiff qa na qb nb + idiff qb nb qc nc + idiff qc nc qa na.
Proof.
  rewrite face_index_unfold. split.
  - intros H.
    apply rbind_Ok in H as (x & Hx & H). apply rbind_Ok in H as (y & Hy & H).
    apply rbind_Ok in H as (z & Hz & [= <-]).
    apply edge_index_acc_Ok in Hx as (qa & na & qb & nb & Ha & Hna & Hb & Hnb & ->).
    apply edge_index_acc_Ok in Hy as (qb' & nb' & qc & nc & Hb' & Hnb' & Hc & Hnc & ->).
    apply edge_index_acc_Ok in Hz as (qc' & nc' & qa' & na' & Hc' & Hnc' & Ha' & Hna' & ->).
    assert (qb' = qb) as -> by congruence. assert (nb' = nb) as -> by congruence.
    assert (qc' = qc) as -> by congruence. assert (nc' = nc) as -> by congruence.
    assert (qa' = qa) as -> by congruence. assert (na' = na) as -> by congruence.
    exists qa, na, qb, nb, qc, nc. split_and!; [done..|lia].
  - intros (qa & na & qb & nb & qc & nc & Ha & Hna & Hb & Hnb & Hc & Hnc & ->).
    assert (∀ acc, edge_index_acc Q N a b acc = Ok (acc + idiff qa na qb nb)) as E1
      by (intros; apply edge_index_acc_Ok; eauto 10).
    assert (∀ acc, edge_index_acc Q N b c acc = Ok (acc + idiff qb nb qc nc)) as E2
      by (intros; apply edge_index_acc_Ok; eauto 10).
    assert (∀ acc, edge_index_acc Q N c a acc = Ok (acc + idiff qc nc qa na)) as E3
      by (intros; apply edge_index_acc_Ok; eauto 10).
    rewrite E1, rbind_Ok_l, E2, rbind_Ok_l, E3, rbind_Ok_l. f_equal; lia.
Qed.

Lemma vget_Ok_same_length {A} (v v' : list A) i x :
  length v = length v' → vget v i = Ok x → ∃ x', vget v' i = Ok x'.
Proof.
  intros Hl H. apply vget_Ok_range in H. apply vget_in_range.
  unfold vsize in *. lia.
Qed.

Lemma face_index_Ok_same_length N Q Q' Ff i :
  length Q = length Q' → face_index index4 Q N Ff = Ok i →
  ∃ i', face_index index4 Q' N Ff = Ok i'.
Proof.
  destruct Ff as [[a b] c]. intros Hl H.
  apply face_index_Ok in H as (qa & na & qb & nb & qc & nc & Ha & ? & Hb & ? & Hc & ? & _).
  destruct (vget_Ok_same_length _ _ _ _ Hl Ha) as [qa' ?].
  destruct (vget_Ok_same_length _ _ _ _ Hl Hb) as [qb' ?].
  destruct (vget_Ok_same_length _ _ _ _ Hl Hc) as [qc' ?].
  eexists. apply face_index_Ok. exists qa', na, qb', nb, qc', nc. done.
Qed.

Lemma index_equiv_refl N Q : index_equiv N Q Q.
Proof. split; [done|]. eauto. Qed.

Lemma index_equiv_sym N Q Q' : index_equiv N Q Q' → index_equiv N Q' Q.
Proof.
  intros [Hl H]. split; [done|]. intros Ff i' Hi'.
  destruct (face_index_Ok_same_length N Q' Q Ff i' (eq_sym Hl) Hi') as [i Hi].
  destruct (H _ _ Hi) as (i'' & Hi'' & Heq).
  rewrite Hi' in Hi''. injection Hi'' as <-. eauto.
Qed.

Lemma index_equiv_trans N Q1 Q2 Q3 :
  index_equiv N Q1 Q2 → index_equiv N Q2 Q3 → index_equiv N Q1 Q3.
Proof.
  intros [Hl1 H1] [Hl2 H2]. split; [congruence|]. intros Ff i Hi.
  destruct (H1 _ _ Hi) as (i2 & Hi2 & E2).
  destruct (H2 _ _ Hi2) as (i3 & Hi3 & E3).
  exists i3. split; [done | congruence].
Qed.

Section Flip.

(** What the claim takes for granted about the index function, which is
    not among the sources: negating either tangent (a rotation by 180
    degrees) moves the 4-way index difference of the pair by 2 modulo 4. *)
Hypothesis index_flip_first : ∀ q0 n0 q1 n1,
  (idiff (vneg q0) n0 q1 n1 - idiff q0 n0 q1 n1 - 2) `mod` 4 = 0.
Hypothesis index_flip_second : ∀ q0 n0 q1 n1,
  (idiff q0 n0 (vneg q1) n1 - idiff q0 n0 q1 n1 - 2) `mod` 4 = 0.

Lemma flipped_edge_index Q v0 q a b qa qb na nb :
  vget Q v0 = Ok q → vget Q a = Ok qa → vget Q b = Ok qb →
  ∃ qa' qb' t,
    vget (<[Z.to_nat v0 := vneg q]> Q) a = Ok qa' ∧
    vget (<[Z.to_nat v0 := vneg q]> Q) b = Ok qb' ∧
    idiff qa' na qb' nb =
      idiff qa na qb nb
      + 2 * ((if decide (a = v0) then 1 else 0) + (if decide (b = v0) then 1 else 0))
      + 4 * t.
Proof.
  intros Hv Ha Hb. pose proof (vget_Ok_range _ _ _ Hv) as Hr.
  destruct (decide (a = v0)) as [->|Ha0], (decide (b = v0)) as [->|Hb0].
  - assert (qa = q) as -> by congruence. assert (qb = q) as -> by congruence.
    destruct (mod4_zero_multiple _ (index_flip_first q na (vneg q) nb)) as [t1 H1].
    destruct (mod4_zero_multiple _ (index_flip_second q na q nb)) as [t2 H2].
    exists (vneg q), (vneg q), (t1 + t2). rewrite !vget_insert_eq by done.
    split_and!; [done..|lia].
  - assert (qa = q) as -> by congruence.
    destruct (mod4_zero_multiple _ (index_flip_first q na qb nb)) as [t1 H1].
    exists (vneg q), qb, t1. rewrite vget_insert_eq by done.
    rewrite vget_insert_ne by lia. split_and!; [done..|lia].
  - assert (qb = q) as -> by congruence.
    destruct (mod4_zero_multiple _ (index_flip_second qa na q nb)) as [t1 H1].
    exists qa, (vneg q), t1. rewrite vget_insert_eq by done.
    rewrite vget_insert_ne by lia. split_and!; [done..|lia].
  - exists qa, qb, 0. rewrite !vget_insert_ne by lia. split_and!; [done..|lia].
Qed.

(** A 180-degree flip of one column changes every face's raw index sum by a
    multiple of 4. *)
Lemma index_equiv_flip N Q v0 q :
  vget Q v0 = Ok q → index_equiv N Q (<[Z.to_nat v0 := vneg q]> Q).
Proof.
  intros Hv. split; [by rewrite length_insert|].
  intros [[a b] c] i H.
  apply face_index_Ok in H as (qa & na & qb & nb & qc & nc & Ha & Hna & Hb & Hnb & Hc & Hnc & ->).
  destruct (flipped_edge_index Q v0 q a b qa qb na nb Hv Ha Hb) as (qa1 & qb1 & t1 & Ea1 & Eb1 & H1).
  destruct (flipped_edge_index Q v0 q b c qb qc nb nc Hv Hb Hc) as (qb2 & qc2 & t2 & Eb2 & Ec2 & H2).
  destruct (flipped_edge_index Q v0 q c a qc qa nc na Hv Hc Ha) as (qc3 & qa3 & t3 & Ec3 & Ea3 & H3).
  assert (qb2 = qb1) as -> by congruence.
  assert (qc3 = qc2) as -> by congruence.
  assert (qa3 = qa1) as -> by congruence.
  eexists. split.
  - apply face_index_Ok. exists qa1, na, qb1, nb, qc2, nc. done.
  - rewrite H1, H2, H3.
    rewrite <- (mod4_shift (idiff qa na qb nb + idiff qb nb qc nc + idiff qc nc qa na)
      (t1 + t2 + t3 + (if decide (a = v0) then 1 else 0)
       + (if decide (b = v0) then 1 else 0) + (if decide (c = v0) then 1 else 0))).
    f_equal. lia.
Qed.

Lemma singularity_step_equiv F N f Q S Q' S' :
  step F N f (Q, S) = Ok (Q', S') → index_equiv N Q Q'.
Proof.
  unfold singularity_step. intros H.
  apply rbind_Ok in H as (Ff & _ & H).
  apply rbind_Ok in H as (index & _ & H).
  case_decide; [|injection H as <- _; apply index_equiv_refl].
  apply rbind_Ok in H as (Qn & HQ & [= <- _]).
  case_decide; [|injection HQ as <-; apply index_equiv_refl].
  apply rbind_Ok in HQ as (v0 & _ & HQ). apply rbind_Ok in HQ as (q & Hq & HQ).
  unfold vset in HQ. case_decide; [|done]. injection HQ as <-.
  by apply index_equiv_flip.
Qed.

Lemma singularity_step_simulation F N f Qa Qb S Qa' S' :
  index_equiv N Qa Qb →
  step F N f (Qa, S) = Ok (Qa', S') →
  ∃ Qb', step F N f (Qb, S) = Ok (Qb', S') ∧ index_equiv N Qa' Qb'.
Proof.
  intros Heq Ha. pose proof (singularity_step_equiv _ _ _ _ _ _ _ Ha) as Haa.
  unfold singularity_step in Ha |- *.
  apply rbind_Ok in Ha as (Ff & HFf & Ha).
  apply rbind_Ok in Ha as (ia & Hia & Ha).
  destruct Heq as [Hl Heq]. destruct (Heq _ _ Hia) as (ib & Hib & Hmod).
  rewrite HFf. simpl. rewrite Hib. simpl.
  unfold modulo in *. rewrite Hmod.
  assert (index_equiv N Qa Qb) as Hab by (split; done).
  case_decide as Hodd.
  - apply rbind_Ok in Ha as (Qn & _ & [= <- <-]).
    case_decide as Hflip.
    + destruct Ff as [[a b] c].
      apply face_index_Ok in Hib as (qa & _ & _ & _ & _ & _ & Hqa & _).
      change (v3_get (a, b, c) 0) with (Ok (A:=Z) a). simpl. rewrite Hqa. simpl.
      rewrite vset_in_range by (eapply vget_Ok_range; eauto). simpl.
      eexists. split; [done|].
      eapply index_equiv_trans; [apply index_equiv_sym, Haa|].
      eapply index_equiv_trans; [apply Hab|]. by apply index_equiv_flip.
    + simpl. eexists. split; [done|].
      eapply index_equiv_trans; [apply index_equiv_sym, Haa | apply Hab].
  - injection Ha as <- <-. eexists. split; [done|]. done.
Qed.

Lemma singularity_loop_simulation F N n start Qa Qb S Qa' S' :
  index_equiv N Qa Qb →
  for_loop n start (step F N) (Qa, S) = Ok (Qa', S') →
  ∃ Qb', for_loop n start (step F N) (Qb, S) = Ok (Qb', S') ∧
         index_equiv N Qa' Qb'.
Proof.
  revert start Qa Qb S. induction n as [|n IH]; intros start Qa Qb S Heq; cbn [for_loop].
  - intros [= <- <-]. eauto.
  - intros H. apply rbind_Ok in H as ([Qa1 S1] & H1 & H).
    destruct (singularity_step_simulation _ _ _ _ _ _ _ _ Heq H1) as (Qb1 & -> & Heq1).
    rewrite rbind_Ok_l. eapply IH; eauto.
Qed.

Lemma singularity_loop_equiv F N n start Q S Q' S' :
  for_loop n start (step F N) (Q, S) = Ok (Q', S') → index_equiv N Q Q'.
Proof.
  revert start Q S. induction n as [|n IH]; intros start Q S; simpl.
  - intros [= <- <-]. apply index_equiv_refl.
  - intros H. apply rbind_Ok in H as ([Q1 S1] & H1 & H).
    eapply index_equiv_trans; [by eapply singularity_step_equiv | by eapply IH].
Qed.

(** C10.  Provided negating a tangent moves the index difference of a pair
    by 2 modulo 4, a second run of [ComputeOrientationSingularities], on
    the [Q] left by the first, returns as well and builds the identical
    [singularities] map. *)
Theorem singularities_idempotent
    (F : list Vector3i) (N Q Q1 : list Vector3d) (S1 : gmap Z Z) :
  ComputeOrientationSingularities vneg index4 F N Q = Ok (Q1, S1) →
  ∃ Q2, ComputeOrientationSingularities vneg index4 F N Q1 = Ok (Q2, S1).
Proof.
  unfold ComputeOrientationSingularities. intros H.
  pose proof (singularity_loop_equiv _ _ _ _ _ _ _ _ H) as Heq.
  destruct (singularity_loop_simulation _ _ _ _ _ _ _ _ _ Heq H) as (Q2 & H2 & _).
  eauto.
Qed.

End Flip.

End OrientationSingularitiesProps.

(** ** The hole-filling loop (C8) *)

Lemma vget_kind {A} (v : list A) i : (∃ x, vget v i = Ok x) ∨ vget v i = OutOfRange.
Proof.
  unfold vget. case_decide; [|by right].
  destruct (v !! Z.to_nat i); [left; eauto | by right].
Qed.

Lemma vget_out_of_range {A} (v : list A) i :
  ¬ (0 ≤ i < vsize v) → vget v i = OutOfRange.
Proof.
  intros H. destruct (vget_kind v i) as [[x Hx]|]; [|done].
  apply vget_Ok_range in Hx. done.
Qed.

Lemma verase_kind {A} (v : list A) i :
  (∃ v', verase v i = Ok v' ∧ length v = S (length v')) ∨ verase v i = OutOfRange.
Proof.
  unfold verase, vsize. case_decide as H; [|by right]. left. eexists. split; [done|].
  rewrite length_delete; [lia|]. apply lookup_lt_is_Some_2. lia.
Qed.

Section FixHolesProps.

Context {Vector3d : Type}.
Variable norm_sub : Vector3d → Vector3d → Qc.
Variable O_compact : list Vector3d.
Variable directed_edges : gset Z.
Variable numV : Z.

Local Abbreviation scan := (scan_step norm_sub O_compact).
Local Abbreviation fill := (fill_loop norm_sub O_compact directed_edges numV).

Lemma scan_step_kind lv les i st :
  (∃ st', scan lv les i st = Ok st') ∨ scan lv les i st = OutOfRange.
Proof.
  unfold scan_step. destruct st as [m v].
  destruct (vget_kind lv i) as [[v1 ->]| ->]; [rewrite rbind_Ok_l|by right].
  destruct (vget_kind lv (Z.rem (i + 3) les)) as [[v2 ->]| ->];
    [rewrite rbind_Ok_l|by right].
  destruct (vget_kind O_compact v1) as [[o1 ->]| ->]; [rewrite rbind_Ok_l|by right].
  destruct (vget_kind O_compact v2) as [[o2 ->]| ->]; [rewrite rbind_Ok_l|by right].
  case_decide; left; eauto.
Qed.

Lemma scan_kind lv les n start st :
  (∃ st', for_loop n start (scan lv les) st = Ok st') ∨
  for_loop n start (scan lv les) st = OutOfRange.
Proof.
  revert start st. induction n as [|n IH]; intros start st; cbn [for_loop].
  - left. eauto.
  - destruct (scan_step_kind lv les start st) as [[st' ->]| ->]; [|by right].
    rewrite rbind_Ok_l. apply IH.
Qed.

Lemma scan_step_v_start lv les i m v m' v' :
  scan lv les i (m, v) = Ok (m', v') → v' = v ∨ v' = i.
Proof.
  unfold scan_step. intros H.
  do 4 (apply rbind_Ok in H as (? & _ & H)).
  case_decide; injection H as <- <-; auto.
Qed.

Lemma scan_v_start lv les n start m v m' v' :
  for_loop n start (scan lv les) (m, v) = Ok (m', v') →
  v' = v ∨ start ≤ v' < start + Z.of_nat n.
Proof.
  revert start m v. induction n as [|n IH]; intros start m v; cbn [for_loop].
  - intros [= <- <-]. by left.
  - intros H. apply rbind_Ok in H as ([m1 v1] & H1 & H).
    apply scan_step_v_start in H1. apply IH in H. lia.
Qed.

(** Once the loop holds fewer vertices than [loop_edge] has edges, the scan
    walks off its end. *)
Lemma scan_short_loop_out_of_range lv les st :
  0 ≤ vsize lv < les →
  for_loop (Z.to_nat les) 0 (scan lv les) st = OutOfRange.
Proof.
  intros Hlen.
  destruct (scan_kind lv les (Z.to_nat les) 0 st) as [[st' H]|]; [|done].
  exfalso.
  destruct (for_loop_body_Ok _ _ _ _ _ (vsize lv) H) as ([m v] & si' & _ & Hb & _); [lia|].
  unfold scan_step in Hb. apply rbind_Ok in Hb as (v1 & Hv1 & _).
  apply vget_Ok_range in Hv1. lia.
Qed.

(** C8 (the code does not do what the claim says).  On every boundary loop
    of seven or more vertices the second round of the greedy loop reads
    [loop_vertices] out of range, whatever the positions are: the scan of
    lines 1046-1048 still runs over, and reduces modulo, [loop_edge.size()],
    the length the loop had before any vertex was removed. *)
Theorem fill_loop_seven_or_more_out_of_range
    (fuel : nat) (loop_vertices : list Z) (F_compact : list Vector4i) :
  7 ≤ vsize loop_vertices →
  fill (S (S fuel)) (vsize loop_vertices) loop_vertices F_compact = OutOfRange.
Proof.
  intros Hn.
  assert (loop_vertices ≠ []) as Hne by (intros ->; unfold vsize in Hn; simpl in Hn; lia).
  cbn [fill_loop]. cbv zeta.
  set (n := vsize loop_vertices) in *.
  rewrite decide_False by done. rewrite decide_False by lia.
  destruct (scan_kind loop_vertices n (Z.to_nat n) 0 (min_dis_init, -1))
    as [[[m v_start] Hscan]| ->]; [|done].
  rewrite Hscan, rbind_Ok_l.
  destruct (vget_kind loop_vertices v_start) as [[a ->]| ->]; [rewrite rbind_Ok_l|done].
  destruct (vget_kind loop_vertices (Z.rem (v_start + 1) n)) as [[b ->]| ->];
    [rewrite rbind_Ok_l|done].
  destruct (vget_kind loop_vertices (Z.rem (v_start + 2) n)) as [[c ->]| ->];
    [rewrite rbind_Ok_l|done].
  destruct (vget_kind loop_vertices (Z.rem (v_start + 3) n)) as [[d ->]| ->];
    [rewrite rbind_Ok_l|done].
  destruct (decide (Z.rem (v_start + 1) n > Z.rem (v_start + 2) n)).
  - destruct (verase_kind loop_vertices (Z.rem (v_start + 1) n)) as [(lv1 & -> & Hl1)| ->]; [|done].
    rewrite rbind_Ok_l.
    destruct (verase_kind lv1 (Z.rem (v_start + 2) n)) as [(lv2 & -> & Hl2)| ->]; [|done].
    rewrite rbind_Ok_l.
    assert (vsize lv2 = n - 2) as Hsz by (unfold n, vsize in *; lia).
    assert (lv2 ≠ []) as Hne2 by (intros ->; unfold vsize in Hsz; simpl in Hsz; lia).
    cbn [fill_loop]. cbv zeta.
    rewrite decide_False by done. rewrite decide_False by lia.
    rewrite scan_short_loop_out_of_range by lia. done.
  - destruct (verase_kind loop_vertices (Z.rem (v_start + 2) n)) as [(lv1 & -> & Hl1)| ->]; [|done].
    rewrite rbind_Ok_l.
    destruct (verase_kind lv1 (Z.rem (v_start + 1) n)) as [(lv2 & -> & Hl2)| ->]; [|done].
    rewrite rbind_Ok_l.
    assert (vsize lv2 = n - 2) as Hsz by (unfold n, vsize in *; lia).
    assert (lv2 ≠ []) as Hne2 by (intros ->; unfold vsize in Hsz; simpl in Hsz; lia).
    cbn [fill_loop]. cbv zeta.
    rewrite decide_False by done. rewrite decide_False by lia.
    rewrite scan_short_loop_out_of_range by lia. done.
Qed.

(** Loops of three and of four vertices: one quad each. *)
Lemma fill_loop_three fuel a b c F_compact :
  fill (S fuel) 3 [a; b; c] F_compact =
  Ok (push_quad directed_edges numV F_compact (a, b, c, c)).
Proof. reflexivity. Qed.

Lemma fill_loop_four fuel a b c d F_compact :
  fill (S fuel) 4 [a; b; c; d] F_compact =
  Ok (push_quad directed_edges numV F_compact (a, b, c, d)).
Proof. reflexivity. Qed.

End FixHolesProps.

Lemma fill_loop_seven_or_more_out_of_range_witness :
  7 ≤ vsize [0; 1; 2; 3; 4; 5; 6] ∧
  fill_loop ex_norm_sub [0; 10; 20; 30; 40; 50; 60] ∅ 7 2 7 [0; 1; 2; 3; 4; 5; 6] []
  = OutOfRange.
Proof.
  split; [vm_compute; discriminate|].
  apply (fill_loop_seven_or_more_out_of_range ex_norm_sub
           [0; 10; 20; 30; 40; 50; 60] ∅ 7 0 [0; 1; 2; 3; 4; 5; 6] []).
  vm_compute. discriminate.
Defined.

Lemma ex_index4_flip_first q0 n0 q1 n1 :
  ((ex_index4 (ex_vneg q0) n0 q1 n1).2 - (ex_index4 (ex_vneg q0) n0 q1 n1).1
   - ((ex_index4 q0 n0 q1 n1).2 - (ex_index4 q0 n0 q1 n1).1) - 2) `mod` 4 = 0.
Proof. unfold ex_index4, ex_vneg. simpl. Z.div_mod_to_equations. lia. Qed.

Lemma ex_index4_flip_second q0 n0 q1 n1 :
  ((ex_index4 q0 n0 (ex_vneg q1) n1).2 - (ex_index4 q0 n0 (ex_vneg q1) n1).1
   - ((ex_index4 q0 n0 q1 n1).2 - (ex_index4 q0 n0 q1 n1).1) - 2) `mod` 4 = 0.
Proof. unfold ex_index4, ex_vneg. simpl. Z.div_mod_to_equations. lia. Qed.

Lemma singularities_recorded_iff_odd_index_witness :
  ComputeOrientationSingularities ex_vneg ex_index4 ex_F ex_N ex_Q
    = Ok ([4; 1; 3; 0], <[1 := 1]> (<[0 := 1]> ∅)) ∧
  ∃ Qf Sf Ff index Qn Sn,
    singularities_prefix ex_vneg ex_index4 ex_F ex_N ex_Q 0 = Ok (Qf, Sf) ∧
    vget ex_F 0 = Ok Ff ∧
    face_index ex_index4 Qf ex_N Ff = Ok index ∧
    (<[1 := 1]> (<[0 := 1]> ∅) : gmap Z Z) !! 0 =
      (if decide (index `mod` 4 = 1 ∨ index `mod` 4 = 3)
       then Some (index `mod` 4) else None) ∧
    singularities_prefix ex_vneg ex_index4 ex_F ex_N ex_Q 1 = Ok (Qn, Sn) ∧
    ((index `mod` 4 = 1 ∨ index `mod` 4 = 3) ∧ (index < 0 ∨ 3 < index) →
       ∃ v0 q, v3_get Ff 0 = Ok v0 ∧ vget Qf v0 = Ok q ∧
               Qn = <[Z.to_nat v0 := ex_vneg q]> Qf) ∧
    (¬ ((index `mod` 4 = 1 ∨ index `mod` 4 = 3) ∧ (index < 0 ∨ 3 < index)) →
       Qn = Qf).
Proof.
  assert (ComputeOrientationSingularities ex_vneg ex_index4 ex_F ex_N ex_Q
          = Ok ([4; 1; 3; 0], <[1 := 1]> (<[0 := 1]> ∅))) as Hrun
    by (vm_compute; reflexivity).
  split; [exact Hrun|].
  destruct (singularities_recorded_iff_odd_index ex_vneg ex_index4 _ _ _ _ _ Hrun)
    as [_ H].
  apply (H 0). vm_compute. split; [discriminate | reflexivity].
Defined.

Lemma singularities_idempotent_witness :
  ComputeOrientationSingularities ex_vneg ex_index4 ex_F ex_N ex_Q
    = Ok ([4; 1; 3; 0], <[1 := 1]> (<[0 := 1]> ∅)) ∧
  ∃ Q2, ComputeOrientationSingularities ex_vneg ex_index4 ex_F ex_N [4; 1; 3; 0]
    = Ok (Q2, <[1 := 1]> (<[0 := 1]> ∅)).
Proof.
  assert (ComputeOrientationSingularities ex_vneg ex_index4 ex_F ex_N ex_Q
          = Ok ([4; 1; 3; 0], <[1 := 1]> (<[0 := 1]> ∅))) as Hrun
    by (vm_compute; reflexivity).
  split; [exact Hrun|].
  exact (singularities_idempotent ex_vneg ex_index4
           ex_index4_flip_first ex_index4_flip_second _ _ _ _ _ Hrun).
Defined.

(** ** The randomized perturbation (C6) *)

Lemma v2_get_Ok_range a k x : v2_get a k = Ok x → 0 ≤ k < 2.
Proof. unfold v2_get. repeat case_decide; try done; lia. Qed.

Lemma diff_component_Ok_range ed v c :
  diff_component ed v = Ok c → 0 ≤ v < 2 * vsize ed.
Proof.
  unfold diff_component. intros H. apply rbind_Ok in H as (e & He & H).
  apply vget_Ok_range in He. apply v2_get_Ok_range in H.
  pose proof (Z.quot_rem' v 2). lia.
Qed.

Lemma diff_component_in_range ed v :
  0 ≤ v < 2 * vsize ed → ∃ c, diff_component ed v = Ok c.
Proof.
  intros Hv. unfold diff_component.
  pose proof (Z.quot_rem' v 2) as Hqr.
  pose proof (Z.rem_bound_pos v 2 ltac:(lia) ltac:(lia)) as Hr.
  destruct (vget_in_range ed (Z.quot v 2)) as [e ->]; [lia|].
  rewrite rbind_Ok_l. unfold v2_get. repeat case_decide; eauto. lia.
Qed.

Lemma diff_component_unit_range ed v c :
  Forall in_unit_range ed → diff_component ed v = Ok c → -1 ≤ c ≤ 1.
Proof.
  intros Hall H. unfold diff_component in H. apply rbind_Ok in H as (e & He & H).
  assert (in_unit_range e) as [? ?].
  { unfold vget in He. case_decide; [|done].
    destruct (ed !! Z.to_nat (Z.quot v 2)) eqn:E; [|done]. injection He as ->.
    eapply Forall_lookup_1; eauto. }
  unfold v2_get in H. repeat case_decide; try done; injection H as <-; lia.
Qed.

Lemma component_value_Ok ed v c :
  diff_component ed v = Ok c → component_value ed v = c.
Proof. unfold component_value. by intros ->. Qed.

(** Adding [δ] to the component [v] changes that component and no other. *)
Lemma perturb_component ed v δ c :
  diff_component ed v = Ok c →
  ∃ ed',
    (e ← vget ed (Z.quot v 2); c ← v2_get e (Z.rem v 2);
     e' ← v2_set e (Z.rem v 2) (c + δ); vset ed (Z.quot v 2) e') = Ok ed' ∧
    length ed' = length ed ∧
    diff_component ed' v = Ok (c + δ) ∧
    ∀ w, w ≠ v → diff_component ed' w = diff_component ed w.
Proof.
  intros H. pose proof (diff_component_Ok_range _ _ _ H) as Hv.
  unfold diff_component in H |- *. apply rbind_Ok in H as (e & He & H).
  pose proof (vget_Ok_range _ _ _ He) as Hq.
  pose proof (v2_get_Ok_range _ _ _ H) as Hr.
  rewrite He, rbind_Ok_l, H, rbind_Ok_l.
  destruct e as [x y].
  assert (∃ e', v2_set (x, y) (Z.rem v 2) (c + δ) = Ok e' ∧
                v2_get e' (Z.rem v 2) = Ok (c + δ) ∧
                ∀ k, k ≠ Z.rem v 2 → v2_get e' k = v2_get (x, y) k) as (e' & -> & Hget & Hoth).
  { unfold v2_set, v2_get in *. repeat case_decide; try lia; eexists; split_and!; try done;
      intros k Hk; repeat case_decide; try done; lia. }
  rewrite rbind_Ok_l, vset_in_range by done.
  eexists. split_and!; [done | by rewrite length_insert | |].
  - rewrite vget_insert_eq by done. by rewrite rbind_Ok_l.
  - intros w Hw. destruct (decide (Z.quot w 2 = Z.quot v 2)) as [E|E].
    + rewrite E, vget_insert_eq, He, !rbind_Ok_l by done.
      apply Hoth. pose proof (Z.quot_rem' v 2). pose proof (Z.quot_rem' w 2). lia.
    + by rewrite vget_insert_ne by lia.
Qed.

(** *** [total_flow] is the sum of net sign times component *)

Lemma flow_sum_insert ed start (vars : list (Vector2i * Z)) k var p sj :
  vars !! k = Some var →
  flow_sum ed start (<[k := (p, var.2 + sj)]> vars) =
  flow_sum ed start vars + sj * component_value ed (start + Z.of_nat k).
Proof.
  revert start k. induction vars as [|x vs IH]; intros start k Hk; [done|].
  destruct k as [|k].
  - simpl in *. injection Hk as ->. rewrite Z.add_0_r. lia.
  - change (<[S k := (p, var.2 + sj)]> (x :: vs)) with (x :: <[k := (p, var.2 + sj)]> vs).
    change ((x :: vs) !! S k) with (vs !! k) in Hk.
    cbn [flow_sum]. rewrite (IH (start + 1) k Hk).
    replace (start + 1 + Z.of_nat k) with (start + Z.of_nat (S k)) by lia. lia.
Qed.

Lemma flow_sum_replicate_zero ed start n p :
  flow_sum ed start (replicate n (p, 0)) = 0.
Proof. revert start. induction n as [|n IH]; intros start; simpl; [done|]. by rewrite IH. Qed.

Lemma variables_entry_flow ed index sign i j vars vars' :
  variables_entry index sign i j vars = Ok vars' →
  ∃ ij sj, v3_get index j = Ok ij ∧ v3_get sign j = Ok sj ∧
    length vars' = length vars ∧
    flow_sum ed 0 vars' = flow_sum ed 0 vars + sj * component_value ed ij.
Proof.
  unfold variables_entry. intros H.
  apply rbind_Ok in H as (ij & Hij & H). apply rbind_Ok in H as (sj & Hsj & H).
  apply rbind_Ok in H as (var & Hvar & H).
  pose proof (vget_Ok_range _ _ _ Hvar) as Hr.
  rewrite vset_in_range in H by done. injection H as <-.
  exists ij, sj. split_and!; [done | done | by rewrite length_insert |].
  rewrite flow_sum_insert with (var := var).
  - by rewrite Z.add_0_l, Z2Nat.id by lia.
  - unfold vget in Hvar. rewrite decide_True in Hvar by lia.
    by destruct (vars !! Z.to_nat ij) as [x|]; [injection Hvar as ->|].
Qed.

Lemma variables_row_flow ci cs ed i vars tf vars' tf' :
  variables_row ci cs ed i (vars, tf) = Ok (vars', tf') →
  length vars' = length vars ∧
  tf' - flow_sum ed 0 vars' = tf - flow_sum ed 0 vars.
Proof.
  unfold variables_row. intros H.
  apply rbind_Ok in H as ([[i0 i1] i2] & _ & H).
  apply rbind_Ok in H as ([[s0 s1] s2] & _ & H).
  apply rbind_Ok in H as (diff & Hdiff & H).
  apply rbind_Ok in H as (vars3 & Hloop & [= <- <-]).
  unfold constraint_residual in Hdiff. simpl in Hdiff.
  apply rbind_Ok in Hdiff as (d1 & Hd1 & Hdiff).
  apply rbind_Ok in Hdiff as (d2 & Hd2 & Hdiff).
  apply rbind_Ok in Hdiff as (d3 & Hd3 & [= <-]).
  cbn [for_loop] in Hloop.
  apply rbind_Ok in Hloop as (vars1 & H1 & Hloop).
  apply rbind_Ok in Hloop as (vars2 & H2 & Hloop).
  apply rbind_Ok in Hloop as (vars3' & H3 & [= ->]).
  apply (variables_entry_flow ed) in H1 as (? & ? & [= <-] & [= <-] & Hl1 & E1).
  apply (variables_entry_flow ed) in H2 as (? & ? & [= <-] & [= <-] & Hl2 & E2).
  apply (variables_entry_flow ed) in H3 as (? & ? & [= <-] & [= <-] & Hl3 & E3).
  rewrite (component_value_Ok _ _ _ Hd1) in E1.
  rewrite (component_value_Ok _ _ _ Hd2) in E2.
  rewrite (component_value_Ok _ _ _ Hd3) in E3.
  split; [congruence | lia].
Qed.

Lemma variables_loop_flow ci cs ed n start vars tf vars' tf' :
  for_loop n start (variables_row ci cs ed) (vars, tf) = Ok (vars', tf') →
  length vars' = length vars ∧
  tf' - flow_sum ed 0 vars' = tf - flow_sum ed 0 vars.
Proof.
  revert start vars tf. induction n as [|n IH]; intros start vars tf; cbn [for_loop].
  - by intros [= <- <-].
  - intros H. apply rbind_Ok in H as ([vars1 tf1] & H1 & H).
    apply variables_row_flow in H1 as [? ?]. apply IH in H as [? ?].
    split; [congruence | lia].
Qed.

Lemma build_variables_flow ci cs ed vars tf :
  build_variables ci cs ed = Ok (vars, tf) →
  length vars = (2 * length ed)%nat ∧ tf = flow_sum ed 0 vars.
Proof.
  unfold build_variables. intros H. apply variables_loop_flow in H as [Hl H].
  rewrite length_replicate in Hl. rewrite flow_sum_replicate_zero in H.
  split; [done | lia].
Qed.

(** *** The candidates collected in [modified_variables] *)

Lemma candidate_spec tf net c δ :
  -1 ≤ c ≤ 1 → δ ∈ candidate tf net c →
  net ≠ 0 ∧ tf ≠ 0 ∧ (δ = 1 ∨ δ = -1) ∧ -1 ≤ c + δ ≤ 1 ∧
  (tf > 0 → (net > 0 → δ = -1) ∧ (net < 0 → δ = 1)).
Proof.
  intros Hc. unfold candidate.
  repeat case_decide; intros Hin; try (by apply elem_of_nil in Hin);
    apply list_elem_of_singleton in Hin; subst; lia.
Qed.

Lemma candidate_count tf net c :
  -2 ≤ net ≤ 2 → -1 ≤ c ≤ 1 →
  (tf > 0 → net * c ≤ 2 * Z.of_nat (length (candidate tf net c))) ∧
  (tf < 0 → - (net * c) ≤ 2 * Z.of_nat (length (candidate tf net c))).
Proof.
  intros Hn Hc.
  assert (c = -1 ∨ c = 0 ∨ c = 1) as [-> | [-> | ->]] by lia;
    unfold candidate; repeat case_decide; simpl; lia.
Qed.

Lemma candidate_length tf net c : (length (candidate tf net c) ≤ 1)%nat.
Proof. unfold candidate. repeat case_decide; simpl; lia. Qed.

Lemma collect_variable_spec ev ed tf variables i var cuts mv :
  vget variables i = Ok var → 0 ≤ i < 2 * vsize ed → length ev = length ed →
  ∃ cuts',
    collect_variable ev ed tf variables i (cuts, mv) =
      Ok (cuts', mv ++ ((λ δ, (i, δ)) <$> candidate tf var.2 (component_value ed i))) ∧
    cuts ⊆ cuts' ∧
    (var.2 ≠ 0 → ∃ e, vget ev (Z.quot i 2) = Ok e ∧ e ∈ cuts').
Proof.
  intros Hvar Hi Hlen. unfold collect_variable. rewrite Hvar, rbind_Ok_l.
  destruct (diff_component_in_range ed i Hi) as [c Hc].
  rewrite (component_value_Ok _ _ _ Hc).
  destruct (vget_in_range ev (Z.quot i 2)) as [e He].
  { pose proof (Z.quot_rem' i 2). pose proof (Z.rem_bound_pos i 2 ltac:(lia) ltac:(lia)).
    unfold vsize in *. lia. }
  unfold candidate.
  destruct (decide (var.2 = 0)) as [Hnet|Hnet].
  - rewrite (decide_False (P := var.2 ≠ 0)) by lia. exists cuts. rewrite app_nil_r.
    split_and!; [done | done | intros ?; lia].
  - rewrite (decide_True (P := var.2 ≠ 0)) by lia. rewrite He, rbind_Ok_l.
    exists ({[e]} ∪ cuts). split_and!; [| set_solver | intros _; exists e; split; [done | set_solver]].
    rewrite !Hc.
    repeat (first [rewrite rbind_Ok_l | case_decide]); try lia;
      rewrite ?app_nil_r; done.
Qed.

Lemma collect_loop_spec ev ed tf variables :
  Forall in_unit_range ed →
  length ev = length ed →
  length variables = (2 * length ed)%nat →
  ∀ vs start cuts mv,
    0 ≤ start →
    (∀ k var, vs !! k = Some var → vget variables (start + Z.of_nat k) = Ok var) →
    ∃ cuts' new,
      for_loop (length vs) start (collect_variable ev ed tf variables) (cuts, mv)
        = Ok (cuts', mv ++ new) ∧
      cuts ⊆ cuts' ∧
      (∀ k var, vs !! k = Some var → var.2 ≠ 0 →
         ∃ e, vget ev (Z.quot (start + Z.of_nat k) 2) = Ok e ∧ e ∈ cuts') ∧
      (∀ v δ, (v, δ) ∈ new →
         start ≤ v < start + Z.of_nat (length vs) ∧
         ∃ var, vget variables v = Ok var ∧
                δ ∈ candidate tf var.2 (component_value ed v)) ∧
      NoDup new.*1 ∧
      (Forall (λ var : Vector2i * Z, -2 ≤ var.2 ≤ 2) variables →
       tf > 0 → flow_sum ed start vs ≤ 2 * Z.of_nat (length new)) ∧
      (Forall (λ var : Vector2i * Z, -2 ≤ var.2 ≤ 2) variables →
       tf < 0 → - flow_sum ed start vs ≤ 2 * Z.of_nat (length new)).
Proof.
  intros Hunit Hlev Hlvar vs.
  induction vs as [|var vs IH]; intros start cuts mv Hstart Hvs.
  - exists cuts, []. cbn [for_loop length]. rewrite app_nil_r.
    split_and!; try done; try (simpl; lia).
    + intros v δ H. by apply elem_of_nil in H.
    + constructor.
  - pose proof (Hvs 0%nat var eq_refl) as Hvar. rewrite Z.add_0_r in Hvar.
    pose proof (vget_Ok_range _ _ _ Hvar) as Hr.
    assert (0 ≤ start < 2 * vsize ed) as Hr' by (unfold vsize in *; lia).
    destruct (collect_variable_spec ev ed tf variables start var cuts mv Hvar Hr' Hlev)
      as (cuts1 & Hstep & Hsub1 & Hcut1).
    destruct (IH (start + 1) cuts1
                (mv ++ ((λ δ, (start, δ)) <$> candidate tf var.2 (component_value ed start)))
                ltac:(lia)) as (cuts' & new & Hloop & Hsub & Hcuts & Hnew & Hnd & Hpos & Hneg).
    { intros k var' Hk. replace (start + 1 + Z.of_nat k) with (start + Z.of_nat (S k)) by lia.
      by apply Hvs. }
    exists cuts', (((λ δ, (start, δ)) <$> candidate tf var.2 (component_value ed start)) ++ new).
    assert (Forall (λ var : Vector2i * Z, -2 ≤ var.2 ≤ 2) variables → -2 ≤ var.2 ≤ 2)
      as Hvnet.
    { intros Hnet. unfold vget in Hvar. case_decide; [|done].
      destruct (variables !! Z.to_nat start) eqn:E; [|done]. injection Hvar as ->.
      by eapply (Forall_lookup_1 _ _ _ _ Hnet E). }
    assert (-1 ≤ component_value ed start ≤ 1) as Hcv.
    { destruct (diff_component_in_range ed start Hr') as [c Hc].
      rewrite (component_value_Ok _ _ _ Hc). by eapply diff_component_unit_range. }
    split_and!.
    + cbn [for_loop length]. rewrite Hstep, rbind_Ok_l, Hloop. by rewrite app_assoc.
    + set_solver.
    + intros [|k] var' Hk Hne.
      * injection Hk as <-. rewrite Z.add_0_r. destruct (Hcut1 Hne) as (e & ? & ?).
        exists e. split; [done | set_solver].
      * replace (start + Z.of_nat (S k)) with (start + 1 + Z.of_nat k) by lia.
        by apply (Hcuts k var').
    + intros v δ Hin. apply elem_of_app in Hin as [Hin|Hin].
      * apply list_elem_of_fmap in Hin as (δ' & [= -> ->] & Hin).
        split; [simpl; lia|]. eauto.
      * destruct (Hnew _ _ Hin) as [? ?]. split; [simpl length; lia | done].
    + rewrite fmap_app. apply NoDup_app. split_and!; [| |done].
      * rewrite <- list_fmap_compose.
        pose proof (candidate_length tf var.2 (component_value ed start)).
        destruct (candidate tf var.2 (component_value ed start)) as [|? [|? ?]];
          simpl in *; [constructor | | lia].
        apply NoDup_singleton.
      * intros v Hv1 Hv2.
        apply list_elem_of_fmap in Hv1 as ([v' δ'] & -> & Hv1).
        apply list_elem_of_fmap in Hv1 as (? & [= -> ->] & _).
        apply list_elem_of_fmap in Hv2 as ([v' δ''] & E & Hv2). simpl in E. subst v'.
        apply Hnew in Hv2 as [? _]. lia.
    + intros Hnet Htf. cbn [flow_sum]. rewrite length_app, length_fmap.
      pose proof (proj1 (candidate_count tf _ _ (Hvnet Hnet) Hcv) Htf).
      specialize (Hpos Hnet Htf). lia.
    + intros Hnet Htf. cbn [flow_sum]. rewrite length_app, length_fmap.
      pose proof (proj2 (candidate_count tf _ _ (Hvnet Hnet) Hcv) Htf).
      specialize (Hneg Hnet Htf). lia.
Qed.

(** *** Applying the first [|target_flow| / 2] shuffled candidates *)

Lemma perturb_loop_spec (l : list (Z * Z)) :
  ∀ pre post ed0,
    NoDup l.*1 →
    (∀ v δ, (v, δ) ∈ l → ∃ c, diff_component ed0 v = Ok c) →
    ∃ ed',
      for_loop (length l) (Z.of_nat (length pre)) (perturb_one (pre ++ l ++ post)) ed0
        = Ok ed' ∧
      length ed' = length ed0 ∧
      (∀ v δ c, (v, δ) ∈ l → diff_component ed0 v = Ok c →
                diff_component ed' v = Ok (c + δ)) ∧
      (∀ w, w ∉ l.*1 → diff_component ed' w = diff_component ed0 w).
Proof.
  induction l as [|[v δ] l IH]; intros pre post ed0 Hnd Hdef.
  - exists ed0. cbn [for_loop length]. split_and!; try done.
    intros v δ c H. by apply elem_of_nil in H.
  - destruct (Hdef v δ ltac:(left)) as [c Hc].
    destruct (perturb_component ed0 v δ c Hc) as (ed1 & Hstep & Hl1 & Hv1 & Hoth1).
    apply NoDup_cons in Hnd as [Hnotin Hnd].
    destruct (IH (pre ++ [(v, δ)]) post ed1 Hnd) as (ed' & Hloop & Hl & Hin & Hout).
    { intros v' δ' Hin'. destruct (Hdef v' δ' ltac:(by right)) as [c' Hc'].
      exists c'. rewrite Hoth1; [done|]. intros ->. apply Hnotin.
      apply list_elem_of_fmap. by exists (v, δ'). }
    exists ed'. split_and!.
    + cbn [for_loop length].
      assert (perturb_one (pre ++ ((v, δ) :: l) ++ post) (Z.of_nat (length pre)) ed0
              = Ok ed1) as ->.
      { unfold perturb_one.
        assert (vget (pre ++ ((v, δ) :: l) ++ post) (Z.of_nat (length pre)) = Ok (v, δ)) as ->.
        { unfold vget. rewrite decide_True by lia. rewrite Nat2Z.id.
          rewrite lookup_app_r by lia. by rewrite Nat.sub_diag. }
        rewrite rbind_Ok_l. exact Hstep. }
      rewrite rbind_Ok_l.
      rewrite <- Hloop. f_equal.
      * rewrite length_app. simpl. lia.
      * f_equal. by rewrite <- app_assoc.
    + congruence.
    + intros v' δ' c' Hin' Hc'. apply elem_of_cons in Hin' as [[= -> ->]|Hin'].
      * assert (c' = c) as -> by congruence.
        rewrite Hout; [done|]. done.
      * apply (Hin v' δ' c' Hin'). rewrite Hoth1; [done|]. intros ->. apply Hnotin.
        apply list_elem_of_fmap. by exists (v, δ').
    + intros w Hw. rewrite Hout, Hoth1; [done | |].
      * intros ->. apply Hw. simpl. left.
      * intros Hw'. apply Hw. simpl. by right.
Qed.

Lemma unit_range_from_components ed :
  (∀ w c, diff_component ed w = Ok c → -1 ≤ c ≤ 1) → Forall in_unit_range ed.
Proof.
  intros H. apply Forall_lookup_2. intros k [x y] Hk.
  assert (vget ed (Z.of_nat k) = Ok (x, y)) as Hget.
  { unfold vget. rewrite decide_True by lia. by rewrite Nat2Z.id, Hk. }
  split; simpl.
  - apply (H (2 * Z.of_nat k)). unfold diff_component.
    replace (Z.quot (2 * Z.of_nat k) 2) with (Z.of_nat k)
      by (rewrite Z.mul_comm, Z.quot_mul; lia).
    replace (Z.rem (2 * Z.of_nat k) 2) with 0
      by (rewrite Z.mul_comm, Z.rem_mul; lia).
    by rewrite Hget.
  - apply (H (2 * Z.of_nat k + 1)). unfold diff_component.
    assert (Z.quot (2 * Z.of_nat k + 1) 2 = Z.of_nat k ∧ Z.rem (2 * Z.of_nat k + 1) 2 = 1)
      as [-> ->].
    { pose proof (Z.quot_rem' (2 * Z.of_nat k + 1) 2).
      pose proof (Z.rem_bound_pos (2 * Z.of_nat k + 1) 2 ltac:(lia) ltac:(lia)). lia. }
    by rewrite Hget.
Qed.

Section PerturbationProps.

Variable random_shuffle : list (Z * Z) → list (Z * Z).
Hypothesis random_shuffle_perm : ∀ l, random_shuffle l ≡ₚ l.


End PerturbationProps.


(** ** [FixFlipAdvance]: the move of a vertex and the collapse *)

Lemma rshift90_rem v x : rshift90 v (Z.rem x 4) = rshift90 v x.
Proof.
  unfold rshift90. replace (Z.rem x 4 `mod` 4) with (x `mod` 4); [done|].
  pose proof (Z.quot_rem' x 4) as H. rewrite H at 1.
  by rewrite Z.add_comm, Z.mul_comm, Z_mod_plus_full.
Qed.

Lemma rshift90_compose v a b : rshift90 (rshift90 v a) b = rshift90 v (a + b).
Proof.
  unfold rshift90. rewrite (Z.add_mod a b 4) by lia.
  pose proof (Z.mod_pos_bound a 4 ltac:(lia)) as Ha.
  pose proof (Z.mod_pos_bound b 4 ltac:(lia)) as Hb.
  destruct v as [x y].
  assert (a `mod` 4 = 0 ∨ a `mod` 4 = 1 ∨ a `mod` 4 = 2 ∨ a `mod` 4 = 3)
    as [-> | [-> | [-> | ->]]] by lia;
  assert (b `mod` 4 = 0 ∨ b `mod` 4 = 1 ∨ b `mod` 4 = 2 ∨ b `mod` 4 = 3)
    as [-> | [-> | [-> | ->]]] by lia;
  simpl; f_equal; lia.
Qed.

Lemma rshift90_unit_range v a : in_unit_range v → in_unit_range (rshift90 v a).
Proof.
  unfold rshift90, in_unit_range. destruct v as [x y]. simpl.
  pose proof (Z.mod_pos_bound a 4 ltac:(lia)) as Ha.
  assert (a `mod` 4 = 0 ∨ a `mod` 4 = 1 ∨ a `mod` 4 = 2 ∨ a `mod` 4 = 3)
    as [-> | [-> | [-> | ->]]] by lia; simpl; lia.
Qed.

Section FixFlipProps.

Context {DisjointTree : Type}.
Variable tree_Parent : DisjointTree → Z → Z.
Variable tree_MergeFromTo : DisjointTree → Z → Z → DisjointTree.
Variable F : list Vector3i.
Variable edge_values : list (Z * Z).
Variable face_edgeIds : list Vector3i.
Variable face_edgeOrients : list Vector3i.

Local Abbreviation State := (@FixFlip.State DisjointTree).
Local Abbreviation M := (@FixFlip.M DisjointTree).

Implicit Types st : State.

(** *** The monad *)

Lemma mbind_Ok {A B} (m : M A) (f : A → M B) st b st' :
  (m ≫= f) st = Ok (b, st') →
  ∃ a st1, m st = Ok (a, st1) ∧ f a st1 = Ok (b, st').
Proof.
  unfold mbind, FixFlip.M_bind. destruct (m st) as [[a st1]| | |]; try done. eauto.
Qed.

Lemma mret_Ok {A} (x : A) st a st' :
  (mret x : M A) st = Ok (a, st') → a = x ∧ st' = st.
Proof. by intros [= <- <-]. Qed.

Lemma lift_Ok {A} (r : result A) st a st' :
  FixFlip.lift r st = Ok (a, st') → r = Ok a ∧ st' = st.
Proof. unfold FixFlip.lift. destruct r; simpl; try done. by intros [= <- <-]. Qed.

Lemma get_Ok {A} (field : State → A) st a st' :
  FixFlip.get field st = Ok (a, st') → a = field st ∧ st' = st.
Proof. by intros [= <- <-]. Qed.

Lemma diff_of_Ok e st d st' :
  FixFlip.diff_of e st = Ok (d, st') →
  vget (FixFlip.edge_diff st) e = Ok d ∧ st' = st.
Proof.
  unfold FixFlip.diff_of. intros H. apply mbind_Ok in H as (ed & st1 & H1 & H).
  apply get_Ok in H1 as [-> ->]. by apply lift_Ok in H.
Qed.

Lemma tree_parent_Ok x st a st' :
  FixFlip.tree_parent tree_Parent x st = Ok (a, st') →
  a = tree_Parent (FixFlip.tree st) x ∧ st' = st.
Proof.
  unfold FixFlip.tree_parent. intros H. apply mbind_Ok in H as (t & st1 & H1 & H).
  apply get_Ok in H1 as [-> ->]. by apply mret_Ok in H.
Qed.

(** One step through a successful run of monadic code: the first action
    is split off, and resolved when it only reads the state. *)
Ltac mleaf H :=
  first
    [ apply lift_Ok in H as [H ->]
    | apply get_Ok in H as [-> ->]
    | apply mret_Ok in H as [-> ->]
    | apply diff_of_Ok in H as [H ->]
    | apply tree_parent_Ok in H as [-> ->]
    | idtac ].

Tactic Notation "mstep" hyp(H) "as" simple_intropattern(x) ident(st) ident(Hx) :=
  apply mbind_Ok in H as (x & st & Hx & H); mleaf Hx.

(** *** [find] and [find_orient] *)

Lemma compressed_refl st :
  good_entries (FixFlip.parent_edge st) → FixFlip.compressed st st.
Proof. intros Hg. unfold FixFlip.compressed. split_and!; eauto. Qed.

Lemma compressed_trans st1 st2 st3 :
  FixFlip.compressed st1 st2 → FixFlip.compressed st2 st3 →
  FixFlip.compressed st1 st3.
Proof.
  intros (? & ? & ? & ? & ? & ? & Hc1) (? & ? & ? & ? & ? & ? & Hc2).
  unfold FixFlip.compressed. split_and!; try congruence; try done.
  intros e r s d Hc. destruct (Hc1 _ _ _ _ Hc) as [d1 Hc']. eauto.
Qed.

Lemma compressed_wf st st' :
  wf_forest (FixFlip.parent_edge st) → FixFlip.compressed st st' →
  wf_forest (FixFlip.parent_edge st').
Proof.
  intros [Hg Hch] (_ & _ & _ & _ & Hl & Hg' & H). split; [done|].
  intros j Hj. unfold vsize in Hj. rewrite Hl in Hj.
  destruct (Hch j Hj) as (r & s & d & Hc). destruct (H _ _ _ _ Hc) as [d' ?]. eauto.
Qed.

Lemma find_spec e st r st' :
  wf_forest (FixFlip.parent_edge st) →
  FixFlip.find e st = Ok (r, st') →
  FixFlip.compressed st st' ∧ ∃ s d, chain (FixFlip.parent_edge st) e r s d.
Proof.
  intros [Hg Hch] H. unfold FixFlip.find in H.
  apply rbind_Ok in H as ([ps r'] & Hrun & [= <- <-]).
  assert (0 ≤ e < vsize (FixFlip.parent_edge st)) as He.
  { destruct (length (FixFlip.parent_edge st)) eqn:E; [done|]. cbn [get_parents] in Hrun.
    apply rbind_Ok in Hrun as (pj & Hpj & _). apply vget_Ok_range in Hpj.
    unfold vsize in *. done. }
  destruct (Hch e He) as (r & s & d & Hc).
  destruct (get_parents_spec _ _ _ _ _ _ Hg Hc (chain_depth_bound _ _ _ _ _ Hc))
    as (ps' & Hrun' & Hlen & Hg' & _ & _ & Hpres).
  rewrite Hrun in Hrun'. injection Hrun' as <- <-.
  split; [|eauto]. unfold FixFlip.compressed. simpl. split_and!; try done.
  intros e' r'' s' d' Hc'. destruct (Hpres _ _ _ _ Hc') as (? & ? & _). eauto.
Qed.

Lemma find_orient_spec e st o st' :
  FixFlip.find_orient e st = Ok (o, st') →
  st' = st ∧ ∃ r d, chain (FixFlip.parent_edge st) e r o d.
Proof.
  unfold FixFlip.find_orient. intros H.
  apply rbind_Ok in H as (o' & Ho & [= <- <-]). split; [done|].
  apply get_parents_orient_chain in Ho as (r & d & ? & _). eauto.
Qed.

(** On a well-formed forest the static readouts are the chain's root and
    label. *)
Lemma root_of_chain ps e r s d :
  good_entries ps → chain ps e r s d → FixFlip.root_of ps e = Ok r.
Proof.
  intros Hg Hc. unfold FixFlip.root_of.
  destruct (get_parents_spec _ _ _ _ _ _ Hg Hc (chain_depth_bound _ _ _ _ _ Hc))
    as (ps' & -> & _). done.
Qed.

Lemma orient_of_chain ps e r s d :
  chain ps e r s d → get_parents_orient (length ps) ps e = Ok s.
Proof.
  intros Hc. apply get_parents_orient_chain. exists r, d.
  split; [done | by eapply chain_depth_bound].
Qed.

Lemma frame_diff_chain ps ed e r s d :
  good_entries ps → chain ps e r s d →
  FixFlip.frame_diff ps ed e = (x ← vget ed r; Ok (rshift90 x s)).
Proof.
  intros Hg Hc. unfold FixFlip.frame_diff.
  rewrite (root_of_chain _ _ _ _ _ Hg Hc), rbind_Ok_l.
  by rewrite (orient_of_chain _ _ _ _ _ Hc), rbind_Ok_l.
Qed.

Lemma frame_diff_out_of_range ps ps' ed e :
  length ps' = length ps → ¬ (0 ≤ e < vsize ps) →
  FixFlip.frame_diff ps' ed e = FixFlip.frame_diff ps ed e.
Proof.
  intros Hl He. unfold FixFlip.frame_diff, FixFlip.root_of. rewrite Hl.
  destruct (length ps) eqn:E; [reflexivity|].
  cbn [get_parents].
  assert (¬ 0 ≤ e < vsize ps') as He' by (unfold vsize in *; by rewrite Hl, <- E).
  rewrite (vget_out_of_range ps e He), (vget_out_of_range ps' e He').
  reflexivity.
Qed.

Lemma chain_in_range ps e r s d : chain ps e r s d → 0 ≤ e < vsize ps.
Proof. inversion 1; subst; by eapply vget_Ok_range. Qed.

Lemma compressed_chain_back st st' e r s d :
  wf_forest (FixFlip.parent_edge st) → FixFlip.compressed st st' →
  chain (FixFlip.parent_edge st') e r s d →
  ∃ d', chain (FixFlip.parent_edge st) e r s d'.
Proof.
  intros [Hg Hch] (_ & _ & _ & _ & Hl & _ & H) Hc.
  pose proof (chain_in_range _ _ _ _ _ Hc) as He. unfold vsize in He. rewrite Hl in He.
  destruct (Hch e He) as (r0 & s0 & d0 & Hc0).
  destruct (H _ _ _ _ Hc0) as [d1 Hc1].
  destruct (chain_det _ _ _ _ _ _ _ _ Hc Hc1) as (-> & -> & _). eauto.
Qed.

Lemma compressed_frame_diff st st' ed e :
  wf_forest (FixFlip.parent_edge st) → FixFlip.compressed st st' →
  FixFlip.frame_diff (FixFlip.parent_edge st') ed e =
  FixFlip.frame_diff (FixFlip.parent_edge st) ed e.
Proof.
  intros Hwf Hcomp. pose proof Hwf as [Hg Hch].
  pose proof Hcomp as (_ & _ & _ & _ & Hl & Hg' & H).
  destruct (decide (0 ≤ e < vsize (FixFlip.parent_edge st))) as [He|He].
  - destruct (Hch e He) as (r & s & d & Hc). destruct (H _ _ _ _ Hc) as [d' Hc'].
    by rewrite (frame_diff_chain _ _ _ _ _ _ Hg Hc), (frame_diff_chain _ _ _ _ _ _ Hg' Hc').
  - by apply frame_diff_out_of_range.
Qed.

Local Abbreviation face_negative_area :=
  (FixFlip.face_negative_area face_edgeIds face_edgeOrients).
Local Abbreviation static_negative_area :=
  (FixFlip.static_negative_area face_edgeIds face_edgeOrients).
Local Abbreviation negative_area_sum :=
  (FixFlip.negative_area_sum face_edgeIds face_edgeOrients).
Local Abbreviation static_negative_area_sum :=
  (FixFlip.static_negative_area_sum face_edgeIds face_edgeOrients).

(** *** The negative-area sum *)

Lemma face_lookup_Ok (M3 : list Vector3i) f j x :
  (col ← vget M3 f; v3_get col j) = Ok x →
  ∃ col, vget M3 f = Ok col ∧ v3_get col j = Ok x.
Proof. intros H. by apply rbind_Ok in H. Qed.

Lemma face_negative_area_spec f st v st' :
  wf_forest (FixFlip.parent_edge st) →
  face_negative_area f st = Ok (v, st') →
  FixFlip.compressed st st' ∧
  static_negative_area (FixFlip.parent_edge st) (FixFlip.edge_diff st) f = Ok v.
Proof.
  intros Hwf H. unfold FixFlip.face_negative_area in H.
  unfold FixFlip.face_edge_id, FixFlip.face_edge_orient in H.
  mstep H as eid0 st0 He0.
  mstep H as pid0 st1 Hf0.
  mstep H as eid1 st1' He1.
  mstep H as pid1 st2 Hf1.
  mstep H as po0 st2' Ho0. apply get_parents_orient_chain in Ho0 as (r0 & dr0 & Hc0' & _).
  mstep H as fo0 st2' Hfo0.
  mstep H as po1 st2' Ho1. apply get_parents_orient_chain in Ho1 as (r1 & dr1 & Hc1' & _).
  mstep H as fo1 st2' Hfo1.
  mstep H as d0 st2' Hd0.
  mstep H as d1 st2' Hd1.
  apply mret_Ok in H as [-> ->].
  destruct (find_spec _ _ _ _ Hwf Hf0) as [Hcomp1 (s0 & dd0 & Hch0)].
  pose proof (compressed_wf _ _ Hwf Hcomp1) as Hwf1.
  destruct (find_spec _ _ _ _ Hwf1 Hf1) as [Hcomp2 (s1 & dd1 & Hch1)].
  pose proof (compressed_trans _ _ _ Hcomp1 Hcomp2) as Hcomp.
  split; [done|].
  (* the labels read after compression are those of the initial forest *)
  destruct (compressed_chain_back _ _ _ _ _ _ Hwf Hcomp Hc0') as [dx0 Hx0].
  destruct (chain_det _ _ _ _ _ _ _ _ Hx0 Hch0) as (-> & -> & _).
  destruct (compressed_chain_back _ _ _ _ _ _ Hwf Hcomp Hc1') as [dx1 Hx1].
  destruct (compressed_chain_back _ _ _ _ _ _ Hwf Hcomp1 Hch1) as [dy1 Hy1].
  destruct (chain_det _ _ _ _ _ _ _ _ Hx1 Hy1) as (-> & -> & _).
  destruct Hcomp as (Hed & _).
  apply face_lookup_Ok in He0 as (ids & Hids & He0).
  apply face_lookup_Ok in He1 as (ids' & Hids' & He1).
  apply face_lookup_Ok in Hfo0 as (os & Hos & Hfo0).
  apply face_lookup_Ok in Hfo1 as (os' & Hos' & Hfo1).
  assert (ids' = ids) as -> by congruence. assert (os' = os) as -> by congruence.
  unfold FixFlip.static_negative_area.
  rewrite Hids, rbind_Ok_l, He0, rbind_Ok_l, He1, rbind_Ok_l.
  rewrite Hos, rbind_Ok_l, Hfo0, rbind_Ok_l, Hfo1, rbind_Ok_l.
  destruct Hwf as [Hg _].
  rewrite (frame_diff_chain _ _ _ _ _ _ Hg Hx0), (frame_diff_chain _ _ _ _ _ _ Hg Hx1).
  rewrite Hed in Hd0, Hd1. rewrite Hd0, rbind_Ok_l, rbind_Ok_l, Hd1, !rbind_Ok_l.
  by rewrite !rshift90_compose, !rshift90_rem.
Qed.

Lemma static_negative_area_compressed st st' ed f :
  wf_forest (FixFlip.parent_edge st) → FixFlip.compressed st st' →
  static_negative_area (FixFlip.parent_edge st') ed f =
  static_negative_area (FixFlip.parent_edge st) ed f.
Proof.
  intros Hwf Hcomp. unfold FixFlip.static_negative_area.
  destruct (vget face_edgeIds f) as [ids| | |]; [|done..]. rewrite !rbind_Ok_l.
  destruct (v3_get ids 0) as [eid0| | |]; [|done..]. rewrite !rbind_Ok_l.
  destruct (v3_get ids 2) as [eid1| | |]; [|done..]. rewrite !rbind_Ok_l.
  destruct (vget face_edgeOrients f) as [os| | |]; [|done..]. rewrite !rbind_Ok_l.
  destruct (v3_get os 0) as [fo0| | |]; [|done..]. rewrite !rbind_Ok_l.
  destruct (v3_get os 2) as [fo1| | |]; [|done..]. rewrite !rbind_Ok_l.
  by rewrite !(compressed_frame_diff _ _ _ _ Hwf Hcomp).
Qed.

Lemma static_negative_area_sum_compressed st st' ed faces :
  wf_forest (FixFlip.parent_edge st) → FixFlip.compressed st st' →
  static_negative_area_sum (FixFlip.parent_edge st') ed faces =
  static_negative_area_sum (FixFlip.parent_edge st) ed faces.
Proof.
  intros Hwf Hcomp. induction faces as [|f faces IH]; [done|].
  cbn [FixFlip.static_negative_area_sum].
  by rewrite (static_negative_area_compressed _ _ _ _ Hwf Hcomp), IH.
Qed.

Lemma negative_area_fold_spec faces st acc v st' :
  wf_forest (FixFlip.parent_edge st) →
  FixFlip.mfold faces (λ f total, a ← face_negative_area f; mret (total + a)) acc st
    = Ok (v, st') →
  FixFlip.compressed st st' ∧
  ∃ total, static_negative_area_sum (FixFlip.parent_edge st) (FixFlip.edge_diff st) faces
             = Ok total ∧ v = acc + total.
Proof.
  revert st acc. induction faces as [|f faces IH]; intros st acc Hwf H.
  - apply mret_Ok in H as [-> ->]. split; [apply compressed_refl, Hwf|].
    exists 0. split; [done | lia].
  - cbn [FixFlip.mfold] in H. apply mbind_Ok in H as (acc' & st1 & H1 & H).
    apply mbind_Ok in H1 as (a & st1' & Ha & H1). apply mret_Ok in H1 as [-> ->].
    destruct (face_negative_area_spec _ _ _ _ Hwf Ha) as [Hcomp1 Hstat].
    pose proof (compressed_wf _ _ Hwf Hcomp1) as Hwf1.
    destruct (IH _ _ Hwf1 H) as [Hcomp2 (total & Hsum & ->)].
    split; [by eapply compressed_trans|].
    cbn [FixFlip.static_negative_area_sum]. rewrite Hstat, rbind_Ok_l.
    rewrite (static_negative_area_sum_compressed _ _ _ _ Hwf Hcomp1) in Hsum.
    destruct Hcomp1 as (-> & _) in Hsum. rewrite Hsum, rbind_Ok_l.
    exists (a + total). split; [done | lia].
Qed.

Lemma negative_area_sum_spec faces st v st' :
  wf_forest (FixFlip.parent_edge st) →
  negative_area_sum faces st = Ok (v, st') →
  FixFlip.compressed st st' ∧
  static_negative_area_sum (FixFlip.parent_edge st) (FixFlip.edge_diff st) faces = Ok v.
Proof.
  intros Hwf H. destruct (negative_area_fold_spec _ _ _ _ _ Hwf H) as [? (total & ? & ->)].
  split; [done|]. by rewrite Z.add_0_l.
Qed.

(** *** [ExtractEdgeSet] *)

Variable edge_len : Z.

Local Abbreviation corner_frame := (FixFlip.corner_frame face_edgeIds face_edgeOrients).
Local Abbreviation blocked := (FixFlip.blocked tree_Parent edge_values).
Local Abbreviation next_escape := (FixFlip.next_escape tree_Parent edge_values).
Local Abbreviation extract_loop :=
  (FixFlip.extract_loop tree_Parent edge_values face_edgeIds face_edgeOrients edge_len).
Local Abbreviation ExtractEdgeSet :=
  (FixFlip.ExtractEdgeSet tree_Parent edge_values face_edgeIds face_edgeOrients edge_len).

Lemma corner_frame_spec es f i st x st' :
  wf_forest (FixFlip.parent_edge st) →
  corner_frame es f i st = Ok (x, st') → FixFlip.compressed st st'.
Proof.
  intros Hwf H. unfold FixFlip.corner_frame, FixFlip.face_edge_id, FixFlip.face_edge_orient in H.
  mstep H as eid st0 He.
  mstep H as pid st1 Hf.
  mstep H as po st1' Ho.
  mstep H as fo st1' Hfo.
  mstep H as d st1' Hd.
  apply mret_Ok in H as [-> ->].
  by destruct (find_spec _ _ _ _ Hwf Hf).
Qed.

Lemma blocked_spec v1 es p st b st' :
  blocked v1 es p st = Ok (b, st') →
  st' = st ∧ (b = false → es !! p = None).
Proof.
  unfold FixFlip.blocked. intros H.
  mstep H as ev st0 Hev. mstep H as px st0' Hpx. mstep H as py st0' Hpy.
  apply mret_Ok in H as [-> ->]. split; [done|].
  intros Hb. apply bool_decide_eq_false in Hb.
  destruct (es !! p) eqn:E; [|done]. exfalso. apply Hb. right. eauto.
Qed.

Lemma next_escape_spec n v1 es eids k st ne st' :
  k + Z.of_nat n = 3 →
  next_escape n v1 es eids k st = Ok (ne, st') →
  st' = st ∧ (ne = 3 ∨ ∃ p, v3_get eids ne = Ok p ∧ es !! p = None).
Proof.
  revert k st. induction n as [|n IH]; intros k st Hk H.
  - apply mret_Ok in H as [-> ->]. split; [done|]. left. lia.
  - cbn [FixFlip.next_escape] in H.
    mstep H as p st0 Hp.
    apply mbind_Ok in H as (b & st1 & Hb & H).
    apply blocked_spec in Hb as [-> Hb].
    destruct b.
    + case_decide.
      * apply mret_Ok in H as [-> ->]. auto.
      * apply IH in H; [done | lia].
    + apply mret_Ok in H as [-> ->]. split; [done|]. right. eauto.
Qed.

Lemma extract_loop_spec fuel v1 :
  ∀ ec es faces st ec' st',
    wf_forest (FixFlip.parent_edge st) →
    (∀ k, es !! k = None → k ∉ ec.*1) →
    NoDup ec.*1 →
    Forall (FixFlip.change_within edge_len (FixFlip.edge_diff st)) ec →
    extract_loop fuel v1 ec es faces st = Ok (ec', st') →
    FixFlip.compressed st st' ∧
    (ec' = [] ∨
     (NoDup ec'.*1 ∧
      Forall (FixFlip.change_within edge_len (FixFlip.edge_diff st)) ec' ∧
      ∃ rest, ec' = ec ++ rest)).
Proof.
  induction fuel as [|fuel IH]; intros ec es faces st ec' st' Hwf Hes Hnd Hall H; [done|].
  cbn [FixFlip.extract_loop] in H. destruct faces as [|f faces].
  { apply mret_Ok in H as [-> ->]. split; [apply compressed_refl, Hwf|].
    right. split_and!; [done..|]. exists []. by rewrite app_nil_r. }
  apply mbind_Ok in H as ([[p0 o0] d0] & st1 & H0 & H).
  apply mbind_Ok in H as ([[p1 o1] d1] & st2 & H1 & H).
  apply mbind_Ok in H as ([[p2 o2] d2] & st3 & H2 & H).
  pose proof (corner_frame_spec _ _ _ _ _ _ Hwf H0) as Hc1.
  pose proof (compressed_wf _ _ Hwf Hc1) as Hwf1.
  pose proof (corner_frame_spec _ _ _ _ _ _ Hwf1 H1) as Hc2.
  pose proof (compressed_wf _ _ Hwf1 Hc2) as Hwf2.
  pose proof (corner_frame_spec _ _ _ _ _ _ Hwf2 H2) as Hc3.
  pose proof (compressed_wf _ _ Hwf2 Hc3) as Hwf3.
  pose proof (compressed_trans _ _ _ (compressed_trans _ _ _ Hc1 Hc2) Hc3) as Hc.
  clear H0 H1 H2 Hc1 Hc2 Hc3 Hwf1 Hwf2.
  apply mbind_Ok in H as (b0 & st4 & Hb0 & H). apply blocked_spec in Hb0 as [-> _].
  apply mbind_Ok in H as (b1 & st4 & Hb1 & H). apply blocked_spec in Hb1 as [-> _].
  apply mbind_Ok in H as (b2 & st4 & Hb2 & H). apply blocked_spec in Hb2 as [-> _].
  apply mbind_Ok in H as (ne & st4 & Hne & H).
  apply next_escape_spec in Hne as [-> Hne]; [|lia].
  assert (FixFlip.edge_diff st3 = FixFlip.edge_diff st) as Hed by apply Hc.
  case_decide as Hzero.
  { destruct (IH _ _ _ _ _ _ Hwf3 Hes Hnd ltac:(by rewrite Hed) H) as [Hc' Hres].
    split; [by eapply compressed_trans|]. by rewrite Hed in Hres. }
  case_decide as Hne3.
  { apply mret_Ok in H as [-> ->]. auto. }
  mstep H as e st4 He.
  case_decide as He3.
  { apply mret_Ok in H as [-> ->]. auto. }
  mstep H as change_pid st4 Hcp.
  mstep H as on st4 Hon.
  mstep H as cur st4 Hcur.
  case_decide as Hlen.
  { apply mret_Ok in H as [-> ->]. auto. }
  mstep H as e2f st4 He2f.
  mstep H as nfs st4 Hnfs.
  destruct Hne as [?|(p & Hp & Hnone)]; [done|].
  assert (p = change_pid) as -> by congruence.
  rewrite Hnone in H.
  set (new_diff := rshift90 _ _) in *.
  assert (∀ k, <[change_pid := new_diff]> es !! k = None →
               k ∉ (ec ++ [(change_pid, new_diff)]).*1) as Hes'.
  { intros k Hk. apply lookup_insert_None in Hk as [Hk ?].
    rewrite fmap_app. intros [?|?%list_elem_of_singleton]%elem_of_app; [|done].
    by apply (Hes k). }
  assert (NoDup (ec ++ [(change_pid, new_diff)]).*1) as Hnd'.
  { rewrite fmap_app. apply NoDup_app. split_and!; [done | | apply NoDup_singleton].
    intros x Hx ->%list_elem_of_singleton. by apply (Hes change_pid). }
  assert (Forall (FixFlip.change_within edge_len (FixFlip.edge_diff st3))
            (ec ++ [(change_pid, new_diff)])) as Hall'.
  { rewrite Hed. apply Forall_app. split; [done|]. apply Forall_singleton.
    exists cur. rewrite <- Hed. split; [done|]. right. simpl. lia. }
  destruct (IH _ _ _ _ _ _ Hwf3 Hes' Hnd' Hall' H) as [Hc' Hres].
  split; [by eapply compressed_trans|].
  destruct Hres as [->|(? & Hall'' & rest & ->)]; [by left|]. right.
  rewrite Hed in Hall''. split_and!; [done..|].
  exists ((change_pid, new_diff) :: rest). by rewrite <- app_assoc.
Qed.

Lemma ExtractEdgeSet_spec fuel v1 v2 pid st ec st' :
  wf_forest (FixFlip.parent_edge st) →
  ExtractEdgeSet fuel v1 v2 pid st = Ok (ec, st') →
  FixFlip.compressed st st' ∧
  (ec = [] ∨
   (NoDup ec.*1 ∧
    Forall (FixFlip.change_within edge_len (FixFlip.edge_diff st)) ec)).
Proof.
  intros Hwf H. unfold FixFlip.ExtractEdgeSet in H.
  mstep H as d st0 Hd. mstep H as e2f st0 He2f. mstep H as faces st0 Hfaces.
  assert (∀ k, ({[pid := d]} : gmap Z Vector2i) !! k = None → k ∉ [(pid, d)].*1) as Hes.
  { intros k Hk. apply lookup_singleton_None in Hk. simpl.
    by intros ->%list_elem_of_singleton. }
  assert (NoDup [(pid, d)].*1) as Hnd by (simpl; apply NoDup_singleton).
  assert (Forall (FixFlip.change_within edge_len (FixFlip.edge_diff st)) [(pid, d)]) as Hall.
  { apply Forall_singleton. exists d. split; [done|]. by left. }
  destruct (extract_loop_spec _ _ _ _ _ _ _ _ Hwf Hes Hnd Hall H) as [Hc Hres].
  split; [done|]. destruct Hres as [->|(? & ? & _)]; auto.
Qed.

(** *** Applying and reverting [edge_change] *)

Lemma vget_eq_list {A} (l l' : list A) :
  length l = length l' →
  (∀ k x, vget l k = Ok x → vget l' k = Ok x) → l = l'.
Proof.
  intros Hl H. apply list_eq. intros i.
  destruct (l !! i) as [x|] eqn:E.
  - specialize (H (Z.of_nat i) x). unfold vget in H.
    rewrite !decide_True, Nat2Z.id, E in H by lia. specialize (H eq_refl).
    by destruct (l' !! i); [injection H as ->|].
  - symmetry. apply lookup_ge_None. apply lookup_ge_None in E. lia.
Qed.

Lemma v2_sub_add a b : v2_add (v2_sub a b) b = a.
Proof. destruct a, b. unfold v2_add, v2_sub. simpl. f_equal; lia. Qed.

Lemma change_total_not_in ec k : k ∉ ec.*1 → FixFlip.change_total ec k = v2_zero.
Proof.
  induction ec as [|[e c] ec IH]; [done|]. simpl. intros Hk.
  rewrite decide_False by (intros ->; apply Hk; left).
  apply IH. intros ?. apply Hk. by right.
Qed.

Lemma change_total_NoDup ec k c :
  NoDup ec.*1 → (k, c) ∈ ec → FixFlip.change_total ec k = c.
Proof.
  induction ec as [|[e c'] ec IH]; [by intros _ ?%elem_of_nil|].
  simpl. intros [Hnotin Hnd]%NoDup_cons [[= -> ->]|Hin]%elem_of_cons.
  - rewrite decide_True by done. rewrite change_total_not_in by done.
    destruct c'. unfold v2_add, v2_zero. simpl. f_equal; lia.
  - rewrite decide_False; [by apply IH|]. intros ->. apply Hnotin.
    apply list_elem_of_fmap. by exists (k, c).
Qed.

Lemma subtract_changes_spec ec st u st' :
  FixFlip.mfor ec FixFlip.subtract_change st = Ok (u, st') →
  FixFlip.only_edge_diff st st' ∧
  length (FixFlip.edge_diff st') = length (FixFlip.edge_diff st) ∧
  ∀ k d, vget (FixFlip.edge_diff st) k = Ok d →
    vget (FixFlip.edge_diff st') k = Ok (v2_sub d (FixFlip.change_total ec k)).
Proof.
  revert st. induction ec as [|[e c] ec IH]; intros st H.
  - apply mret_Ok in H as [_ ->]. split_and!; [done..|].
    intros k [x y] ->. unfold v2_sub, v2_zero. simpl. do 2 f_equal; lia.
  - cbn [FixFlip.mfor] in H. apply mbind_Ok in H as (? & st1 & H1 & H).
    unfold FixFlip.subtract_change in H1.
    mstep H1 as ed st0 Hed. mstep H1 as d0 st0 Hd0. mstep H1 as ed' st0 Hset.
    injection H1 as _ <-. simpl in *.
    pose proof (vget_Ok_range _ _ _ Hd0) as Hr.
    rewrite vset_in_range in Hset by done. injection Hset as <-.
    apply IH in H as ((? & ? & ? & ?) & Hl & Hpt). simpl in *.
    split_and!; [done.. | by rewrite Hl, length_insert |].
    intros k d Hk. destruct (decide (e = k)) as [->|Hne].
    + rewrite (Hpt k (v2_sub d0 c)) by (by apply vget_insert_eq).
      assert (d = d0) as -> by congruence.
      destruct d0, c, (FixFlip.change_total ec k). unfold v2_sub, v2_add. simpl.
      do 2 f_equal; lia.
    + apply Hpt. by rewrite vget_insert_ne by lia.
Qed.

Lemma add_changes_spec ec st u st' :
  FixFlip.mfor ec FixFlip.add_change st = Ok (u, st') →
  FixFlip.only_edge_diff st st' ∧
  length (FixFlip.edge_diff st') = length (FixFlip.edge_diff st) ∧
  ∀ k d, vget (FixFlip.edge_diff st) k = Ok d →
    vget (FixFlip.edge_diff st') k = Ok (v2_add d (FixFlip.change_total ec k)).
Proof.
  revert st. induction ec as [|[e c] ec IH]; intros st H.
  - apply mret_Ok in H as [_ ->]. split_and!; [done..|].
    intros k [x y] ->. unfold v2_add, v2_zero. simpl. do 2 f_equal; lia.
  - cbn [FixFlip.mfor] in H. apply mbind_Ok in H as (? & st1 & H1 & H).
    unfold FixFlip.add_change in H1.
    mstep H1 as ed st0 Hed. mstep H1 as d0 st0 Hd0. mstep H1 as ed' st0 Hset.
    injection H1 as _ <-. simpl in *.
    pose proof (vget_Ok_range _ _ _ Hd0) as Hr.
    rewrite vset_in_range in Hset by done. injection Hset as <-.
    apply IH in H as ((? & ? & ? & ?) & Hl & Hpt). simpl in *.
    split_and!; [done.. | by rewrite Hl, length_insert |].
    intros k d Hk. destruct (decide (e = k)) as [->|Hne].
    + rewrite (Hpt k (v2_add d0 c)) by (by apply vget_insert_eq).
      assert (d = d0) as -> by congruence.
      destruct d0, c, (FixFlip.change_total ec k). unfold v2_add. simpl.
      do 2 f_equal; lia.
    + apply Hpt. by rewrite vget_insert_ne by lia.
Qed.

(** Subtracting and adding back the same changes restores [edge_diff]. *)
Lemma subtract_then_add ec st u1 st1 u2 st2 :
  FixFlip.mfor ec FixFlip.subtract_change st = Ok (u1, st1) →
  FixFlip.mfor ec FixFlip.add_change st1 = Ok (u2, st2) →
  FixFlip.edge_diff st2 = FixFlip.edge_diff st ∧ FixFlip.only_edge_diff st st2.
Proof.
  intros (H1o & Hl1 & H1)%subtract_changes_spec (H2o & Hl2 & H2)%add_changes_spec.
  split.
  - symmetry. apply vget_eq_list; [congruence|]. intros k x Hk.
    rewrite (H2 k _ (H1 k x Hk)). by rewrite v2_sub_add.
  - destruct H1o as (? & ? & ? & ?), H2o as (? & ? & ? & ?).
    unfold FixFlip.only_edge_diff. split_and!; congruence.
Qed.

(** A change set produced with [edge_len = 1] keeps every diff in
    [{-1,0,1}²]. *)
Lemma subtract_changes_unit_range ec st u st' :
  Forall in_unit_range (FixFlip.edge_diff st) →
  NoDup ec.*1 →
  Forall (FixFlip.change_within 1 (FixFlip.edge_diff st)) ec →
  FixFlip.mfor ec FixFlip.subtract_change st = Ok (u, st') →
  Forall in_unit_range (FixFlip.edge_diff st').
Proof.
  intros Hunit Hnd Hall (_ & Hl & Hpt)%subtract_changes_spec.
  apply Forall_lookup_2. intros i x Hi.
  assert (i < length (FixFlip.edge_diff st))%nat as Hlt
    by (rewrite <- Hl; by eapply lookup_lt_Some).
  destruct (lookup_lt_is_Some_2 _ _ Hlt) as [d Hd].
  pose proof (Forall_lookup_1 _ _ _ _ Hunit Hd) as Hdr.
  assert (vget (FixFlip.edge_diff st) (Z.of_nat i) = Ok d) as Hget.
  { unfold vget. rewrite decide_True by lia. by rewrite Nat2Z.id, Hd. }
  specialize (Hpt _ _ Hget). unfold vget in Hpt.
  rewrite decide_True, Nat2Z.id, Hi in Hpt by lia. injection Hpt as ->.
  destruct (decide (Z.of_nat i ∈ ec.*1)) as [Hin|Hnotin].
  - apply list_elem_of_fmap in Hin as ([k c] & Hk & Hin). simpl in Hk. subst k.
    rewrite (change_total_NoDup _ _ _ Hnd Hin).
    rewrite Forall_forall in Hall. destruct (Hall _ Hin) as (cur & Hcur & Hc).
    simpl in *. assert (cur = d) as -> by congruence.
    destruct Hdr as [? ?]. destruct d, c. unfold in_unit_range, v2_sub in *. simpl in *.
    destruct Hc as [[= -> ->]|[? ?]]; lia.
  - rewrite (change_total_not_in _ _ Hnotin). destruct d.
    unfold in_unit_range, v2_sub, v2_zero in *. simpl in *. lia.
Qed.

(** *** What [collapse] keeps *)

Lemma rshift90_zero v : rshift90 v 0 = v.
Proof. done. Qed.

Lemma same_frames_refl ed ps : good_entries ps → FixFlip.same_frames ed ps ps.
Proof. intros Hg. split_and!; [done..|]. intros e r s d Hc. exists r, s, d. auto. Qed.

Lemma same_frames_trans ed ps1 ps2 ps3 :
  FixFlip.same_frames ed ps1 ps2 → FixFlip.same_frames ed ps2 ps3 →
  FixFlip.same_frames ed ps1 ps3.
Proof.
  intros (Hl1 & _ & H1) (Hl2 & Hg3 & H2). split_and!; [congruence | done |].
  intros e r s d Hc.
  destruct (H1 _ _ _ _ Hc) as (r' & s' & d' & Hc' & Hrel1).
  destruct (H2 _ _ _ _ Hc') as (r'' & s'' & d'' & Hc'' & Hrel2).
  exists r'', s'', d''. split; [done|].
  destruct Hrel1 as [[-> ->]|(x & x' & Hx & Hx' & E1)]; [done|].
  destruct Hrel2 as [[-> ->]|(y & y' & Hy & Hy' & E2)].
  - right. eauto.
  - right. assert (y = x') as -> by congruence. exists x, y'.
    split_and!; [done..|congruence].
Qed.

Lemma same_frames_wf ed ps ps' :
  wf_forest ps → FixFlip.same_frames ed ps ps' → wf_forest ps'.
Proof.
  intros [Hg Hch] (Hl & Hg' & H). split; [done|]. intros j Hj.
  unfold vsize in Hj. rewrite Hl in Hj. destruct (Hch j Hj) as (r & s & d & Hc).
  destruct (H _ _ _ _ Hc) as (r' & s' & d' & ? & _). eauto.
Qed.

Lemma same_frames_frame_diff ed ps ps' e :
  wf_forest ps → FixFlip.same_frames ed ps ps' →
  FixFlip.frame_diff ps' ed e = FixFlip.frame_diff ps ed e.
Proof.
  intros [Hg Hch] (Hl & Hg' & H).
  destruct (decide (0 ≤ e < vsize ps)) as [He|He].
  - destruct (Hch e He) as (r & s & d & Hc).
    destruct (H _ _ _ _ Hc) as (r' & s' & d' & Hc' & Hrel).
    rewrite (frame_diff_chain _ _ _ _ _ _ Hg Hc), (frame_diff_chain _ _ _ _ _ _ Hg' Hc').
    destruct Hrel as [[-> ->]|(x & x' & -> & -> & E)]; [done|].
    by rewrite !rbind_Ok_l, E.
  - by apply frame_diff_out_of_range.
Qed.

Lemma frames_kept_refl st :
  good_entries (FixFlip.parent_edge st) → FixFlip.frames_kept st st.
Proof. intros Hg. split; [done|]. by apply same_frames_refl. Qed.

Lemma frames_kept_trans st1 st2 st3 :
  FixFlip.frames_kept st1 st2 → FixFlip.frames_kept st2 st3 →
  FixFlip.frames_kept st1 st3.
Proof.
  intros [He1 H1] [He2 H2]. split; [congruence|].
  rewrite He1 in H2. by eapply same_frames_trans.
Qed.

Lemma frames_kept_wf st st' :
  wf_forest (FixFlip.parent_edge st) → FixFlip.frames_kept st st' →
  wf_forest (FixFlip.parent_edge st').
Proof. intros Hwf [_ H]. by eapply same_frames_wf. Qed.

Lemma compressed_frames_kept st st' :
  FixFlip.compressed st st' → FixFlip.frames_kept st st'.
Proof.
  intros (Hed & _ & _ & _ & Hl & Hg & H). split; [done|]. split_and!; [done..|].
  intros e r s d Hc. destruct (H _ _ _ _ Hc) as [d' Hc']. exists r, s, d'. auto.
Qed.

Lemma chain_to_self ps p s d : chain ps p p s d → ∃ o, vget ps p = Ok (p, o).
Proof. intros Hc. by eapply chain_root_entry. Qed.

Lemma compressed_is_root st st' p :
  FixFlip.compressed st st' → FixFlip.is_root p st → FixFlip.is_root p st'.
Proof.
  intros (_ & _ & _ & _ & _ & _ & H) [o Hp].
  destruct (H _ _ _ _ (chain_root _ _ _ Hp)) as [d' Hc]. by eapply chain_to_self.
Qed.

Lemma compressed_root_opt st st' o :
  FixFlip.compressed st st' → FixFlip.root_opt o st → FixFlip.root_opt o st'.
Proof. destruct o; [apply compressed_is_root | done]. Qed.

(** Rules for [keeps]. *)

Lemma keeps_unchanged {A} o (m : M A) :
  (∀ st a st', m st = Ok (a, st') →
     FixFlip.edge_diff st' = FixFlip.edge_diff st ∧
     FixFlip.parent_edge st' = FixFlip.parent_edge st) →
  FixFlip.keeps o m.
Proof.
  intros H st a st' [Hg _] Ho Hrun. destruct (H _ _ _ Hrun) as [Hed Hps].
  split.
  - split; [done|]. rewrite Hps. by apply same_frames_refl.
  - destruct o; [|done]. unfold FixFlip.root_opt, FixFlip.is_root in *. by rewrite Hps.
Qed.

Lemma keeps_ret {A} o (x : A) : FixFlip.keeps o (mret x : M A).
Proof. apply keeps_unchanged. by intros st a st' [_ ->]%mret_Ok. Qed.

Lemma keeps_lift {A} o (r : result A) : FixFlip.keeps o (FixFlip.lift r : M A).
Proof. apply keeps_unchanged. by intros st a st' [_ ->]%lift_Ok. Qed.

Lemma keeps_get {A} o (field : State → A) : FixFlip.keeps o (FixFlip.get field : M A).
Proof. apply keeps_unchanged. by intros st a st' [_ ->]%get_Ok. Qed.

Lemma keeps_undefined {A} o : FixFlip.keeps o (FixFlip.undefined : M A).
Proof. by intros st a st' _ _ ?. Qed.

Lemma keeps_exit_with {A} o c : FixFlip.keeps o (FixFlip.exit_with c : M A).
Proof. by intros st a st' _ _ ?. Qed.

Lemma keeps_out_of_fuel {A} o : FixFlip.keeps o (FixFlip.out_of_fuel : M A).
Proof. by intros st a st' _ _ ?. Qed.

Lemma keeps_set_edge_to_faces o x : FixFlip.keeps o (FixFlip.set_edge_to_faces x : M unit).
Proof. apply keeps_unchanged. by intros st a st' [= _ <-]. Qed.

Lemma keeps_set_vertices_to_edges o x :
  FixFlip.keeps o (FixFlip.set_vertices_to_edges x : M unit).
Proof. apply keeps_unchanged. by intros st a st' [= _ <-]. Qed.

Lemma keeps_set_tree o x : FixFlip.keeps o (FixFlip.set_tree x : M unit).
Proof. apply keeps_unchanged. by intros st a st' [= _ <-]. Qed.

Lemma keeps_find o e : FixFlip.keeps o (FixFlip.find e : M Z).
Proof.
  intros st a st' Hwf Ho H. destruct (find_spec _ _ _ _ Hwf H) as [Hc _].
  split; [by apply compressed_frames_kept | by eapply compressed_root_opt].
Qed.

Lemma keeps_bind {A B} o (m : M A) (f : A → M B) :
  FixFlip.keeps o m → (∀ a, FixFlip.keeps o (f a)) → FixFlip.keeps o (m ≫= f).
Proof.
  intros Hm Hf st b st' Hwf Ho H. apply mbind_Ok in H as (a & st1 & H1 & H2).
  destruct (Hm _ _ _ Hwf Ho H1) as [Hk1 Ho1].
  destruct (Hf a _ _ _ (frames_kept_wf _ _ Hwf Hk1) Ho1 H2) as [Hk2 Ho2].
  split; [by eapply frames_kept_trans | done].
Qed.

Lemma keeps_mfor {A} o (l : list A) (body : A → M unit) :
  (∀ x, FixFlip.keeps o (body x)) → FixFlip.keeps o (FixFlip.mfor l body).
Proof.
  intros Hb. induction l as [|x l IH]; cbn [FixFlip.mfor].
  - apply keeps_ret.
  - apply keeps_bind; [apply Hb | by intros _].
Qed.

Lemma keeps_mfold {A B} o (l : list A) (body : A → B → M B) acc :
  (∀ x b, FixFlip.keeps o (body x b)) → FixFlip.keeps o (FixFlip.mfold l body acc).
Proof.
  intros Hb. revert acc. induction l as [|x l IH]; intros acc; cbn [FixFlip.mfold].
  - apply keeps_ret.
  - apply keeps_bind; [apply Hb | intros ?; apply IH].
Qed.

Lemma keeps_weaken {A} p (m : M A) : FixFlip.keeps (Some p) m → FixFlip.keeps (Some p) m.
Proof. done. Qed.

(** Straight-line code made of the actions above. *)
Ltac kstep :=
  first
    [ apply keeps_ret | apply keeps_lift | apply keeps_get
    | apply keeps_undefined | apply keeps_exit_with | apply keeps_out_of_fuel
    | apply keeps_set_edge_to_faces | apply keeps_set_vertices_to_edges
    | apply keeps_set_tree | apply keeps_find
    | apply keeps_mfor; intros ?
    | apply keeps_mfold; intros ? ?
    | apply keeps_bind; [|intros ?]
    | match goal with
      | |- FixFlip.keeps _ (if decide _ then _ else _) => case_decide
      | |- FixFlip.keeps _ (match ?x with _ => _ end) => destruct x
      | |- FixFlip.keeps _ (let '(_, _) := ?x in _) => destruct x
      end ].

Ltac kauto := repeat kstep.

Lemma keeps_diff_of o e : FixFlip.keeps o (FixFlip.diff_of e : M Vector2i).
Proof. unfold FixFlip.diff_of. kauto. Qed.

Lemma keeps_tree_parent o x : FixFlip.keeps o (FixFlip.tree_parent tree_Parent x).
Proof. unfold FixFlip.tree_parent. kauto. Qed.

Lemma keeps_collapse_faces o v1 v2 : FixFlip.keeps o (FixFlip.collapse_faces v1 v2 : M _).
Proof. unfold FixFlip.collapse_faces, FixFlip.diff_of. kauto. Qed.

Lemma keeps_rewire_entry o v1 v2 l : FixFlip.keeps o (FixFlip.rewire_entry v1 v2 l : M _).
Proof.
  unfold FixFlip.rewire_entry, FixFlip.neighbor_edges_of, FixFlip.push_both,
    FixFlip.diff_of.
  kauto.
Qed.

Lemma keeps_corner_alive o f j :
  FixFlip.keeps o (FixFlip.corner_alive tree_Parent F face_edgeIds f j).
Proof.
  unfold FixFlip.corner_alive, FixFlip.F_at, FixFlip.tree_parent, FixFlip.face_edge_id,
    FixFlip.diff_of.
  kauto.
Qed.

Lemma keeps_non_collapse_count o nf :
  FixFlip.keeps o (FixFlip.non_collapse_count face_edgeIds nf : M _).
Proof.
  unfold FixFlip.non_collapse_count, FixFlip.face_edge_id, FixFlip.diff_of. kauto.
Qed.

Lemma keeps_forget_face o f i : FixFlip.keeps o (FixFlip.forget_face face_edgeIds f i : M _).
Proof. unfold FixFlip.forget_face, FixFlip.face_edge_id. kauto. Qed.

(** *** Uniting two classes *)

Lemma rotation_search_spec d1 d2 :
  let r := FixFlip.rotation_search 4 d1 d2 0 in
  (r = 4 ∧ ∀ k, 0 ≤ k < 4 → rshift90 d1 k ≠ d2) ∨
  (0 ≤ r < 4 ∧ rshift90 d1 r = d2).
Proof.
  cbv zeta. cbn [FixFlip.rotation_search].
  assert (∀ k, 0 ≤ k < 4 → k = 0 ∨ k = 1 ∨ k = 2 ∨ k = 3) as Hk by lia.
  repeat case_decide; simpl in *;
    try (right; split; [lia|];
         match goal with
         | H : ¬ (_ ∧ _ ≠ _) |- _ =>
             apply not_and_l in H as [H|H]; [lia | by apply dec_stable in H]
         end).
  left. split; [done|]. intros k Hr.
  destruct (Hk k Hr) as [-> | [-> | [-> | -> ] ] ]; tauto.
Qed.

(** Root [npeid] is hung under root [peid] with the rotation [o] that
    carries the diff of [peid] to the one of [npeid]. *)
Lemma link_same_frames ed ps peid npeid o o1 o2 x1 x2 :
  good_entries ps →
  vget ps peid = Ok (peid, o1) → vget ps npeid = Ok (npeid, o2) →
  npeid ≠ peid → 0 ≤ o < 4 →
  vget ed peid = Ok x1 → vget ed npeid = Ok x2 → rshift90 x1 o = x2 →
  FixFlip.same_frames ed ps (<[Z.to_nat npeid := (peid, o)]> ps) ∧
  vget (<[Z.to_nat npeid := (peid, o)]> ps) peid = Ok (peid, o1).
Proof.
  intros Hg Hp Hn Hne Ho Hx1 Hx2 Hrot.
  pose proof (vget_Ok_range _ _ _ Hp) as Hpr.
  pose proof (vget_Ok_range _ _ _ Hn) as Hnr.
  assert (vget (<[Z.to_nat npeid := (peid, o)]> ps) peid = Ok (peid, o1)) as Hp'.
  { rewrite vget_insert_ne by lia. done. }
  split; [|done]. split_and!.
  - apply length_insert.
  - by apply good_entries_insert.
  - destruct (Hg _ _ _ Hp) as (_ & _ & Ho1). specialize (Ho1 eq_refl). subst o1.
    destruct (Hg _ _ _ Hn) as (_ & _ & Ho2). specialize (Ho2 eq_refl). subst o2.
    intros e r s d Hc. induction Hc as [j oj Hj | j p oj r s d Hj Hjp Hc IH].
    + destruct (decide (j = npeid)) as [->|Hjn].
      * assert (oj = 0) as -> by congruence.
        exists peid, (Z.rem (o + 0) 4), 1%nat. split.
        -- apply chain_link with (p := peid); [by apply vget_insert_eq | done |].
           by apply chain_root.
        -- right. exists x2, x1. split_and!; [done..|].
           by rewrite rshift90_rem, Z.add_0_r, rshift90_zero.
      * exists j, oj, 0%nat. split; [|by left].
        apply chain_root. rewrite vget_insert_ne by lia. done.
    + destruct IH as (r' & s' & d' & Hc' & Hrel).
      assert (j ≠ npeid) as Hjn by (intros ->; congruence).
      exists r', (Z.rem (oj + s') 4), (S d'). split.
      * apply chain_link with (p := p); [|done..].
        rewrite vget_insert_ne by lia. done.
      * destruct Hrel as [[-> ->]|(x & x' & Hx & Hx' & E)]; [by left|].
        right. exists x, x'. split_and!; [done..|].
        rewrite !rshift90_rem, !(Z.add_comm oj), <- !rshift90_compose. by rewrite E.
Qed.

Lemma set_parent_edge_Ok ps st u st' :
  FixFlip.set_parent_edge ps st = Ok (u, st') →
  FixFlip.parent_edge st' = ps ∧ FixFlip.edge_diff st' = FixFlip.edge_diff st.
Proof. by intros [= _ <-]. Qed.

Lemma union_edges_tail_keeps o peid npeid nf nv0 nv1 :
  FixFlip.keeps o
    (e2f ← FixFlip.get FixFlip.edge_to_faces;
     src ← FixFlip.lift (vget e2f npeid);
     dst ← FixFlip.lift (vget e2f peid);
     e2f1 ← FixFlip.lift (vset e2f peid (set_erase nf (set_insert_all src dst)));
     e2f2 ← FixFlip.lift (vset e2f1 npeid []);
     _ ← FixFlip.set_edge_to_faces e2f2;
     vte ← FixFlip.get FixFlip.vertices_to_edges;
     m0 ← FixFlip.lift (vget vte nv0);
     vte1 ← FixFlip.lift (vset vte nv0
                    (<[nv1 := list_erase_first npeid (default [] (m0 !! nv1))]> m0));
     m1 ← FixFlip.lift (vget vte1 nv1);
     vte2 ← FixFlip.lift (vset vte1 nv1
                    (<[nv0 := list_erase_first npeid (default [] (m1 !! nv0))]> m1));
     FixFlip.set_vertices_to_edges vte2 : M unit).
Proof. kauto. Qed.

Lemma union_edges_spec peid npeid nf nv0 nv1 st u st' :
  wf_forest (FixFlip.parent_edge st) →
  FixFlip.is_root peid st → FixFlip.is_root npeid st → npeid ≠ peid →
  FixFlip.union_edges peid npeid nf nv0 nv1 st = Ok (u, st') →
  FixFlip.frames_kept st st' ∧ FixFlip.is_root peid st'.
Proof.
  intros Hwf [o1 Hp] [o2 Hn] Hne H. unfold FixFlip.union_edges in H.
  mstep H as d1 st1 Hd1. mstep H as d2 st2 Hd2. cbv zeta in H.
  pose proof (rotation_search_spec d1 d2) as Hrot. cbv zeta in Hrot.
  set (orient := FixFlip.rotation_search 4 d1 d2 0) in *.
  apply mbind_Ok in H as (u1 & st3 & Hlink & H).
  case_decide as Ho; [done|].
  destruct Hrot as [[? _]|[Hor Hrot]]; [done|].
  mstep Hlink as ps st4 Hps. mstep Hlink as ps' st5 Hps'.
  apply set_parent_edge_Ok in Hlink as [Hps3 Hed3].
  rewrite vset_in_range in Hps' by (by eapply vget_Ok_range). injection Hps' as <-.
  destruct Hwf as [Hg Hch].
  destruct (link_same_frames _ _ _ _ _ _ _ _ _ Hg Hp Hn Hne Hor Hd1 Hd2 Hrot)
    as [Hsf Hroot].
  assert (FixFlip.frames_kept st st3) as Hk1 by (split; [done | by rewrite Hps3]).
  assert (FixFlip.is_root peid st3) as Hr3.
  { exists o1. by rewrite Hps3. }
  destruct (union_edges_tail_keeps (Some peid) peid npeid nf nv0 nv1 st3 u st')
    as [Hk2 Hr']; [|done|done|].
  { eapply frames_kept_wf; [|exact Hk1]. by split. }
  split; [by eapply frames_kept_trans | done].
Qed.

Lemma mbind_run {A B} (m : M A) (f : A → M B) st a st' :
  m st = Ok (a, st') → (m ≫= f) st = f a st'.
Proof. intros H. unfold mbind, FixFlip.M_bind. by rewrite H. Qed.

Lemma diff_of_run e st d :
  vget (FixFlip.edge_diff st) e = Ok d → FixFlip.diff_of e st = Ok (d, st).
Proof.
  intros H. unfold FixFlip.diff_of, FixFlip.get, FixFlip.lift, mbind, FixFlip.M_bind.
  by rewrite H.
Qed.

(** With no rotation between the two diffs, the process is ended by
    [exit(0)]. *)
Lemma union_edges_no_rotation peid npeid nf nv0 nv1 st d1 d2 :
  vget (FixFlip.edge_diff st) peid = Ok d1 →
  vget (FixFlip.edge_diff st) npeid = Ok d2 →
  (∀ r, 0 ≤ r < 4 → rshift90 d1 r ≠ d2) →
  FixFlip.union_edges peid npeid nf nv0 nv1 st = Exited 0.
Proof.
  intros H1 H2 Hno. unfold FixFlip.union_edges.
  rewrite (mbind_run _ _ _ _ _ (diff_of_run _ _ _ H1)).
  rewrite (mbind_run _ _ _ _ _ (diff_of_run _ _ _ H2)). cbv zeta.
  destruct (rotation_search_spec d1 d2) as [[Hr _]|[Hr Hrot]].
  - unfold mbind at 1, FixFlip.M_bind at 1. by rewrite decide_True.
  - by destruct (Hno _ Hr).
Qed.

Lemma keeps_bind_inv {A B} o (m : M A) (f : A → M B) st b st' :
  FixFlip.keeps o m →
  wf_forest (FixFlip.parent_edge st) → FixFlip.root_opt o st →
  (m ≫= f) st = Ok (b, st') →
  ∃ a st1, m st = Ok (a, st1) ∧ FixFlip.frames_kept st st1 ∧
    wf_forest (FixFlip.parent_edge st1) ∧ FixFlip.root_opt o st1 ∧
    f a st1 = Ok (b, st').
Proof.
  intros Hm Hwf Ho H. apply mbind_Ok in H as (a & st1 & H1 & H2).
  destruct (Hm _ _ _ Hwf Ho H1) as [Hk Ho1].
  exists a, st1. split_and!; [done..| |done|done]. by eapply frames_kept_wf.
Qed.

Lemma kept_then {P : State → Prop} st st1 st' :
  FixFlip.frames_kept st st1 → FixFlip.frames_kept st1 st' ∧ P st' →
  FixFlip.frames_kept st st' ∧ P st'.
Proof. intros H1 [H2 HP]. split; [by eapply frames_kept_trans | done]. Qed.

Lemma find_root e st r st' :
  wf_forest (FixFlip.parent_edge st) →
  FixFlip.find e st = Ok (r, st') → FixFlip.is_root r st'.
Proof.
  intros Hwf H. destruct (find_spec _ _ _ _ Hwf H) as [Hc (s & d & Hch)].
  eapply compressed_is_root; [done|]. by eapply chain_root_entry.
Qed.

Lemma keeps_face_edge_id o f j :
  FixFlip.keeps o (FixFlip.face_edge_id face_edgeIds f j : M Z).
Proof. unfold FixFlip.face_edge_id. kauto. Qed.

Lemma keeps_merge_corners n nf nj peid vv0 vv1 :
  FixFlip.keeps (Some peid)
    (FixFlip.merge_corners tree_Parent F face_edgeIds n nf nj peid vv0 vv1).
Proof.
  revert nj. induction n as [|n IH]; intros nj; cbn [FixFlip.merge_corners].
  { apply keeps_ret. }
  intros st a st' Hwf Hroot H.
  apply (keeps_bind_inv _ _ _ _ _ _ (keeps_corner_alive _ nf nj) Hwf Hroot) in H
    as ([[alive nv0] nv1] & st1 & _ & Hk1 & Hwf1 & Hroot1 & H).
  apply (kept_then _ _ _ Hk1). destruct alive; [|by eapply IH].
  apply (keeps_bind_inv _ _ _ _ _ _ (keeps_face_edge_id _ nf nj) Hwf1 Hroot1) in H
    as (neid & st2 & _ & Hk2 & Hwf2 & Hroot2 & H).
  apply (kept_then _ _ _ Hk2).
  apply (keeps_bind_inv _ _ _ _ _ _ (keeps_find _ neid) Hwf2 Hroot2) in H
    as (npeid & st3 & Hfind & Hk3 & Hwf3 & Hroot3 & H).
  apply (kept_then _ _ _ Hk3).
  apply find_root in Hfind; [|done].
  case_decide as Hd; [|by eapply IH]. destruct Hd as [Hne _].
  apply mbind_Ok in H as (u & st4 & Hu & H). apply mret_Ok in H as [_ ->].
  exact (union_edges_spec peid npeid _ _ _ _ _ _ Hwf3 Hroot3 Hfind Hne Hu).
Qed.

Lemma keeps_merge_scan fs f peid vv0 vv1 :
  FixFlip.keeps (Some peid)
    (FixFlip.merge_scan tree_Parent F face_edgeIds fs f peid vv0 vv1).
Proof.
  induction fs as [|nf fs IH]; cbn [FixFlip.merge_scan].
  { apply keeps_ret. }
  case_decide; [done|].
  apply keeps_bind; [apply keeps_non_collapse_count|]. intros count.
  case_decide; [done|].
  apply keeps_bind; [apply keeps_merge_corners|]. intros [|]; [apply keeps_ret | done].
Qed.

Lemma keeps_merge_loop fuel f peid vv0 vv1 :
  FixFlip.keeps (Some peid)
    (FixFlip.merge_loop tree_Parent F face_edgeIds fuel f peid vv0 vv1).
Proof.
  induction fuel as [|fuel IH]; cbn [FixFlip.merge_loop].
  { apply keeps_out_of_fuel. }
  apply keeps_bind; [apply keeps_get|]. intros e2f.
  apply keeps_bind; [apply keeps_lift|]. intros fs.
  apply keeps_bind; [apply keeps_merge_scan|]. intros [|]; [done | apply keeps_ret].
Qed.

Lemma keeps_merge_corner fuel f j :
  FixFlip.keeps None (FixFlip.merge_corner tree_Parent F face_edgeIds fuel f j).
Proof.
  unfold FixFlip.merge_corner. intros st a st' Hwf Hroot H.
  apply (keeps_bind_inv _ _ _ _ _ _ (keeps_corner_alive _ f j) Hwf Hroot) in H
    as ([[alive vv0] vv1] & st1 & _ & Hk1 & Hwf1 & Hroot1 & H).
  apply (kept_then _ _ _ Hk1). destruct alive; [|by eapply (keeps_ret None)].
  apply (keeps_bind_inv _ _ _ _ _ _ (keeps_face_edge_id _ f j) Hwf1 Hroot1) in H
    as (eid & st2 & _ & Hk2 & Hwf2 & Hroot2 & H).
  apply (kept_then _ _ _ Hk2).
  apply (keeps_bind_inv _ _ _ _ _ _ (keeps_find _ eid) Hwf2 Hroot2) in H
    as (peid & st3 & Hfind & Hk3 & Hwf3 & Hroot3 & H).
  apply (kept_then _ _ _ Hk3).
  apply find_root in Hfind; [|done].
  destruct (keeps_merge_loop _ _ _ _ _ _ _ _ Hwf3 Hfind H) as [Hk _]. done.
Qed.

Lemma keeps_collapse fuel v1 v2 :
  FixFlip.keeps None
    (FixFlip.collapse tree_Parent tree_MergeFromTo F face_edgeIds fuel v1 v2).
Proof.
  unfold FixFlip.collapse. case_decide; [apply keeps_ret|].
  apply keeps_bind; [apply keeps_collapse_faces|]. intros collapsed_faces.
  apply keeps_bind; [apply keeps_get|]. intros vte.
  apply keeps_bind; [apply keeps_lift|]. intros m1.
  apply keeps_bind; [apply keeps_mfor; intros; apply keeps_rewire_entry|]. intros _.
  apply keeps_bind; [apply keeps_get|]. intros t.
  apply keeps_bind; [apply keeps_set_tree|]. intros _.
  apply keeps_bind.
  { apply keeps_mfor; intros f. apply keeps_mfor; intros j. apply keeps_merge_corner. }
  intros _. apply keeps_bind.
  { apply keeps_mfor; intros f. apply keeps_mfor; intros j. apply keeps_forget_face. }
  intros _. kauto.
Qed.

Lemma keeps_collapse_if_zero fuel p :
  FixFlip.keeps None
    (FixFlip.collapse_if_zero tree_Parent tree_MergeFromTo F edge_values face_edgeIds
       fuel p).
Proof.
  unfold FixFlip.collapse_if_zero.
  apply keeps_bind; [apply keeps_diff_of|]. intros d.
  case_decide; [|apply keeps_ret].
  apply keeps_bind; [apply keeps_lift|]. intros ev.
  apply keeps_bind; [apply keeps_tree_parent|]. intros a.
  apply keeps_bind; [apply keeps_tree_parent|]. intros b.
  apply keeps_collapse.
Qed.

(** *** [CheckMove] *)

Lemma static_negative_area_sum_frames ps ps' ed faces :
  wf_forest ps → FixFlip.same_frames ed ps ps' →
  static_negative_area_sum ps' ed faces = static_negative_area_sum ps ed faces.
Proof.
  intros Hwf Hsf. induction faces as [|f faces IH]; [done|].
  cbn [FixFlip.static_negative_area_sum]. rewrite IH. f_equal.
  unfold FixFlip.static_negative_area.
  destruct (vget face_edgeIds f) as [ids| | |]; [|done..]. rewrite !rbind_Ok_l.
  destruct (v3_get ids 0) as [eid0| | |]; [|done..]. rewrite !rbind_Ok_l.
  destruct (v3_get ids 2) as [eid1| | |]; [|done..]. rewrite !rbind_Ok_l.
  destruct (vget face_edgeOrients f) as [os| | |]; [|done..]. rewrite !rbind_Ok_l.
  destruct (v3_get os 0) as [fo0| | |]; [|done..]. rewrite !rbind_Ok_l.
  destruct (v3_get os 2) as [fo1| | |]; [|done..]. rewrite !rbind_Ok_l.
  by rewrite !(same_frames_frame_diff _ _ _ _ Hwf Hsf).
Qed.

Lemma modified_faces_fold_spec ec acc st faces st' :
  FixFlip.mfold ec
    (λ e acc,
       e2f ← FixFlip.get FixFlip.edge_to_faces;
       fs ← FixFlip.lift (vget e2f e.1);
       mret (set_insert_all fs acc)) acc st = Ok (faces, st') →
  st' = st ∧
  FixFlip.static_modified_faces (FixFlip.edge_to_faces st) ec acc = Ok faces.
Proof.
  revert acc. induction ec as [|e ec IH]; intros acc H; cbn [FixFlip.mfold] in H.
  - apply mret_Ok in H as [-> ->]. done.
  - mstep H as acc' st1 Hb. mstep Hb as e2f st2 Hg. mstep Hb as fs st3 Hfs.
    mleaf Hb. destruct (IH _ H) as [-> Hs]. split; [done|].
    cbn [FixFlip.static_modified_faces]. by rewrite Hfs, rbind_Ok_l.
Qed.

Lemma modified_faces_of_spec ec st faces st' :
  FixFlip.modified_faces_of ec st = Ok (faces, st') →
  st' = st ∧
  FixFlip.static_modified_faces (FixFlip.edge_to_faces st) ec [] = Ok faces.
Proof. apply modified_faces_fold_spec. Qed.

Lemma compressed_splice st1 st2 st3 st4 st5 :
  FixFlip.compressed st1 st2 → FixFlip.only_edge_diff st2 st3 →
  FixFlip.compressed st3 st4 → FixFlip.only_edge_diff st4 st5 →
  FixFlip.edge_diff st5 = FixFlip.edge_diff st1 →
  FixFlip.compressed st1 st5.
Proof.
  intros (? & ? & ? & ? & Hl1 & Hg1 & Hc1) (Hp2 & ? & ? & ?)
    (? & ? & ? & ? & Hl3 & Hg3 & Hc3) (Hp4 & ? & ? & ?) Hed.
  unfold FixFlip.compressed. rewrite Hp4. split_and!; try congruence; try done.
  intros e r s d Hc. destruct (Hc1 _ _ _ _ Hc) as [d1 Hc'].
  rewrite <- Hp2 in Hc'. eauto.
Qed.

Lemma subtract_then_add_later ec st u1 st1 st1' u2 st2 :
  FixFlip.mfor ec FixFlip.subtract_change st = Ok (u1, st1) →
  FixFlip.edge_diff st1' = FixFlip.edge_diff st1 →
  FixFlip.mfor ec FixFlip.add_change st1' = Ok (u2, st2) →
  FixFlip.edge_diff st2 = FixFlip.edge_diff st.
Proof.
  intros (_ & Hl1 & H1)%subtract_changes_spec Hed (_ & Hl2 & H2)%add_changes_spec.
  symmetry. apply vget_eq_list; [congruence|]. intros k x Hk.
  rewrite Hed in H2. rewrite (H2 k _ (H1 k x Hk)). by rewrite v2_sub_add.
Qed.

Local Abbreviation CheckMove :=
  (FixFlip.CheckMove tree_Parent tree_MergeFromTo F edge_values face_edgeIds
     face_edgeOrients edge_len).

(** C3 (monotone repair).  A call of [CheckMove] with [check_face] true
    that returns, made on a well-formed [parent_edge] forest: let [faces] be
    the faces on the edges of the extracted [edge_change] (empty when no
    loop was found).  The negative-area sum over [faces] after the call is
    not greater than the one before.  When the move is accepted the changes
    of [edge_change] have been subtracted from [edge_diff], the sum has
    strictly decreased, and the collapses that follow keep [edge_diff] and
    every edge's diff in the frame of its class.  When it is rejected
    [edge_diff], [edge_to_faces], [vertices_to_edges] and the vertex tree
    are what they were; [parent_edge] has at most been path-compressed by
    the [get_parents] calls. *)
Theorem CheckMove_never_increases_negative_area fuel v1 v2 pid st accepted st' :
  wf_forest (FixFlip.parent_edge st) →
  CheckMove fuel v1 v2 pid 1 st = Ok (accepted, st') →
  ∃ edge_change st0 faces before after,
    ExtractEdgeSet fuel v1 v2 pid st = Ok (edge_change, st0) ∧
    FixFlip.static_modified_faces (FixFlip.edge_to_faces st) edge_change [] = Ok faces ∧
    static_negative_area_sum (FixFlip.parent_edge st) (FixFlip.edge_diff st) faces
      = Ok before ∧
    static_negative_area_sum (FixFlip.parent_edge st') (FixFlip.edge_diff st') faces
      = Ok after ∧
    after ≤ before ∧
    (accepted = true →
       after < before ∧
       ∀ k d, vget (FixFlip.edge_diff st) k = Ok d →
         vget (FixFlip.edge_diff st') k
           = Ok (v2_sub d (FixFlip.change_total edge_change k))) ∧
    (accepted = false → FixFlip.compressed st st').
Proof.
  intros Hwf H. unfold FixFlip.CheckMove in H.
  mstep H as ec st1 Hext. exists ec, st1.
  destruct (ExtractEdgeSet_spec _ _ _ _ _ _ _ Hwf Hext) as [Hc1 _].
  pose proof (compressed_wf _ _ Hwf Hc1) as Hwf1.
  pose proof Hc1 as (Hed1 & He2f1 & _).
  case_decide as Hec.
  { apply mret_Ok in H as [-> ->]. subst ec. exists [], 0, 0.
    split_and!; [done..|lia|done|done]. }
  mstep H as faces st2 Hmf. apply modified_faces_of_spec in Hmf as [-> Hmf].
  rewrite He2f1 in Hmf.
  mstep H as original st3 Horig.
  destruct (negative_area_sum_spec _ _ _ _ Hwf1 Horig) as [Hc3 Hbefore].
  rewrite Hed1, (static_negative_area_sum_compressed _ _ _ _ Hwf Hc1) in Hbefore.
  pose proof (compressed_wf _ _ Hwf1 Hc3) as Hwf3.
  pose proof Hc3 as (Hed3 & _).
  mstep H as u4 st4 Hsub.
  pose proof (subtract_changes_spec _ _ _ _ Hsub) as (Ho4 & Hl4 & Hsub').
  pose proof Ho4 as (Hps4 & _).
  assert (wf_forest (FixFlip.parent_edge st4)) as Hwf4 by (by rewrite Hps4).
  mstep H as current st5 Hcur.
  destruct (negative_area_sum_spec _ _ _ _ Hwf4 Hcur) as [Hc5 Hafter].
  pose proof (compressed_wf _ _ Hwf4 Hc5) as Hwf5.
  pose proof Hc5 as (Hed5 & _).
  exists faces, original. case_decide as Hacc.
  - destruct Hacc as [Hlt|?]; [|done].
    mstep H as u6 st6 Hcol. apply mret_Ok in H as [-> ->].
    destruct (keeps_mfor None ec _ (keeps_collapse_if_zero fuel) _ _ _ Hwf5 I Hcol)
      as [[Hed6 Hsf] _].
    exists current. split_and!; [done..| |lia| |done].
    + rewrite Hed6, (static_negative_area_sum_frames _ _ _ _ Hwf5 Hsf).
      by rewrite Hed5, (static_negative_area_sum_compressed _ _ _ _ Hwf4 Hc5).
    + intros _. split; [done|]. intros k d Hk.
      rewrite Hed6, Hed5. apply Hsub'. by rewrite Hed3, Hed1.
  - mstep H as u6 st6 Hadd. apply mret_Ok in H as [-> ->].
    pose proof (subtract_then_add_later _ _ _ _ _ _ _ Hsub Hed5 Hadd) as Hed6.
    pose proof (add_changes_spec _ _ _ _ Hadd) as (Ho6 & _).
    assert (FixFlip.compressed st st6) as Hc.
    { eapply compressed_trans; [exact Hc1|].
      eapply (compressed_splice st1 st3 st4 st5 st6); [done..|]. congruence. }
    exists original. split_and!; [done..| |lia|done|done].
    rewrite <- Hbefore. pose proof Hc as (-> & _).
    by apply (static_negative_area_sum_compressed st st6).
Qed.

(** *** The unit range of [edge_diff] *)

Lemma CheckMove_unit_range fuel v1 v2 pid check_face st b st' :
  edge_len = 1 →
  wf_forest (FixFlip.parent_edge st) →
  Forall in_unit_range (FixFlip.edge_diff st) →
  CheckMove fuel v1 v2 pid check_face st = Ok (b, st') →
  Forall in_unit_range (FixFlip.edge_diff st') ∧ wf_forest (FixFlip.parent_edge st').
Proof.
  intros Hlen Hwf Hunit H. unfold FixFlip.CheckMove in H.
  mstep H as ec st1 Hext.
  destruct (ExtractEdgeSet_spec _ _ _ _ _ _ _ Hwf Hext) as [Hc1 Hec].
  pose proof (compressed_wf _ _ Hwf Hc1) as Hwf1.
  pose proof Hc1 as (Hed1 & _).
  case_decide as Hnil.
  { apply mret_Ok in H as [-> ->]. by rewrite Hed1. }
  destruct Hec as [?|[Hnd Hin]]; [done|]. rewrite Hlen in Hin.
  mstep H as faces st2 Hmf. apply modified_faces_of_spec in Hmf as [-> _].
  mstep H as original st3 Horig.
  destruct (negative_area_sum_spec _ _ _ _ Hwf1 Horig) as [Hc3 _].
  pose proof (compressed_wf _ _ Hwf1 Hc3) as Hwf3.
  pose proof Hc3 as (Hed3 & _).
  mstep H as u4 st4 Hsub.
  pose proof (subtract_changes_spec _ _ _ _ Hsub) as ((Hps4 & _) & _).
  assert (wf_forest (FixFlip.parent_edge st4)) as Hwf4 by (by rewrite Hps4).
  assert (Forall in_unit_range (FixFlip.edge_diff st4)) as Hunit4.
  { eapply subtract_changes_unit_range; [| |by rewrite Hed3, Hed1|exact Hsub];
      [by rewrite Hed3, Hed1 | done]. }
  mstep H as current st5 Hcur.
  destruct (negative_area_sum_spec _ _ _ _ Hwf4 Hcur) as [Hc5 _].
  pose proof (compressed_wf _ _ Hwf4 Hc5) as Hwf5.
  pose proof Hc5 as (Hed5 & _).
  case_decide as Hacc.
  - mstep H as u6 st6 Hcol. apply mret_Ok in H as [-> ->].
    destruct (keeps_mfor None ec _ (keeps_collapse_if_zero fuel) _ _ _ Hwf5 I Hcol)
      as [Hk _].
    split; [|by eapply frames_kept_wf]. destruct Hk as [-> _]. by rewrite Hed5.
  - mstep H as u6 st6 Hadd. apply mret_Ok in H as [-> ->].
    pose proof (subtract_then_add_later _ _ _ _ _ _ _ Hsub Hed5 Hadd) as Hed6.
    pose proof (add_changes_spec _ _ _ _ Hadd) as ((Hps6 & _) & _).
    split; [by rewrite Hed6, Hed3, Hed1 | by rewrite Hps6].
Qed.

Lemma collapse_edge_diff fuel v1 v2 st u st' :
  wf_forest (FixFlip.parent_edge st) →
  FixFlip.collapse tree_Parent tree_MergeFromTo F face_edgeIds fuel v1 v2 st
    = Ok (u, st') →
  FixFlip.edge_diff st' = FixFlip.edge_diff st ∧
  wf_forest (FixFlip.parent_edge st').
Proof.
  intros Hwf H. destruct (keeps_collapse fuel v1 v2 _ _ _ Hwf I H) as [Hk _].
  split; [by destruct Hk | by eapply frames_kept_wf].
Qed.

Lemma find_edge_diff e st r st' :
  FixFlip.find e st = Ok (r, st') →
  FixFlip.edge_diff st' = FixFlip.edge_diff st.
Proof.
  unfold FixFlip.find. intros H. by apply rbind_Ok in H as ([ps r'] & _ & [= _ <-]).
Qed.

Lemma vget_Forall {A} (P : A → Prop) (l : list A) i x :
  Forall P l → vget l i = Ok x → P x.
Proof.
  intros Hall H. unfold vget in H. case_decide; [|done].
  destruct (l !! Z.to_nat i) eqn:E; [|done]. injection H as ->.
  by eapply Forall_lookup_1.
Qed.

Lemma propagate_edge_unit_range i st u st' :
  Forall in_unit_range (FixFlip.edge_diff st) →
  FixFlip.propagate_edge i st = Ok (u, st') →
  Forall in_unit_range (FixFlip.edge_diff st').
Proof.
  intros Hunit H. unfold FixFlip.propagate_edge in H.
  mstep H as o st1 Ho.
  mstep H as p st2 Hp. apply find_edge_diff in Hp.
  mstep H as d st3 Hd. mstep H as ed st4 Hg. mstep H as ed' st5 Hset.
  injection H as _ <-. cbn [FixFlip.edge_diff].
  unfold vset in Hset. case_decide; [|done]. injection Hset as <-.
  rewrite Hp in Hd |- *. apply Forall_insert; [done|].
  apply rshift90_unit_range. by eapply vget_Forall.
Qed.

Lemma mfor_propagate_unit_range l st u st' :
  Forall in_unit_range (FixFlip.edge_diff st) →
  FixFlip.mfor l FixFlip.propagate_edge st = Ok (u, st') →
  Forall in_unit_range (FixFlip.edge_diff st').
Proof.
  revert st. induction l as [|i l IH]; intros st Hunit H; cbn [FixFlip.mfor] in H.
  - by apply mret_Ok in H as [_ ->].
  - mstep H as u1 st1 Hi. eapply IH; [|exact H].
    by eapply propagate_edge_unit_range.
Qed.

Lemma final_propagation_unit_range st u st' :
  Forall in_unit_range (FixFlip.edge_diff st) →
  FixFlip.final_propagation st = Ok (u, st') →
  Forall in_unit_range (FixFlip.edge_diff st').
Proof.
  intros Hunit H. unfold FixFlip.final_propagation in H.
  apply mbind_Ok in H as (ps & st1 & Hps & H). apply get_Ok in Hps as [_ ->].
  by eapply mfor_propagate_unit_range.
Qed.

(** *** The scan of [collapse] at a corner, run forward *)

Local Abbreviation corner_view := (FixFlip.corner_view tree_Parent F face_edgeIds).
Local Abbreviation corner_alive := (FixFlip.corner_alive tree_Parent F face_edgeIds).

Lemma root_of_compressed st st' e :
  wf_forest (FixFlip.parent_edge st) → FixFlip.compressed st st' →
  FixFlip.root_of (FixFlip.parent_edge st') e = FixFlip.root_of (FixFlip.parent_edge st) e.
Proof.
  intros Hwf Hcomp. pose proof Hwf as [Hg Hch].
  pose proof Hcomp as (_ & _ & _ & _ & Hl & Hg' & H).
  destruct (decide (0 ≤ e < vsize (FixFlip.parent_edge st))) as [He|He].
  - destruct (Hch e He) as (r & s & d & Hc). destruct (H _ _ _ _ Hc) as [d' Hc'].
    by rewrite (root_of_chain _ _ _ _ _ Hg Hc), (root_of_chain _ _ _ _ _ Hg' Hc').
  - unfold FixFlip.root_of. rewrite Hl.
    destruct (length (FixFlip.parent_edge st)) eqn:E; [reflexivity|].
    cbn [get_parents].
    assert (¬ 0 ≤ e < vsize (FixFlip.parent_edge st')) as He'
      by (unfold vsize in *; by rewrite Hl, <- E).
    rewrite (vget_out_of_range _ e He), (vget_out_of_range _ e He').
    reflexivity.
Qed.

Lemma corner_view_compressed st st' f k :
  wf_forest (FixFlip.parent_edge st) → FixFlip.compressed st st' →
  corner_view st' f k = corner_view st f k.
Proof.
  intros Hwf Hcomp. unfold FixFlip.corner_view.
  destruct (vget F f) as [col| | |]; try reflexivity. rewrite !rbind_Ok_l.
  destruct (v3_get col k) as [a| | |]; try reflexivity. rewrite !rbind_Ok_l.
  destruct (v3_get col (Z.rem (k + 1) 3)) as [b| | |]; try reflexivity. rewrite !rbind_Ok_l.
  destruct (vget face_edgeIds f) as [ids| | |]; try reflexivity. rewrite !rbind_Ok_l.
  destruct (v3_get ids k) as [e| | |]; try reflexivity. rewrite !rbind_Ok_l.
  rewrite (root_of_compressed _ _ _ Hwf Hcomp).
  destruct Hcomp as (-> & _ & _ & -> & _). reflexivity.
Qed.

(** [find] on an edge whose root is known. *)
Lemma find_run e st r :
  wf_forest (FixFlip.parent_edge st) →
  FixFlip.root_of (FixFlip.parent_edge st) e = Ok r →
  ∃ st', FixFlip.find e st = Ok (r, st') ∧ FixFlip.compressed st st'.
Proof.
  intros Hwf Hroot. unfold FixFlip.root_of in Hroot.
  apply rbind_Ok in Hroot as ([ps r'] & Hrun & [= <-]).
  eexists. split.
  - unfold FixFlip.find. rewrite Hrun. reflexivity.
  - eapply find_spec; [done|]. unfold FixFlip.find. rewrite Hrun. reflexivity.
Qed.

(** The pieces of a corner view. *)
Lemma corner_view_Ok st f k c :
  corner_view st f k = Ok c →
  ∃ col a b ids e,
    vget F f = Ok col ∧ v3_get col k = Ok a ∧ v3_get col (Z.rem (k + 1) 3) = Ok b ∧
    vget face_edgeIds f = Ok ids ∧ v3_get ids k = Ok e ∧
    FixFlip.root_of (FixFlip.parent_edge st) e = Ok (FixFlip.cv_root c) ∧
    vget (FixFlip.edge_diff st) (FixFlip.cv_root c) = Ok (FixFlip.cv_diff c) ∧
    FixFlip.cv_v0 c = tree_Parent (FixFlip.tree st) a ∧
    FixFlip.cv_v1 c = tree_Parent (FixFlip.tree st) b.
Proof.
  unfold FixFlip.corner_view. intros H.
  apply rbind_Ok in H as (col & Hcol & H). apply rbind_Ok in H as (a & Ha & H).
  apply rbind_Ok in H as (b & Hb & H). apply rbind_Ok in H as (ids & Hids & H).
  apply rbind_Ok in H as (e & He & H). apply rbind_Ok in H as (r & Hr & H).
  apply rbind_Ok in H as (d & Hd & [= <-]). simpl.
  exists col, a, b, ids, e. done.
Qed.

(** The class root of the corner edge, as the scan computes it. *)
Lemma corner_root_run st f k c :
  wf_forest (FixFlip.parent_edge st) →
  corner_view st f k = Ok c →
  ∃ e st',
    FixFlip.face_edge_id face_edgeIds f k st = Ok (e, st) ∧
    FixFlip.find e st = Ok (FixFlip.cv_root c, st') ∧
    FixFlip.compressed st st'.
Proof.
  intros Hwf Hc.
  destruct (corner_view_Ok _ _ _ _ Hc) as (col & a & b & ids & e & _ & _ & _ & Hids & He & Hr & _).
  destruct (find_run _ _ _ Hwf Hr) as (st' & Hfind & Hcomp).
  exists e, st'. split_and!; [|done|done].
  unfold FixFlip.face_edge_id, FixFlip.lift. by rewrite Hids, rbind_Ok_l, He.
Qed.

Lemma corner_alive_run st f k c :
  wf_forest (FixFlip.parent_edge st) →
  corner_view st f k = Ok c →
  ∃ st',
    corner_alive f k st
      = Ok ((bool_decide (FixFlip.cv_live c), FixFlip.cv_v0 c, FixFlip.cv_v1 c), st') ∧
    FixFlip.compressed st st'.
Proof.
  intros Hwf Hc.
  destruct (corner_view_Ok _ _ _ _ Hc)
    as (col & a & b & ids & e & Hcol & Ha & Hb & Hids & He & Hr & Hd & Hv0 & Hv1).
  assert (∀ j x, v3_get col j = Ok x → FixFlip.F_at F j f st = Ok (x, st)) as HF.
  { intros j x Hx. unfold FixFlip.F_at, FixFlip.lift. by rewrite Hcol, rbind_Ok_l, Hx. }
  assert (∀ x, FixFlip.tree_parent tree_Parent x st
               = Ok (tree_Parent (FixFlip.tree st) x, st)) as HP by done.
  unfold FixFlip.corner_alive.
  rewrite (mbind_run _ _ _ _ _ (HF _ _ Ha)), (mbind_run _ _ _ _ _ (HP a)).
  rewrite (mbind_run _ _ _ _ _ (HF _ _ Hb)), (mbind_run _ _ _ _ _ (HP b)).
  rewrite <- Hv0, <- Hv1.
  destruct (decide (FixFlip.cv_v0 c ≠ FixFlip.cv_v1 c)) as [Hne|Heq].
  - exists st. split; [|apply compressed_refl, Hwf].
    rewrite bool_decide_eq_true_2; [done|]. by left.
  - destruct (corner_root_run _ _ _ _ Hwf Hc) as (e' & st' & Hid & Hfind & Hcomp).
    exists st'. split; [|done].
    rewrite (mbind_run _ _ _ _ _ Hid), (mbind_run _ _ _ _ _ Hfind).
    assert (FixFlip.diff_of (FixFlip.cv_root c) st' = Ok (FixFlip.cv_diff c, st')) as Hdiff.
    { apply diff_of_run. destruct Hcomp as (-> & _). done. }
    rewrite (mbind_run _ _ _ _ _ Hdiff).
    assert (bool_decide (FixFlip.cv_diff c ≠ v2_zero) = bool_decide (FixFlip.cv_live c))
      as ->; [|done].
    apply bool_decide_ext. unfold FixFlip.cv_live. split; [by right|].
    intros [?|?]; [|done]. exfalso. apply Heq. done.
Qed.

Lemma mbind_exit {A B} (m : M A) (f : A → M B) st code :
  m st = Exited code → (m ≫= f) st = Exited code.
Proof. intros H. unfold mbind, FixFlip.M_bind. by rewrite H. Qed.

(** The views of the three corners of a face are kept by path
    compression. *)
Lemma views_compressed st st' f (c : Z → FixFlip.CornerView) :
  wf_forest (FixFlip.parent_edge st) → FixFlip.compressed st st' →
  (∀ k, 0 ≤ k < 3 → corner_view st f k = Ok (c k)) →
  ∀ k, 0 ≤ k < 3 → corner_view st' f k = Ok (c k).
Proof.
  intros Hwf Hcomp Hv k Hk. rewrite (corner_view_compressed _ _ _ _ Hwf Hcomp). by apply Hv.
Qed.

Lemma count_step_run st f k c count :
  wf_forest (FixFlip.parent_edge st) →
  corner_view st f k = Ok c →
  ∃ st',
    (eid ← FixFlip.face_edge_id face_edgeIds f k;
     p ← FixFlip.find eid;
     d ← FixFlip.diff_of p;
     mret (if decide (d ≠ v2_zero) then count + 1 else count)) st
    = Ok (if decide (FixFlip.cv_diff c ≠ v2_zero) then count + 1 else count, st') ∧
    FixFlip.compressed st st'.
Proof.
  intros Hwf Hc.
  destruct (corner_root_run _ _ _ _ Hwf Hc) as (e & st' & Hid & Hfind & Hcomp).
  exists st'. split; [|done].
  rewrite (mbind_run _ _ _ _ _ Hid), (mbind_run _ _ _ _ _ Hfind).
  assert (FixFlip.diff_of (FixFlip.cv_root c) st' = Ok (FixFlip.cv_diff c, st')) as Hdiff.
  { apply diff_of_run. destruct Hcomp as (-> & _).
    by destruct (corner_view_Ok _ _ _ _ Hc) as (? & ? & ? & ? & ? & _ & _ & _ & _ & _ & _ & ? & _). }
  by rewrite (mbind_run _ _ _ _ _ Hdiff).
Qed.

Lemma non_collapse_count_run st f (c : Z → FixFlip.CornerView) :
  wf_forest (FixFlip.parent_edge st) →
  (∀ k, 0 ≤ k < 3 → corner_view st f k = Ok (c k)) →
  ∃ n st',
    FixFlip.non_collapse_count face_edgeIds f st = Ok (n, st') ∧
    FixFlip.compressed st st' ∧
    (n = 3 → ∀ k, 0 ≤ k < 3 → FixFlip.cv_diff (c k) ≠ v2_zero).
Proof.
  intros Hwf Hv. unfold FixFlip.non_collapse_count. cbn [FixFlip.mfold].
  destruct (count_step_run st f 0 (c 0) 0 Hwf (Hv 0 ltac:(lia))) as (st1 & H1 & Hc1).
  pose proof (compressed_wf _ _ Hwf Hc1) as Hwf1.
  pose proof (views_compressed _ _ _ _ Hwf Hc1 Hv) as Hv1.
  rewrite (mbind_run _ _ _ _ _ H1).
  destruct (count_step_run st1 f 1 (c 1) (if decide (FixFlip.cv_diff (c 0) ≠ v2_zero) then 0 + 1 else 0)
              Hwf1 (Hv1 1 ltac:(lia))) as (st2 & H2 & Hc2).
  pose proof (compressed_wf _ _ Hwf1 Hc2) as Hwf2.
  pose proof (views_compressed _ _ _ _ Hwf1 Hc2 Hv1) as Hv2.
  rewrite (mbind_run _ _ _ _ _ H2).
  destruct (count_step_run st2 f 2 (c 2)
              (if decide (FixFlip.cv_diff (c 1) ≠ v2_zero)
               then (if decide (FixFlip.cv_diff (c 0) ≠ v2_zero) then 0 + 1 else 0) + 1
               else (if decide (FixFlip.cv_diff (c 0) ≠ v2_zero) then 0 + 1 else 0))
              Hwf2 (Hv2 2 ltac:(lia))) as (st3 & H3 & Hc3).
  rewrite (mbind_run _ _ _ _ _ H3).
  eexists _, st3. split; [reflexivity|]. split.
  { eapply compressed_trans; [exact Hc1|]. eapply compressed_trans; [exact Hc2 | exact Hc3]. }
  intros Hn k Hk.
  assert (k = 0 ∨ k = 1 ∨ k = 2) as [-> | [-> | ->]] by lia;
    repeat case_decide; try done; lia.
Qed.

(** The loop over the corners of the scanned face: the corners before the
    first clashing one are passed, and at that one the two classes cannot
    be united. *)
Lemma merge_corners_exit (c : Z → FixFlip.CornerView) f j nj st0 :
  wf_forest (FixFlip.parent_edge st0) →
  (∀ k, 0 ≤ k < 3 → corner_view st0 f k = Ok (c k)) →
  0 ≤ j < 3 → 0 ≤ nj < 3 →
  FixFlip.cv_clash (c j) (c nj) →
  FixFlip.no_rotation (FixFlip.cv_diff (c j)) (FixFlip.cv_diff (c nj)) →
  ∀ (m : nat) n k st,
    FixFlip.compressed st0 st →
    0 ≤ k → k + Z.of_nat m = nj → (m < n)%nat →
    (∀ k', k ≤ k' < nj → ¬ FixFlip.cv_clash (c j) (c k')) →
    FixFlip.merge_corners tree_Parent F face_edgeIds n f k
      (FixFlip.cv_root (c j)) (FixFlip.cv_v0 (c j)) (FixFlip.cv_v1 (c j)) st = Exited 0.
Proof.
  intros Hwf0 Hv0 Hj Hnj Hclash Hno m.
  induction m as [|m IH]; intros n k st Hcomp Hk Hkm Hmn Hbefore.
  - destruct n as [|n]; [lia|]. assert (k = nj) as -> by lia.
    pose proof (compressed_wf _ _ Hwf0 Hcomp) as Hwf.
    pose proof (views_compressed _ _ _ _ Hwf0 Hcomp Hv0) as Hv.
    cbn [FixFlip.merge_corners].
    destruct (corner_alive_run _ _ _ _ Hwf (Hv nj Hnj)) as (st1 & Halive & Hc1).
    rewrite (mbind_run _ _ _ _ _ Halive).
    destruct Hclash as (Hlive & Hroot & Hedge).
    rewrite bool_decide_eq_true_2 by done.
    pose proof (compressed_wf _ _ Hwf Hc1) as Hwf1.
    pose proof (views_compressed _ _ _ _ Hwf Hc1 Hv) as Hv1.
    destruct (corner_root_run _ _ _ _ Hwf1 (Hv1 nj Hnj)) as (e & st2 & Hid & Hfind & Hc2).
    rewrite (mbind_run _ _ _ _ _ Hid), (mbind_run _ _ _ _ _ Hfind).
    rewrite decide_True by done.
    apply mbind_exit.
    assert (FixFlip.edge_diff st2 = FixFlip.edge_diff st0) as Hed.
    { destruct Hc2 as (-> & _). destruct Hc1 as (-> & _). by destruct Hcomp as (-> & _). }
    eapply union_edges_no_rotation; [| |exact Hno]; rewrite Hed.
    + by destruct (corner_view_Ok _ _ _ _ (Hv0 j Hj))
        as (? & ? & ? & ? & ? & _ & _ & _ & _ & _ & _ & ? & _).
    + by destruct (corner_view_Ok _ _ _ _ (Hv0 nj Hnj))
        as (? & ? & ? & ? & ? & _ & _ & _ & _ & _ & _ & ? & _).
  - destruct n as [|n]; [lia|].
    pose proof (compressed_wf _ _ Hwf0 Hcomp) as Hwf.
    pose proof (views_compressed _ _ _ _ Hwf0 Hcomp Hv0) as Hv.
    assert (0 ≤ k < 3) as Hk3 by lia.
    cbn [FixFlip.merge_corners].
    destruct (corner_alive_run _ _ _ _ Hwf (Hv k Hk3)) as (st1 & Halive & Hc1).
    rewrite (mbind_run _ _ _ _ _ Halive).
    pose proof (compressed_trans _ _ _ Hcomp Hc1) as Hcomp1.
    destruct (bool_decide (FixFlip.cv_live (c k))) eqn:Hlive.
    + apply bool_decide_eq_true in Hlive.
      pose proof (compressed_wf _ _ Hwf Hc1) as Hwf1.
      pose proof (views_compressed _ _ _ _ Hwf Hc1 Hv) as Hv1.
      destruct (corner_root_run _ _ _ _ Hwf1 (Hv1 k Hk3)) as (e & st2 & Hid & Hfind & Hc2).
      rewrite (mbind_run _ _ _ _ _ Hid), (mbind_run _ _ _ _ _ Hfind).
      rewrite decide_False.
      * apply IH; [by eapply compressed_trans | lia | lia | lia |].
        intros k' Hk'. apply Hbefore. lia.
      * intros [? ?]. apply (Hbefore k ltac:(lia)). by split.
    + apply IH; [done | lia | lia | lia |].
      intros k' Hk'. apply Hbefore. lia.
Qed.

Lemma merge_scan_exit (c : Z → FixFlip.CornerView) f j nj st0 :
  wf_forest (FixFlip.parent_edge st0) →
  (∀ k, 0 ≤ k < 3 → corner_view st0 f k = Ok (c k)) →
  0 ≤ j < 3 → 0 ≤ nj < 3 →
  (∃ k, 0 ≤ k < 3 ∧ FixFlip.cv_diff (c k) = v2_zero) →
  FixFlip.cv_clash (c j) (c nj) →
  (∀ k, 0 ≤ k < nj → ¬ FixFlip.cv_clash (c j) (c k)) →
  FixFlip.no_rotation (FixFlip.cv_diff (c j)) (FixFlip.cv_diff (c nj)) →
  ∀ fs st,
    f ∈ fs → FixFlip.compressed st0 st →
    FixFlip.merge_scan tree_Parent F face_edgeIds fs f
      (FixFlip.cv_root (c j)) (FixFlip.cv_v0 (c j)) (FixFlip.cv_v1 (c j)) st = Exited 0.
Proof.
  intros Hwf0 Hv0 Hj Hnj (kz & Hkz & Hzero) Hclash Hfirst Hno fs.
  induction fs as [|nf fs IH]; intros st Hin Hcomp.
  - by apply elem_of_nil in Hin.
  - cbn [FixFlip.merge_scan]. destruct (decide (nf ≠ f)) as [Hne|Heq].
    + apply IH; [|done]. apply elem_of_cons in Hin as [->|?]; done.
    + assert (nf = f) as -> by (destruct (decide (nf = f)); [done | by destruct Heq]).
      pose proof (compressed_wf _ _ Hwf0 Hcomp) as Hwf.
      pose proof (views_compressed _ _ _ _ Hwf0 Hcomp Hv0) as Hv.
      destruct (non_collapse_count_run _ _ _ Hwf Hv) as (n & st1 & Hcount & Hc1 & Hn).
      rewrite (mbind_run _ _ _ _ _ Hcount).
      rewrite decide_False by (intros E; by apply (Hn E kz Hkz)).
      apply mbind_exit.
      eapply (merge_corners_exit c f j nj st0 Hwf0 Hv0 Hj Hnj Hclash Hno (Z.to_nat nj) 3 0);
        [by eapply compressed_trans | lia | lia | lia |].
      intros k' Hk'. apply Hfirst. lia.
Qed.

Lemma merge_corner_exit (c : Z → FixFlip.CornerView) fuel f j nj st fs :
  wf_forest (FixFlip.parent_edge st) →
  (∀ k, 0 ≤ k < 3 → corner_view st f k = Ok (c k)) →
  0 ≤ j < 3 → 0 ≤ nj < 3 →
  FixFlip.cv_live (c j) →
  vget (FixFlip.edge_to_faces st) (FixFlip.cv_root (c j)) = Ok fs → f ∈ fs →
  (∃ k, 0 ≤ k < 3 ∧ FixFlip.cv_diff (c k) = v2_zero) →
  FixFlip.cv_clash (c j) (c nj) →
  (∀ k, 0 ≤ k < nj → ¬ FixFlip.cv_clash (c j) (c k)) →
  FixFlip.no_rotation (FixFlip.cv_diff (c j)) (FixFlip.cv_diff (c nj)) →
  FixFlip.merge_corner tree_Parent F face_edgeIds (S fuel) f j st = Exited 0.
Proof.
  intros Hwf Hv Hj Hnj Hlive Hfs Hin Hzero Hclash Hfirst Hno.
  unfold FixFlip.merge_corner.
  destruct (corner_alive_run _ _ _ _ Hwf (Hv j Hj)) as (st1 & Halive & Hc1).
  rewrite (mbind_run _ _ _ _ _ Halive). rewrite bool_decide_eq_true_2 by done.
  pose proof (compressed_wf _ _ Hwf Hc1) as Hwf1.
  pose proof (views_compressed _ _ _ _ Hwf Hc1 Hv) as Hv1.
  destruct (corner_root_run _ _ _ _ Hwf1 (Hv1 j Hj)) as (e & st2 & Hid & Hfind & Hc2).
  rewrite (mbind_run _ _ _ _ _ Hid), (mbind_run _ _ _ _ _ Hfind).
  pose proof (compressed_trans _ _ _ Hc1 Hc2) as Hc.
  cbn [FixFlip.merge_loop].
  assert (FixFlip.edge_to_faces st2 = FixFlip.edge_to_faces st) as He2f
    by (by destruct Hc as (_ & -> & _)).
  assert ((FixFlip.get FixFlip.edge_to_faces : M _) st2 = Ok (FixFlip.edge_to_faces st, st2))
    as Hget by (unfold FixFlip.get; by rewrite He2f).
  rewrite (mbind_run _ _ _ _ _ Hget).
  assert (FixFlip.lift (vget (FixFlip.edge_to_faces st) (FixFlip.cv_root (c j))) st2
          = Ok (fs, st2)) as Hlift by (unfold FixFlip.lift; by rewrite Hfs).
  rewrite (mbind_run _ _ _ _ _ Hlift).
  apply mbind_exit.
  by apply (merge_scan_exit c f j nj st Hwf Hv Hj Hnj Hzero Hclash Hfirst Hno fs st2 Hin Hc).
Qed.

(** *** Every exit of the collapse has status 0 *)

Lemma get_parents_no_exit fuel ps j code : get_parents fuel ps j ≠ Exited code.
Proof.
  revert ps j. induction fuel as [|fuel IH]; intros ps j; cbn [get_parents]; [done|].
  unfold vget, vset.
  repeat first
    [ done
    | case_decide
    | match goal with
      | |- context [get_parents fuel ?p ?k] =>
          pose proof (IH p k); destruct (get_parents fuel p k) as [[? ?]| | |]
      | |- context [match ?l !! ?i with _ => _ end] => destruct (l !! i)
      end
    | rewrite rbind_Ok_l ]; simpl; try done.
Qed.

Lemma exits_zero_bind {A B} (m : M A) (f : A → M B) :
  FixFlip.exits_zero m → (∀ a, FixFlip.exits_zero (f a)) → FixFlip.exits_zero (m ≫= f).
Proof.
  intros Hm Hf st code H. unfold mbind, FixFlip.M_bind in H.
  destruct (m st) as [[a st1]| | |] eqn:E; try done.
  - by eapply Hf.
  - injection H as <-. by eapply Hm.
Qed.

Lemma exits_zero_no_exit {A} (m : M A) :
  (∀ st code, m st ≠ Exited code) → FixFlip.exits_zero m.
Proof. intros H st code E. by destruct (H st code). Qed.

Lemma exits_zero_ret {A} (x : A) : FixFlip.exits_zero (mret x : M A).
Proof. by apply exits_zero_no_exit. Qed.

Lemma exits_zero_get {A} (field : State → A) : FixFlip.exits_zero (FixFlip.get field : M A).
Proof. by apply exits_zero_no_exit. Qed.

Lemma exits_zero_undefined {A} : FixFlip.exits_zero (FixFlip.undefined : M A).
Proof. by apply exits_zero_no_exit. Qed.

Lemma exits_zero_out_of_fuel {A} : FixFlip.exits_zero (FixFlip.out_of_fuel : M A).
Proof. by apply exits_zero_no_exit. Qed.

Lemma exits_zero_exit_with {A} : FixFlip.exits_zero (FixFlip.exit_with 0 : M A).
Proof. intros st code H. unfold FixFlip.exit_with in H. congruence. Qed.

Lemma exits_zero_set_edge_to_faces x :
  FixFlip.exits_zero (FixFlip.set_edge_to_faces x : M unit).
Proof. by apply exits_zero_no_exit. Qed.

Lemma exits_zero_set_vertices_to_edges x :
  FixFlip.exits_zero (FixFlip.set_vertices_to_edges x : M unit).
Proof. by apply exits_zero_no_exit. Qed.

Lemma exits_zero_set_parent_edge x :
  FixFlip.exits_zero (FixFlip.set_parent_edge x : M unit).
Proof. by apply exits_zero_no_exit. Qed.

Lemma exits_zero_set_tree x : FixFlip.exits_zero (FixFlip.set_tree x : M unit).
Proof. by apply exits_zero_no_exit. Qed.

Lemma exits_zero_find e : FixFlip.exits_zero (FixFlip.find e : M Z).
Proof.
  apply exits_zero_no_exit. intros st code. unfold FixFlip.find.
  pose proof (get_parents_no_exit (length (FixFlip.parent_edge st)) (FixFlip.parent_edge st) e).
  destruct (get_parents _ _ e) as [[? ?]| | |]; simpl; try done. intros ?. by eapply H.
Qed.

(** A vector access is in range or undefined; it never exits. *)
Lemma vget_no_exit {A} (v : list A) i code : vget v i ≠ Exited code.
Proof. unfold vget. case_decide; [|done]. by destruct (v !! Z.to_nat i). Qed.

Lemma vset_no_exit {A} (v : list A) i x code : vset v i x ≠ Exited code.
Proof. unfold vset. by case_decide. Qed.

Lemma v3_get_no_exit a k code : v3_get a k ≠ Exited code.
Proof. unfold v3_get. by repeat case_decide. Qed.

Lemma exits_zero_lift {A} (r : result A) :
  (∀ code, r ≠ Exited code) → FixFlip.exits_zero (FixFlip.lift r : M A).
Proof.
  intros H. apply exits_zero_no_exit. intros st code. unfold FixFlip.lift.
  destruct r; simpl; try done. intros [= ->]. by eapply H.
Qed.

Lemma exits_zero_lift_vget {A} (v : list A) i :
  FixFlip.exits_zero (FixFlip.lift (vget v i) : M A).
Proof. apply exits_zero_lift. intros code. apply vget_no_exit. Qed.

Lemma exits_zero_lift_vset {A} (v : list A) i x :
  FixFlip.exits_zero (FixFlip.lift (vset v i x) : M (list A)).
Proof. apply exits_zero_lift. intros code. apply vset_no_exit. Qed.

Lemma exits_zero_lift_row (rows : list Vector3i) f j :
  FixFlip.exits_zero (FixFlip.lift (col ← vget rows f; v3_get col j) : M Z).
Proof.
  apply exits_zero_lift. intros code.
  pose proof (vget_no_exit rows f code) as H.
  destruct (vget rows f) as [col| |c|]; simpl; [apply v3_get_no_exit | done | | done].
  intros [= ->]. by apply H.
Qed.

Lemma exits_zero_mfor {A} (l : list A) (body : A → M unit) :
  (∀ x, FixFlip.exits_zero (body x)) → FixFlip.exits_zero (FixFlip.mfor l body).
Proof.
  intros Hb. induction l as [|x l IH]; cbn [FixFlip.mfor].
  - apply exits_zero_ret.
  - apply exits_zero_bind; [apply Hb | by intros _].
Qed.

Lemma exits_zero_mfold {A B} (l : list A) (body : A → B → M B) acc :
  (∀ x b, FixFlip.exits_zero (body x b)) → FixFlip.exits_zero (FixFlip.mfold l body acc).
Proof.
  intros Hb. revert acc. induction l as [|x l IH]; intros acc; cbn [FixFlip.mfold].
  - apply exits_zero_ret.
  - apply exits_zero_bind; [apply Hb | intros ?; apply IH].
Qed.

Ltac zstep :=
  first
    [ apply exits_zero_ret | apply exits_zero_get
    | apply exits_zero_undefined | apply exits_zero_exit_with | apply exits_zero_out_of_fuel
    | apply exits_zero_set_edge_to_faces | apply exits_zero_set_vertices_to_edges
    | apply exits_zero_set_parent_edge
    | apply exits_zero_set_tree | apply exits_zero_find
    | apply exits_zero_lift_vget | apply exits_zero_lift_vset | apply exits_zero_lift_row
    | apply exits_zero_mfor; intros ?
    | apply exits_zero_mfold; intros ? ?
    | apply exits_zero_bind; [|intros ?]
    | match goal with
      | |- FixFlip.exits_zero (if decide _ then _ else _) => case_decide
      | |- FixFlip.exits_zero (if ?b then _ else _) => destruct b
      | |- FixFlip.exits_zero (match ?x with _ => _ end) => destruct x
      | |- FixFlip.exits_zero (let '(_, _) := ?x in _) => destruct x
      end ].

Ltac zauto := repeat zstep.

Lemma exits_zero_collapse_faces v1 v2 :
  FixFlip.exits_zero (FixFlip.collapse_faces v1 v2 : M _).
Proof. unfold FixFlip.collapse_faces, FixFlip.diff_of. zauto. Qed.

Lemma exits_zero_rewire_entry v1 v2 l :
  FixFlip.exits_zero (FixFlip.rewire_entry v1 v2 l : M _).
Proof.
  unfold FixFlip.rewire_entry, FixFlip.neighbor_edges_of, FixFlip.push_both,
    FixFlip.diff_of.
  zauto.
Qed.

Lemma exits_zero_corner_alive f j : FixFlip.exits_zero (corner_alive f j).
Proof.
  unfold FixFlip.corner_alive, FixFlip.F_at, FixFlip.tree_parent, FixFlip.face_edge_id,
    FixFlip.diff_of.
  zauto.
Qed.

Lemma exits_zero_non_collapse_count nf :
  FixFlip.exits_zero (FixFlip.non_collapse_count face_edgeIds nf : M _).
Proof.
  unfold FixFlip.non_collapse_count, FixFlip.face_edge_id, FixFlip.diff_of. zauto.
Qed.

Lemma exits_zero_forget_face f i :
  FixFlip.exits_zero (FixFlip.forget_face face_edgeIds f i : M _).
Proof. unfold FixFlip.forget_face, FixFlip.face_edge_id. zauto. Qed.

Lemma exits_zero_union_edges peid npeid nf nv0 nv1 :
  FixFlip.exits_zero (FixFlip.union_edges peid npeid nf nv0 nv1 : M _).
Proof. unfold FixFlip.union_edges, FixFlip.diff_of. zauto. Qed.

Lemma exits_zero_merge_corners n nf nj peid vv0 vv1 :
  FixFlip.exits_zero (FixFlip.merge_corners tree_Parent F face_edgeIds n nf nj peid vv0 vv1).
Proof.
  revert nj. induction n as [|n IH]; intros nj; cbn [FixFlip.merge_corners].
  - apply exits_zero_ret.
  - apply exits_zero_bind; [apply exits_zero_corner_alive|]. intros [[alive nv0] nv1].
    destruct alive; [|apply IH].
    unfold FixFlip.face_edge_id.
    apply exits_zero_bind; [zauto|]. intros neid.
    apply exits_zero_bind; [zauto|]. intros npeid.
    case_decide; [|apply IH].
    apply exits_zero_bind; [apply exits_zero_union_edges | intros ?; apply exits_zero_ret].
Qed.

Lemma exits_zero_merge_scan fs f peid vv0 vv1 :
  FixFlip.exits_zero (FixFlip.merge_scan tree_Parent F face_edgeIds fs f peid vv0 vv1).
Proof.
  induction fs as [|nf fs IH]; cbn [FixFlip.merge_scan].
  - apply exits_zero_ret.
  - case_decide; [done|].
    apply exits_zero_bind; [apply exits_zero_non_collapse_count|]. intros count.
    case_decide; [done|].
    apply exits_zero_bind; [apply exits_zero_merge_corners|]. intros [|]; [|done].
    apply exits_zero_ret.
Qed.

Lemma exits_zero_merge_loop fuel f peid vv0 vv1 :
  FixFlip.exits_zero (FixFlip.merge_loop tree_Parent F face_edgeIds fuel f peid vv0 vv1).
Proof.
  induction fuel as [|fuel IH]; cbn [FixFlip.merge_loop].
  - apply exits_zero_out_of_fuel.
  - apply exits_zero_bind; [zauto|]. intros e2f.
    apply exits_zero_bind; [zauto|]. intros fs.
    apply exits_zero_bind; [apply exits_zero_merge_scan|]. intros [|]; [done|].
    apply exits_zero_ret.
Qed.

Lemma exits_zero_merge_corner fuel f j :
  FixFlip.exits_zero (FixFlip.merge_corner tree_Parent F face_edgeIds fuel f j).
Proof.
  unfold FixFlip.merge_corner.
  apply exits_zero_bind; [apply exits_zero_corner_alive|]. intros [[alive vv0] vv1].
  destruct alive; [|apply exits_zero_ret].
  unfold FixFlip.face_edge_id.
  apply exits_zero_bind; [zauto|]. intros eid.
  apply exits_zero_bind; [zauto|]. intros peid.
  apply exits_zero_merge_loop.
Qed.

Lemma exits_zero_collapse fuel v1 v2 :
  FixFlip.exits_zero
    (FixFlip.collapse tree_Parent tree_MergeFromTo F face_edgeIds fuel v1 v2).
Proof.
  unfold FixFlip.collapse. case_decide; [apply exits_zero_ret|].
  apply exits_zero_bind; [apply exits_zero_collapse_faces|]. intros faces.
  apply exits_zero_bind; [zauto|]. intros vte.
  apply exits_zero_bind; [zauto|]. intros m1.
  apply exits_zero_bind.
  { apply exits_zero_mfor. intros l. apply exits_zero_rewire_entry. }
  intros _.
  apply exits_zero_bind; [zauto|]. intros t.
  apply exits_zero_bind; [zauto|]. intros _.
  apply exits_zero_bind.
  { apply exits_zero_mfor. intros f. apply exits_zero_mfor. intros j.
    apply exits_zero_merge_corner. }
  intros _.
  apply exits_zero_bind.
  { apply exits_zero_mfor. intros f. apply exits_zero_mfor. intros j.
    apply exits_zero_forget_face. }
  intros _. zauto.
Qed.

Lemma exits_zero_initial_collapse fuel :
  FixFlip.exits_zero
    (FixFlip.initial_collapse tree_Parent tree_MergeFromTo F edge_values face_edgeIds fuel).
Proof.
  unfold FixFlip.initial_collapse.
  apply exits_zero_bind; [zauto|]. intros ed.
  apply exits_zero_mfor. intros i. unfold FixFlip.collapse_zero_edge, FixFlip.diff_of.
  apply exits_zero_bind; [zauto|]. intros d.
  case_decide; [|apply exits_zero_ret].
  apply exits_zero_bind; [zauto|]. intros ev.
  unfold FixFlip.tree_parent.
  apply exits_zero_bind; [zauto|]. intros a.
  apply exits_zero_bind; [zauto|]. intros b.
  apply exits_zero_collapse.
Qed.

Local Abbreviation collapse :=
  (FixFlip.collapse tree_Parent tree_MergeFromTo F face_edgeIds).
Local Abbreviation initial_collapse :=
  (FixFlip.initial_collapse tree_Parent tree_MergeFromTo F edge_values face_edgeIds).


End FixFlipProps.

(** ** The unit range of [edge_diff] through the perturbation *)

Lemma perturb_past_end (mv : list (Z * Z)) n ed :
  (length mv < n)%nat → ∀ ed', for_loop n 0 (perturb_one mv) ed ≠ Ok ed'.
Proof.
  intros Hn ed' H.
  replace n with (length mv + (n - length mv))%nat in H by lia.
  apply for_loop_prefix_Ok in H as (mid & _ & H).
  destruct (n - length mv)%nat as [|k] eqn:E; [lia|].
  cbn [for_loop] in H. apply rbind_Ok in H as (x & Hx & _).
  unfold perturb_one in Hx. apply rbind_Ok in Hx as (info & Hinfo & _).
  apply vget_Ok_range in Hinfo. unfold vsize in Hinfo. lia.
Qed.

Section PerturbationRange.

Variable random_shuffle : list (Z * Z) → list (Z * Z).
Hypothesis random_shuffle_perm : ∀ l, random_shuffle l ≡ₚ l.

Lemma perturb_edge_diff_unit_range ci cs ev ed tf variables total cuts ed' :
  Forall in_unit_range ed →
  length ev = length ed →
  perturb_edge_diff random_shuffle ci cs ev ed tf = Ok (variables, total, cuts, ed') →
  Forall in_unit_range ed'.
Proof.
  intros Hunit Hlev H. unfold perturb_edge_diff in H.
  apply rbind_Ok in H as ([vars tot] & Hbuild & H).
  apply rbind_Ok in H as ([cuts0 mv] & Hloop & H). cbv zeta in H.
  apply rbind_Ok in H as (ed1 & Happly & [= <- <- <- <-]).
  destruct (build_variables_flow _ _ _ _ _ Hbuild) as [Hlvar _].
  destruct (collect_loop_spec ev ed tf vars Hunit Hlev Hlvar vars 0 ∅ [] ltac:(lia))
    as (cuts & new & Hloop' & _ & _ & Hnew & Hnd & _).
  { intros k var Hk. unfold vget. rewrite decide_True by lia.
    by rewrite Z.add_0_l, Nat2Z.id, Hk. }
  rewrite app_nil_l, Hloop in Hloop'. injection Hloop' as <- <-.
  pose proof (random_shuffle_perm mv) as Hperm.
  set (mv' := random_shuffle mv) in *.
  set (K := Z.to_nat (Z.quot (Z.abs tf) 2)) in *.
  destruct (decide (K ≤ length mv')%nat) as [HK|HK];
    [|by destruct (perturb_past_end mv' K ed ltac:(lia) ed1)].
  assert (∀ v δ, (v, δ) ∈ take K mv' →
            ∃ c, diff_component ed v = Ok c ∧ -1 ≤ c + δ ≤ 1) as Hsel.
  { intros v δ Hin. apply elem_of_take in Hin as (j & Hj & _).
    apply list_elem_of_lookup_2 in Hj. rewrite Hperm in Hj.
    destruct (Hnew _ _ Hj) as (Hr & var & Hvar & Hcand).
    destruct (diff_component_in_range ed v) as [c Hc]; [unfold vsize; lia|].
    rewrite (component_value_Ok _ _ _ Hc) in Hcand. exists c. split; [done|].
    eapply candidate_spec; [|exact Hcand]. by eapply diff_component_unit_range. }
  destruct (perturb_loop_spec (take K mv') [] (drop K mv') ed)
    as (ed2 & Happly' & _ & Hin & Hout).
  { rewrite fmap_take. eapply sublist_NoDup; [|apply sublist_take]. by rewrite Hperm. }
  { intros v δ Hv. destruct (Hsel _ _ Hv) as (c & ? & _). eauto. }
  rewrite app_nil_l, take_drop, length_take_le in Happly' by lia.
  change (Z.of_nat (@length (Z * Z) [])) with 0 in Happly'.
  rewrite Happly in Happly'. injection Happly' as <-.
  apply unit_range_from_components. intros w c Hw.
  destruct (decide (w ∈ (take K mv').*1)) as [Hmem|Hmem].
  - apply list_elem_of_fmap in Hmem as ([v δ] & -> & Hmem).
    destruct (Hsel _ _ Hmem) as (c0 & Hc0 & Hrange). simpl in Hw.
    rewrite (Hin _ _ _ Hmem Hc0) in Hw. injection Hw as <-. done.
  - rewrite (Hout _ Hmem) in Hw. by eapply diff_component_unit_range.
Qed.

End PerturbationRange.

Lemma wrap_int_id x : is_int x → wrap_int x = x.
Proof.
  unfold is_int, wrap_int, INT_MIN, INT_MAX. intros H.
  rewrite Z.mod_small by lia. lia.
Qed.

Lemma abs_int_least : abs_int INT_MIN = INT_MIN.
Proof. reflexivity. Qed.

Lemma abs_int_abs x : is_int x → x ≠ INT_MIN → abs_int x = Z.abs x.
Proof.
  unfold abs_int. intros H Hx. apply wrap_int_id.
  unfold is_int, INT_MIN, INT_MAX in *. lia.
Qed.

(** Away from the least [int], the clamp is the sign of a component
    outside [{-1,0,1}] and the component itself inside. *)
Lemma clamp_component_sgn x :
  is_int x → x ≠ INT_MIN →
  clamp_component x = if decide (Z.abs x > 1) then Z.sgn x else x.
Proof.
  intros H Hx. unfold clamp_component. rewrite abs_int_abs by done.
  case_decide as Habs; [|done].
  assert (Z.quot x (Z.abs x) = Z.sgn x) as ->.
  { destruct (Z.abs_spec x) as [[? ->]|[? ->]].
    - rewrite Z.quot_same by lia. lia.
    - rewrite Z.quot_opp_r by lia. rewrite Z.quot_same by lia. lia. }
  apply wrap_int_id. unfold is_int, INT_MIN, INT_MAX. lia.
Qed.

Lemma clamp_component_least : clamp_component INT_MIN = INT_MIN.
Proof. reflexivity. Qed.

Lemma clamp_component_range x :
  is_int x → x ≠ INT_MIN → -1 ≤ clamp_component x ≤ 1.
Proof.
  intros H Hx. rewrite clamp_component_sgn by done. case_decide; lia.
Qed.

Lemma clamp_component_fixes x : -1 ≤ x ≤ 1 → clamp_component x = x.
Proof.
  intros H. rewrite clamp_component_sgn.
  - by rewrite decide_False by lia.
  - unfold is_int, INT_MIN, INT_MAX. lia.
  - unfold INT_MIN. lia.
Qed.

Lemma clamp_edge_diff_unit_range ed :
  Forall (λ d : Vector2i, clampable d.1 ∧ clampable d.2) ed →
  Forall in_unit_range (clamp_edge_diff ed).
Proof.
  intros H. unfold clamp_edge_diff. apply Forall_fmap.
  eapply Forall_impl; [exact H|]. intros d [[? ?] [? ?]].
  split; by apply clamp_component_range.
Qed.

Lemma clamp_edge_diff_fixes ed :
  Forall in_unit_range ed → clamp_edge_diff ed = ed.
Proof.
  intros H. unfold clamp_edge_diff. induction H as [|[x y] l [Hx Hy] _ IH]; [done|].
  cbn [fmap list_fmap] in *. simpl in Hx, Hy. f_equal; [|exact IH].
  simpl. by rewrite !clamp_component_fixes by lia.
Qed.

Lemma edge_len_loop_once {St} fuel (round : Z → St → result St) s :
  edge_len_loop (S fuel) round 1 s = (s' ← round 1 s; Ok (1, s')).
Proof. done. Qed.

(** ** The claims on [FixFlipAdvance], on the fan *)

Local Abbreviation fan_CheckMove :=
  (FixFlip.CheckMove ex_Parent ex_MergeFromTo fan_F fan_edge_values fan_face_edgeIds
     fan_face_edgeOrients).
Local Abbreviation fan_collapse :=
  (FixFlip.collapse ex_Parent ex_MergeFromTo fan_F fan_face_edgeIds).

(** C2.  The claim is not met by the clamp itself: [abs] overflows on the
    least [int] and the component is left as it is.  On the closed
    tetrahedron whose position index (all entries [int]s) holds [INT_MIN]
    at the corner of face 3 that runs along the edge 0 -> 2,
    [BuildEdgeInfo] returns, every diff component it stores is an [int],
    edge 2 gets the diff [(INT_MIN, 0)], and after the clamp edge 2 still
    has the diff [(INT_MIN, 0)] while the other components are in
    [{-1,0,1}]: the clamped [edge_diff] is not within the unit range. *)
Theorem clamp_leaves_least_int_out_of_unit_range :
  Forall (Forall is_int) tet_pos_index ∧
  ∃ info,
    BuildEdgeInfo tet_F tet_pos_rank tet_pos_index tet_E2E ∅ = Ok info ∧
    Forall (λ d : Vector2i, is_int d.1 ∧ is_int d.2) (edge_diff info) ∧
    edge_diff info = [(3, 0); (1, -1); (INT_MIN, 0); (0, -5); (0, 1); (1, 1)] ∧
    clamp_edge_diff (edge_diff info)
      = [(1, 0); (1, -1); (INT_MIN, 0); (0, -1); (0, 1); (1, 1)] ∧
    ¬ Forall in_unit_range (clamp_edge_diff (edge_diff info)).
Proof.
  split.
  - repeat constructor; unfold INT_MIN, INT_MAX; lia.
  - eexists. split; [vm_compute; reflexivity|]. cbn [edge_diff]. split_and!.
    + repeat constructor; unfold INT_MIN, INT_MAX; simpl; lia.
    + reflexivity.
    + vm_compute. reflexivity.
    + intros H. apply (vget_Forall _ _ 2 (INT_MIN, 0)) in H as [[H _] _].
      * unfold INT_MIN in H. simpl in H. lia.
      * vm_compute. reflexivity.
Qed.

Lemma CheckMove_never_increases_negative_area_witness :
  ∃ st' faces before after,
    fan_CheckMove 1 20%nat 0 1 0 1 fan_flipped = Ok (true, st') ∧
    FixFlip.static_modified_faces (FixFlip.edge_to_faces fan_flipped)
      [(0, (-1, 0)); (1, (-1, 0)); (3, (-1, 0)); (2, (-1, 0))] [] = Ok faces ∧
    FixFlip.static_negative_area_sum fan_face_edgeIds fan_face_edgeOrients
      (FixFlip.parent_edge fan_flipped) (FixFlip.edge_diff fan_flipped) faces
      = Ok before ∧
    FixFlip.static_negative_area_sum fan_face_edgeIds fan_face_edgeOrients
      (FixFlip.parent_edge st') (FixFlip.edge_diff st') faces = Ok after ∧
    after < before.
Proof.
  assert (∃ st', fan_CheckMove 1 20%nat 0 1 0 1 fan_flipped = Ok (true, st'))
    as [st' Hrun] by (eexists; vm_compute; reflexivity).
  assert (wf_forest (FixFlip.parent_edge fan_flipped)) as Hwf
    by (apply wf_forestb_sound; vm_compute; reflexivity).
  destruct (CheckMove_never_increases_negative_area ex_Parent ex_MergeFromTo fan_F
              fan_edge_values fan_face_edgeIds fan_face_edgeOrients 1 20%nat 0 1 0
              fan_flipped true st' Hwf Hrun)
    as (ec & st0 & faces & before & after & Hext & Hf & Hb & Ha & _ & Hacc & _).
  assert (ec = [(0, (-1, 0)); (1, (-1, 0)); (3, (-1, 0)); (2, (-1, 0))]) as ->.
  { vm_compute in Hext. by injection Hext as <- _. }
  exists st', faces, before, after. split_and!; [done..|]. by apply Hacc.
Defined.



(* ================================================================== *)
(** * Part III: further properties of the embedded code *)
(* ================================================================== *)

(** ** The union-find: what a second [get_parents] finds *)

Lemma rem4_small s : 0 ≤ s < 4 → Z.rem s 4 = s.
Proof. intros H. apply Z.rem_small. lia. Qed.

Lemma vset_same {A} (v : list A) i x : vget v i = Ok x → vset v i x = Ok v.
Proof.
  intros H. pose proof (vget_Ok_range _ _ _ H) as Hr.
  rewrite vset_in_range by done. f_equal. apply list_insert_id.
  unfold vget in H. case_decide; [|done].
  by destruct (v !! Z.to_nat i); [injection H as ->|].
Qed.

(** X1.  On a well-formed forest, [get_parents(parents, j)] leaves [j]
    linked directly to its root [r], labelled with the rotation that
    [get_parents_orient(parents, j)] returned before the call; a second
    call returns the same root and writes nothing new. *)
Theorem get_parents_links_to_root_and_is_idempotent (parents : list (Z * Z)) (j : Z) :
  wf_forest parents →
  0 ≤ j < vsize parents →
  ∃ parents' r o,
    get_parents (length parents) parents j = Ok (parents', r) ∧
    get_parents_orient (length parents) parents j = Ok o ∧
    vget parents' j = Ok (r, o) ∧
    vget parents' r = Ok (r, 0) ∧
    get_parents (length parents') parents' j = Ok (parents', r).
Proof.
  intros [Hg Hch] Hj. destruct (Hch j Hj) as (r & s & d & Hc).
  pose proof (chain_depth_bound _ _ _ _ _ Hc) as Hd.
  destruct (get_parents_spec (length parents) parents j r s d Hg Hc Hd)
    as (ps' & Hrun & Hlen & Hg' & Hent & Hj' & _).
  destruct (chain_root_entry _ _ _ _ _ Hc) as [o0 Hr].
  assert (o0 = 0) as -> by (by destruct (Hg _ _ _ Hr) as (_ & _ & ->)).
  assert (vget ps' r = Ok (r, 0)) as Hr'.
  { destruct (Hent r) as [->|(? & ? & _ & ? & _)]; done. }
  assert (vget ps' j = Ok (r, s)) as Hjs.
  { destruct Hj' as [->|?]; [|done].
    assert (s = 0) as ->; [|done].
    destruct (chain_det _ _ _ _ _ _ _ _ Hc (chain_root _ _ _ Hr)) as (_ & ? & _). done. }
  exists ps', r, s. split_and!; [done| |done|done|].
  { apply get_parents_orient_chain. eauto. }
  pose proof (chain_label_range _ _ _ _ _ Hg Hc) as Hs.
  destruct (decide (j = r)) as [->|Hne].
  - destruct (length ps') as [|n] eqn:E.
    { apply vget_Ok_range in Hr'. unfold vsize in Hr'. lia. }
    cbn [get_parents]. rewrite Hr', rbind_Ok_l. by rewrite decide_True.
  - destruct (length ps') as [|[|n]] eqn:E.
    { apply vget_Ok_range in Hr'. unfold vsize in Hr'. lia. }
    { apply vget_Ok_range in Hr'. apply vget_Ok_range in Hjs. unfold vsize in *. lia. }
    cbn [get_parents]. rewrite Hjs, rbind_Ok_l. cbn [fst snd].
    rewrite decide_False by done. rewrite Hr', rbind_Ok_l. cbn [fst snd].
    rewrite decide_True by done. rewrite rbind_Ok_l. cbv beta iota.
    rewrite Hjs, rbind_Ok_l. cbn [fst snd]. rewrite Hr', rbind_Ok_l. cbn [fst snd].
    rewrite Z.add_0_r, rem4_small by done.
    rewrite (vset_same _ _ _ Hjs), rbind_Ok_l, Hjs, rbind_Ok_l. cbn [fst snd].
    by rewrite (vset_same _ _ _ Hjs), rbind_Ok_l.
Qed.

Lemma get_parents_links_to_root_and_is_idempotent_witness :
  ∃ parents' r o,
    get_parents 4 [(1, 1); (2, 3); (2, 0); (0, 2)] 3 = Ok (parents', r) ∧
    get_parents_orient 4 [(1, 1); (2, 3); (2, 0); (0, 2)] 3 = Ok o ∧
    vget parents' 3 = Ok (r, o) ∧
    vget parents' r = Ok (r, 0) ∧
    get_parents (length parents') parents' 3 = Ok (parents', r).
Proof.
  apply (get_parents_links_to_root_and_is_idempotent [(1, 1); (2, 3); (2, 0); (0, 2)] 3).
  - apply wf_forestb_sound. vm_compute. reflexivity.
  - unfold vsize. simpl. lia.
Defined.

(** ** The tables [FixFlipAdvance] starts from *)

Lemma init_parent_edge_lookup n i :
  0 ≤ i < Z.of_nat n → vget (init_parent_edge n) i = Ok (i, 0).
Proof.
  intros Hi. unfold vget, init_parent_edge. rewrite decide_True by lia.
  rewrite list_lookup_fmap, lookup_seqZ_lt by lia. simpl.
  by replace (0 + Z.of_nat (Z.to_nat i)) with i by lia.
Qed.

Lemma init_parent_edge_length n : length (init_parent_edge n) = n.
Proof. unfold init_parent_edge. rewrite length_fmap, length_seqZ. lia. Qed.

(** X2.  The forest [FixFlipAdvance] starts from is well formed: every edge
    is the root of its own class with rotation 0, and [get_parents] and
    [get_parents_orient] return at once without writing. *)
Theorem init_parent_edge_well_formed (n : nat) :
  wf_forest (init_parent_edge n) ∧
  ∀ i, 0 ≤ i < Z.of_nat n →
    get_parents (length (init_parent_edge n)) (init_parent_edge n) i
      = Ok (init_parent_edge n, i) ∧
    get_parents_orient (length (init_parent_edge n)) (init_parent_edge n) i = Ok 0.
Proof.
  assert (∀ j p o, vget (init_parent_edge n) j = Ok (p, o) → p = j ∧ o = 0) as Hent.
  { intros j p o H. pose proof (vget_Ok_range _ _ _ H) as Hr.
    unfold vsize in Hr. rewrite init_parent_edge_length in Hr.
    rewrite init_parent_edge_lookup in H by done. by injection H as <- <-. }
  split.
  - split.
    + intros j p o H. pose proof (vget_Ok_range _ _ _ H) as Hr.
      destruct (Hent _ _ _ H) as [-> ->]. split_and!; try done; lia.
    + intros j Hj. unfold vsize in Hj. rewrite init_parent_edge_length in Hj.
      exists j, 0, 0%nat. apply chain_root. by apply init_parent_edge_lookup.
  - intros i Hi. rewrite init_parent_edge_length.
    destruct n as [|n]; [lia|]. cbn [get_parents get_parents_orient].
    rewrite init_parent_edge_lookup by done. rewrite !rbind_Ok_l. cbn [fst snd].
    by rewrite !decide_True.
Qed.

(** ** Loops over the corners of all faces *)

Lemma vget_of_lookup {A} (l : list A) k x :
  l !! k = Some x → vget l (Z.of_nat k) = Ok x.
Proof. intros H. unfold vget. rewrite decide_True by lia. by rewrite Nat2Z.id, H. Qed.

Lemma vget_lookup {A} (l : list A) i x :
  vget l i = Ok x → l !! Z.to_nat i = Some x.
Proof.
  unfold vget. case_decide; [|done].
  by destruct (l !! Z.to_nat i); [intros [= ->]|].
Qed.

Lemma for_each_app {A St} (l1 l2 : list A) (body : A → St → result St) s :
  for_each (l1 ++ l2) body s = for_each l1 body s ≫= for_each l2 body.
Proof.
  revert s. induction l1 as [|x l1 IH]; intros s; simpl; [done|].
  destruct (body x s); simpl; [apply IH|done..].
Qed.

(** The two nested loops over faces and corners run the body once per
    corner, in the order of [corners_from]. *)
Lemma corner_loops_for_each {St} (ids pre l : list Vector3i)
    (g : Z → Z → St → result St) s :
  ids = pre ++ l →
  for_loop (length l) (Z.of_nat (length pre))
    (λ i, for_loop 3 0 (λ j s, row ← vget ids i; e ← v3_get row j; g i e s)) s
  = for_each (corners_from (Z.of_nat (length pre)) l) (λ p, g p.1 p.2) s.
Proof.
  revert pre s. induction l as [|row l IH]; intros pre s Hids; [done|].
  assert (vget ids (Z.of_nat (length pre)) = Ok row) as Hrow.
  { unfold vget. rewrite decide_True by lia. rewrite Nat2Z.id, Hids.
    by rewrite lookup_app_r, Nat.sub_diag by lia. }
  cbn [length for_loop corners_from for_each]. rewrite Hrow, !rbind_Ok_l.
  change (v3_get row 0) with (Ok (A := Z) row.1.1). rewrite rbind_Ok_l. cbn [fst snd].
  destruct (g (Z.of_nat (length pre)) row.1.1 s) as [s1| | |]; [|done..].
  rewrite !rbind_Ok_l.
  change (v3_get row (0 + 1)) with (Ok (A := Z) row.1.2). rewrite rbind_Ok_l.
  destruct (g (Z.of_nat (length pre)) row.1.2 s1) as [s2| | |]; [|done..].
  rewrite !rbind_Ok_l.
  change (v3_get row (0 + 1 + 1)) with (Ok (A := Z) row.2). rewrite rbind_Ok_l.
  destruct (g (Z.of_nat (length pre)) row.2 s2) as [s3| | |]; [|done..].
  rewrite !rbind_Ok_l.
  specialize (IH (pre ++ [row]) s3). rewrite length_app in IH. simpl in IH.
  replace (Z.of_nat (length pre) + 1) with (Z.of_nat (length pre + 1)) by lia.
  apply IH. by rewrite <- app_assoc.
Qed.

Lemma corners_from_spec start l f e :
  (f, e) ∈ corners_from start l ↔
  ∃ k row, l !! k = Some row ∧ f = start + Z.of_nat k ∧
           (e = row.1.1 ∨ e = row.1.2 ∨ e = row.2).
Proof.
  revert start. induction l as [|row l IH]; intros start; cbn [corners_from].
  - split; [by intros ?%elem_of_nil | by intros (k & ? & ? & _)].
  - rewrite !elem_of_cons, IH. split.
    + intros [ [= -> -> ] | [ [= -> -> ] | [ [= -> -> ] | (k & row' & Hk & -> & He) ] ] ].
      * exists 0%nat, row. split_and!; [done|lia|auto].
      * exists 0%nat, row. split_and!; [done|lia|auto].
      * exists 0%nat, row. split_and!; [done|lia|auto].
      * exists (S k), row'. split_and!; [done|lia|done].
    + intros ([|k] & row' & Hk & -> & He).
      * injection Hk as <-. rewrite Z.add_0_r.
        destruct He as [ -> | [ -> | -> ] ]; auto.
      * do 3 right. exists k, row'. split_and!; [done|lia|done].
Qed.

Lemma corners_from_face_ge start l f e : (f, e) ∈ corners_from start l → start ≤ f.
Proof. intros (k & ? & _ & -> & _)%corners_from_spec. lia. Qed.

(** A corner of the table, as the code reads it. *)
Lemma corner_list_vget ids f e :
  (f, e) ∈ corners_from 0 ids ↔
  ∃ row j, vget ids f = Ok row ∧ v3_get row j = Ok e.
Proof.
  rewrite corners_from_spec. split.
  - intros (k & row & Hk & -> & He). exists row.
    assert (vget ids (0 + Z.of_nat k) = Ok row) as Hv.
    { rewrite Z.add_0_l. by apply vget_of_lookup. }
    destruct He as [ -> | [ -> | -> ] ]; [exists 0 | exists 1 | exists 2]; done.
  - intros (row & j & Hrow & Hj). exists (Z.to_nat f), row.
    pose proof (vget_Ok_range _ _ _ Hrow) as Hr.
    apply vget_lookup in Hrow.
    split_and!; [done|lia|]. unfold v3_get in Hj.
    repeat case_decide; try done; injection Hj as <-; auto.
Qed.

(** ** [build_E2F] *)

Lemma first_and_last_snoc (occ : list Z) (i : Z) :
  Forall (λ f, 0 ≤ f) occ → 0 ≤ i →
  (if decide ((first_and_last occ).1 = -1) then (i, (first_and_last occ).2)
   else ((first_and_last occ).1, i))
  = first_and_last (occ ++ [i]).
Proof.
  intros Hocc Hi. destruct occ as [|a rest]; simpl.
  - done.
  - apply Forall_cons in Hocc as [Ha _]. rewrite decide_False by lia.
    by rewrite last_snoc.
Qed.

Lemma filter_snoc_fst (seen : list (Z * Z)) f e' e :
  (filter (λ p : Z * Z, p.2 = e) (seen ++ [(f, e')])).*1 =
  (filter (λ p : Z * Z, p.2 = e) seen).*1 ++ (if decide (e' = e) then [f] else []).
Proof.
  rewrite filter_app, fmap_app. f_equal.
  rewrite filter_cons. simpl. case_decide; by rewrite ?decide_True, ?decide_False.
Qed.

Lemma E2F_loop cs :
  ∀ seen E2F,
    (∀ f e, (f, e) ∈ seen ++ cs → 0 ≤ f) →
    (∀ f e, (f, e) ∈ cs → 0 ≤ e < vsize E2F) →
    (∀ e, 0 ≤ e < vsize E2F →
       vget E2F e = Ok (first_and_last (filter (λ p : Z * Z, p.2 = e) seen).*1)) →
    ∃ E2F',
      for_each cs (λ p, E2F_corner p.1 p.2) E2F = Ok E2F' ∧
      length E2F' = length E2F ∧
      ∀ e, 0 ≤ e < vsize E2F' →
        vget E2F' e
        = Ok (first_and_last (filter (λ p : Z * Z, p.2 = e) (seen ++ cs)).*1).
Proof.
  induction cs as [|[f e'] cs IH]; intros seen E2F Hface Hrange Hinv.
  - exists E2F. rewrite app_nil_r. done.
  - assert (0 ≤ e' < vsize E2F) as He' by (apply (Hrange f); left).
    assert (0 ≤ f) as Hf by (apply (Hface f e'); set_solver).
    set (occ := (filter (λ p : Z * Z, p.2 = e') seen).*1).
    assert (Forall (λ f, 0 ≤ f) occ) as Hocc.
    { apply Forall_forall. intros x Hx. unfold occ in Hx.
      apply list_elem_of_fmap in Hx as ([x' e0] & -> & Hx).
      apply list_elem_of_filter in Hx as [_ Hx]. apply (Hface x' e0). set_solver. }
    pose proof (first_and_last_snoc occ f Hocc Hf) as Hstep.
    set (E1 := <[Z.to_nat e' := first_and_last (occ ++ [f])]> E2F).
    assert (E2F_corner f e' E2F = Ok E1) as Hhead.
    { unfold E2F_corner. rewrite (Hinv e' He'), rbind_Ok_l. fold occ. unfold E1. rewrite <- Hstep.
      case_decide; by rewrite vset_in_range. }
    assert (vsize E1 = vsize E2F) as Hl1.
    { unfold vsize, E1. by rewrite length_insert. }
    destruct (IH (seen ++ [(f, e')]) E1) as (E2F' & Hrun & Hlen & Hinv').
    + intros f0 e0 Hin. apply (Hface f0 e0). by rewrite <- app_assoc in Hin.
    + intros f0 e0 Hin. rewrite Hl1. apply (Hrange f0). by right.
    + intros e He. rewrite Hl1 in He. rewrite filter_snoc_fst.
      destruct (decide (e' = e)) as [->|Hne].
      * unfold E1. rewrite vget_insert_eq by done. done.
      * unfold E1. rewrite vget_insert_ne by lia. rewrite app_nil_r. by apply Hinv.
    + exists E2F'. split_and!.
      * cbn [for_each]. cbv beta. cbn [fst snd]. by rewrite Hhead, rbind_Ok_l.
      * unfold vsize in Hl1. lia.
      * intros e He. rewrite (Hinv' e He). by rewrite <- app_assoc.
Qed.

(** X3.  When every corner edge id is below [num_edges], [build_E2F]
    returns, and it pairs every edge [e] with the first face that has [e] as
    a corner edge and with the last later one: [(-1, -1)] for an edge of no
    face, [(f, -1)] for an edge of one face, [(f0, f1)] for an edge of two. *)
Theorem build_E2F_first_and_last_face (num_edges : nat) (face_edgeIds : list Vector3i) :
  (∀ f row j e, vget face_edgeIds f = Ok row → v3_get row j = Ok e →
                0 ≤ e < Z.of_nat num_edges) →
  ∃ E2F,
    build_E2F num_edges face_edgeIds = Ok E2F ∧
    length E2F = num_edges ∧
    ∀ e, 0 ≤ e < Z.of_nat num_edges →
      vget E2F e = Ok (first_and_last (corner_faces face_edgeIds e)).
Proof.
  intros Hrange. unfold build_E2F.
  rewrite (corner_loops_for_each face_edgeIds [] face_edgeIds E2F_corner) by done.
  change (Z.of_nat (length (@nil Vector3i))) with 0.
  destruct (E2F_loop (corners_from 0 face_edgeIds) [] (replicate num_edges (-1, -1)))
    as (E2F & Hrun & Hlen & Hinv).
  - intros f e Hin. rewrite app_nil_l in Hin. by apply corners_from_face_ge in Hin.
  - intros f e Hin. apply corner_list_vget in Hin as (row & j & Hrow & Hj).
    unfold vsize. rewrite length_replicate. eauto.
  - intros e He. unfold vsize in He. rewrite length_replicate in He.
    unfold vget. rewrite decide_True by lia.
    rewrite lookup_replicate_2 by lia. done.
  - rewrite length_replicate in Hlen. exists E2F. split_and!; [done..|].
    intros e He. apply Hinv. unfold vsize. lia.
Qed.

Lemma build_E2F_first_and_last_face_witness :
  ∃ E2F,
    build_E2F 5 [(0, 1, 2); (2, 3, 4)] = Ok E2F ∧
    length E2F = 5%nat ∧
    ∀ e, 0 ≤ e < 5 →
      vget E2F e = Ok (first_and_last (corner_faces [(0, 1, 2); (2, 3, 4)] e)).
Proof.
  apply (build_E2F_first_and_last_face 5 [(0, 1, 2); (2, 3, 4)]).
  intros f row j e Hrow Hj.
  assert ((f, e) ∈ corners_from 0 [(0, 1, 2); (2, 3, 4)]) as Hin
    by (apply corner_list_vget; eauto).
  simpl in Hin. set_unfold in Hin. destruct_or!; simplify_eq; lia.
Defined.

(** ** [std::set<int>] as a strictly increasing list *)

Lemma set_insert_elem x y s : x ∈ set_insert y s ↔ x = y ∨ x ∈ s.
Proof.
  induction s as [|z s IH]; cbn [set_insert].
  - set_solver.
  - repeat case_decide; [set_solver | subst; set_solver |].
    rewrite elem_of_cons, IH. set_solver.
Qed.

Lemma set_insert_sorted y s :
  StronglySorted Z.lt s → StronglySorted Z.lt (set_insert y s).
Proof.
  induction 1 as [|z s Hs IH Hall]; cbn [set_insert].
  - repeat constructor.
  - repeat case_decide.
    + constructor; [by constructor|]. constructor; [done|].
      eapply Forall_impl; [exact Hall|]. intros; simpl in *; lia.
    + by constructor.
    + constructor; [done|]. apply Forall_forall. intros x Hx.
      apply set_insert_elem in Hx as [->|Hx]; [lia|].
      by eapply Forall_forall in Hall.
Qed.

(** ** [init_edge_to_faces] *)

Lemma edge_to_faces_loop cs :
  ∀ seen e2f,
    (∀ f e, (f, e) ∈ cs → 0 ≤ e < vsize e2f) →
    (∀ e fs, vget e2f e = Ok fs →
       StronglySorted Z.lt fs ∧ ∀ f, f ∈ fs ↔ (f, e) ∈ seen) →
    ∃ e2f',
      for_each cs (λ p, edge_to_faces_corner p.1 p.2) e2f = Ok e2f' ∧
      length e2f' = length e2f ∧
      ∀ e fs, vget e2f' e = Ok fs →
        StronglySorted Z.lt fs ∧ ∀ f, f ∈ fs ↔ (f, e) ∈ seen ++ cs.
Proof.
  induction cs as [|[f e'] cs IH]; intros seen e2f Hrange Hinv.
  - exists e2f. rewrite app_nil_r. done.
  - assert (0 ≤ e' < vsize e2f) as He' by (apply (Hrange f); left).
    destruct (vget_in_range e2f e' He') as [fs' Hfs'].
    destruct (Hinv _ _ Hfs') as [Hsort Hmem].
    set (e1 := <[Z.to_nat e' := set_insert f fs']> e2f).
    assert (edge_to_faces_corner f e' e2f = Ok e1) as Hhead.
    { unfold edge_to_faces_corner. rewrite Hfs', rbind_Ok_l. by rewrite vset_in_range. }
    assert (vsize e1 = vsize e2f) as Hl1.
    { unfold vsize, e1. by rewrite length_insert. }
    destruct (IH (seen ++ [(f, e')]) e1) as (e2f' & Hrun & Hlen & Hinv').
    + intros f0 e0 Hin. rewrite Hl1. apply (Hrange f0). by right.
    + intros e fs Hfs. destruct (decide (e' = e)) as [->|Hne].
      * unfold e1 in Hfs. rewrite vget_insert_eq in Hfs by done. injection Hfs as <-.
        split; [by apply set_insert_sorted|]. intros f0.
        rewrite set_insert_elem, Hmem, elem_of_app, list_elem_of_singleton.
        split; [intros [->|?]; auto | intros [?|[= -> ]]; auto].
      * unfold e1 in Hfs. rewrite vget_insert_ne in Hfs by lia.
        destruct (Hinv _ _ Hfs) as [? Hm]. split; [done|]. intros f0.
        rewrite Hm, elem_of_app, list_elem_of_singleton.
        split; [auto | intros [?|[= _ ?]]; [done|congruence]].
    + exists e2f'. split_and!.
      * cbn [for_each]. cbv beta. cbn [fst snd]. by rewrite Hhead, rbind_Ok_l.
      * unfold vsize in Hl1. lia.
      * intros e fs Hfs. destruct (Hinv' e fs Hfs) as [? Hm]. split; [done|].
        intros f0. rewrite Hm. by rewrite <- app_assoc.
Qed.

(** X4.  When every corner edge id is below [num_edges], the table
    [edge_to_faces] that [FixFlipAdvance] builds exists, and the set of an
    edge [e] holds exactly the faces that have [e] as a corner edge (as a
    [std::set], in increasing order). *)
Theorem init_edge_to_faces_holds_incident_faces
    (num_edges : nat) (face_edgeIds : list Vector3i) :
  (∀ f row j e, vget face_edgeIds f = Ok row → v3_get row j = Ok e →
                0 ≤ e < Z.of_nat num_edges) →
  ∃ e2f,
    init_edge_to_faces num_edges face_edgeIds = Ok e2f ∧
    length e2f = num_edges ∧
    ∀ e fs, vget e2f e = Ok fs →
      StronglySorted Z.lt fs ∧
      ∀ f, f ∈ fs ↔ ∃ row j, vget face_edgeIds f = Ok row ∧ v3_get row j = Ok e.
Proof.
  intros Hrange. unfold init_edge_to_faces.
  rewrite (corner_loops_for_each face_edgeIds [] face_edgeIds edge_to_faces_corner)
    by done.
  change (Z.of_nat (length (@nil Vector3i))) with 0.
  destruct (edge_to_faces_loop (corners_from 0 face_edgeIds) []
              (replicate num_edges [])) as (e2f & Hrun & Hlen & Hinv).
  - intros f e Hin. apply corner_list_vget in Hin as (row & j & Hrow & Hj).
    unfold vsize. rewrite length_replicate. eauto.
  - intros e fs Hfs. apply vget_lookup in Hfs.
    apply lookup_replicate in Hfs as [-> _]. split; [constructor|].
    intros f. split; [by intros ?%elem_of_nil | by intros ?%elem_of_nil].
  - rewrite length_replicate in Hlen. exists e2f. split_and!; [done..|].
    intros e fs Hfs. destruct (Hinv e fs Hfs) as [? Hm]. split; [done|].
    intros f. rewrite Hm, app_nil_l. apply corner_list_vget.
Qed.

Lemma init_edge_to_faces_holds_incident_faces_witness :
  ∃ e2f,
    init_edge_to_faces 5 [(0, 1, 2); (2, 3, 4)] = Ok e2f ∧
    length e2f = 5%nat ∧
    ∀ e fs, vget e2f e = Ok fs →
      StronglySorted Z.lt fs ∧
      ∀ f, f ∈ fs ↔
        ∃ row j, vget [(0, 1, 2); (2, 3, 4)] f = Ok row ∧ v3_get row j = Ok e.
Proof.
  apply (init_edge_to_faces_holds_incident_faces 5 [(0, 1, 2); (2, 3, 4)]).
  intros f row j e Hrow Hj.
  assert ((f, e) ∈ corners_from 0 [(0, 1, 2); (2, 3, 4)]) as Hin
    by (apply corner_list_vget; eauto).
  simpl in Hin. set_unfold in Hin. destruct_or!; simplify_eq; lia.
Defined.

(** ** The final propagation of [FixFlipAdvance] *)

Section FinalPropagation.

Context {DisjointTree : Type}.
Local Abbreviation State := (@FixFlip.State DisjointTree).
Implicit Types st : State.

(** One edge takes the diff of its class root, rotated by its composed
    label; the forest is at most compressed. *)
Lemma propagate_edge_run st i :
  wf_forest (FixFlip.parent_edge st) →
  length (FixFlip.edge_diff st) = length (FixFlip.parent_edge st) →
  0 ≤ i < vsize (FixFlip.parent_edge st) →
  ∃ st' r s d x,
    chain (FixFlip.parent_edge st) i r s d ∧
    vget (FixFlip.edge_diff st) r = Ok x ∧
    FixFlip.propagate_edge i st = Ok ((), st') ∧
    FixFlip.edge_diff st' = <[Z.to_nat i := rshift90 x s]> (FixFlip.edge_diff st) ∧
    wf_forest (FixFlip.parent_edge st') ∧
    length (FixFlip.parent_edge st') = length (FixFlip.parent_edge st) ∧
    (∀ e r s d, chain (FixFlip.parent_edge st) e r s d →
       ∃ d', chain (FixFlip.parent_edge st') e r s d') ∧
    FixFlip.edge_to_faces st' = FixFlip.edge_to_faces st ∧
    FixFlip.vertices_to_edges st' = FixFlip.vertices_to_edges st ∧
    FixFlip.tree st' = FixFlip.tree st.
Proof.
  intros [Hg Hch] Hlen Hi. destruct (Hch i Hi) as (r & s & d & Hc).
  pose proof (chain_depth_bound _ _ _ _ _ Hc) as Hd.
  destruct (get_parents_spec _ _ _ _ _ _ Hg Hc Hd)
    as (ps' & Hrun & Hlen' & Hg' & _ & _ & Hpres).
  assert (get_parents_orient (length (FixFlip.parent_edge st)) (FixFlip.parent_edge st) i
          = Ok s) as Ho by (apply get_parents_orient_chain; eauto).
  destruct (chain_root_entry _ _ _ _ _ Hc) as [o Hr].
  destruct (vget_in_range (FixFlip.edge_diff st) r) as [x Hx].
  { apply vget_Ok_range in Hr. unfold vsize in *. lia. }
  eexists _, r, s, d, x. split_and!; [done|done| | | | | | | |].
  - unfold FixFlip.propagate_edge, FixFlip.find_orient, FixFlip.find, FixFlip.diff_of,
      FixFlip.get, FixFlip.lift, FixFlip.set_edge_diff, mbind, FixFlip.M_bind.
    rewrite Ho. cbn. rewrite Hrun. cbn. rewrite Hx. cbn.
    rewrite vset_in_range by (unfold vsize in *; lia). cbn. reflexivity.
  - done.
  - cbn. split; [done|]. intros j Hj. unfold vsize in Hj. rewrite Hlen' in Hj.
    destruct (Hch j Hj) as (rj & sj & dj & Hcj).
    destruct (Hpres _ _ _ _ Hcj) as (dj' & ? & _). eauto.
  - done.
  - cbn. intros e r0 s0 d0 Hc0. destruct (Hpres _ _ _ _ Hc0) as (d' & ? & _). eauto.
  - done.
  - done.
  - done.
Qed.

Lemma mfor_cons_run {A} (x : A) l (body : A → FixFlip.M unit) st st1 :
  body x st = Ok ((), st1) →
  FixFlip.mfor (x :: l) body st = FixFlip.mfor l body st1.
Proof.
  intros H. cbn [FixFlip.mfor]. unfold mbind, FixFlip.M_bind. by rewrite H.
Qed.

Lemma propagate_loop (st0 : State) l :
  wf_forest (FixFlip.parent_edge st0) →
  ∀ seen st,
    Forall (λ i, 0 ≤ i < vsize (FixFlip.parent_edge st0)) l →
    wf_forest (FixFlip.parent_edge st) →
    length (FixFlip.parent_edge st) = length (FixFlip.parent_edge st0) →
    length (FixFlip.edge_diff st) = length (FixFlip.parent_edge st0) →
    (∀ e r s d, chain (FixFlip.parent_edge st0) e r s d →
       ∃ d', chain (FixFlip.parent_edge st) e r s d') →
    (∀ r o, vget (FixFlip.parent_edge st0) r = Ok (r, o) →
       vget (FixFlip.edge_diff st) r = vget (FixFlip.edge_diff st0) r) →
    (∀ k, k ∈ seen →
       vget (FixFlip.edge_diff st) k
       = FixFlip.frame_diff (FixFlip.parent_edge st0) (FixFlip.edge_diff st0) k) →
    (∀ k, k ∉ seen → vget (FixFlip.edge_diff st) k = vget (FixFlip.edge_diff st0) k) →
    FixFlip.edge_to_faces st = FixFlip.edge_to_faces st0 →
    FixFlip.vertices_to_edges st = FixFlip.vertices_to_edges st0 →
    FixFlip.tree st = FixFlip.tree st0 →
    ∃ st',
      FixFlip.mfor l FixFlip.propagate_edge st = Ok ((), st') ∧
      wf_forest (FixFlip.parent_edge st') ∧
      length (FixFlip.parent_edge st') = length (FixFlip.parent_edge st0) ∧
      length (FixFlip.edge_diff st') = length (FixFlip.parent_edge st0) ∧
      (∀ e r s d, chain (FixFlip.parent_edge st0) e r s d →
         ∃ d', chain (FixFlip.parent_edge st') e r s d') ∧
      (∀ r o, vget (FixFlip.parent_edge st0) r = Ok (r, o) →
         vget (FixFlip.edge_diff st') r = vget (FixFlip.edge_diff st0) r) ∧
      (∀ k, k ∈ seen ++ l →
         vget (FixFlip.edge_diff st') k
         = FixFlip.frame_diff (FixFlip.parent_edge st0) (FixFlip.edge_diff st0) k) ∧
      (∀ k, k ∉ seen ++ l →
         vget (FixFlip.edge_diff st') k = vget (FixFlip.edge_diff st0) k) ∧
      FixFlip.edge_to_faces st' = FixFlip.edge_to_faces st0 ∧
      FixFlip.vertices_to_edges st' = FixFlip.vertices_to_edges st0 ∧
      FixFlip.tree st' = FixFlip.tree st0.
Proof.
  intros [Hg0 Hch0]. induction l as [|i l IH];
    intros seen st Hl Hwf Hlps Hled Hpres Hroot Hseen Hnot He2f Hvte Htree.
  - exists st. rewrite app_nil_r. split_and!; done.
  - apply Forall_cons in Hl as [Hi Hl].
    destruct (propagate_edge_run st i Hwf) as
      (st1 & r & s & d & x & Hc & Hx & Hrun & Hed1 & Hwf1 & Hlps1 & Hpres1 & ? & ? & ?);
      [lia | unfold vsize in *; lia |].
    destruct (Hch0 i Hi) as (r0 & s0 & d0 & Hc0).
    destruct (Hpres _ _ _ _ Hc0) as (d0' & Hc0').
    destruct (chain_det _ _ _ _ _ _ _ _ Hc Hc0') as (-> & -> & _).
    destruct (chain_root_entry _ _ _ _ _ Hc0) as [o0 Hr0].
    assert (0 ≤ i < vsize (FixFlip.edge_diff st)) as Hi' by (unfold vsize in *; lia).
    assert (FixFlip.frame_diff (FixFlip.parent_edge st0) (FixFlip.edge_diff st0) i
            = Ok (rshift90 x s0)) as Hframe.
    { rewrite (frame_diff_chain _ _ _ _ _ _ Hg0 Hc0), <- (Hroot _ _ Hr0), Hx.
      by rewrite rbind_Ok_l. }
    destruct (IH (seen ++ [i]) st1) as
      (st' & Hrun' & ? & ? & ? & ? & ? & Hseen' & Hnot' & ? & ? & ?); try done.
    + lia.
    + rewrite Hed1, length_insert. done.
    + intros e r s d' Hce. destruct (Hpres _ _ _ _ Hce) as (d1 & Hce1).
      by apply Hpres1 in Hce1.
    + intros r o Hr. rewrite Hed1. destruct (decide (i = r)) as [->|Hne].
      * rewrite vget_insert_eq by done.
        destruct (chain_det _ _ _ _ _ _ _ _ Hc0 (chain_root _ _ _ Hr)) as (-> & -> & _).
        assert (o = 0) as -> by (by destruct (Hg0 _ _ _ Hr) as (_ & _ & ->)).
        by rewrite rshift90_zero, <- (Hroot _ _ Hr), Hx.
      * rewrite vget_insert_ne by lia. by eapply Hroot.
    + intros k Hk. rewrite Hed1. destruct (decide (i = k)) as [->|Hne].
      * by rewrite vget_insert_eq, Hframe.
      * rewrite vget_insert_ne by lia. apply Hseen. set_solver.
    + intros k Hk. rewrite Hed1. rewrite vget_insert_ne; [|lia|set_solver].
      apply Hnot. set_solver.
    + congruence.
    + congruence.
    + congruence.
    + exists st'. rewrite (mfor_cons_run _ _ _ _ _ Hrun).
      split_and!; try done.
      * intros k Hk. apply Hseen'. by rewrite <- app_assoc.
      * intros k Hk. apply Hnot'. by rewrite <- app_assoc.
Qed.

(** X5.  On a well-formed forest, with one diff per edge, the final
    propagation returns; afterwards [edge_diff[i]] is, for every edge [i],
    the diff of the root of its class before the loop rotated by the
    composed label of [i] (so class roots keep their diff), and this is
    again what the forest and the new [edge_diff] give: every edge agrees
    with its class.  The forest is at most path-compressed and the other
    tables are not touched. *)
Theorem final_propagation_gives_class_diffs st :
  wf_forest (FixFlip.parent_edge st) →
  length (FixFlip.edge_diff st) = length (FixFlip.parent_edge st) →
  ∃ st',
    FixFlip.final_propagation st = Ok ((), st') ∧
    (∀ i, 0 ≤ i < vsize (FixFlip.parent_edge st) →
       vget (FixFlip.edge_diff st') i
       = FixFlip.frame_diff (FixFlip.parent_edge st) (FixFlip.edge_diff st) i ∧
       vget (FixFlip.edge_diff st') i
       = FixFlip.frame_diff (FixFlip.parent_edge st') (FixFlip.edge_diff st') i) ∧
    (∀ r o, vget (FixFlip.parent_edge st) r = Ok (r, o) →
       vget (FixFlip.edge_diff st') r = vget (FixFlip.edge_diff st) r) ∧
    wf_forest (FixFlip.parent_edge st') ∧
    (∀ e r s d, chain (FixFlip.parent_edge st) e r s d →
       ∃ d', chain (FixFlip.parent_edge st') e r s d') ∧
    FixFlip.edge_to_faces st' = FixFlip.edge_to_faces st ∧
    FixFlip.vertices_to_edges st' = FixFlip.vertices_to_edges st ∧
    FixFlip.tree st' = FixFlip.tree st.
Proof.
  intros Hwf Hlen.
  destruct (propagate_loop st (seqZ 0 (vsize (FixFlip.parent_edge st))) Hwf [] st)
    as (st' & Hrun & Hwf' & Hlps & Hled & Hpres & Hroot & Hseen & _ & ? & ? & ?);
    try done.
  { apply Forall_forall. intros i Hi. apply elem_of_seqZ in Hi. lia. }
  { destruct Hwf as [Hg _]. eauto. }
  { intros k Hk. by apply elem_of_nil in Hk. }
  exists st'. split_and!; try done.
  intros i Hi.
    assert (vget (FixFlip.edge_diff st') i
            = FixFlip.frame_diff (FixFlip.parent_edge st) (FixFlip.edge_diff st) i) as E.
    { apply Hseen. rewrite app_nil_l. apply elem_of_seqZ. lia. }
  split; [done|]. rewrite E.
  destruct Hwf as [Hg Hch]. destruct Hwf' as [Hg' _].
    destruct (Hch i Hi) as (r & s & d & Hc). destruct (Hpres _ _ _ _ Hc) as [d' Hc'].
    destruct (chain_root_entry _ _ _ _ _ Hc) as [o Hr].
    rewrite (frame_diff_chain _ _ _ _ _ _ Hg Hc), (frame_diff_chain _ _ _ _ _ _ Hg' Hc').
    by rewrite (Hroot _ _ Hr).
Qed.

End FinalPropagation.

Lemma final_propagation_gives_class_diffs_witness :
  ∃ st',
    FixFlip.final_propagation fan_linked = Ok ((), st') ∧
    vget (FixFlip.edge_diff st') 1 = Ok (0, 1) ∧
    vget (FixFlip.edge_diff st') 7 = Ok (-1, 1).
Proof.
  assert (wf_forest (FixFlip.parent_edge fan_linked)) as Hwf
    by (apply wf_forestb_sound; vm_compute; reflexivity).
  assert (length (FixFlip.edge_diff fan_linked) = length (FixFlip.parent_edge fan_linked))
    as Hlen by reflexivity.
  destruct (@final_propagation_gives_class_diffs (list Z) fan_linked Hwf Hlen)
    as (st' & Hrun & Hdiff & _).
  exists st'. split; [exact Hrun|]. split.
  - assert (0 ≤ 1 < vsize (FixFlip.parent_edge fan_linked)) as Hr
      by (split; [discriminate | vm_compute; reflexivity]).
    destruct (Hdiff 1 Hr) as [E _]. rewrite E. vm_compute. reflexivity.
  - assert (0 ≤ 7 < vsize (FixFlip.parent_edge fan_linked)) as Hr
      by (split; [discriminate | vm_compute; reflexivity]).
    destruct (Hdiff 7 Hr) as [E _]. rewrite E. vm_compute. reflexivity.
Defined.

(** ** [collapse] and [ExtractEdgeSet] as their callers see them *)

(** X6.  A [collapse] that returns, on a well-formed forest, does not
    change [edge_diff], leaves the forest well formed and of the same size,
    and keeps for every edge the diff it has in its class:
    [rshift90(edge_diff[root], orient)] is the same before and after, also
    for the edges whose classes were united. *)
Theorem collapse_keeps_class_diffs {DisjointTree : Type}
    (tree_Parent : DisjointTree → Z → Z)
    (tree_MergeFromTo : DisjointTree → Z → Z → DisjointTree)
    (F face_edgeIds : list Vector3i) (fuel : nat) (v1 v2 : Z)
    (st : FixFlip.State) u st' :
  wf_forest (FixFlip.parent_edge st) →
  FixFlip.collapse tree_Parent tree_MergeFromTo F face_edgeIds fuel v1 v2 st
    = Ok (u, st') →
  FixFlip.edge_diff st' = FixFlip.edge_diff st ∧
  wf_forest (FixFlip.parent_edge st') ∧
  length (FixFlip.parent_edge st') = length (FixFlip.parent_edge st) ∧
  ∀ e, FixFlip.frame_diff (FixFlip.parent_edge st') (FixFlip.edge_diff st') e
       = FixFlip.frame_diff (FixFlip.parent_edge st) (FixFlip.edge_diff st) e.
Proof.
  intros Hwf H.
  destruct (keeps_collapse tree_Parent tree_MergeFromTo F face_edgeIds fuel v1 v2
              _ _ _ Hwf I H) as [[Hed Hsf] _].
  split_and!; [done | by eapply same_frames_wf | by destruct Hsf |].
  intros e. rewrite Hed. by apply same_frames_frame_diff.
Qed.

Lemma collapse_keeps_class_diffs_witness :
  ∃ st',
    FixFlip.collapse ex_Parent ex_MergeFromTo fan_F fan_face_edgeIds 20 0 1
      fan_collapsible = Ok ((), st') ∧
    vget (FixFlip.parent_edge st') 1 = Ok (4, 0) ∧
    FixFlip.edge_diff st' = FixFlip.edge_diff fan_collapsible ∧
    ∀ e, FixFlip.frame_diff (FixFlip.parent_edge st') (FixFlip.edge_diff st') e
         = FixFlip.frame_diff (FixFlip.parent_edge fan_collapsible)
             (FixFlip.edge_diff fan_collapsible) e.
Proof.
  assert (∃ st', FixFlip.collapse ex_Parent ex_MergeFromTo fan_F fan_face_edgeIds 20 0 1
                   fan_collapsible = Ok ((), st') ∧
                 vget (FixFlip.parent_edge st') 1 = Ok (4, 0))
    as (st' & Hrun & Hlink) by (eexists; split; vm_compute; reflexivity).
  exists st'. split; [exact Hrun|]. split; [exact Hlink|].
  destruct (collapse_keeps_class_diffs ex_Parent ex_MergeFromTo fan_F fan_face_edgeIds
              20 0 1 fan_collapsible () st') as (Hed & _ & _ & Hframes).
  - apply wf_forestb_sound. vm_compute. reflexivity.
  - exact Hrun.
  - split; [exact Hed | exact Hframes].
Defined.

(** X7.  What [ExtractEdgeSet] hands to [CheckMove], on a well-formed
    forest: the state is as before up to path compression, and the list is
    either empty (the move is given up) or starts with [(pid,
    edge_diff[pid])], names no edge twice, and each of its changes either
    cancels the diff of its edge or leaves at most [edge_len] in each
    component. *)
Theorem ExtractEdgeSet_changes {DisjointTree : Type}
    (tree_Parent : DisjointTree → Z → Z) (edge_values : list (Z * Z))
    (face_edgeIds face_edgeOrients : list Vector3i) (edge_len : Z)
    (fuel : nat) (v1 v2 pid : Z) (st : FixFlip.State) edge_change st' :
  wf_forest (FixFlip.parent_edge st) →
  FixFlip.ExtractEdgeSet tree_Parent edge_values face_edgeIds face_edgeOrients
    edge_len fuel v1 v2 pid st = Ok (edge_change, st') →
  FixFlip.compressed st st' ∧
  (edge_change = [] ∨
   ∃ d rest,
     vget (FixFlip.edge_diff st) pid = Ok d ∧
     edge_change = (pid, d) :: rest ∧
     NoDup edge_change.*1 ∧
     ∀ e c, (e, c) ∈ edge_change →
       ∃ cur, vget (FixFlip.edge_diff st) e = Ok cur ∧
         (c = cur ∨
          (Z.abs (cur.1 - c.1) ≤ edge_len ∧ Z.abs (cur.2 - c.2) ≤ edge_len))).
Proof.
  intros Hwf H. unfold FixFlip.ExtractEdgeSet in H.
  apply mbind_Ok in H as (d & st0 & Hd & H). apply diff_of_Ok in Hd as [Hd ->].
  apply mbind_Ok in H as (e2f & st0 & He2f & H). apply get_Ok in He2f as [-> ->].
  apply mbind_Ok in H as (faces & st0 & Hfaces & H). apply lift_Ok in Hfaces as [Hfaces ->].
  assert (∀ k, ({[pid := d]} : gmap Z Vector2i) !! k = None → k ∉ [(pid, d)].*1) as Hes.
  { intros k Hk. apply lookup_singleton_None in Hk. simpl.
    by intros ->%list_elem_of_singleton. }
  assert (NoDup [(pid, d)].*1) as Hnd by (simpl; apply NoDup_singleton).
  assert (Forall (FixFlip.change_within edge_len (FixFlip.edge_diff st)) [(pid, d)]) as Hall.
  { apply Forall_singleton. exists d. split; [done|]. by left. }
  destruct (extract_loop_spec _ _ _ _ _ _ _ _ _ _ _ _ _ Hwf Hes Hnd Hall H)
    as [Hc Hres].
  split; [done|]. destruct Hres as [->|(Hnd' & Hall' & rest & ->)]; [by left|].
  right. exists d, rest. split_and!; [done..|].
  intros e c Hin. eapply Forall_forall in Hall'; [|exact Hin].
  destruct Hall' as (cur & Hcur & Hor). exists cur. split; [done|]. exact Hor.
Qed.

Lemma ExtractEdgeSet_changes_witness :
  ∃ st',
    FixFlip.ExtractEdgeSet ex_Parent fan_edge_values fan_face_edgeIds
      fan_face_edgeOrients 1 20 0 1 0 fan_flipped
    = Ok ([(0, (-1, 0)); (1, (-1, 0)); (3, (-1, 0)); (2, (-1, 0))], st') ∧
    FixFlip.compressed fan_flipped st'.
Proof.
  assert (∃ st', FixFlip.ExtractEdgeSet ex_Parent fan_edge_values fan_face_edgeIds
                   fan_face_edgeOrients 1 20 0 1 0 fan_flipped
                 = Ok ([(0, (-1, 0)); (1, (-1, 0)); (3, (-1, 0)); (2, (-1, 0))], st'))
    as [st' Hrun] by (eexists; vm_compute; reflexivity).
  exists st'. split; [exact Hrun|].
  eapply (ExtractEdgeSet_changes ex_Parent fan_edge_values fan_face_edgeIds
            fan_face_edgeOrients 1 20 0 1 0 fan_flipped).
  - apply wf_forestb_sound. vm_compute. reflexivity.
  - exact Hrun.
Defined.

(** ** The flow that [BuildIntegerConstraints] recomputes *)

(** X8.  Lines 1291-1310: when the loop over the constraint rows returns,
    [variables] has two entries per edge, and the [total_flow] it summed row
    by row is the sum over all variables of net sign times the component of
    [edge_diff] the variable names. *)
Theorem build_variables_total_flow
    (constraints_index constraints_sign : list Vector3i)
    (edge_diff : list Vector2i) (variables : list (Vector2i * Z)) (total_flow : Z) :
  build_variables constraints_index constraints_sign edge_diff
    = Ok (variables, total_flow) →
  length variables = (2 * length edge_diff)%nat ∧
  total_flow = flow_sum edge_diff 0 variables.
Proof. apply build_variables_flow. Qed.

Lemma build_variables_total_flow_witness :
  length [((0, -1), 2); ((0, -1), 1)] = (2 * length [(1, 0)])%nat ∧
  2 = flow_sum [(1, 0)] 0 [((0, -1), 2); ((0, -1), 1)].
Proof.
  apply (build_variables_total_flow [(0, 1, 0)] [(1, 1, 1)] [(1, 0)]).
  vm_compute. reflexivity.
Defined.

(** ** The clamp of [ComputeIndexMap] *)

(** X9.  [if (abs(x) > 1) x /= abs(x)] on a 32-bit [int] [x]: the result
    is in [{-1,0,1}] exactly when [x] is not the least [int], whose [abs]
    overflows and which is left as it is; in every case the result is an
    [int] with the sign of [x], clamping twice is clamping once, and [x] is
    changed exactly when it is outside [{-1,0,1}] and not the least
    [int]. *)
Theorem clamp_component_keeps_sign (x : Z) :
  is_int x →
  (-1 ≤ clamp_component x ≤ 1 ↔ x ≠ INT_MIN) ∧
  (x = INT_MIN → clamp_component x = INT_MIN) ∧
  is_int (clamp_component x) ∧
  Z.sgn (clamp_component x) = Z.sgn x ∧
  clamp_component (clamp_component x) = clamp_component x ∧
  (clamp_component x = x ↔ -1 ≤ x ≤ 1 ∨ x = INT_MIN).
Proof.
  intros Hint. destruct (decide (x = INT_MIN)) as [->|Hx].
  - rewrite !clamp_component_least. split_and!.
    + unfold INT_MIN. split; intros; lia.
    + done.
    + done.
    + done.
    + done.
    + split; [by right | done].
  - pose proof (clamp_component_sgn x Hint Hx) as E.
    pose proof (clamp_component_range x Hint Hx) as Hrange.
    split_and!.
    + split; [done | by intros _].
    + done.
    + unfold is_int, INT_MIN, INT_MAX. lia.
    + rewrite E. case_decide; lia.
    + by apply clamp_component_fixes.
    + rewrite E. case_decide; lia.
Qed.

Lemma clamp_component_keeps_sign_witness :
  (-1 ≤ clamp_component (-7) ≤ 1 ↔ -7 ≠ INT_MIN) ∧
  (-7 = INT_MIN → clamp_component (-7) = INT_MIN) ∧
  is_int (clamp_component (-7)) ∧
  Z.sgn (clamp_component (-7)) = Z.sgn (-7) ∧
  clamp_component (clamp_component (-7)) = clamp_component (-7) ∧
  (clamp_component (-7) = -7 ↔ -1 ≤ -7 ≤ 1 ∨ -7 = INT_MIN).
Proof.
  apply (clamp_component_keeps_sign (-7)). unfold is_int, INT_MIN, INT_MAX. lia.
Defined.

(** ** Edge keys of [FixHoles] *)

(** X10.  For compact vertex ids below [numV], the key [numV * e.x + e.y]
    of an edge decodes, by [/ numV] and [% numV], to that edge, and two
    edges with the same key are the same edge in either direction. *)
Theorem edge_key_round_trip (numV v1 v2 : Z) :
  0 ≤ v1 < numV → 0 ≤ v2 < numV →
  edge_of_key numV (edge_key numV v1 v2) = DEdge v1 v2 ∧
  edge_key numV v2 v1 = edge_key numV v1 v2 ∧
  ∀ w1 w2, 0 ≤ w1 < numV → 0 ≤ w2 < numV →
    edge_key numV w1 w2 = edge_key numV v1 v2 → DEdge w1 w2 = DEdge v1 v2.
Proof.
  intros H1 H2.
  assert (∀ a b, 0 ≤ a < numV → 0 ≤ b < numV →
            Z.quot (numV * a + b) numV = a ∧ Z.rem (numV * a + b) numV = b) as Hdec.
  { intros a b Ha Hb.
    pose proof (Z.quot_rem' (numV * a + b) numV) as Hqr.
    pose proof (Z.rem_bound_pos (numV * a + b) numV ltac:(nia) ltac:(lia)) as Hb'.
    assert (Z.quot (numV * a + b) numV = a) by nia. split; [done|]. nia. }
  assert (∀ a b, 0 ≤ a < numV → 0 ≤ b < numV →
            0 ≤ (DEdge a b).1 < numV ∧ 0 ≤ (DEdge a b).2 < numV ∧
            (DEdge a b).1 ≤ (DEdge a b).2) as Hr.
  { intros a b Ha Hb. unfold DEdge. simpl. lia. }
  split_and!.
  - unfold edge_of_key, edge_key. cbv zeta.
    destruct (Hr v1 v2 H1 H2) as (Ha & Hb & Hle).
    destruct (Hdec _ _ Ha Hb) as [-> ->].
    unfold DEdge in *. simpl in *. f_equal; lia.
  - unfold edge_key, DEdge. simpl. by rewrite Z.min_comm, Z.max_comm.
  - intros w1 w2 Hw1 Hw2 Hk. unfold edge_key in Hk. cbv zeta in Hk.
    destruct (Hr v1 v2 H1 H2) as (Ha & Hb & _).
    destruct (Hr w1 w2 Hw1 Hw2) as (Ha' & Hb' & _).
    destruct (Hdec _ _ Ha Hb) as [Eq Er]. destruct (Hdec _ _ Ha' Hb') as [Eq' Er'].
    rewrite Hk in Eq', Er'.
    destruct (DEdge v1 v2) as [a b], (DEdge w1 w2) as [a' b']. simpl in *. congruence.
Qed.

Lemma edge_key_round_trip_witness :
  edge_of_key 10 (edge_key 10 7 3) = DEdge 7 3 ∧
  edge_key 10 3 7 = edge_key 10 7 3 ∧
  ∀ w1 w2, 0 ≤ w1 < 10 → 0 ≤ w2 < 10 →
    edge_key 10 w1 w2 = edge_key 10 7 3 → DEdge w1 w2 = DEdge 7 3.
Proof. apply (edge_key_round_trip 10 7 3); lia. Defined.

(** ** Signed variable indices *)

Lemma rshift90_cases v a :
  (a `mod` 4 = 0 ∧ rshift90 v a = v) ∨
  (a `mod` 4 = 1 ∧ rshift90 v a = (- v.2, v.1)) ∨
  (a `mod` 4 = 2 ∧ rshift90 v a = (- v.1, - v.2)) ∨
  (a `mod` 4 = 3 ∧ rshift90 v a = (v.2, - v.1)).
Proof.
  unfold rshift90. pose proof (Z.mod_pos_bound a 4 ltac:(lia)) as Ha.
  assert (a `mod` 4 = 0 ∨ a `mod` 4 = 1 ∨ a `mod` 4 = 2 ∨ a `mod` 4 = 3)
    as [-> | [-> | [-> | ->] ] ] by lia; auto.
Qed.

Lemma v2_neg_rshift90 v a : v2_neg (rshift90 v a) = rshift90 v (a + 2).
Proof.
  rewrite <- rshift90_compose.
  destruct (rshift90_cases (rshift90 v a) 2) as [[? _]|[[? _]|[[_ ->]|[? _] ] ] ]; done.
Qed.

Lemma quot_rem_even e : 0 ≤ e → Z.quot (e * 2) 2 = e ∧ Z.rem (e * 2) 2 = 0.
Proof.
  intros He. pose proof (Z.quot_rem' (e * 2) 2).
  pose proof (Z.rem_bound_pos (e * 2) 2 ltac:(lia) ltac:(lia)). lia.
Qed.

Lemma quot_rem_odd e : 0 ≤ e → Z.quot (e * 2 + 1) 2 = e ∧ Z.rem (e * 2 + 1) 2 = 1.
Proof.
  intros He. pose proof (Z.quot_rem' (e * 2 + 1) 2).
  pose proof (Z.rem_bound_pos (e * 2 + 1) 2 ltac:(lia) ltac:(lia)). lia.
Qed.

Lemma decode_signed_pos n : 0 < n → decode_signed n = Ok (n - 1, 1).
Proof.
  intros Hn. unfold decode_signed. cbv zeta. rewrite decide_False by lia.
  rewrite Z.abs_eq by lia. by rewrite Z.quot_same by lia.
Qed.

Lemma decode_signed_neg n : 0 < n → decode_signed (- n) = Ok (n - 1, -1).
Proof.
  intros Hn. unfold decode_signed. cbv zeta. rewrite decide_False by lia.
  rewrite Z.abs_opp, Z.abs_eq by lia.
  by rewrite Z.quot_opp_l, Z.quot_same by lia.
Qed.

Lemma diff_component_even ed e d :
  0 ≤ e → vget ed e = Ok d → diff_component ed (e * 2 + 1 - 1) = Ok d.1.
Proof.
  intros He Hd. unfold diff_component. replace (e * 2 + 1 - 1) with (e * 2) by lia.
  destruct (quot_rem_even e He) as [-> ->]. by rewrite Hd.
Qed.

Lemma diff_component_odd ed e d :
  0 ≤ e → vget ed e = Ok d → diff_component ed (e * 2 + 2 - 1) = Ok d.2.
Proof.
  intros He Hd. unfold diff_component. replace (e * 2 + 2 - 1) with (e * 2 + 1) by lia.
  destruct (quot_rem_odd e He) as [-> ->]. by rewrite Hd.
Qed.

(** Component [j] of a rotated signed index pair of edge [e] decodes
    without reaching [exit(0)], to a component of [e] and a sign, and stands
    for component [j] of the rotated diff of [e]. *)
Lemma signed_component ed e d r j :
  vget ed e = Ok d → j = 0 ∨ j = 1 →
  ∃ a ind g c,
    v2_get (rshift90 (signed_index e) r) j = Ok a ∧
    decode_signed a = Ok (ind, g) ∧
    (g = 1 ∨ g = -1) ∧ Z.quot ind 2 = e ∧
    diff_component ed ind = Ok c ∧
    v2_get (rshift90 d r) j = Ok (g * c).
Proof.
  intros Hd Hj. pose proof (vget_Ok_range _ _ _ Hd) as [He _].
  pose proof (diff_component_even ed e d He Hd) as Hev.
  pose proof (diff_component_odd ed e d He Hd) as Hod.
  destruct (quot_rem_even e He) as [Hq0 _]. destruct (quot_rem_odd e He) as [Hq1 _].
  assert (Z.quot (e * 2 + 1 - 1) 2 = e) as Hqa by (by replace (e * 2 + 1 - 1) with (e * 2) by lia).
  assert (Z.quot (e * 2 + 2 - 1) 2 = e) as Hqb by (by replace (e * 2 + 2 - 1) with (e * 2 + 1) by lia).
  assert (∀ p : Vector2i, v2_get p 0 = Ok p.1) as Hg0 by done.
  assert (∀ p : Vector2i, v2_get p 1 = Ok p.2) as Hg1 by done.
  destruct (rshift90_cases (signed_index e) r) as [[Hm ->]|[[Hm ->]|[[Hm ->]|[Hm ->] ] ] ];
    destruct (rshift90_cases d r) as [[Hm' ->]|[[Hm' ->]|[[Hm' ->]|[Hm' ->] ] ] ];
    try (exfalso; lia); destruct Hj as [->| ->]; rewrite ?Hg0, ?Hg1;
    unfold signed_index; cbn [fst snd].
  - eexists _, _, _, _. split; [reflexivity|]. rewrite decode_signed_pos by lia.
    split; [reflexivity|]. split_and!; eauto; f_equal; lia.
  - eexists _, _, _, _. split; [reflexivity|]. rewrite decode_signed_pos by lia.
    split; [reflexivity|]. split_and!; eauto; f_equal; lia.
  - eexists _, _, _, _. split; [reflexivity|]. rewrite decode_signed_neg by lia.
    split; [reflexivity|]. split_and!; eauto; f_equal; lia.
  - eexists _, _, _, _. split; [reflexivity|]. rewrite decode_signed_pos by lia.
    split; [reflexivity|]. split_and!; eauto; f_equal; lia.
  - eexists _, _, _, _. split; [reflexivity|]. rewrite decode_signed_neg by lia.
    split; [reflexivity|]. split_and!; eauto; f_equal; lia.
  - eexists _, _, _, _. split; [reflexivity|]. rewrite decode_signed_neg by lia.
    split; [reflexivity|]. split_and!; eauto; f_equal; lia.
  - eexists _, _, _, _. split; [reflexivity|]. rewrite decode_signed_pos by lia.
    split; [reflexivity|]. split_and!; eauto; f_equal; lia.
  - eexists _, _, _, _. split; [reflexivity|]. rewrite decode_signed_neg by lia.
    split; [reflexivity|]. split_and!; eauto; f_equal; lia.
Qed.

Lemma constraint_row_spec ed e0 e1 e2 d0 d1 d2 r0 r1 r2 j :
  vget ed e0 = Ok d0 → vget ed e1 = Ok d1 → vget ed e2 = Ok d2 →
  j = 0 ∨ j = 1 →
  ∃ ind sign t,
    constraint_row (rshift90 (signed_index e0) r0) (rshift90 (signed_index e1) r1)
      (rshift90 (signed_index e2) r2) j = Ok (ind, sign) ∧
    (Z.quot ind.1.1 2 = e0 ∧ Z.quot ind.1.2 2 = e1 ∧ Z.quot ind.2 2 = e2) ∧
    (Z.abs sign.1.1 = 1 ∧ Z.abs sign.1.2 = 1 ∧ Z.abs sign.2 = 1) ∧
    constraint_residual ed ind sign = Ok t ∧
    v2_get (v2_add (v2_add (rshift90 d0 r0) (rshift90 d1 r1)) (rshift90 d2 r2)) j
      = Ok t.
Proof.
  intros H0 H1 H2 Hj.
  destruct (signed_component ed e0 d0 r0 j H0 Hj)
    as (a0 & i0 & g0 & c0 & Ha0 & Hdec0 & Hg0 & Hq0 & Hc0 & Hv0).
  destruct (signed_component ed e1 d1 r1 j H1 Hj)
    as (a1 & i1 & g1 & c1 & Ha1 & Hdec1 & Hg1 & Hq1 & Hc1 & Hv1).
  destruct (signed_component ed e2 d2 r2 j H2 Hj)
    as (a2 & i2 & g2 & c2 & Ha2 & Hdec2 & Hg2 & Hq2 & Hc2 & Hv2).
  exists (i0, i1, i2), (g0, g1, g2), (g0 * c0 + g1 * c1 + g2 * c2).
  split_and!; cbn [fst snd]; try done; try lia.
  - unfold constraint_row. rewrite Ha0, rbind_Ok_l, Hdec0, rbind_Ok_l.
    rewrite Ha1, rbind_Ok_l, Hdec1, rbind_Ok_l.
    by rewrite Ha2, rbind_Ok_l, Hdec2, rbind_Ok_l.
  - unfold constraint_residual. cbn [fst snd].
    by rewrite Hc0, rbind_Ok_l, Hc1, rbind_Ok_l, Hc2, rbind_Ok_l.
  - destruct (rshift90 d0 r0) as [x0 y0], (rshift90 d1 r1) as [x1 y1],
      (rshift90 d2 r2) as [x2 y2].
    unfold v2_add. cbn [fst snd] in *.
    destruct Hj as [->| ->]; unfold v2_get in *; cbn in *;
      injection Hv0 as ->; injection Hv1 as ->; injection Hv2 as ->; done.
Qed.

Lemma v2_neg_rshift90_rem v a : v2_neg (rshift90 v a) = rshift90 v (Z.rem (a + 2) 4).
Proof. by rewrite rshift90_rem, v2_neg_rshift90. Qed.

Lemma v2_neg_half_turn v : v2_neg v = rshift90 v 2.
Proof. done. Qed.

Lemma face_sign_indices_rotations v0 v1 v2 eid rank1 rank2 :
  ∃ o : Vector3i,
    face_sign_indices v0 v1 v2 eid rank1 rank2
    = ([rshift90 (signed_index eid.1.1) o.1.1;
        rshift90 (signed_index eid.1.2) o.1.2;
        rshift90 (signed_index eid.2) o.2], o).
Proof.
  exists (if decide (v1 < v0) then Z.rem (rank1 + 2) 4 else 0,
          if decide (v2 < v1) then Z.rem (rank2 + 2) 4 else rank1,
          if decide (v2 < v0) then rank2 else 2).
  unfold face_sign_indices. cbv zeta. cbn [fst snd].
  destruct (decide (v1 < v0)), (decide (v2 < v1)), (decide (v2 < v0));
    cbv beta iota; rewrite ?v2_neg_rshift90_rem, ?v2_neg_half_turn, ?rshift90_zero;
    reflexivity.
Qed.

(** X11.  A face with corner edges [eid], all of them edges of
    [edge_diff]: the signed index pair pushed on [sign_indices] for corner
    [k] is the pair [(2e+1, 2e+2)] of its edge rotated by the entry
    [face_edgeOrients[f][k]] computed next to it; the decoding of the rows
    never reaches the [exit(0)] of line 1156, every sign is [1] or [-1] and
    every index names a component of the corner's edge; and the residuals
    of the two rows are the two components of the sum of the three corner
    diffs, each rotated by [face_edgeOrients[f][k] + orient], the value
    [face_edgeOrients[f][k]] ends with. *)
Theorem face_constraint_rows_sum_rotated_diffs
    (v0 v1 v2 : Z) (eid : Vector3i) (rank1 rank2 orient : Z)
    (edge_diff : list Vector2i) (d0 d1 d2 : Vector2i) :
  vget edge_diff eid.1.1 = Ok d0 →
  vget edge_diff eid.1.2 = Ok d1 →
  vget edge_diff eid.2 = Ok d2 →
  ∃ (o : Vector3i) s' (row0 row1 : Vector3i * Vector3i),
    face_sign_indices v0 v1 v2 eid rank1 rank2
    = ([rshift90 (signed_index eid.1.1) o.1.1;
        rshift90 (signed_index eid.1.2) o.1.2;
        rshift90 (signed_index eid.2) o.2], o) ∧
    face_constraints (face_sign_indices v0 v1 v2 eid rank1 rank2).1 orient
    = Ok (s', [row0; row1]) ∧
    (∀ row, row = row0 ∨ row = row1 →
       (Z.quot row.1.1.1 2 = eid.1.1 ∧ Z.quot row.1.1.2 2 = eid.1.2 ∧
        Z.quot row.1.2 2 = eid.2) ∧
       (Z.abs row.2.1.1 = 1 ∧ Z.abs row.2.1.2 = 1 ∧ Z.abs row.2.2 = 1)) ∧
    let total :=
      v2_add (v2_add (rshift90 d0 (o.1.1 + orient)) (rshift90 d1 (o.1.2 + orient)))
        (rshift90 d2 (o.2 + orient)) in
    constraint_residual edge_diff row0.1 row0.2 = Ok total.1 ∧
    constraint_residual edge_diff row1.1 row1.2 = Ok total.2.
Proof.
  intros H0 H1 H2.
  destruct (face_sign_indices_rotations v0 v1 v2 eid rank1 rank2) as [o Ho].
  destruct (constraint_row_spec edge_diff _ _ _ _ _ _ (o.1.1 + orient) (o.1.2 + orient)
              (o.2 + orient) 0 H0 H1 H2 ltac:(by left))
    as (ind0 & sg0 & t0 & Hrow0 & Hq0 & Hs0 & Hres0 & Ht0).
  destruct (constraint_row_spec edge_diff _ _ _ _ _ _ (o.1.1 + orient) (o.1.2 + orient)
              (o.2 + orient) 1 H0 H1 H2 ltac:(by right))
    as (ind1 & sg1 & t1 & Hrow1 & Hq1 & Hs1 & Hres1 & Ht1).
  exists o, [rshift90 (signed_index eid.1.1) (o.1.1 + orient);
             rshift90 (signed_index eid.1.2) (o.1.2 + orient);
             rshift90 (signed_index eid.2) (o.2 + orient)], (ind0, sg0), (ind1, sg1).
  split_and!.
  - exact Ho.
  - rewrite Ho. unfold face_constraints. cbn [fst].
    change (vget [?a; ?b; ?c] 0) with (Ok a). rewrite rbind_Ok_l.
    change (vget [?a; ?b; ?c] 1) with (Ok b). rewrite rbind_Ok_l.
    change (vget [?a; ?b; ?c] 2) with (Ok c). rewrite rbind_Ok_l.
    cbv zeta. rewrite !rshift90_compose, Hrow0, rbind_Ok_l, Hrow1, rbind_Ok_l. done.
  - intros row [->| ->]; cbn [fst snd]; done.
  - cbv zeta. cbn [fst snd]. rewrite Hres0, Hres1.
    change (v2_get ?p 0) with (Ok p.1) in Ht0.
    change (v2_get ?p 1) with (Ok p.2) in Ht1.
    split; congruence.
Qed.

Lemma face_constraint_rows_sum_rotated_diffs_witness :
  ∃ (o : Vector3i) s' (row0 row1 : Vector3i * Vector3i),
    face_sign_indices 4 1 7 (0, 1, 2) 1 3
    = ([rshift90 (signed_index 0) o.1.1; rshift90 (signed_index 1) o.1.2;
        rshift90 (signed_index 2) o.2], o) ∧
    face_constraints (face_sign_indices 4 1 7 (0, 1, 2) 1 3).1 2 = Ok (s', [row0; row1]) ∧
    (∀ row, row = row0 ∨ row = row1 →
       (Z.quot row.1.1.1 2 = 0 ∧ Z.quot row.1.1.2 2 = 1 ∧ Z.quot row.1.2 2 = 2) ∧
       (Z.abs row.2.1.1 = 1 ∧ Z.abs row.2.1.2 = 1 ∧ Z.abs row.2.2 = 1)) ∧
    let total :=
      v2_add (v2_add (rshift90 (1, 0) (o.1.1 + 2)) (rshift90 (0, 1) (o.1.2 + 2)))
        (rshift90 (-1, -1) (o.2 + 2)) in
    constraint_residual [(1, 0); (0, 1); (-1, -1)] row0.1 row0.2 = Ok total.1 ∧
    constraint_residual [(1, 0); (0, 1); (-1, -1)] row1.1 row1.2 = Ok total.2.
Proof.
  apply (face_constraint_rows_sum_rotated_diffs 4 1 7 (0, 1, 2) 1 3 2
           [(1, 0); (0, 1); (-1, -1)] (1, 0) (0, 1) (-1, -1)); reflexivity.
Defined.

(** ** The branches chosen for the singular faces *)

Lemma for_each_invariant {A St} (P : St → Prop) (l : list A)
    (body : A → St → result St) s s' :
  (∀ x t t', x ∈ l → P t → body x t = Ok t' → P t') →
  P s → for_each l body s = Ok s' → P s'.
Proof.
  revert s. induction l as [|x l IH]; intros s Hbody Hs H; simpl in H.
  - by injection H as <-.
  - apply rbind_Ok in H as (s1 & H1 & H). eapply IH; [|eapply Hbody; [left|done..]|done].
    intros y t t' Hy. apply Hbody. by right.
Qed.

Lemma for_loop_invariant {St} (P : St → Prop) n start
    (body : Z → St → result St) s s' :
  (∀ i t t', start ≤ i < start + Z.of_nat n → P t → body i t = Ok t' → P t') →
  P s → for_loop n start body s = Ok s' → P s'.
Proof.
  revert start s. induction n as [|n IH]; intros start s Hbody Hs H; simpl in H.
  - by injection H as <-.
  - apply rbind_Ok in H as (s1 & H1 & H).
    eapply (IH (start + 1)); [|eapply (Hbody start); [lia|done..]|done].
    intros i t t' Hi. apply Hbody. lia.
Qed.

Lemma branch_sum_snoc ds js d j s dj :
  branch_sum ds js = Ok s → v3_get d j = Ok dj →
  branch_sum (ds ++ [d]) (js ++ [j]) = Ok (s + dj).
Proof.
  revert js s. induction ds as [|d0 ds IH]; intros [|j0 js] s H Hj; simpl in *; try done.
  - injection H as <-. rewrite Hj. simpl. f_equal. lia.
  - apply rbind_Ok in H as (a & Ha & H). apply rbind_Ok in H as (rest & Hrest & [= <-]).
    rewrite Ha, rbind_Ok_l, (IH _ _ Hrest Hj), rbind_Ok_l. f_equal. lia.
Qed.

Section SingularityBranchesProps.

Variable enumerate : gmap Z (Z * Z) → list (Z * (Z * Z)).
Hypothesis enumerate_entries : ∀ m k v, (k, v) ∈ enumerate m → m !! k = Some v.

(** An entry [(t, j)] at [v]: branch [j] of [d] leads to [v] from a key of
    the map before. *)
Local Abbreviation comes_from prev d v j :=
  (∃ dj, v3_get d j = Ok dj ∧ is_Some (prev !! (v - dj))).

Lemma next_map_entries prev d next :
  next_map enumerate prev d = Ok next →
  ∀ v t j, next !! v = Some (t, j) → comes_from prev d v j.
Proof.
  intros H. unfold next_map in H.
  set (P := λ next : gmap Z (Z * Z),
              ∀ v t j, next !! v = Some (t, j) → comes_from prev d v j).
  change (P next). eapply (for_each_invariant P); [| |exact H]; [|by intros v t j ?].
  intros [u pu] m m' Hin Hm Hrun.
  eapply (for_loop_invariant P); [| |exact Hrun]; [|done].
  intros j m1 m2 _ Hm1 Hstep. unfold branch_step in Hstep.
  apply rbind_Ok in Hstep as (dj & Hdj & Hstep). cbn [fst snd] in Hstep.
  assert (∀ t0, P (<[u + dj := (t0, j)]> m1)) as Hins.
  { intros t0 v t j' Hv. destruct (decide (u + dj = v)) as [<-|Hne].
    - rewrite lookup_insert_eq in Hv. injection Hv as <- <-. exists dj. split; [done|].
      replace (u + dj - dj) with u by lia. rewrite (enumerate_entries _ _ _ Hin). eauto.
    - rewrite lookup_insert_ne in Hv by done. by eapply Hm1. }
  destruct (m1 !! (u + dj)) as [cur|] eqn:E.
  - case_decide; injection Hstep as <-; [apply Hins | done].
  - injection Hstep as <-. apply Hins.
Qed.

Lemma build_sing_maps_spec sing_diff :
  ∀ cur maps,
    build_sing_maps enumerate sing_diff cur = Ok maps →
    length maps = S (length sing_diff) ∧
    maps !! 0%nat = Some cur ∧
    ∀ i d prev next,
      sing_diff !! i = Some d → maps !! i = Some prev → maps !! S i = Some next →
      ∀ v t j, next !! v = Some (t, j) → comes_from prev d v j.
Proof.
  induction sing_diff as [|d0 rest IH]; intros cur maps H; simpl in H.
  - injection H as <-. split_and!; [done..|]. by intros i d prev next ?.
  - apply rbind_Ok in H as (next0 & Hnext & H).
    apply rbind_Ok in H as (maps' & Hmaps & [= <-]).
    destruct (IH _ _ Hmaps) as (Hlen & Hhd & Hstep).
    split_and!; [simpl; lia | done |].
    intros [|i] d prev next Hd Hp Hn; simpl in *.
    + injection Hd as <-. injection Hp as <-. rewrite Hhd in Hn. injection Hn as <-.
      by apply next_map_entries.
    + by eapply Hstep.
Qed.

Lemma backtrack_spec maps sing_diff total_flow :
  length maps = S (length sing_diff) →
  maps !! 0%nat = Some ({[total_flow := (0, 0)]} : gmap Z (Z * Z)) →
  (∀ i d prev next,
     sing_diff !! i = Some d → maps !! i = Some prev → maps !! S i = Some next →
     ∀ v t j, next !! v = Some (t, j) → comes_from prev d v j) →
  ∀ n remain sel m,
    (n ≤ length sing_diff)%nat →
    maps !! n = Some m → is_Some (m !! remain) →
    ∃ picks,
      backtrack n maps sing_diff remain sel = Ok (sel ++ picks, total_flow) ∧
      length picks = n ∧
      branch_sum (take n sing_diff) (reverse picks) = Ok (remain - total_flow).
Proof.
  intros Hlen H0 Hstep. induction n as [|n IH]; intros remain sel m Hn Hm [p Hp].
  - exists []. rewrite H0 in Hm. injection Hm as <-.
    apply lookup_singleton_Some in Hp as [<- _].
    rewrite app_nil_r. split_and!; [done..|]. simpl. f_equal. lia.
  - destruct (lookup_lt_is_Some_2 sing_diff n) as [d Hd]; [lia|].
    destruct (lookup_lt_is_Some_2 maps n) as [prev Hprev]; [lia|].
    destruct p as [t j].
    destruct (Hstep _ _ _ _ Hd Hprev Hm _ _ _ Hp) as (dj & Hdj & Hin).
    destruct (IH (remain - dj) (sel ++ [j]) prev ltac:(lia) Hprev Hin)
      as (picks & Hrun & Hl & Hsum).
    exists (j :: picks). split_and!.
    + cbn [backtrack]. rewrite (vget_of_lookup _ _ _ Hm), rbind_Ok_l, Hp.
      cbv zeta. cbn [default fst snd]. unfold id. cbn [fst snd]. rewrite (vget_of_lookup _ _ _ Hd), rbind_Ok_l, Hdj, rbind_Ok_l.
      rewrite Hrun. by rewrite <- app_assoc.
    + simpl. lia.
    + rewrite (take_S_r _ _ _ Hd), reverse_cons.
      rewrite (branch_sum_snoc _ _ _ _ _ _ Hsum Hdj). f_equal. lia.
Qed.

Lemma find_target_spec fuel last t0 t :
  find_target fuel last t0 = Ok t →
  ¬ (last !! t = None ∧ last !! (- t) = None) ∧
  ∃ k : nat, t = t0 + 2 * Z.of_nat k ∧
    ∀ k' : nat, (k' < k)%nat →
      last !! (t0 + 2 * Z.of_nat k') = None ∧ last !! (- (t0 + 2 * Z.of_nat k')) = None.
Proof.
  revert t0. induction fuel as [|fuel IH]; intros t0 H; [done|].
  cbn [find_target] in H. case_decide as Hc.
  - destruct (IH _ H) as (Hnot & k & -> & Hbefore). split; [done|].
    exists (S k). split; [lia|]. intros [|k'] Hk'.
    + by rewrite Z.add_0_r.
    + replace (t0 + 2 * Z.of_nat (S k')) with (t0 + 2 + 2 * Z.of_nat k') by lia.
      apply Hbefore. lia.
  - injection H as <-. split; [done|]. exists 0%nat. split; [lia|]. intros k' Hk'. lia.
Qed.

(** X12.  When the selection of lines 1220-1250 returns [target_flow] and
    [sing_selection]: one branch in [{0,1,2}] is chosen for every singular
    face, and [total_flow] plus the residuals [sing_diff[i][selection[i]]]
    of the chosen branches is exactly [target_flow]; [target_flow] is
    an even number [2k] or [-2k]. *)
Theorem select_branches_reach_target_flow
    (fuel : nat) (sing_diff : list Vector3i) (total_flow target_flow : Z)
    (sing_selection : list Z) :
  select_branches enumerate fuel sing_diff total_flow
    = Ok (target_flow, sing_selection) →
  length sing_selection = length sing_diff ∧
  (∃ k : nat, target_flow = 2 * Z.of_nat k ∨ target_flow = - (2 * Z.of_nat k)) ∧
  ∃ s, branch_sum sing_diff sing_selection = Ok s ∧ total_flow + s = target_flow.
Proof.
  intros H. unfold select_branches in H.
  apply rbind_Ok in H as (maps & Hmaps & H).
  apply rbind_Ok in H as (last & Hlast & H).
  apply rbind_Ok in H as (t & Ht & H). cbv zeta in H.
  apply rbind_Ok in H as ([sel r] & Hback & [= <- <-]).
  destruct (build_sing_maps_spec _ _ _ Hmaps) as (Hlen & H0 & Hstep).
  apply find_target_spec in Ht as (Hnot & k & -> & _).
  apply vget_lookup in Hlast. unfold vsize in Hlast. rewrite Hlen in Hlast.
  replace (Z.to_nat (Z.of_nat (S (length sing_diff)) - 1)) with (length sing_diff)
    in Hlast by lia.
  set (target := if decide (last !! (0 + 2 * Z.of_nat k) = None)
                 then - (0 + 2 * Z.of_nat k) else 0 + 2 * Z.of_nat k) in *.
  assert (is_Some (last !! target)) as Hin.
  { unfold target. case_decide as Hc.
    - destruct (last !! (- (0 + 2 * Z.of_nat k))) eqn:E; [eauto|]. by destruct Hnot.
    - destruct (last !! (0 + 2 * Z.of_nat k)); [eauto|done]. }
  destruct (backtrack_spec maps sing_diff total_flow Hlen H0 Hstep
              (length sing_diff) target [] last ltac:(lia) Hlast Hin)
    as (picks & Hrun & Hl & Hsum).
  rewrite Hback in Hrun. injection Hrun as -> ->. simpl.
  rewrite firstn_all in Hsum. split_and!.
  - by rewrite length_reverse.
  - exists k. unfold target. case_decide; [right|left]; lia.
  - exists (target - total_flow). split; [done|lia].
Qed.

End SingularityBranchesProps.

Lemma select_branches_reach_target_flow_witness :
  length [2; 0] = length [(3, -1, 1); (2, 5, -4)] ∧
  (∃ k : nat, 0 = 2 * Z.of_nat k ∨ 0 = - (2 * Z.of_nat k)) ∧
  ∃ s, branch_sum [(3, -1, 1); (2, 5, -4)] [2; 0] = Ok s ∧ -3 + s = 0.
Proof.
  apply (select_branches_reach_target_flow map_to_list
           (λ m k v, proj1 (elem_of_map_to_list m k v)) 10%nat
           [(3, -1, 1); (2, 5, -4)] (-3) 0 [2; 0]).
  vm_compute. reflexivity.
Defined.

Lemma set_erase_elem x v s : x ∈ set_erase v s ↔ x ∈ s ∧ x ≠ v.
Proof. unfold set_erase. rewrite list_elem_of_filter. tauto. Qed.

Lemma set_erase_idem v s : set_erase v (set_erase v s) = set_erase v s.
Proof.
  unfold set_erase. induction s as [|y s IH]; [done|].
  rewrite (filter_cons _ y s). case_decide; [|done].
  rewrite filter_cons, decide_True by done. by f_equal.
Qed.

Lemma unmarked_insert bad i :
  bad !! i = Some 0 → (unmarked (<[i:=1%Z]> bad) + 1 = unmarked bad)%nat.
Proof.
  unfold unmarked. revert i. induction bad as [|b bad IH]; intros [|i] H; try done.
  - injection H as ->. cbn [insert list_insert].
    rewrite !filter_cons. rewrite decide_False, decide_True by done. simpl. lia.
  - change (<[S i:=1]> (b :: bad)) with (b :: <[i:=1]> bad).
    simpl in H. specialize (IH i H).
    rewrite !filter_cons. destruct (decide (b = 0)); simpl; lia.
Qed.

Lemma vget_insert_cases {A} (v : list A) i j x :
  0 ≤ i < vsize v →
  vget (<[Z.to_nat i := x]> v) j = if decide (j = i) then Ok x else vget v j.
Proof.
  intros Hi. case_decide as E.
  - subst. by apply vget_insert_eq.
  - apply vget_insert_ne; [lia|done].
Qed.

Lemma peel_neighbor_inv v vertices bad_vertices badq visited vertices1 bad1 new v1 :
  peel_inner_inv v vertices bad_vertices visited vertices1 bad1 new →
  0 ≤ v1 < vsize vertices → length bad_vertices = length vertices → v1 ≠ v →
  ∃ vertices2 bad2 new2,
    peel_neighbor v v1 (vertices1, bad1, badq ++ new) = Ok (vertices2, bad2, badq ++ new2) ∧
    peel_inner_inv v vertices bad_vertices (visited ++ [v1]) vertices2 bad2 new2.
Proof.
  intros (Hl1 & Hl2 & Hvs & Hnew & Hold & Hnd & Hthree & Hcount) Hv1 Hlen Hne.
  unfold peel_neighbor. rewrite decide_False by done.
  destruct (vget_in_range vertices v1 Hv1) as [s Hs].
  rewrite (Hvs _ _ Hs), rbind_Ok_l.
  assert (Hs1 : set_erase v (if decide (v1 ∈ visited) then set_erase v s else s)
                = set_erase v s).
  { case_decide; [apply set_erase_idem|done]. }
  rewrite Hs1.
  assert (Hv1' : 0 ≤ v1 < vsize vertices1) by (unfold vsize in *; lia).
  rewrite (vset_in_range _ _ _ Hv1'), rbind_Ok_l.
  assert (Hv1b : 0 ≤ v1 < vsize bad1) by (unfold vsize in *; lia).
  destruct (vget_in_range bad1 v1 Hv1b) as [b Hb]. rewrite Hb, rbind_Ok_l.
  assert (Hvs' : ∀ w s0, vget vertices w = Ok s0 →
     vget (<[Z.to_nat v1 := set_erase v s]> vertices1) w
     = Ok (if decide (w ∈ visited ++ [v1]) then set_erase v s0 else s0)).
  { intros w s0 Hw. rewrite vget_insert_cases by done.
    destruct (decide (w = v1)) as [->|E].
    - rewrite decide_True by set_solver. congruence.
    - rewrite (Hvs _ _ Hw). f_equal.
      destruct (decide (w ∈ visited)), (decide (w ∈ visited ++ [v1])); set_solver. }
  destruct (decide (vsize (set_erase v s) < 3 ∧ b = 0)) as [[Hsz ->]|Hc].
  -
    rewrite (vset_in_range _ _ _ Hv1b), rbind_Ok_l.
    assert (Hnin : v1 ∉ new).
    { intros Hin. destruct (Hnew _ Hin) as [_ H1]. congruence. }
    exists (<[Z.to_nat v1 := set_erase v s]> vertices1), (<[Z.to_nat v1 := 1]> bad1),
      (new ++ [v1]).
    split; [by rewrite app_assoc|].
    split_and!.
    + by rewrite length_insert.
    + by rewrite length_insert.
    + done.
    + intros w [Hw| ->%list_elem_of_singleton]%elem_of_app.
      * destruct (Hnew _ Hw) as [H0 H1]. split; [done|].
        rewrite vget_insert_ne; [done|lia|]. intros ->. done.
      * split; [by rewrite <- Hold|]. by apply vget_insert_eq.
    + intros w Hw. rewrite vget_insert_ne; [|lia|set_solver]. apply Hold. set_solver.
    + apply NoDup_app. split_and!; [done|set_solver|apply NoDup_singleton].
    + intros w s0 Hw. rewrite !vget_insert_cases by done.
      destruct (decide (w = v1)) as [->|E]; [done|]. intros H0 Hs0.
      apply (Hthree w s0); [set_solver|done..].
    + rewrite length_app. simpl.
      pose proof (unmarked_insert bad1 (Z.to_nat v1) (vget_lookup _ _ _ Hb)). lia.
  - exists (<[Z.to_nat v1 := set_erase v s]> vertices1), bad1, new.
    split; [done|]. split_and!; try done.
    + by rewrite length_insert.
    + intros w s0 Hw Hb0. rewrite vget_insert_cases by done.
      destruct (decide (w = v1)) as [->|E].
      * intros [= <-]. apply Z.nlt_ge. intros Hlt. apply Hc.
        split; [done|congruence].
      * intros Hs0. apply (Hthree w s0); [set_solver|done..].
Qed.

Lemma peel_inner_spec v vertices bad_vertices badq nbrs :
  length bad_vertices = length vertices →
  Forall (λ x, 0 ≤ x < vsize vertices ∧ x ≠ v) nbrs →
  ∀ visited vertices1 bad1 new,
    peel_inner_inv v vertices bad_vertices visited vertices1 bad1 new →
    ∃ vertices2 bad2 new2,
      for_each nbrs (peel_neighbor v) (vertices1, bad1, badq ++ new)
      = Ok (vertices2, bad2, badq ++ new2) ∧
      peel_inner_inv v vertices bad_vertices (visited ++ nbrs) vertices2 bad2 new2.
Proof.
  intros Hlen. induction 1 as [|v1 nbrs [Hr Hne] Hall IH]; intros visited vs1 bad1 new I.
  - rewrite app_nil_r. by exists vs1, bad1, new.
  - destruct (peel_neighbor_inv v vertices bad_vertices badq visited vs1 bad1 new v1
                I Hr Hlen Hne) as (vs2 & bad2 & new2 & Hstep & I2).
    destruct (IH _ _ _ _ I2) as (vs3 & bad3 & new3 & Hrest & I3).
    exists vs3, bad3, new3. cbn [for_each]. rewrite Hstep, rbind_Ok_l.
    split; [done|]. by rewrite <- app_assoc in I3.
Qed.

Lemma adjacent_in_range vertices w x :
  adjacent vertices w x → 0 ≤ w < vsize vertices.
Proof. intros (s & Hs & _). by eapply vget_Ok_range. Qed.

Lemma peel_step_inv vertices0 vertices bad_vertices v badq :
  (∀ w x, adjacent vertices0 w x →
     0 ≤ x < vsize vertices0 ∧ x ≠ w ∧ adjacent vertices0 x w) →
  peel_inv vertices0 (vertices, bad_vertices, v :: badq) →
  ∃ nbrs vertices' bad' new,
    vget vertices v = Ok nbrs ∧
    for_each nbrs (peel_neighbor v) (vertices, bad_vertices, badq)
    = Ok (vertices', bad', badq ++ new) ∧
    peel_inv vertices0 (vertices', bad', badq ++ new) ∧
    (unmarked bad' + length new = unmarked bad_vertices)%nat.
Proof.
  intros Hsym (Hl1 & Hl2 & Hsub & Hbit & Hq & Hnd & Hthree & Hkeep & Hgone & Hsets).
  assert (Hv1 : vget bad_vertices v = Ok 1) by (apply Hq; left).
  assert (Hv : 0 ≤ v < vsize vertices).
  { apply vget_Ok_range in Hv1. unfold vsize in *. lia. }
  destruct (vget_in_range vertices v Hv) as [nbrs Hnbrs].
  assert (Hall : Forall (λ x, 0 ≤ x < vsize vertices ∧ x ≠ v) nbrs).
  { apply Forall_forall. intros x Hx.
    destruct (Hsym v x) as (Hr & Hne & _); [apply Hsub; by exists nbrs|].
    unfold vsize in *. split; [lia|done]. }
  destruct (peel_inner_spec v vertices bad_vertices badq nbrs ltac:(lia) Hall
              [] vertices bad_vertices [])
    as (vs' & bad' & new & Hrun & I).
  { unfold peel_inner_inv. split_and!.
    - done.
    - done.
    - intros w s Hs. by rewrite decide_False by set_solver.
    - intros w Hw. by apply elem_of_nil in Hw.
    - done.
    - apply NoDup_nil_2.
    - intros w s Hw. by apply elem_of_nil in Hw.
    - simpl. lia. }
  rewrite app_nil_r in Hrun. rewrite app_nil_l in I.
  destruct I as (Hl1' & Hl2' & Hvs & Hnew & Hold & Hndn & Hthree' & Hcount).
  exists nbrs, vs', bad', new. split_and!; try done.
  assert (HA : ∀ w x, adjacent vs' w x → adjacent vertices w x ∧ (w ∈ nbrs → x ≠ v)).
  { intros w x (s' & Hs' & Hx).
    assert (Hw : 0 ≤ w < vsize vertices).
    { apply vget_Ok_range in Hs'. unfold vsize in *. lia. }
    destruct (vget_in_range vertices w Hw) as [s Hs].
    rewrite (Hvs _ _ Hs) in Hs'. injection Hs' as <-.
    destruct (decide (w ∈ nbrs)) as [Hin|Hin].
    - apply set_erase_elem in Hx as [Hx Hne]. split; [by exists s|done].
    - split; [by exists s|done]. }
  assert (HB : ∀ w x, adjacent vertices w x → x ≠ v → adjacent vs' w x).
  { intros w x (s & Hs & Hx) Hne. eexists. split; [by apply Hvs|].
    case_decide; [by apply set_erase_elem|done]. }
  assert (Hnew0 : ∀ x, vget bad_vertices x = Ok 1 → x ∉ new).
  { intros x H1 Hin. destruct (Hnew _ Hin) as [H0 _]. congruence. }
  assert (HC : ∀ x, vget bad' x = Ok 1 ∧ x ∉ badq ++ new →
                    x = v ∨ (vget bad_vertices x = Ok 1 ∧ x ∉ v :: badq)).
  { intros x [H1 Hnin]. destruct (decide (x = v)) as [|Hne]; [by left|right].
    rewrite Hold in H1 by set_solver. split; [done|set_solver]. }
  assert (HD : ∀ x, vget bad_vertices x = Ok 1 ∧ x ∉ v :: badq →
                    vget bad' x = Ok 1 ∧ x ∉ badq ++ new).
  { intros x [H1 Hnin]. pose proof (Hnew0 _ H1). rewrite Hold by done.
    split; [done|set_solver]. }
  assert (Hvq : v ∉ badq) by (by apply NoDup_cons in Hnd as [? _]).
  assert (HE : vget bad' v = Ok 1 ∧ v ∉ badq ++ new).
  { pose proof (Hnew0 _ Hv1). rewrite Hold by done. split; [done|set_solver]. }
  unfold peel_inv. split_and!.
  - lia.
  - lia.
  - intros w x H. apply Hsub. by apply HA.
  - intros w Hw. destruct (decide (w ∈ new)) as [Hin|Hin].
    + right. by apply Hnew.
    + rewrite (Hold _ Hin). by apply Hbit.
  - intros w [Hw|Hw]%elem_of_app.
    + assert (H1 : vget bad_vertices w = Ok 1) by (apply Hq; by right).
      rewrite Hold; [done|by apply Hnew0].
    + by apply Hnew.
  - apply NoDup_app. split_and!; [by apply NoDup_cons in Hnd as [_ ?]| |done].
    intros x Hx Hx'. apply (Hnew0 x); [apply Hq; by right|done].
  - intros w s' H0 Hs'.
    assert (Hnin : w ∉ new).
    { intros Hin. destruct (Hnew _ Hin) as [_ H1]. congruence. }
    rewrite (Hold _ Hnin) in H0.
    assert (Hw : 0 ≤ w < vsize vertices).
    { apply vget_Ok_range in Hs'. unfold vsize in *. lia. }
    destruct (vget_in_range vertices w Hw) as [s Hs].
    destruct (decide (w ∈ nbrs)) as [Hin|Hin].
    + apply (Hthree' w s'); [done| |done]. by rewrite Hold.
    + rewrite (Hvs _ _ Hs), decide_False in Hs' by done. injection Hs' as <-.
      by apply (Hthree w s).
  - intros w x Hadj Hnd'. apply HB.
    + apply Hkeep; [done|]. intros Hd. apply Hnd'. by apply HD.
    + intros ->. by apply Hnd'.
  - intros w x Hdx Hndw Hadj. destruct (HA _ _ Hadj) as [Hadj0 Hin].
    assert (Hndw0 : ¬ (vget bad_vertices w = Ok 1 ∧ w ∉ v :: badq)).
    { intros Hd. apply Hndw. by apply HD. }
    destruct (HC _ Hdx) as [->|Hdx0].
    + apply Hin; [|done].
      destruct (Hsym w v (Hsub _ _ Hadj0)) as (_ & _ & Hback).
      destruct (Hkeep v w Hback Hndw0) as (s & Hs & Hws). congruence.
    + by apply (Hgone w x).
  - apply Forall_forall. intros s' Hs'.
    apply list_elem_of_lookup in Hs' as [k Hk].
    apply vget_of_lookup in Hk.
    assert (Hw : 0 ≤ Z.of_nat k < vsize vertices).
    { apply vget_Ok_range in Hk. unfold vsize in *. lia. }
    destruct (vget_in_range vertices _ Hw) as [s Hs].
    rewrite (Hvs _ _ Hs) in Hk. injection Hk as <-.
    assert (NoDup s).
    { rewrite Forall_forall in Hsets. apply Hsets.
      apply vget_lookup in Hs. by eapply list_elem_of_lookup_2. }
    case_decide; [by apply NoDup_filter|done].
Qed.

Lemma peel_spec vertices0 :
  (∀ w x, adjacent vertices0 w x →
     0 ≤ x < vsize vertices0 ∧ x ≠ w ∧ adjacent vertices0 x w) →
  ∀ fuel vertices bad_vertices badq,
    peel_inv vertices0 (vertices, bad_vertices, badq) →
    (length badq + unmarked bad_vertices < fuel)%nat →
    ∃ vertices' bad',
      peel fuel (vertices, bad_vertices, badq) = Ok (vertices', bad') ∧
      peel_inv vertices0 (vertices', bad', []).
Proof.
  intros Hsym. induction fuel as [|fuel IH]; intros vs bad q I Hfuel; [lia|].
  destruct q as [|v q]; [by exists vs, bad|].
  destruct (peel_step_inv _ _ _ _ _ Hsym I) as (nbrs & vs' & bad' & new & Hn & Hrun & I' & Hc).
  destruct (IH vs' bad' (q ++ new) I') as (vs2 & bad2 & Hpeel & I2).
  { rewrite length_app. simpl in Hfuel. lia. }
  exists vs2, bad2. split; [|done].
  cbn [peel]. by rewrite Hn, rbind_Ok_l, Hrun, rbind_Ok_l.
Qed.

Lemma unmarked_replicate n : unmarked (replicate n 0) = n.
Proof.
  unfold unmarked. induction n as [|n IH]; [done|].
  cbn [replicate]. rewrite filter_cons, decide_True by done. simpl. by rewrite IH.
Qed.

Lemma vget_replicate {A} n (x : A) i :
  0 ≤ i < Z.of_nat n → vget (replicate n x) i = Ok x.
Proof.
  intros Hi. unfold vget. rewrite decide_True by lia.
  by rewrite lookup_replicate_2 by lia.
Qed.

Lemma mark_loop_spec vertices k :
  (k ≤ length vertices)%nat →
  ∃ bad badq,
    for_loop k 0 (mark_low_valence vertices) (replicate (length vertices) 0, [])
    = Ok (bad, badq) ∧
    length bad = length vertices ∧
    (∀ w s, 0 ≤ w < Z.of_nat k → vget vertices w = Ok s →
       if decide (vsize s < 3) then vget bad w = Ok 1 ∧ w ∈ badq
       else vget bad w = Ok 0 ∧ w ∉ badq) ∧
    (∀ w, Z.of_nat k ≤ w < vsize vertices → vget bad w = Ok 0) ∧
    (∀ w, w ∈ badq → 0 ≤ w < Z.of_nat k) ∧
    NoDup badq ∧
    (length badq + unmarked bad = length vertices)%nat.
Proof.
  induction k as [|k IH]; intros Hk.
  - exists (replicate (length vertices) 0), []. split_and!.
    + done.
    + by rewrite length_replicate.
    + intros w s Hw. lia.
    + intros w Hw. apply vget_replicate. unfold vsize in Hw. lia.
    + intros w Hw. by apply elem_of_nil in Hw.
    + apply NoDup_nil_2.
    + by rewrite unmarked_replicate.
  - destruct IH as (bad & q & Hrun & Hlen & Hlow & Hhigh & Hq & Hnd & Hcount); [lia|].
    rewrite for_loop_snoc, Hrun, rbind_Ok_l, Z.add_0_l.
    assert (Hr : 0 ≤ Z.of_nat k < vsize vertices) by (unfold vsize; lia).
    destruct (vget_in_range vertices _ Hr) as [s Hs].
    assert (Hrb : 0 ≤ Z.of_nat k < vsize bad) by (unfold vsize in *; lia).
    unfold mark_low_valence. rewrite Hs, rbind_Ok_l.
    destruct (decide (vsize s < 3)) as [Hsz|Hsz].
    + rewrite (vset_in_range _ _ _ Hrb), rbind_Ok_l.
      exists (<[Z.to_nat (Z.of_nat k) := 1]> bad), (q ++ [Z.of_nat k]).
      assert (Hkq : Z.of_nat k ∉ q) by (intros Hin; apply Hq in Hin; lia).
      split_and!.
      * done.
      * by rewrite length_insert.
      * intros w s' Hw Hs'. rewrite vget_insert_cases by done.
        destruct (decide (w = Z.of_nat k)) as [->|Hne].
        -- assert (s' = s) as -> by congruence.
           rewrite decide_True by done. split; [done|set_solver].
        -- specialize (Hlow w s' ltac:(lia) Hs').
           destruct (decide (vsize s' < 3)); [set_solver|].
           split; [tauto|]. set_solver.
      * intros w Hw. rewrite vget_insert_ne by lia. apply Hhigh. lia.
      * intros w [Hw| ->%list_elem_of_singleton]%elem_of_app; [apply Hq in Hw|]; lia.
      * apply NoDup_app. split_and!; [done|set_solver|apply NoDup_singleton].
      * rewrite length_app. simpl.
        assert (H0 : bad !! Z.to_nat (Z.of_nat k) = Some 0).
        { apply vget_lookup, Hhigh. lia. }
        pose proof (unmarked_insert _ _ H0). lia.
    + exists bad, q. split_and!; try done.
      * intros w s' Hw Hs'. destruct (decide (w = Z.of_nat k)) as [->|Hne].
        -- assert (s' = s) as -> by congruence. rewrite decide_False by done.
           split; [apply Hhigh; lia|]. intros Hin. apply Hq in Hin. lia.
        -- apply Hlow; [lia|done].
      * intros w Hw. apply Hhigh. lia.
      * intros w Hw. apply Hq in Hw. lia.
Qed.

(** X13. [ComputeIndexMap]'s marking of low-valence vertices
    (lines 832-853).  On adjacency sets that are symmetric, without self
    loops and within range, the loop ends within the fuel of one round per
    vertex, and every vertex left unmarked keeps at least three neighbours:
    its final set is exactly its unmarked original neighbours. *)
Theorem extract_bad_vertices_leaves_valence_three (vertices : list (list Z)) :
  (∀ w x, adjacent vertices w x →
     0 ≤ x < vsize vertices ∧ x ≠ w ∧ adjacent vertices x w) →
  Forall NoDup vertices →
  ∃ vertices' bad_vertices,
    extract_bad_vertices vertices = Ok (vertices', bad_vertices) ∧
    length vertices' = length vertices ∧
    length bad_vertices = length vertices ∧
    ∀ w, 0 ≤ w < vsize vertices →
      (vget bad_vertices w = Ok 0 ∨ vget bad_vertices w = Ok 1) ∧
      (vget bad_vertices w = Ok 0 →
       ∃ s, vget vertices' w = Ok s ∧ NoDup s ∧ 3 ≤ vsize s ∧
            ∀ x, x ∈ s ↔ adjacent vertices w x ∧ vget bad_vertices x = Ok 0).
Proof.
  intros Hsym Hsets.
  destruct (mark_loop_spec vertices (length vertices) ltac:(lia))
    as (bad & q & Hrun & Hlen & Hlow & _ & Hq & Hnd & Hcount).
  assert (Hbit : ∀ w, 0 ≤ w < vsize vertices →
            (vget bad w = Ok 0 ∧ w ∉ q) ∨ (vget bad w = Ok 1 ∧ w ∈ q)).
  { intros w Hw. destruct (vget_in_range _ _ Hw) as [s Hs].
    specialize (Hlow w s Hw Hs). destruct (decide (vsize s < 3)); tauto. }
  assert (I : peel_inv vertices (vertices, bad, q)).
  { unfold peel_inv. split_and!; try done.
    - intros w Hw. destruct (Hbit w Hw); tauto.
    - intros w Hw. destruct (Hbit w) as [[_ ?]|[? _]]; [by apply Hq|done..].
    - intros w s H0 Hs. pose proof (vget_Ok_range _ _ _ Hs) as Hw.
      specialize (Hlow w s Hw Hs). destruct (decide (vsize s < 3)); [|lia].
      destruct Hlow. congruence.
    - intros w x [H1 Hnin]. pose proof (vget_Ok_range _ _ _ H1) as Hx.
      destruct (Hbit x) as [[? _]|[_ ?]]; [unfold vsize in *; lia|congruence|done]. }
  destruct (peel_spec vertices Hsym (S (length vertices)) vertices bad q I ltac:(lia))
    as (vs' & bad' & Hpeel & I').
  exists vs', bad'. unfold extract_bad_vertices. rewrite Hrun, rbind_Ok_l.
  split; [done|].
  destruct I' as (Hl1 & Hl2 & Hsub & Hbit' & _ & _ & Hthree & Hkeep & Hgone & Hsets').
  split_and!; [done..|]. intros w Hw. split; [by apply Hbit'|]. intros H0.
  assert (Hw' : 0 ≤ w < vsize vs') by (unfold vsize in *; lia).
  destruct (vget_in_range _ _ Hw') as [s Hs]. exists s. split_and!.
  - done.
  - rewrite Forall_forall in Hsets'. apply Hsets'.
    apply vget_lookup in Hs. by eapply list_elem_of_lookup_2.
  - by eapply Hthree.
  - intros x. split.
    + intros Hx. assert (Hadj : adjacent vs' w x) by (by exists s).
      split; [by apply Hsub|].
      destruct (Hsym w x (Hsub _ _ Hadj)) as (Hxr & _ & _).
      destruct (Hbit' x Hxr) as [|H1]; [done|]. exfalso.
      apply (Hgone w x); [split; [done|apply not_elem_of_nil]| |done].
      intros [H1' _]. congruence.
    + intros [Hadj Hx0]. destruct (Hkeep w x Hadj) as (s' & Hs' & Hin).
      * intros [H1 _]. congruence.
      * congruence.
Qed.

Lemma extract_bad_vertices_leaves_valence_three_witness :
  ∃ vertices' bad_vertices,
    extract_bad_vertices [[1;2;3]; [0;2;3]; [0;1;3]; [0;1;2;4]; [3]]
    = Ok (vertices', bad_vertices) ∧
    length vertices' = 5%nat ∧ length bad_vertices = 5%nat ∧
    ∀ w, 0 ≤ w < 5 →
      (vget bad_vertices w = Ok 0 ∨ vget bad_vertices w = Ok 1) ∧
      (vget bad_vertices w = Ok 0 →
       ∃ s, vget vertices' w = Ok s ∧ NoDup s ∧ 3 ≤ vsize s ∧
            ∀ x, x ∈ s ↔ adjacent [[1;2;3]; [0;2;3]; [0;1;3]; [0;1;2;4]; [3]] w x
                         ∧ vget bad_vertices x = Ok 0).
Proof.
  apply (extract_bad_vertices_leaves_valence_three
           [[1;2;3]; [0;2;3]; [0;1;3]; [0;1;2;4]; [3]]).
  - intros w x (s & Hs & Hx).
    assert (Hw : w = 0 ∨ w = 1 ∨ w = 2 ∨ w = 3 ∨ w = 4).
    { apply vget_Ok_range in Hs. unfold vsize in Hs. simpl in Hs. lia. }
    unfold adjacent, vsize.
    destruct_or!; subst w; injection Hs as <-; set_unfold in Hx; destruct_or!;
      subst x; (split_and!; [simpl; lia|simpl; lia|done|]);
      (eexists; split; [reflexivity|set_solver]).
  - repeat constructor; set_solver.
Defined.

Lemma adjacent_insert sets p s w x :
  0 ≤ p < vsize sets →
  adjacent (<[Z.to_nat p := s]> sets) w x ↔
  (w = p ∧ x ∈ s) ∨ (w ≠ p ∧ adjacent sets w x).
Proof.
  intros Hp. unfold adjacent. rewrite vget_insert_cases by done.
  destruct (decide (w = p)) as [->|Hne].
  - split.
    + intros (s' & [= <-] & Hx). by left.
    + intros [[_ Hx]|[? _]]; [by exists s|done].
  - split; [by right|]. by intros [[? _]|[_ ?]].
Qed.

Lemma link_spec p1 p2 sets :
  0 ≤ p1 < vsize sets → 0 ≤ p2 < vsize sets → p1 ≠ p2 →
  ∃ sets', link p1 p2 sets = Ok sets' ∧
    length sets' = length sets ∧
    (∀ w x, adjacent sets' w x ↔
            adjacent sets w x ∨ (w = p1 ∧ x = p2) ∨ (w = p2 ∧ x = p1)) ∧
    (Forall (StronglySorted Z.lt) sets → Forall (StronglySorted Z.lt) sets').
Proof.
  intros H1 H2 Hne. unfold link.
  destruct (vget_in_range sets p1 H1) as [s1 Hs1]. rewrite Hs1, rbind_Ok_l.
  rewrite (vset_in_range _ _ _ H1), rbind_Ok_l.
  rewrite vget_insert_ne by lia.
  destruct (vget_in_range sets p2 H2) as [s2 Hs2]. rewrite Hs2, rbind_Ok_l.
  assert (H2' : 0 ≤ p2 < vsize (<[Z.to_nat p1 := set_insert p2 s1]> sets)).
  { unfold vsize in *. by rewrite length_insert. }
  rewrite (vset_in_range _ _ _ H2'). eexists. split; [done|]. split_and!.
  - by rewrite !length_insert.
  - intros w x. rewrite !adjacent_insert by done.
    rewrite !set_insert_elem. unfold adjacent.
    destruct (decide (w = p1)) as [->|E1]; [|destruct (decide (w = p2)) as [->|E2]].
    + split.
      * intros [[? _]|[_ [[_ [->|Hx]]|[? _]]]]; try done; [by right; left|].
        left. by exists s1.
      * intros [(s & Hs & Hx)|[[_ ->]|[? _]]]; try done.
        -- right. split; [done|]. left. split; [done|]. right. congruence.
        -- right. split; [done|]. left. split; [done|]. by left.
    + split.
      * intros [[_ [->|Hx]]|[? _]]; try done; [by right; right|].
        left. by exists s2.
      * intros [(s & Hs & Hx)|[[? _]|[_ ->]]]; try done.
        -- left. split; [done|]. right. congruence.
        -- left. split; [done|]. by left.
    + split.
      * intros [[? _]|[_ [[? _]|[_ H]]]]; try done. by left.
      * intros [H|[[? _]|[? _]]]; try done. right. split; [done|]. by right.
  - intros Hs. apply Forall_insert; [apply Forall_insert; [done|]|].
    + apply set_insert_sorted. rewrite Forall_forall in Hs. apply Hs.
      apply vget_lookup in Hs1. by eapply list_elem_of_lookup_2.
    + apply set_insert_sorted. rewrite Forall_forall in Hs. apply Hs.
      apply vget_lookup in Hs2. by eapply list_elem_of_lookup_2.
Qed.

Lemma adjacent_replicate n w x : ¬ adjacent (replicate n []) w x.
Proof.
  intros (s & Hs & Hx). apply vget_lookup, lookup_replicate in Hs as [-> _].
  by apply elem_of_nil in Hx.
Qed.

Lemma exists_below_succ (P : Z → Prop) (k : nat) :
  (∃ i, 0 ≤ i < Z.of_nat (S k) ∧ P i) ↔
  (∃ i, 0 ≤ i < Z.of_nat k ∧ P i) ∨ P (Z.of_nat k).
Proof.
  split.
  - intros (i & Hi & HP). destruct (decide (i = Z.of_nat k)) as [->|Hne].
    + by right.
    + left. exists i. split; [lia|done].
  - intros [(i & Hi & HP)|HP].
    + exists i. split; [lia|done].
    + exists (Z.of_nat k). split; [lia|done].
Qed.

Section CompactGraphProps.
Variable Index : Z → Z.
Variable num_v : nat.
Variable edge_values : list (Z * Z).
Variable edge_diff : list Vector2i.
Hypothesis same_length : length edge_values = length edge_diff.
Hypothesis Index_range :
  Forall (λ ev, 0 ≤ Index ev.1 < Z.of_nat num_v ∧ 0 ≤ Index ev.2 < Z.of_nat num_v)
    edge_values.

Lemma joins_at b i ev d w x :
  vget edge_values i = Ok ev → vget edge_diff i = Ok d →
  joins Index b edge_values edge_diff i w x ↔
  (b = true → Z.abs d.1 + Z.abs d.2 = 1) ∧ w ≠ x ∧
  ((w = Index ev.1 ∧ x = Index ev.2) ∨ (w = Index ev.2 ∧ x = Index ev.1)).
Proof.
  intros Hev Hd. unfold joins. split.
  - intros (ev' & d' & Hev' & Hd' & H).
    rewrite Hev in Hev'. rewrite Hd in Hd'.
    injection Hev' as <-. injection Hd' as <-. exact H.
  - intros H. by exists ev, d.
Qed.

Lemma extract_graph_loop (k : nat) :
  (k ≤ length edge_diff)%nat →
  ∃ vertices complete_set,
    for_loop k 0 (graph_edge Index edge_values edge_diff)
      (replicate num_v [], replicate num_v []) = Ok (vertices, complete_set) ∧
    length vertices = num_v ∧ length complete_set = num_v ∧
    Forall (StronglySorted Z.lt) vertices ∧
    Forall (StronglySorted Z.lt) complete_set ∧
    (∀ w x, adjacent vertices w x ↔
       ∃ i, 0 ≤ i < Z.of_nat k ∧ joins Index true edge_values edge_diff i w x) ∧
    (∀ w x, adjacent complete_set w x ↔
       ∃ i, 0 ≤ i < Z.of_nat k ∧ joins Index false edge_values edge_diff i w x).
Proof.
  induction k as [|k IH]; intros Hk.
  - exists (replicate num_v []), (replicate num_v []). split_and!.
    + done.
    + by rewrite length_replicate.
    + by rewrite length_replicate.
    + apply Forall_replicate. constructor.
    + apply Forall_replicate. constructor.
    + intros w x. split; [by intros ?%adjacent_replicate|]. intros (i & Hi & _). lia.
    + intros w x. split; [by intros ?%adjacent_replicate|]. intros (i & Hi & _). lia.
  - destruct IH as (vs & cs & Hrun & Hl1 & Hl2 & Hs1 & Hs2 & Hvs & Hcs); [lia|].
    rewrite for_loop_snoc, Hrun, rbind_Ok_l, Z.add_0_l.
    assert (Hr1 : 0 ≤ Z.of_nat k < vsize edge_values) by (unfold vsize; lia).
    assert (Hr2 : 0 ≤ Z.of_nat k < vsize edge_diff) by (unfold vsize; lia).
    destruct (vget_in_range _ _ Hr1) as [ev Hev].
    destruct (vget_in_range _ _ Hr2) as [d Hd].
    assert (Hidx : 0 ≤ Index ev.1 < Z.of_nat num_v ∧ 0 ≤ Index ev.2 < Z.of_nat num_v).
    { rewrite Forall_forall in Index_range. apply Index_range.
      apply vget_lookup in Hev. by eapply list_elem_of_lookup_2. }
    destruct Hidx as [Hp1 Hp2].
    unfold graph_edge. rewrite Hev, rbind_Ok_l. cbv zeta.
    destruct (decide (Index ev.1 = Index ev.2)) as [Heq|Hne].
    { exists vs, cs. split_and!; try done.
      - intros w x. rewrite exists_below_succ, <- Hvs, (joins_at _ _ _ _ _ _ Hev Hd).
        split; [by left|]. intros [H|(_ & Hwx & [[-> ->]|[-> ->]])]; [done|..]; congruence.
      - intros w x. rewrite exists_below_succ, <- Hcs, (joins_at _ _ _ _ _ _ Hev Hd).
        split; [by left|]. intros [H|(_ & Hwx & [[-> ->]|[-> ->]])]; [done|..]; congruence. }
    destruct (link_spec (Index ev.1) (Index ev.2) cs) as (cs' & Hlc & Hlc' & Hadjc & Hsc);
      [unfold vsize; lia..|done|].
    rewrite Hlc, rbind_Ok_l, Hd, rbind_Ok_l.
    assert (Hcs' : ∀ w x, adjacent cs' w x ↔
       ∃ i, 0 ≤ i < Z.of_nat (S k) ∧ joins Index false edge_values edge_diff i w x).
    { intros w x. rewrite exists_below_succ, <- Hcs, (joins_at _ _ _ _ _ _ Hev Hd), Hadjc.
      split.
      - intros [H|H]; [by left|right]. split; [done|].
        split; [|done]. destruct H as [[-> ->]|[-> ->]]; congruence.
      - intros [H|(_ & _ & H)]; [by left|by right]. }
    destruct (decide (Z.abs d.1 + Z.abs d.2 = 1)) as [Hunit|Hunit].
    + destruct (link_spec (Index ev.1) (Index ev.2) vs) as (vs' & Hlv & Hlv' & Hadjv & Hsv);
        [unfold vsize; lia..|done|].
      rewrite Hlv, rbind_Ok_l. exists vs', cs'. split_and!; try done; [lia|lia|by apply Hsv|by apply Hsc|].
      intros w x. rewrite exists_below_succ, <- Hvs, (joins_at _ _ _ _ _ _ Hev Hd), Hadjv.
      split.
      * intros [H|H]; [by left|right]. split; [done|].
        split; [|done]. destruct H as [[-> ->]|[-> ->]]; congruence.
      * intros [H|(_ & _ & H)]; [by left|by right].
    + exists vs, cs'. split_and!; try done; [lia|by apply Hsc|].
      intros w x. rewrite exists_below_succ, <- Hvs, (joins_at _ _ _ _ _ _ Hev Hd).
      split; [by left|]. intros [H|(Hu & _)]; [done|]. by destruct Hunit; apply Hu.
Qed.

(** X14. The graph extraction of [ComputeIndexMap] (lines 818-829).
    With one value per edge and compact ids below [num_v], the loop
    succeeds, and two compact vertices are adjacent in [vertices] exactly
    when an edge of difference length one joins their distinct classes
    (in [complete_set]: any edge).  The sets are ordered, symmetric,
    without self loops and within range. *)
Theorem extract_graph_adjacency :
  ∃ vertices complete_set,
    extract_graph Index num_v edge_values edge_diff = Ok (vertices, complete_set) ∧
    length vertices = num_v ∧ length complete_set = num_v ∧
    Forall (StronglySorted Z.lt) vertices ∧
    Forall (StronglySorted Z.lt) complete_set ∧
    (∀ w x, adjacent vertices w x ↔
            ∃ i, joins Index true edge_values edge_diff i w x) ∧
    (∀ w x, adjacent complete_set w x ↔
            ∃ i, joins Index false edge_values edge_diff i w x) ∧
    (∀ w x, adjacent vertices w x →
            0 ≤ x < vsize vertices ∧ x ≠ w ∧ adjacent vertices x w).
Proof.
  destruct (extract_graph_loop (length edge_diff) ltac:(lia))
    as (vs & cs & Hrun & Hl1 & Hl2 & Hs1 & Hs2 & Hvs & Hcs).
  assert (Hall : ∀ b w x,
    (∃ i, 0 ≤ i < Z.of_nat (length edge_diff) ∧ joins Index b edge_values edge_diff i w x)
    ↔ ∃ i, joins Index b edge_values edge_diff i w x).
  { intros b w x. split; intros (i & H); [exists i; tauto|].
    exists i. split; [|done]. destruct H as (ev & d & _ & Hd & _).
    by apply vget_Ok_range in Hd. }
  exists vs, cs. split_and!; try done.
  - intros w x. by rewrite Hvs, Hall.
  - intros w x. by rewrite Hcs, Hall.
  - intros w x Hadj. pose proof Hadj as Hj.
    rewrite Hvs in Hj. destruct Hj as (i & Hi & ev & d & Hev & Hd & Hu & Hne & Hwx).
    assert (Hidx : 0 ≤ Index ev.1 < Z.of_nat num_v ∧ 0 ≤ Index ev.2 < Z.of_nat num_v).
    { rewrite Forall_forall in Index_range. apply Index_range.
      apply vget_lookup in Hev. by eapply list_elem_of_lookup_2. }
    split_and!.
    + destruct Hwx as [[_ ->]|[_ ->]]; lia.
    + unfold vsize. destruct Hwx as [[_ ->]|[_ ->]]; lia.
    + done.
    + apply Hvs. exists i. split; [done|]. exists ev, d. split_and!; try done. tauto.
Qed.
End CompactGraphProps.

Lemma extract_graph_adjacency_witness :
  ∃ vertices complete_set,
    extract_graph Z.pred 3 [(1, 2); (2, 3); (1, 3); (2, 2)] [(1, 0); (0, -1); (1, 1); (0, 0)]
    = Ok (vertices, complete_set) ∧
    length vertices = 3%nat ∧ length complete_set = 3%nat ∧
    Forall (StronglySorted Z.lt) vertices ∧
    Forall (StronglySorted Z.lt) complete_set ∧
    (∀ w x, adjacent vertices w x ↔
       ∃ i, joins Z.pred true [(1, 2); (2, 3); (1, 3); (2, 2)]
              [(1, 0); (0, -1); (1, 1); (0, 0)] i w x) ∧
    (∀ w x, adjacent complete_set w x ↔
       ∃ i, joins Z.pred false [(1, 2); (2, 3); (1, 3); (2, 2)]
              [(1, 0); (0, -1); (1, 1); (0, 0)] i w x) ∧
    (∀ w x, adjacent vertices w x →
       0 ≤ x < vsize vertices ∧ x ≠ w ∧ adjacent vertices x w).
Proof.
  apply (extract_graph_adjacency Z.pred 3 [(1, 2); (2, 3); (1, 3); (2, 2)]
           [(1, 0); (0, -1); (1, 1); (0, 0)]).
  - reflexivity.
  - repeat constructor; simpl; lia.
Defined.

Lemma unmarked_take_S bad k b :
  bad !! k = Some b →
  unmarked (take (S k) bad)
  = (unmarked (take k bad) + (if decide (b = 0%Z) then 1 else 0))%nat.
Proof.
  intros H. unfold unmarked. rewrite (take_S_r _ _ _ H), filter_app, length_app.
  rewrite filter_cons, filter_nil. by destruct (decide (b = 0)).
Qed.

Lemma unmarked_take_le bad (i : nat) :
  (unmarked (take i bad) ≤ unmarked bad)%nat.
Proof.
  unfold unmarked. revert i. induction bad as [|b bad IH]; intros [|i]; simpl; try lia.
  specialize (IH i). rewrite !filter_cons. destruct (decide (b = 0)); simpl; lia.
Qed.

Lemma unmarked_take_mono bad (i k : nat) :
  (i ≤ k)%nat → (unmarked (take i bad) ≤ unmarked (take k bad))%nat.
Proof.
  intros H. replace (take i bad) with (take i (take k bad)).
  - apply unmarked_take_le.
  - rewrite take_take. f_equal. lia.
Qed.

Lemma compact_answer_loop bad b0 (k : nat) :
  bad !! 0%nat = Some b0 →
  Forall (λ b, b = 0 ∨ b = 1) bad →
  (S k ≤ length bad)%nat →
  ∃ ca,
    for_loop k 1
      (λ i ca, prev ← vget ca (i - 1); b ← vget bad i; vset ca i (prev + (1 - b)))
      (<[0%nat := 1 - b0]> (replicate (length bad) 0)) = Ok ca ∧
    length ca = length bad ∧
    ∀ i, (i ≤ k)%nat → ca !! i = Some (Z.of_nat (unmarked (take (S i) bad))).
Proof.
  intros H0 Hbits. induction k as [|k IH]; intros Hk.
  - eexists. split; [done|]. split; [by rewrite length_insert, length_replicate|].
    intros i Hi. assert (i = 0%nat) as -> by lia.
    rewrite list_lookup_insert_eq by (rewrite length_replicate; lia).
    rewrite (unmarked_take_S _ _ _ H0). f_equal.
    rewrite Forall_forall in Hbits.
    destruct (Hbits b0) as [->| ->]; [by eapply list_elem_of_lookup_2|done..].
  - destruct IH as (ca & Hrun & Hlen & Hca); [lia|].
    rewrite for_loop_snoc, Hrun, rbind_Ok_l.
    replace (1 + Z.of_nat k - 1) with (Z.of_nat k) by lia.
    rewrite (vget_of_lookup _ _ _ (Hca k ltac:(lia))), rbind_Ok_l.
    destruct (lookup_lt_is_Some_2 bad (S k) ltac:(lia)) as [b Hb].
    replace (1 + Z.of_nat k) with (Z.of_nat (S k)) by lia.
    rewrite (vget_of_lookup _ _ _ Hb), rbind_Ok_l.
    rewrite vset_in_range by (unfold vsize; lia). rewrite Nat2Z.id.
    eexists. split; [done|]. split; [by rewrite length_insert|].
    intros i Hi. destruct (decide (i = S k)) as [->|Hne].
    + rewrite list_lookup_insert_eq by lia. f_equal.
      rewrite (unmarked_take_S _ (S k) _ Hb).
      rewrite Forall_forall in Hbits.
      destruct (Hbits b) as [->| ->]; [by eapply list_elem_of_lookup_2|..].
      * rewrite decide_True by done. lia.
      * rewrite decide_False by done. lia.
    + rewrite list_lookup_insert_ne by done. apply Hca. lia.
Qed.

Lemma vertex_lines_loop bad (k : nat) :
  (k ≤ length bad)%nat →
  ∃ out,
    for_loop k 0
      (λ i out, b ← vget bad i; if decide (b ≠ 0) then Ok out else Ok (out ++ [i]))
      [] = Ok out ∧
    length out = unmarked (take k bad) ∧
    ∀ i, (i < k)%nat → bad !! i = Some 0 →
         out !! (unmarked (take (S i) bad) - 1)%nat = Some (Z.of_nat i).
Proof.
  induction k as [|k IH]; intros Hk.
  - exists []. split; [done|]. split; [done|]. intros i Hi. lia.
  - destruct IH as (out & Hrun & Hlen & Hout); [lia|].
    rewrite for_loop_snoc, Hrun, rbind_Ok_l, Z.add_0_l.
    destruct (lookup_lt_is_Some_2 bad k ltac:(lia)) as [b Hb].
    rewrite (vget_of_lookup _ _ _ Hb), rbind_Ok_l.
    pose proof (unmarked_take_S _ _ _ Hb) as HS.
    destruct (decide (b ≠ 0)) as [Hne|Heq].
    + rewrite decide_False in HS by done.
      exists out. split; [done|]. split; [lia|].
      intros i Hi Hi0. apply Hout; [|done].
      destruct (decide (i = k)) as [->|]; [congruence|lia].
    + assert (b = 0) as -> by lia. rewrite decide_True in HS by done.
      exists (out ++ [Z.of_nat k]). split; [done|].
      split; [rewrite length_app; simpl; lia|].
      intros i Hi Hi0. destruct (decide (i = k)) as [->|Hik].
      * rewrite HS. replace (unmarked (take k bad) + 1 - 1)%nat with (length out) by lia.
        by rewrite list_lookup_middle.
      * pose proof (unmarked_take_S _ _ _ Hi0) as HSi.
        rewrite decide_True in HSi by done.
        pose proof (unmarked_take_mono bad (S i) k ltac:(lia)).
        rewrite lookup_app_l by lia. apply Hout; [lia|done].
Qed.

(** X15. The vertex numbering of [ExtractMesh] (lines 1983-1997).  For a
    non-empty [bad_vertices] of zeros and ones, [compact_answer] of a vertex
    that is not bad is the one-based number of its own [v] line, so a face
    line names the lines of its vertices. *)
Theorem compact_answer_numbers_vertex_lines (bad_vertices : list Z) :
  bad_vertices ≠ [] →
  Forall (λ b, b = 0 ∨ b = 1) bad_vertices →
  ∃ ca out,
    compact_answer bad_vertices = Ok ca ∧
    vertex_lines bad_vertices = Ok out ∧
    length ca = length bad_vertices ∧
    vsize out = Z.of_nat (unmarked bad_vertices) ∧
    ∀ i, vget bad_vertices i = Ok 0 →
         ∃ c, vget ca i = Ok c ∧ 1 ≤ c ∧ vget out (c - 1) = Ok i.
Proof.
  intros Hne Hbits.
  destruct bad_vertices as [|b0 bad] eqn:E; [done|]. rewrite <- E in *.
  assert (H0 : bad_vertices !! 0%nat = Some b0) by (by rewrite E).
  assert (Hlen : (1 ≤ length bad_vertices)%nat) by (rewrite E; simpl; lia).
  destruct (compact_answer_loop bad_vertices b0 (length bad_vertices - 1) H0 Hbits
              ltac:(lia)) as (ca & Hca & Hlca & Hcai).
  destruct (vertex_lines_loop bad_vertices (length bad_vertices) ltac:(lia))
    as (out & Hout & Hlout & Houti).
  exists ca, out. split_and!.
  - assert (Hg : vget bad_vertices 0 = Ok b0) by exact (vget_of_lookup _ 0%nat _ H0).
    unfold compact_answer. rewrite Hg, rbind_Ok_l.
    rewrite vset_in_range by (unfold vsize; rewrite length_replicate; lia).
    by rewrite rbind_Ok_l.
  - done.
  - done.
  - unfold vsize. by rewrite Hlout, firstn_all.
  - intros i Hi. pose proof (vget_Ok_range _ _ _ Hi) as Hr. unfold vsize in Hr.
    apply vget_lookup in Hi.
    exists (Z.of_nat (unmarked (take (S (Z.to_nat i)) bad_vertices))).
    pose proof (unmarked_take_S _ _ _ Hi) as HS. rewrite decide_True in HS by done.
    split_and!.
    + replace i with (Z.of_nat (Z.to_nat i)) at 1 by lia.
      apply vget_of_lookup, Hcai. lia.
    + lia.
    + replace (Z.of_nat (unmarked (take (S (Z.to_nat i)) bad_vertices)) - 1)
        with (Z.of_nat (unmarked (take (S (Z.to_nat i)) bad_vertices) - 1)%nat) by lia.
      replace i with (Z.of_nat (Z.to_nat i)) at 2 by lia.
      apply vget_of_lookup, Houti; [lia|done].
Qed.

Lemma compact_answer_numbers_vertex_lines_witness :
  ∃ ca out,
    compact_answer [0; 1; 0; 0; 1] = Ok ca ∧
    vertex_lines [0; 1; 0; 0; 1] = Ok out ∧
    length ca = 5%nat ∧
    vsize out = 3 ∧
    ∀ i, vget [0; 1; 0; 0; 1] i = Ok 0 →
         ∃ c, vget ca i = Ok c ∧ 1 ≤ c ∧ vget out (c - 1) = Ok i.
Proof.
  apply (compact_answer_numbers_vertex_lines [0; 1; 0; 0; 1]).
  - discriminate.
  - repeat constructor; lia.
Defined.

Lemma v3_get_in_range (a : Vector3i) j : 0 ≤ j < 3 → ∃ x, v3_get a j = Ok x.
Proof.
  intros Hj. unfold v3_get. repeat case_decide; eauto. lia.
Qed.

Lemma corner_edge_det F face_edgeIds i j v0 v1 eid v0' v1' eid' :
  corner_edge F face_edgeIds i j v0 v1 eid →
  corner_edge F face_edgeIds i j v0' v1' eid' →
  v0 = v0' ∧ v1 = v1' ∧ eid = eid'.
Proof.
  intros (_ & col & ids & H1 & H2 & H3 & H4 & H5)
         (_ & col' & ids' & H1' & H2' & H3' & H4' & H5').
  rewrite H1 in H1'. injection H1' as <-. rewrite H4 in H4'. injection H4' as <-.
  rewrite H2 in H2'. rewrite H3 in H3'. rewrite H5 in H5'.
  split_and!; congruence.
Qed.

Section VerticesToEdges.
Variable num_vertices : nat.
Variable F face_edgeIds : list Vector3i.
Hypothesis same_length : length face_edgeIds = length F.
Hypothesis F_in_range :
  Forall (λ col : Vector3i,
            0 ≤ col.1.1 < Z.of_nat num_vertices ∧
            0 ≤ col.1.2 < Z.of_nat num_vertices ∧
            0 ≤ col.2 < Z.of_nat num_vertices) F.

Lemma corner_edge_range i j v0 v1 eid :
  corner_edge F face_edgeIds i j v0 v1 eid → 0 ≤ v0 < Z.of_nat num_vertices.
Proof.
  intros (_ & col & ids & Hcol & Hv0 & _).
  rewrite Forall_forall in F_in_range.
  destruct (F_in_range col) as (H0 & H1 & H2).
  { apply vget_lookup in Hcol. by eapply list_elem_of_lookup_2. }
  unfold v3_get in Hv0. repeat case_decide; simplify_eq; done.
Qed.

Lemma vertices_to_edges_corner_inv i j vte :
  0 ≤ i < vsize F → 0 ≤ j < 3 →
  vte_inv num_vertices F face_edgeIds (3 * i + j) vte →
  ∃ vte', vertices_to_edges_corner F face_edgeIds i j vte = Ok vte' ∧
          vte_inv num_vertices F face_edgeIds (3 * i + j + 1) vte'.
Proof.
  intros Hi Hj (Hlen & Hsome & Hnone).
  destruct (vget_in_range F i Hi) as [col Hcol].
  destruct (v3_get_in_range col j Hj) as [v0 Hv0].
  destruct (v3_get_in_range col (Z.rem (j + 1) 3)) as [v1 Hv1].
  { pose proof (Z.rem_bound_pos (j + 1) 3). lia. }
  destruct (vget_in_range face_edgeIds i) as [ids Hids].
  { unfold vsize in *. lia. }
  destruct (v3_get_in_range ids j Hj) as [eid Heid].
  assert (Hc : corner_edge F face_edgeIds i j v0 v1 eid).
  { split; [done|]. by exists col, ids. }
  assert (Hr : 0 ≤ v0 < vsize vte).
  { unfold vsize. rewrite Hlen. by eapply corner_edge_range. }
  destruct (vget_in_range vte v0 Hr) as [m Hm].
  unfold vertices_to_edges_corner.
  rewrite Hcol, rbind_Ok_l, Hv0, rbind_Ok_l, Hv1, rbind_Ok_l, Hids, rbind_Ok_l,
    Heid, rbind_Ok_l, Hm, rbind_Ok_l, (vset_in_range _ _ _ Hr).
  eexists. split; [done|]. split_and!.
  - by rewrite length_insert.
  - intros w0 m' w1 l. rewrite vget_insert_cases by done.
    destruct (decide (w0 = v0)) as [->|Hne]; [|by apply Hsome].
    intros [= <-]. destruct (m !! v1) as [l0|] eqn:E; [by apply Hsome|].
    destruct (decide (w1 = v1)) as [->|Hne1].
    + rewrite lookup_insert_eq. intros [= <-]. exists i, j, eid.
      split_and!; [done..|]. intros i' j' eid' Hc'.
      by apply (Hnone v0 m v1 Hm E i' j' eid').
    + rewrite lookup_insert_ne by done. by apply Hsome.
  - intros w0 m' w1. rewrite vget_insert_cases by done.
    destruct (decide (w0 = v0)) as [->|Hne].
    + intros [= <-]. destruct (m !! v1) as [l0|] eqn:E.
      * intros Hw1 i' j' eid' Hc'.
        pose proof (Hnone v0 m w1 Hm Hw1 i' j' eid' Hc') as Hge.
        destruct (decide (3 * i' + j' = 3 * i + j)) as [Heq|]; [|lia].
        destruct Hc' as [Hj' Hc'']. assert (i' = i ∧ j' = j) as [-> ->] by lia.
        destruct (corner_edge_det _ _ _ _ _ _ _ _ _ _ Hc (conj Hj' Hc''))
          as (_ & -> & _). congruence.
      * destruct (decide (w1 = v1)) as [->|Hne1].
        { by rewrite lookup_insert_eq. }
        rewrite lookup_insert_ne by done. intros Hw1 i' j' eid' Hc'.
        pose proof (Hnone v0 m w1 Hm Hw1 i' j' eid' Hc') as Hge.
        destruct (decide (3 * i' + j' = 3 * i + j)) as [Heq|]; [|lia].
        destruct Hc' as [Hj' Hc'']. assert (i' = i ∧ j' = j) as [-> ->] by lia.
        destruct (corner_edge_det _ _ _ _ _ _ _ _ _ _ Hc (conj Hj' Hc''))
          as (_ & -> & _). done.
    + intros Hm' Hw1 i' j' eid' Hc'.
      pose proof (Hnone w0 m' w1 Hm' Hw1 i' j' eid' Hc') as Hge.
      destruct (decide (3 * i' + j' = 3 * i + j)) as [Heq|]; [|lia].
      destruct Hc' as [Hj' Hc'']. assert (i' = i ∧ j' = j) as [-> ->] by lia.
      destruct (corner_edge_det _ _ _ _ _ _ _ _ _ _ Hc (conj Hj' Hc''))
        as (-> & _ & _). done.
Qed.

Lemma vertices_to_edges_loop (k : nat) :
  (k ≤ length F)%nat →
  ∃ vte,
    for_loop k 0 (λ i, for_loop 3 0 (vertices_to_edges_corner F face_edgeIds i))
      (replicate num_vertices ∅) = Ok vte ∧
    vte_inv num_vertices F face_edgeIds (3 * Z.of_nat k) vte.
Proof.
  induction k as [|k IH]; intros Hk.
  - eexists. split; [done|]. split_and!.
    + by rewrite length_replicate.
    + intros v0 m v1 l Hm. apply vget_lookup, lookup_replicate in Hm as [-> _].
      by rewrite lookup_empty.
    + intros v0 m v1 _ _ i j eid (Hj & col & ids & Hcol & _).
      apply vget_Ok_range in Hcol. lia.
  - destruct IH as (vte & Hrun & I); [lia|].
    rewrite for_loop_snoc, Hrun, rbind_Ok_l, Z.add_0_l.
    assert (Hi : 0 ≤ Z.of_nat k < vsize F) by (unfold vsize; lia).
    replace (3 * Z.of_nat k) with (3 * Z.of_nat k + 0) in I by lia.
    destruct (vertices_to_edges_corner_inv _ 0 _ Hi ltac:(lia) I) as (vte1 & H1 & I1).
    replace (3 * Z.of_nat k + 0 + 1) with (3 * Z.of_nat k + 1) in I1 by lia.
    destruct (vertices_to_edges_corner_inv _ 1 _ Hi ltac:(lia) I1) as (vte2 & H2 & I2).
    replace (3 * Z.of_nat k + 1 + 1) with (3 * Z.of_nat k + 2) in I2 by lia.
    destruct (vertices_to_edges_corner_inv _ 2 _ Hi ltac:(lia) I2) as (vte3 & H3 & I3).
    exists vte3. cbn [for_loop].
    rewrite H1, rbind_Ok_l. change (0 + 1) with 1. rewrite H2, rbind_Ok_l.
    change (1 + 1) with 2. rewrite H3, rbind_Ok_l. split; [done|].
    by replace (3 * Z.of_nat (S k)) with (3 * Z.of_nat k + 2 + 1) by lia.
Qed.

(** X16. The table [vertices_to_edges] that [FixFlipAdvance] starts from
    (lines 1456-1466).  With edge ids for every face and corners below
    the number of vertices, the loops succeed; the map of [v0] has an
    entry for [v1] exactly when some corner runs from [v0] to [v1], and
    the entry is the one-element list of the edge of the first such
    corner: later corners on the same directed edge are not recorded. *)
Theorem init_vertices_to_edges_keeps_first_corner :
  ∃ vte,
    init_vertices_to_edges num_vertices F face_edgeIds = Ok vte ∧
    length vte = num_vertices ∧
    ∀ v0 m v1, vget vte v0 = Ok m →
      (m !! v1 = None ↔ ∀ i j eid, ¬ corner_edge F face_edgeIds i j v0 v1 eid) ∧
      (∀ l, m !! v1 = Some l →
         ∃ i j eid, corner_edge F face_edgeIds i j v0 v1 eid ∧ l = [eid] ∧
           ∀ i' j' eid', corner_edge F face_edgeIds i' j' v0 v1 eid' →
                         3 * i + j ≤ 3 * i' + j').
Proof.
  destruct (vertices_to_edges_loop (length F) ltac:(lia))
    as (vte & Hrun & Hlen & Hsome & Hnone).
  exists vte. split_and!; [done..|]. intros v0 m v1 Hm. split; [split|].
  - intros E i j eid Hc. pose proof (Hnone _ _ _ Hm E _ _ _ Hc) as Hge.
    destruct Hc as (Hj & col & ids & Hcol & _).
    apply vget_Ok_range in Hcol. unfold vsize in Hcol. lia.
  - intros Hno. destruct (m !! v1) as [l|] eqn:E; [|done].
    destruct (Hsome _ _ _ _ Hm E) as (i & j & eid & Hc & _). by destruct (Hno i j eid).
  - intros l E. by apply (Hsome _ _ _ _ Hm E).
Qed.
End VerticesToEdges.

Lemma init_vertices_to_edges_keeps_first_corner_witness :
  ∃ vte,
    init_vertices_to_edges 4 [(0, 1, 2); (0, 2, 3); (0, 1, 3)] [(0, 1, 2); (2, 3, 4); (5, 6, 4)]
    = Ok vte ∧
    length vte = 4%nat ∧
    ∀ v0 m v1, vget vte v0 = Ok m →
      (m !! v1 = None ↔
       ∀ i j eid, ¬ corner_edge [(0, 1, 2); (0, 2, 3); (0, 1, 3)]
                      [(0, 1, 2); (2, 3, 4); (5, 6, 4)] i j v0 v1 eid) ∧
      (∀ l, m !! v1 = Some l →
         ∃ i j eid, corner_edge [(0, 1, 2); (0, 2, 3); (0, 1, 3)]
                      [(0, 1, 2); (2, 3, 4); (5, 6, 4)] i j v0 v1 eid ∧ l = [eid] ∧
           ∀ i' j' eid', corner_edge [(0, 1, 2); (0, 2, 3); (0, 1, 3)]
                           [(0, 1, 2); (2, 3, 4); (5, 6, 4)] i' j' v0 v1 eid' →
                         3 * i + j ≤ 3 * i' + j').
Proof.
  apply (init_vertices_to_edges_keeps_first_corner 4
           [(0, 1, 2); (0, 2, 3); (0, 1, 3)] [(0, 1, 2); (2, 3, 4); (5, 6, 4)]).
  - reflexivity.
  - repeat constructor; simpl; lia.
Defined.

Lemma corner_number i j :
  0 ≤ i → 0 ≤ j < 3 → Z.quot (i * 3 + j) 3 = i ∧ Z.rem (i * 3 + j) 3 = j.
Proof.
  intros Hi Hj.
  pose proof (Z.quot_rem' (i * 3 + j) 3) as Hqr.
  pose proof (Z.rem_bound_pos (i * 3 + j) 3 ltac:(lia) ltac:(lia)) as Hb.
  lia.
Qed.

Lemma corner_split c :
  0 ≤ c → c = Z.quot c 3 * 3 + Z.rem c 3 ∧ 0 ≤ Z.quot c 3 ∧ 0 ≤ Z.rem c 3 < 3.
Proof.
  intros Hc.
  pose proof (Z.quot_rem' c 3) as Hqr.
  pose proof (Z.rem_bound_pos c 3 ltac:(lia) ltac:(lia)) as Hb.
  pose proof (Z.quot_pos c 3 ltac:(lia) ltac:(lia)). lia.
Qed.

Lemma v3_get_set (a : Vector3i) j x :
  0 ≤ j < 3 →
  ∃ a', v3_set a j x = Ok a' ∧
        ∀ k, v3_get a' k = if decide (k = j) then Ok x else v3_get a k.
Proof.
  intros Hj. assert (j = 0 ∨ j = 1 ∨ j = 2) as Hcases by lia.
  destruct_or!; subst j; (eexists; split; [reflexivity|]); intros k;
    unfold v3_get; cbn [fst snd]; repeat case_decide; try lia; done.
Qed.

Lemma set_corner_spec (ids : list Vector3i) i j x :
  0 ≤ i < vsize ids → 0 ≤ j < 3 →
  ∃ own own', vget ids i = Ok own ∧ v3_set own j x = Ok own' ∧
    ∀ c', 0 ≤ c' →
      corner_id (<[Z.to_nat i := own']> ids) c'
      = if decide (c' = i * 3 + j) then Ok x else corner_id ids c'.
Proof.
  intros Hi Hj. destruct (vget_in_range ids i Hi) as [own Hown].
  destruct (v3_get_set own j x Hj) as (own' & Hset & Hget).
  exists own, own'. split_and!; [done..|]. intros c' Hc'.
  destruct (corner_split c' Hc') as (Hc & Hq & Hr).
  destruct (corner_number i j ltac:(lia) Hj) as [Hqi Hri].
  unfold corner_id. rewrite vget_insert_cases by done.
  destruct (decide (Z.quot c' 3 = i)) as [Hqe|Hqe].
  - rewrite rbind_Ok_l, Hget. rewrite Hqe, Hown, rbind_Ok_l.
    destruct (decide (Z.rem c' 3 = j)), (decide (c' = i * 3 + j)); try done; lia.
  - rewrite decide_False; [done|]. intros ->. lia.
Qed.

Lemma vget_app_l {A} (l l' : list A) i x :
  vget l i = Ok x → vget (l ++ l') i = Ok x.
Proof.
  intros H. pose proof (vget_Ok_range _ _ _ H) as Hr. apply vget_lookup in H.
  unfold vget. rewrite decide_True by lia. by rewrite lookup_app_l_Some with (x := x).
Qed.

Lemma vget_app_last {A} (l : list A) x : vget (l ++ [x]) (vsize l) = Ok x.
Proof.
  unfold vget, vsize. rewrite decide_True by lia.
  by rewrite Nat2Z.id, list_lookup_middle.
Qed.

Section EdgeInfoProps.
Variable F pos_rank : list Vector3i.
Variable pos_index : list (list Z).
Variable E2E : list Z.
Variable singularities : gmap Z Z.
Hypothesis rank_length : length pos_rank = length F.
Hypothesis index_length : length pos_index = length F.
Hypothesis index_rows : Forall (λ col, length col = 6%nat) pos_index.
Hypothesis opposite :
  ∀ c, 0 ≤ c < 3 * Z.of_nat (length F) →
    ∃ o, vget E2E c = Ok o ∧ 0 ≤ o < 3 * Z.of_nat (length F) ∧
         vget E2E o = Ok c ∧ corner_DEdge F o = corner_DEdge F c.

Lemma BuildEdgeInfo_corner_inv i j st :
  0 ≤ i < vsize F → 0 ≤ j < 3 →
  edge_info_inv F E2E (3 * i + j) st →
  ∃ st', BuildEdgeInfo_corner F pos_rank pos_index E2E singularities i j st = Ok st' ∧
         edge_info_inv F E2E (3 * i + j + 1) st'.
Proof.
  intros Hi Hj (Hlen & Hlids & Hval & Hshare & Hdone).
  destruct st as [ev ed ids]. cbn [edge_values edge_diff face_edgeIds] in *.
  unfold vsize in Hi.
  destruct (corner_number i j ltac:(lia) Hj) as [Hqi Hri].
  assert (Hc : 0 ≤ i * 3 + j < 3 * Z.of_nat (length F)) by lia.
  destruct (vget_in_range F i) as [Fi HFi]; [unfold vsize; lia|].
  destruct (v3_get_in_range Fi j Hj) as [v1 Hv1].
  assert (Hj2 : 0 ≤ Z.rem (j + 1) 3 < 3).
  { pose proof (Z.rem_bound_pos (j + 1) 3). lia. }
  destruct (v3_get_in_range Fi _ Hj2) as [v2 Hv2].
  assert (He2 : corner_DEdge F (i * 3 + j) = Ok (DEdge v1 v2)).
  { unfold corner_DEdge. by rewrite Hqi, Hri, HFi, rbind_Ok_l, Hv1, rbind_Ok_l, Hv2. }
  destruct (vget_in_range pos_rank i) as [ranks Hranks]; [unfold vsize; lia|].
  destruct (vget_in_range pos_index i) as [idx Hidx]; [unfold vsize; lia|].
  assert (Hidx6 : length idx = 6%nat).
  { rewrite Forall_forall in index_rows. apply index_rows.
    apply vget_lookup in Hidx. by eapply list_elem_of_lookup_2. }
  destruct (vget_in_range idx (j * 2)) as [px Hpx]; [unfold vsize; lia|].
  destruct (vget_in_range idx (j * 2 + 1)) as [py Hpy]; [unfold vsize; lia|].
  destruct (v3_get_in_range ranks j Hj) as [r1 Hr1].
  destruct (v3_get_in_range ranks _ Hj2) as [r2 Hr2].
  destruct (opposite _ Hc) as (o & Ho & Hor & Hoc & Hoe).
  destruct (Hval o Hor) as (x & Hx & Hxv).
  pose proof Hx as Hx'. unfold corner_id in Hx'.
  apply rbind_Ok in Hx' as (row & Hrow & Hrowx).
  unfold BuildEdgeInfo_corner. cbv zeta. cbn [edge_values edge_diff face_edgeIds].
  rewrite HFi, rbind_Ok_l, Hv1, rbind_Ok_l, Hv2, rbind_Ok_l, Hranks, rbind_Ok_l,
    Hidx, rbind_Ok_l, Hpx, rbind_Ok_l, Hpy, rbind_Ok_l.
  assert (Hdiff : ∃ diff2,
    (if decide (v1 > v2)
     then v3_get ranks (Z.rem (j + 1) 3) ≫= λ rank2, Ok (rshift90 (- px, - py) rank2)
     else v3_get ranks j ≫= λ rank2, Ok (rshift90 (px, py) rank2)) = Ok diff2).
  { case_decide; [rewrite Hr2|rewrite Hr1]; eauto. }
  destruct Hdiff as [diff2 ->]. rewrite rbind_Ok_l, Ho, rbind_Ok_l, Hrow, rbind_Ok_l,
    Hrowx, rbind_Ok_l.
  destruct (decide (x = -1)) as [->|Hx1].
  - destruct (set_corner_spec ids i j (vsize ev)) as (own & own' & Hown & Hown' & Hids1);
      [unfold vsize; lia|done|].
    rewrite Hown, rbind_Ok_l, Hown', rbind_Ok_l.
    rewrite vset_in_range by (unfold vsize; lia). rewrite rbind_Ok_l.
    rewrite decide_True by lia.
    destruct (corner_split o ltac:(lia)) as (Hosplit & Hoq & Horem).
    destruct (set_corner_spec (<[Z.to_nat i := own']> ids) (Z.quot o 3) (Z.rem o 3)
                (vsize ev)) as (opp & opp' & Hopp & Hopp' & Hids2);
      [unfold vsize; rewrite length_insert; lia|done|].
    rewrite Hopp, rbind_Ok_l, Hopp', rbind_Ok_l.
    rewrite vset_in_range by (unfold vsize; rewrite length_insert; lia).
    rewrite rbind_Ok_l. eexists. split; [done|].
    assert (Hid : ∀ c', 0 ≤ c' →
      corner_id (<[Z.to_nat (Z.quot o 3) := opp']> (<[Z.to_nat i := own']> ids)) c'
      = if decide (c' = o ∨ c' = i * 3 + j) then Ok (vsize ev) else corner_id ids c').
    { intros c' Hc'. rewrite Hids2, Hids1, <- Hosplit by done.
      destruct (decide (c' = o)), (decide (c' = i * 3 + j)),
        (decide (c' = o ∨ c' = i * 3 + j)); try done; tauto. }
    unfold edge_info_inv. cbn [edge_values edge_diff face_edgeIds].
    split_and!.
    + by rewrite !length_app, Hlen.
    + by rewrite !length_insert.
    + intros c' Hc'. rewrite Hid by lia.
      destruct (decide (c' = o ∨ c' = i * 3 + j)) as [Hcase|Hcase].
      * exists (vsize ev). split; [done|]. right. exists (DEdge v1 v2).
        split; [|apply vget_app_last].
        destruct Hcase as [-> | ->]; [by rewrite Hoe|exact He2].
      * destruct (Hval c' Hc') as (x' & Hx' & Hx'v). exists x'. split; [done|].
        destruct Hx'v as [->|(e & He & Hev)]; [by left|right].
        exists e. split; [done|]. by apply vget_app_l.
    + intros c' x' o' Hc' Hx' Hne Ho'.
      destruct (opposite _ Hc') as (o'' & Ho'' & Hor' & Hoc' & _).
      rewrite Ho' in Ho''. injection Ho'' as <-.
      rewrite Hid in Hx' by lia. rewrite Hid by lia.
      destruct (decide (c' = o ∨ c' = i * 3 + j)) as [Hcase|Hcase].
      * rewrite decide_True; [done|]. destruct Hcase as [-> | ->].
        -- right. congruence.
        -- left. congruence.
      * rewrite decide_False; [by apply (Hshare c' x' o')|].
        intros [-> | ->]; apply Hcase.
        -- right. congruence.
        -- left. congruence.
    + intros c' Hc'. rewrite Hid by lia.
      destruct (decide (c' = o ∨ c' = i * 3 + j)) as [Hcase|Hcase].
      * intros [= Hsz]. unfold vsize in Hsz. lia.
      * apply Hdone. lia.
  - assert (Hown : corner_id ids (i * 3 + j) = Ok x) by (by apply (Hshare o x (i * 3 + j))).
    assert (Hdone' : ∀ c', 0 ≤ c' < 3 * i + j + 1 → corner_id ids c' ≠ Ok (-1)).
    { intros c' Hc'. destruct (decide (c' = i * 3 + j)) as [->|Hne].
      - rewrite Hown. congruence.
      - apply Hdone. lia. }
    destruct (decide (singularities !! i = None)) as [Hs|Hs].
    + destruct Hxv as [?|(e & _ & Hev)]; [done|].
      apply vget_Ok_range in Hev.
      rewrite vset_in_range by (unfold vsize in *; lia). rewrite rbind_Ok_l.
      eexists. split; [done|].
      unfold edge_info_inv. cbn [edge_values edge_diff face_edgeIds].
      split_and!; [by rewrite length_insert|done..].
    + eexists. split; [done|].
      unfold edge_info_inv. cbn [edge_values edge_diff face_edgeIds]. done.
Qed.

Lemma BuildEdgeInfo_loop (k : nat) :
  (k ≤ length F)%nat →
  ∃ st,
    for_loop k 0
      (λ i, for_loop 3 0
              (BuildEdgeInfo_corner F pos_rank pos_index E2E singularities i))
      {| edge_values := []; edge_diff := [];
         face_edgeIds := replicate (length F) (-1, -1, -1) |} = Ok st ∧
    edge_info_inv F E2E (3 * Z.of_nat k) st.
Proof.
  induction k as [|k IH]; intros Hk.
  - eexists. split; [done|].
    assert (Hinit : ∀ c', 0 ≤ c' < 3 * Z.of_nat (length F) →
              corner_id (replicate (length F) (-1, -1, -1)) c' = Ok (-1)).
    { intros c' Hc'. destruct (corner_split c' ltac:(lia)) as (Hs & Hq & Hr).
      unfold corner_id. rewrite vget_replicate by lia. rewrite rbind_Ok_l.
      destruct (v3_get_in_range (-1, -1, -1) _ Hr) as [x Hx]. rewrite Hx.
      unfold v3_get in Hx. repeat case_decide; simplify_eq; done. }
    unfold edge_info_inv. cbn [edge_values edge_diff face_edgeIds]. split_and!.
    + done.
    + by rewrite length_replicate.
    + intros c' Hc'. exists (-1). split; [by apply Hinit|by left].
    + intros c' x o Hc' Hx Hne. rewrite Hinit in Hx by done. congruence.
    + intros c' Hc'. lia.
  - destruct IH as (st & Hrun & I); [lia|].
    rewrite for_loop_snoc, Hrun, rbind_Ok_l, Z.add_0_l.
    assert (Hi : 0 ≤ Z.of_nat k < vsize F) by (unfold vsize; lia).
    replace (3 * Z.of_nat k) with (3 * Z.of_nat k + 0) in I by lia.
    destruct (BuildEdgeInfo_corner_inv _ 0 _ Hi ltac:(lia) I) as (st1 & H1 & I1).
    replace (3 * Z.of_nat k + 0 + 1) with (3 * Z.of_nat k + 1) in I1 by lia.
    destruct (BuildEdgeInfo_corner_inv _ 1 _ Hi ltac:(lia) I1) as (st2 & H2 & I2).
    replace (3 * Z.of_nat k + 1 + 1) with (3 * Z.of_nat k + 2) in I2 by lia.
    destruct (BuildEdgeInfo_corner_inv _ 2 _ Hi ltac:(lia) I2) as (st3 & H3 & I3).
    exists st3. cbn [for_loop].
    rewrite H1, rbind_Ok_l. change (0 + 1) with 1. rewrite H2, rbind_Ok_l.
    change (1 + 1) with 2. rewrite H3, rbind_Ok_l. split; [done|].
    by replace (3 * Z.of_nat (S k)) with (3 * Z.of_nat k + 2 + 1) by lia.
Qed.

(** X17. [BuildEdgeInfo] on a mesh without boundary (lines 572-611).
    When [E2E] pairs every corner with an opposite corner on the same
    undirected edge, and [pos_rank] and [pos_index] have a column per
    face, the loops succeed; [edge_values] and [edge_diff] have the same
    length, and every corner has an edge id that it shares with its
    opposite corner and that names its own edge in [edge_values]. *)
Theorem BuildEdgeInfo_closed_mesh_edge_ids :
  ∃ st,
    BuildEdgeInfo F pos_rank pos_index E2E singularities = Ok st ∧
    length (edge_values st) = length (edge_diff st) ∧
    length (face_edgeIds st) = length F ∧
    ∀ c, 0 ≤ c < 3 * Z.of_nat (length F) →
      ∃ id o e, corner_id (face_edgeIds st) c = Ok id ∧
                vget E2E c = Ok o ∧
                corner_id (face_edgeIds st) o = Ok id ∧
                corner_DEdge F c = Ok e ∧
                vget (edge_values st) id = Ok e.
Proof.
  destruct (BuildEdgeInfo_loop (length F) ltac:(lia))
    as (st & Hrun & Hlen & Hlids & Hval & Hshare & Hdone).
  exists st. split_and!; [done..|]. intros c Hc.
  destruct (Hval c Hc) as (x & Hx & Hxv).
  destruct (opposite c Hc) as (o & Ho & _).
  destruct Hxv as [->|(e & He & Hev)].
  - by destruct (Hdone c ltac:(lia)).
  - exists x, o, e. split_and!; try done.
    apply (Hshare c x o); [done..| |done]. intros ->.
    apply vget_Ok_range in Hev. lia.
Qed.
End EdgeInfoProps.

Lemma BuildEdgeInfo_closed_mesh_edge_ids_witness :
  ∃ st,
    BuildEdgeInfo [(0, 1, 2); (0, 3, 1); (1, 3, 2); (0, 2, 3)]
      [(0, 1, 2); (1, 0, 3); (2, 2, 0); (3, 1, 1)]
      [[1; 0; 0; 1; -1; -1]; [0; 1; 1; 0; -1; -1]; [1; 1; -1; 0; 0; -1];
       [0; -1; 1; 0; -1; 1]]
      [5; 8; 9; 11; 6; 0; 4; 10; 1; 2; 7; 3] {[2 := 1]} = Ok st ∧
    length (edge_values st) = length (edge_diff st) ∧
    length (face_edgeIds st) = 4%nat ∧
    ∀ c, 0 ≤ c < 3 * Z.of_nat 4 →
      ∃ id o e, corner_id (face_edgeIds st) c = Ok id ∧
                vget [5; 8; 9; 11; 6; 0; 4; 10; 1; 2; 7; 3] c = Ok o ∧
                corner_id (face_edgeIds st) o = Ok id ∧
                corner_DEdge [(0, 1, 2); (0, 3, 1); (1, 3, 2); (0, 2, 3)] c = Ok e ∧
                vget (edge_values st) id = Ok e.
Proof.
  apply (BuildEdgeInfo_closed_mesh_edge_ids
           [(0, 1, 2); (0, 3, 1); (1, 3, 2); (0, 2, 3)]
           [(0, 1, 2); (1, 0, 3); (2, 2, 0); (3, 1, 1)]
           [[1; 0; 0; 1; -1; -1]; [0; 1; 1; 0; -1; -1]; [1; 1; -1; 0; 0; -1];
            [0; -1; 1; 0; -1; 1]]
           [5; 8; 9; 11; 6; 0; 4; 10; 1; 2; 7; 3] {[2 := 1]}).
  - reflexivity.
  - reflexivity.
  - repeat constructor.
  - intros c Hc.
    assert (c = 0 ∨ c = 1 ∨ c = 2 ∨ c = 3 ∨ c = 4 ∨ c = 5 ∨ c = 6 ∨ c = 7 ∨ c = 8 ∨
            c = 9 ∨ c = 10 ∨ c = 11) as Hcases by (simpl in Hc; lia).
    destruct_or!; subst c; eexists;
      (split; [reflexivity|]); (split; [simpl; lia|]); split; reflexivity.
Defined.

Lemma elem_of_delete_or {A} (l : list A) i x :
  x ∈ l ↔ x ∈ delete i l ∨ l !! i = Some x.
Proof.
  revert i. induction l as [|y l IH]; intros i.
  - split; [by intros ?%elem_of_nil|]. intros [?%elem_of_nil|?]; done.
  - destruct i as [|i]; cbn [delete list_delete lookup list_lookup].
    + rewrite elem_of_cons. split.
      * intros [->|?]; [by right|by left].
      * intros [?|[= ->]]; [by right|by left].
    + rewrite !elem_of_cons, (IH i). tauto.
Qed.

Section FixHolesSmall.

Context {Vector3d : Type}.
Variable norm_sub : Vector3d → Vector3d → Qc.
Variable O_compact : list Vector3d.
Variable directed_edges : gset Z.
Variable numV : Z.

Lemma scan_step_diagonal lv n i m s :
  scan_step norm_sub O_compact lv n i (m, s)
  = (d ← diagonal norm_sub O_compact lv n i;
     if decide (d < m)%Qc then Ok (d, i) else Ok (m, s)).
Proof.
  unfold scan_step, diagonal.
  destruct (vget lv i) as [v1| | |]; try reflexivity. rewrite !rbind_Ok_l.
  destruct (vget lv (Z.rem (i + 3) n)) as [v2| | |]; try reflexivity. rewrite !rbind_Ok_l.
  destruct (vget O_compact v1); try reflexivity. rewrite !rbind_Ok_l.
  destruct (vget O_compact v2); reflexivity.
Qed.

(** The scan returns the first of the shortest diagonals. *)
Lemma scan_first_shortest lv n (k : nat) :
  (∀ i, 0 ≤ i < n → ∃ d, diagonal norm_sub O_compact lv n i = Ok d ∧
                         (d < min_dis_init)%Qc) →
  (1 ≤ k)%nat → Z.of_nat k ≤ n →
  ∃ m s,
    for_loop k 0 (scan_step norm_sub O_compact lv n) (min_dis_init, -1) = Ok (m, s) ∧
    0 ≤ s < Z.of_nat k ∧
    diagonal norm_sub O_compact lv n s = Ok m ∧
    ∀ i, 0 ≤ i < Z.of_nat k →
      ∃ d, diagonal norm_sub O_compact lv n i = Ok d ∧ (m ≤ d)%Qc ∧
           (i < s → (m < d)%Qc).
Proof.
  intros Hdiag Hk. induction k as [|k IH]; [lia|]. intros Hn.
  destruct (decide (k = 0%nat)) as [->|Hk0].
  - destruct (Hdiag 0 ltac:(lia)) as (d & Hd & Hlt).
    exists d, 0. cbn [for_loop]. rewrite scan_step_diagonal, Hd, rbind_Ok_l.
    rewrite decide_True by done. split_and!; [done|lia|lia|done|].
    intros i Hi. assert (i = 0) as -> by lia. exists d.
    split_and!; [done|apply Qcle_refl|lia].
  - destruct IH as (m & s & Hrun & Hs & Hm & Hmin); [lia..|].
    destruct (Hdiag (Z.of_nat k) ltac:(lia)) as (d & Hd & _).
    rewrite for_loop_snoc, Hrun, rbind_Ok_l, Z.add_0_l.
    rewrite scan_step_diagonal, Hd, rbind_Ok_l.
    destruct (decide (d < m)%Qc) as [Hlt|Hge].
    + exists d, (Z.of_nat k). split_and!; [done|lia|lia|done|].
      intros i Hi. destruct (decide (i = Z.of_nat k)) as [->|Hne].
      * exists d. split_and!; [done|apply Qcle_refl|lia].
      * destruct (Hmin i ltac:(lia)) as (d' & Hd' & Hle & _). exists d'.
        split_and!; [done|apply Qclt_le_weak|intros _];
          by apply Qclt_le_trans with m.
    + apply Qcnot_lt_le in Hge. exists m, s. split_and!; [done|lia|lia|done|].
      intros i Hi. destruct (decide (i = Z.of_nat k)) as [->|Hne].
      * exists d. split_and!; [done..|lia].
      * destruct (Hmin i ltac:(lia)) as (d' & Hd' & Hle & Hlt'). by exists d'.
Qed.

Lemma push_quad_corners F_compact q :
  ∃ q', push_quad directed_edges numV F_compact q = F_compact ++ [q'] ∧
        q'.1.1.1 = q.1.1.1 ∧
        ∀ v, v ∈ quad_corners q' ↔ v ∈ quad_corners q.
Proof.
  destruct q as [[[a b] c] d]. unfold push_quad. case_decide.
  - eexists. split_and!; [done..|]. intros v. unfold quad_corners.
    rewrite !elem_of_cons. tauto.
  - eexists. split_and!; done.
Qed.

(** The last round: three or four vertices are left. *)
Lemma fill_loop_last fuel n lv F_compact :
  3 ≤ vsize lv ≤ 4 →
  ∃ q, fill_loop norm_sub O_compact directed_edges numV (S fuel) n lv F_compact
       = Ok (F_compact ++ [q]) ∧
       ∀ v, v ∈ quad_corners q ↔ v ∈ lv.
Proof.
  intros Hlen. unfold vsize in Hlen.
  destruct lv as [|a [|b [|c [|d [|e lv]]]]]; simpl in Hlen; try lia.
  - destruct (push_quad_corners F_compact (a, b, c, c)) as (q & Hq & _ & Hc).
    exists q. split; [by rewrite <- Hq|]. intros v. rewrite Hc. unfold quad_corners.
    rewrite !elem_of_cons. tauto.
  - destruct (push_quad_corners F_compact (a, b, c, d)) as (q & Hq & _ & Hc).
    exists q. split; [by rewrite <- Hq|]. intros v. by rewrite Hc.
Qed.

Lemma rem_wrap x n :
  0 ≤ x → 0 < n → x < 2 * n → Z.rem x n = if decide (x < n) then x else x - n.
Proof.
  intros Hx Hn Hlt.
  pose proof (Z.quot_rem' x n) as Hqr.
  pose proof (Z.rem_bound_pos x n Hx Hn) as Hb.
  pose proof (Z.quot_pos x n Hx ltac:(lia)) as Hq.
  set (q := Z.quot x n) in *. set (r := Z.rem x n) in *.
  assert (q = 0 ∨ q = 1) as [E|E] by nia; rewrite E in Hqr; case_decide; lia.
Qed.

(** X18. Holes of five or six vertices in [FixHoles] (lines 1029-1068).
    When the loop vertices index [O_compact] and the distances stay below
    the initial [1e30], the loop succeeds with exactly two quads: the first
    starts at the first index whose diagonal to the third next vertex is
    shortest, and every loop vertex is a corner of one of the two quads,
    which have no other corners. *)
Theorem fill_loop_five_or_six_gives_two_quads
    (fuel : nat) (loop_vertices : list Z) (F_compact : list Vector4i) :
  5 ≤ vsize loop_vertices ≤ 6 →
  Forall (λ v, 0 ≤ v < vsize O_compact) loop_vertices →
  (∀ o1 o2, o1 ∈ O_compact → o2 ∈ O_compact → (norm_sub o1 o2 < min_dis_init)%Qc) →
  ∃ s q1 q2,
    fill_loop norm_sub O_compact directed_edges numV (S (S fuel))
      (vsize loop_vertices) loop_vertices F_compact = Ok (F_compact ++ [q1; q2]) ∧
    0 ≤ s < vsize loop_vertices ∧
    vget loop_vertices s = Ok q1.1.1.1 ∧
    (∀ i, 0 ≤ i < vsize loop_vertices →
       ∃ ds di,
         diagonal norm_sub O_compact loop_vertices (vsize loop_vertices) s = Ok ds ∧
         diagonal norm_sub O_compact loop_vertices (vsize loop_vertices) i = Ok di ∧
         (ds ≤ di)%Qc ∧ (i < s → (ds < di)%Qc)) ∧
    ∀ v, v ∈ loop_vertices ↔ v ∈ quad_corners q1 ∨ v ∈ quad_corners q2.
Proof.
  intros Hn Hrange Hdist. rename loop_vertices into lv.
  remember (vsize lv) as n eqn:Hnv.
  assert (Hnl : n = Z.of_nat (length lv)) by (by rewrite Hnv).
  assert (Hget : ∀ i, 0 ≤ i < n → ∃ v o, vget lv i = Ok v ∧ vget O_compact v = Ok o ∧
                                         o ∈ O_compact ∧ v ∈ lv).
  { intros i Hi. destruct (vget_in_range lv i) as [v Hv]; [unfold vsize; lia|].
    assert (Hin : v ∈ lv).
    { apply vget_lookup in Hv. by eapply list_elem_of_lookup_2. }
    rewrite Forall_forall in Hrange.
    destruct (vget_in_range O_compact v (Hrange v Hin)) as [o Ho].
    exists v, o. split_and!; [done..| |done].
    apply vget_lookup in Ho. by eapply list_elem_of_lookup_2. }
  assert (Hrem : ∀ x, 0 ≤ x < 2 * n → 0 ≤ Z.rem x n < n).
  { intros x Hx. rewrite rem_wrap by lia. case_decide; lia. }
  assert (Hdiag : ∀ i, 0 ≤ i < n →
            ∃ d, diagonal norm_sub O_compact lv n i = Ok d ∧ (d < min_dis_init)%Qc).
  { intros i Hi. destruct (Hget i Hi) as (v1 & o1 & Hv1 & Ho1 & Hin1 & _).
    destruct (Hget (Z.rem (i + 3) n) (Hrem (i + 3) ltac:(lia)))
      as (v2 & o2 & Hv2 & Ho2 & Hin2 & _).
    exists (norm_sub o1 o2). split; [|by apply Hdist].
    unfold diagonal. by rewrite Hv1, rbind_Ok_l, Hv2, rbind_Ok_l, Ho1, rbind_Ok_l, Ho2. }
  assert (Hk1 : (1 ≤ Z.to_nat n)%nat) by lia.
  assert (Hk2 : Z.of_nat (Z.to_nat n) ≤ n) by lia.
  destruct (scan_first_shortest lv n (Z.to_nat n) Hdiag Hk1 Hk2)
    as (m & s & Hscan & Hs & Hm & Hmin).
  rewrite Z2Nat.id in Hs, Hmin by lia.
  destruct (Hget s Hs) as (a & _ & Ha & _ & _ & Hina).
  destruct (Hget (Z.rem (s + 1) n) (Hrem (s + 1) ltac:(lia))) as (b & _ & Hb & _ & _ & Hinb).
  destruct (Hget (Z.rem (s + 2) n) (Hrem (s + 2) ltac:(lia))) as (c & _ & Hc & _ & _ & Hinc).
  destruct (Hget (Z.rem (s + 3) n) (Hrem (s + 3) ltac:(lia))) as (d & _ & Hd & _ & _ & Hind).
  remember (Z.rem (s + 1) n) as p1 eqn:Ep1. remember (Z.rem (s + 2) n) as p2 eqn:Ep2.
  assert (Hp : 0 ≤ p1 < n ∧ 0 ≤ p2 < n ∧ p1 ≠ p2).
  { rewrite Ep1, Ep2. rewrite !rem_wrap by lia. repeat case_decide; lia. }
  destruct Hp as (Hp1 & Hp2 & Hp12).
  assert (Hdel : ∃ d1 d2,
    (if decide (p1 > p2) then (p2, p1) else (p1, p2)) = (d1, d2) ∧
    0 ≤ d1 < d2 ∧ d2 < n ∧
    ∀ v, (lv !! Z.to_nat d1 = Some v ∨ lv !! Z.to_nat d2 = Some v) ↔ (v = b ∨ v = c)).
  { pose proof (vget_lookup _ _ _ Hb) as Hb'. pose proof (vget_lookup _ _ _ Hc) as Hc'.
    case_decide.
    - exists p2, p1. split_and!; [done|lia..|]. intros v. rewrite Hb', Hc'.
      split; [intros [[= <-]|[= <-]]|intros [->| ->]]; auto.
    - exists p1, p2. split_and!; [done|lia..|]. intros v. rewrite Hb', Hc'.
      split; [intros [[= <-]|[= <-]]|intros [->| ->]]; auto. }
  destruct Hdel as (d1 & d2 & Hsel & Hd12 & Hd2 & Hbc).
  destruct (push_quad_corners F_compact (a, b, c, d)) as (q1 & Hq1 & Hq1a & Hq1c).
  assert (Hl2 : length (delete (Z.to_nat d2) lv) = (length lv - 1)%nat).
  { apply length_delete, lookup_lt_is_Some_2. lia. }
  assert (Hl1 : length (delete (Z.to_nat d1) (delete (Z.to_nat d2) lv))
                = (length lv - 2)%nat).
  { rewrite length_delete; [lia|]. apply lookup_lt_is_Some_2. lia. }
  assert (Hlen2 : 3 ≤ vsize (delete (Z.to_nat d1) (delete (Z.to_nat d2) lv)) ≤ 4).
  { unfold vsize. lia. }
  destruct (fill_loop_last fuel n _ (F_compact ++ [q1]) Hlen2) as (q2 & Hq2 & Hq2c).
  exists s, q1, q2. split_and!.
  - remember (S fuel) as fuel1 eqn:Ef. cbn [fill_loop].
    rewrite decide_False by (intros E; rewrite E in Hnl; simpl in Hnl; lia).
    rewrite decide_False by (unfold vsize; lia).
    rewrite Hscan, rbind_Ok_l. cbv zeta. rewrite <- Hnv, <- Ep1, <- Ep2.
    rewrite Ha, rbind_Ok_l, Hb, rbind_Ok_l, Hc, rbind_Ok_l, Hd, rbind_Ok_l.
    rewrite Hsel. unfold verase.
    rewrite decide_True by (unfold vsize; lia). rewrite rbind_Ok_l.
    rewrite decide_True by (unfold vsize; lia).
    rewrite rbind_Ok_l, Hq1, Hq2. by rewrite <- app_assoc.
  - lia.
  - lia.
  - by rewrite Hq1a.
  - intros i Hi. destruct (Hmin i Hi) as (di & Hdi & Hle & Hlt). by exists m, di.
  - intros v. rewrite Hq1c, Hq2c. unfold quad_corners. rewrite !elem_of_cons.
    assert (Hsplit : ∀ x, x ∈ lv ↔
      x ∈ delete (Z.to_nat d1) (delete (Z.to_nat d2) lv) ∨ x = b ∨ x = c).
    { intros x. rewrite (elem_of_delete_or lv (Z.to_nat d2) x).
      rewrite (elem_of_delete_or (delete (Z.to_nat d2) lv) (Z.to_nat d1) x).
      rewrite list_lookup_delete_lt by lia. pose proof (Hbc x). tauto. }
    rewrite (Hsplit v). split.
    + intros [?|[?|?]]; [by right|left; tauto..].
    + intros [[->|[->|[->|[->|?%elem_of_nil]]]]|?]; try done.
      * by apply Hsplit.
      * tauto.
      * tauto.
      * by apply Hsplit.
      * tauto.
Qed.
End FixHolesSmall.

Lemma fill_loop_five_or_six_gives_two_quads_witness :
  ∃ s q1 q2,
    fill_loop ex_norm_sub [0; 10; 30; 35; 40; 60] {[7]} 6 2
      (vsize [0; 1; 2; 3; 4; 5]) [0; 1; 2; 3; 4; 5] [] = Ok ([] ++ [q1; q2]) ∧
    0 ≤ s < vsize [0; 1; 2; 3; 4; 5] ∧
    vget [0; 1; 2; 3; 4; 5] s = Ok q1.1.1.1 ∧
    (∀ i, 0 ≤ i < vsize [0; 1; 2; 3; 4; 5] →
       ∃ ds di,
         diagonal ex_norm_sub [0; 10; 30; 35; 40; 60] [0; 1; 2; 3; 4; 5]
           (vsize [0; 1; 2; 3; 4; 5]) s = Ok ds ∧
         diagonal ex_norm_sub [0; 10; 30; 35; 40; 60] [0; 1; 2; 3; 4; 5]
           (vsize [0; 1; 2; 3; 4; 5]) i = Ok di ∧
         (ds ≤ di)%Qc ∧ (i < s → (ds < di)%Qc)) ∧
    ∀ v, v ∈ [0; 1; 2; 3; 4; 5] ↔ v ∈ quad_corners q1 ∨ v ∈ quad_corners q2.
Proof.
  apply (fill_loop_five_or_six_gives_two_quads ex_norm_sub
           [0; 10; 30; 35; 40; 60] {[7]} 6 0 [0; 1; 2; 3; 4; 5] []).
  - vm_compute. split; discriminate.
  - repeat constructor; vm_compute; discriminate.
  - intros o1 o2 H1 H2.
    assert (∀ o, o ∈ [0; 10; 30; 35; 40; 60] → 0 ≤ o ≤ 60) as Hb.
    { intros o Ho. set_unfold in Ho. lia. }
    apply Hb in H1, H2. unfold ex_norm_sub, min_dis_init.
    unfold Qclt. simpl. rewrite !Qred_correct. unfold Qlt. simpl. lia.
Defined.

Lemma first_unvisited_spec nbrs visited :
  Forall (λ x, 0 ≤ x < vsize visited) nbrs →
  ∃ r, first_unvisited nbrs visited = Ok r ∧
       match r with
       | None => ∀ y, y ∈ nbrs → vget visited y ≠ Ok (-1)
       | Some x => x ∈ nbrs ∧ vget visited x = Ok (-1)
       end.
Proof.
  induction 1 as [|x nbrs Hx Hall IH]; cbn [first_unvisited].
  - exists None. split; [done|]. by intros y ?%elem_of_nil.
  - destruct (vget_in_range visited x Hx) as [mark Hmark]. rewrite Hmark, rbind_Ok_l.
    destruct (decide (mark = -1)) as [->|Hne].
    + exists (Some x). split; [done|]. split; [by left|done].
    + destruct IH as (r & Hr & Hspec). exists r. split; [done|].
      destruct r as [z|].
      * destruct Hspec. split; [by right|done].
      * intros y [->|Hy]%elem_of_cons; [|by apply Hspec]. rewrite Hmark. congruence.
Qed.

Lemma unvisited_insert visited i m :
  visited !! i = Some (-1) → m ≠ -1 →
  (unvisited (<[i:=m]> visited) + 1 = unvisited visited)%nat.
Proof.
  unfold unvisited. intros H Hm. revert i H.
  induction visited as [|b visited IH]; intros [|i] H; try done.
  - injection H as ->. change (<[0%nat:=m]> (-1 :: visited)) with (m :: visited).
    rewrite !filter_cons. rewrite decide_False, decide_True by done. simpl. lia.
  - change (<[S i:=m]> (b :: visited)) with (b :: <[i:=m]> visited).
    simpl in H. specialize (IH i H).
    rewrite !filter_cons. destruct (decide (b = -1)); simpl; lia.
Qed.

Lemma unvisited_le visited : (unvisited visited ≤ length visited)%nat.
Proof. apply length_filter. Qed.

Section TraceLoop.
Variable graph : list (list Z).
Variable loop_id : Z.
Hypothesis loop_id_set : loop_id ≠ -1.
Hypothesis graph_range : Forall (Forall (λ x, 0 ≤ x < vsize graph)) graph.

Lemma walk_spec fuel :
  ∀ visited loop_edge vert,
    length visited = length graph →
    last loop_edge = Some vert → 0 ≤ vert < vsize graph →
    (unvisited visited < fuel)%nat →
    ∃ visited' new,
      walk fuel graph loop_id visited loop_edge = Ok (visited', loop_edge ++ new) ∧
      length visited' = length visited ∧
      NoDup new ∧
      (∀ x, x ∈ new → vget visited x = Ok (-1) ∧ vget visited' x = Ok loop_id) ∧
      (∀ x, x ∉ new → vget visited' x = vget visited x) ∧
      (∀ k a b, (vert :: new) !! k = Some a → (vert :: new) !! S k = Some b →
                adjacent graph a b) ∧
      (∀ l y, last (vert :: new) = Some l → adjacent graph l y →
              vget visited' y ≠ Ok (-1)).
Proof.
  induction fuel as [|fuel IH]; intros visited loop_edge vert Hlen Hlast Hvert Hfuel;
    [lia|].
  destruct (vget_in_range graph vert Hvert) as [nbrs Hnbrs].
  assert (Hall : Forall (λ x, 0 ≤ x < vsize visited) nbrs).
  { rewrite Forall_forall in graph_range. unfold vsize in *. rewrite Hlen.
    apply graph_range. apply vget_lookup in Hnbrs. by eapply list_elem_of_lookup_2. }
  destruct (first_unvisited_spec nbrs visited Hall) as (r & Hr & Hspec).
  cbn [walk]. rewrite Hlast, Hnbrs, rbind_Ok_l, Hr, rbind_Ok_l.
  destruct r as [next|].
  - destruct Hspec as [Hin Hmark].
    assert (Hnext : 0 ≤ next < vsize visited).
    { rewrite Forall_forall in Hall. by apply Hall. }
    rewrite (vset_in_range _ _ _ Hnext), rbind_Ok_l.
    destruct (IH (<[Z.to_nat next := loop_id]> visited) (loop_edge ++ [next]) next)
      as (visited' & new & Hrun & Hlen' & Hnd & Hnew & Hold & Hlink & Hend).
    { by rewrite length_insert. }
    { by rewrite last_snoc. }
    { unfold vsize in *. lia. }
    { pose proof (unvisited_insert visited (Z.to_nat next) loop_id
                    (vget_lookup _ _ _ Hmark) loop_id_set). lia. }
    assert (Hnin : next ∉ new).
    { intros Hx. destruct (Hnew _ Hx) as [H1 _].
      rewrite vget_insert_eq in H1 by done. congruence. }
    exists visited', (next :: new). split_and!.
    + rewrite Hrun. by rewrite <- app_assoc.
    + by rewrite Hlen', length_insert.
    + by apply NoDup_cons.
    + intros x [->|Hx]%elem_of_cons.
      * split; [done|]. rewrite (Hold _ Hnin). by apply vget_insert_eq.
      * destruct (Hnew _ Hx) as [H1 H2]. split; [|done].
        rewrite vget_insert_ne in H1; [done|lia|]. intros ->. done.
    + intros x Hx. apply not_elem_of_cons in Hx as [Hne Hx].
      rewrite (Hold _ Hx). apply vget_insert_ne; [lia|done].
    + intros [|k] a b Ha Hb.
      * injection Ha as <-. injection Hb as <-. by exists nbrs.
      * by apply (Hlink k).
    + intros l y Hl. apply Hend. exact Hl.
  - exists visited, []. rewrite app_nil_r. split_and!.
    + done.
    + done.
    + apply NoDup_nil_2.
    + by intros x ?%elem_of_nil.
    + done.
    + intros [|k] a b Ha Hb; done.
    + intros l y [= <-] (s & Hs & Hy). rewrite Hnbrs in Hs. injection Hs as <-.
      by apply Hspec.
Qed.

(** X19. Tracing one boundary loop in [FixHoles] (lines 996-1015).  From
    an edge that is not yet visited, on a graph whose entries are within
    range, the walk ends within one round per edge.  [loop_edge] starts at
    that edge, names no edge twice, follows links of the graph, and holds
    exactly the edges newly marked with [loop_id]; its last edge has no
    neighbour left unvisited. *)
Theorem trace_loop_walks_unvisited_path (visited : list Z) (i : Z) :
  length visited = length graph →
  vget visited i = Ok (-1) →
  ∃ visited' loop_edge,
    trace_loop (S (length graph)) graph loop_id visited i = Ok (visited', loop_edge) ∧
    head loop_edge = Some i ∧
    NoDup loop_edge ∧
    (∀ x, x ∈ loop_edge → vget visited x = Ok (-1) ∧ vget visited' x = Ok loop_id) ∧
    (∀ x, x ∉ loop_edge → vget visited' x = vget visited x) ∧
    (∀ k a b, loop_edge !! k = Some a → loop_edge !! S k = Some b →
              adjacent graph a b) ∧
    (∀ l y, last loop_edge = Some l → adjacent graph l y →
            vget visited' y ≠ Ok (-1)).
Proof.
  intros Hlen Hi. pose proof (vget_Ok_range _ _ _ Hi) as Hr.
  unfold trace_loop. rewrite (vset_in_range _ _ _ Hr), rbind_Ok_l.
  destruct (walk_spec (S (length graph)) (<[Z.to_nat i := loop_id]> visited) [i] i)
    as (visited' & new & Hrun & Hlen' & Hnd & Hnew & Hold & Hlink & Hend).
  { by rewrite length_insert. }
  { done. }
  { unfold vsize in *. lia. }
  { pose proof (unvisited_insert visited (Z.to_nat i) loop_id
                  (vget_lookup _ _ _ Hi) loop_id_set).
    pose proof (unvisited_le visited). lia. }
  assert (Hnin : i ∉ new).
  { intros Hx. destruct (Hnew _ Hx) as [H1 _].
    rewrite vget_insert_eq in H1 by done. congruence. }
  exists visited', (i :: new). split_and!.
  - exact Hrun.
  - done.
  - by apply NoDup_cons.
  - intros x [->|Hx]%elem_of_cons.
    + split; [done|]. rewrite (Hold _ Hnin). by apply vget_insert_eq.
    + destruct (Hnew _ Hx) as [H1 H2]. split; [|done].
      rewrite vget_insert_ne in H1; [done|lia|]. intros ->. done.
  - intros x Hx. apply not_elem_of_cons in Hx as [Hne Hx].
    rewrite (Hold _ Hx). apply vget_insert_ne; [lia|done].
  - exact Hlink.
  - exact Hend.
Qed.
End TraceLoop.

Lemma trace_loop_walks_unvisited_path_witness :
  ∃ visited' loop_edge,
    trace_loop (S (length [[1; 3; 1; 3]; [0; 2; 0; 2]; [1; 3; 1; 3]; [2; 0; 2; 0]; []]))
      [[1; 3; 1; 3]; [0; 2; 0; 2]; [1; 3; 1; 3]; [2; 0; 2; 0]; []] 1
      [-1; -1; -1; -1; 0] 0 = Ok (visited', loop_edge) ∧
    head loop_edge = Some 0 ∧
    NoDup loop_edge ∧
    (∀ x, x ∈ loop_edge →
          vget [-1; -1; -1; -1; 0] x = Ok (-1) ∧ vget visited' x = Ok 1) ∧
    (∀ x, x ∉ loop_edge → vget visited' x = vget [-1; -1; -1; -1; 0] x) ∧
    (∀ k a b, loop_edge !! k = Some a → loop_edge !! S k = Some b →
              adjacent [[1; 3; 1; 3]; [0; 2; 0; 2]; [1; 3; 1; 3]; [2; 0; 2; 0]; []] a b) ∧
    (∀ l y, last loop_edge = Some l →
            adjacent [[1; 3; 1; 3]; [0; 2; 0; 2]; [1; 3; 1; 3]; [2; 0; 2; 0]; []] l y →
            vget visited' y ≠ Ok (-1)).
Proof.
  apply (trace_loop_walks_unvisited_path
           [[1; 3; 1; 3]; [0; 2; 0; 2]; [1; 3; 1; 3]; [2; 0; 2; 0]; []] 1).
  - discriminate.
  - repeat constructor; vm_compute; discriminate.
  - reflexivity.
  - reflexivity.
Defined.

Lemma v4_get_range (q : Vector4i) j x : v4_get q j = Ok x → 0 ≤ j < 4.
Proof. unfold v4_get. repeat case_decide; try done; lia. Qed.

Lemma v4_get_in_range (q : Vector4i) j : 0 ≤ j < 4 → ∃ x, v4_get q j = Ok x.
Proof. intros Hj. unfold v4_get. repeat case_decide; eauto. lia. Qed.

Section HoleTable.
Variable numV : Z.
Variable F_compact : list Vector4i.

Lemma quad_edge_index i j v1 v2 :
  quad_edge F_compact i j v1 v2 → 0 ≤ i < vsize F_compact ∧ 0 ≤ j < 4.
Proof.
  intros (q & Hq & Hv1 & _). split; [by eapply vget_Ok_range|by eapply v4_get_range].
Qed.

Lemma quad_edge_same i j v1 v2 i' j' v1' v2' :
  quad_edge F_compact i j v1 v2 → quad_edge F_compact i' j' v1' v2' →
  i' * 4 + j' = i * 4 + j → v1' = v1 ∧ v2' = v2.
Proof.
  intros H H' Heq.
  destruct (quad_edge_index _ _ _ _ H) as [Hi Hj].
  destruct (quad_edge_index _ _ _ _ H') as [Hi' Hj'].
  assert (i' = i ∧ j' = j) as [-> ->] by lia.
  destruct H as (q & Hq & Hv1 & Hv2), H' as (q' & Hq' & Hv1' & Hv2').
  rewrite Hq in Hq'. injection Hq' as <-. split; congruence.
Qed.

Lemma table_side_other up h x i j v1 v2 :
  quad_edge F_compact i j v1 v2 →
  bool_decide (v1 < v2) ≠ up ∨ edge_key numV v1 v2 ≠ h →
  table_side numV F_compact up (i * 4 + j) h x →
  table_side numV F_compact up (i * 4 + j + 1) h x.
Proof.
  intros Hc Hdiff [[-> Hnone]|(i0 & j0 & w1 & w2 & Hc0 & Hup & Hkey & -> & Hlt & Hmax)].
  - left. split; [done|]. intros i' j' v1' v2' Hc' Hup' Hkey'.
    pose proof (Hnone _ _ _ _ Hc' Hup' Hkey') as Hge.
    destruct (decide (i' * 4 + j' = i * 4 + j)) as [Heq|]; [|lia].
    destruct (quad_edge_same _ _ _ _ _ _ _ _ Hc Hc' Heq) as [-> ->]. tauto.
  - right. exists i0, j0, w1, w2. split_and!; [done..|lia|].
    intros i' j' v1' v2' Hc' Hup' Hkey' Hlt'.
    destruct (decide (i' * 4 + j' = i * 4 + j)) as [Heq|].
    + destruct (quad_edge_same _ _ _ _ _ _ _ _ Hc Hc' Heq) as [-> ->]. tauto.
    + apply (Hmax i' j' v1' v2'); [done..|lia].
Qed.

Lemma table_side_new i j v1 v2 :
  quad_edge F_compact i j v1 v2 →
  table_side numV F_compact (bool_decide (v1 < v2)) (i * 4 + j + 1)
    (edge_key numV v1 v2) (i * 4 + j).
Proof.
  intros Hc. right. exists i, j, v1, v2. split_and!; [done..|lia|].
  intros i' j' v1' v2' _ _ _ Hlt. lia.
Qed.

Lemma table_side_none up h i j v1 v2 :
  quad_edge F_compact i j v1 v2 → bool_decide (v1 < v2) ≠ up →
  (∀ i' j' v1' v2', quad_edge F_compact i' j' v1' v2' →
                    edge_key numV v1' v2' = h → i * 4 + j ≤ i' * 4 + j') →
  table_side numV F_compact up (i * 4 + j + 1) h (-1).
Proof.
  intros Hc Hup Hnone. left. split; [done|].
  intros i' j' v1' v2' Hc' Hup' Hkey'.
  pose proof (Hnone _ _ _ _ Hc' Hkey') as Hge.
  destruct (decide (i' * 4 + j' = i * 4 + j)) as [Heq|]; [|lia].
  destruct (quad_edge_same _ _ _ _ _ _ _ _ Hc Hc' Heq) as [-> ->]. congruence.
Qed.

Lemma hole_table_corner_inv i j st :
  0 ≤ i < vsize F_compact → 0 ≤ j < 4 →
  hole_table_inv numV F_compact (i * 4 + j) st →
  ∃ st', hole_table_corner numV F_compact i j st = Ok st' ∧
         hole_table_inv numV F_compact (i * 4 + j + 1) st'.
Proof.
  intros Hi Hj (Hdir & Hnone & Hsome & Hreal). destruct st as [e2f dir]. cbn [fst snd] in *.
  destruct (vget_in_range _ _ Hi) as [q Hq].
  destruct (v4_get_in_range q j Hj) as [v1 Hv1].
  destruct (v4_get_in_range q (Z.rem (j + 1) 4)) as [v2 Hv2].
  { pose proof (Z.rem_bound_pos (j + 1) 4). lia. }
  assert (Hc : quad_edge F_compact i j v1 v2) by (by exists q).
  unfold hole_table_corner. rewrite Hq, rbind_Ok_l, Hv1, rbind_Ok_l, Hv2, rbind_Ok_l.
  cbv zeta.
  set (h0 := edge_key numV v1 v2).
  assert (Hdir' : ∀ k, k ∈ ({[numV * v1 + v2]} ∪ dir : gset Z) ↔
    ∃ i' j' v1' v2', quad_edge F_compact i' j' v1' v2' ∧ i' * 4 + j' < i * 4 + j + 1 ∧
                     k = numV * v1' + v2').
  { intros k. rewrite elem_of_union, elem_of_singleton, Hdir. split.
    - intros [->|(i' & j' & v1' & v2' & Hc' & Hlt & ->)].
      + exists i, j, v1, v2. split_and!; [done|lia|done].
      + exists i', j', v1', v2'. split_and!; [done|lia|done].
    - intros (i' & j' & v1' & v2' & Hc' & Hlt & ->).
      destruct (decide (i' * 4 + j' = i * 4 + j)) as [Heq|].
      + destruct (quad_edge_same _ _ _ _ _ _ _ _ Hc Hc' Heq) as [-> ->]. by left.
      + right. exists i', j', v1', v2'. split_and!; [done|lia|done]. }
  assert (Hnone' : ∀ (m : gmap Z (Z * Z)) p h,
    m = <[h0 := p]> e2f → m !! h = None →
    ∀ i' j' v1' v2', quad_edge F_compact i' j' v1' v2' → edge_key numV v1' v2' = h →
                     i * 4 + j + 1 ≤ i' * 4 + j').
  { intros m p h -> Hm i' j' v1' v2' Hc' Hkey.
    destruct (decide (h = h0)) as [->|Hne]; [by rewrite lookup_insert_eq in Hm|].
    rewrite lookup_insert_ne in Hm by done.
    pose proof (Hnone h Hm _ _ _ _ Hc' Hkey) as Hge.
    destruct (decide (i' * 4 + j' = i * 4 + j)) as [Heq|]; [|lia].
    destruct (quad_edge_same _ _ _ _ _ _ _ _ Hc Hc' Heq) as [-> ->]. done. }
  assert (Hsome' : ∀ (m : gmap Z (Z * Z)) p0 h p,
    m = <[h0 := p0]> e2f →
    table_side numV F_compact true (i * 4 + j + 1) h0 p0.1 →
    table_side numV F_compact false (i * 4 + j + 1) h0 p0.2 →
    m !! h = Some p →
    table_side numV F_compact true (i * 4 + j + 1) h p.1 ∧
    table_side numV F_compact false (i * 4 + j + 1) h p.2).
  { intros m p0 h p -> H1 H2 Hm.
    destruct (decide (h = h0)) as [->|Hne].
    - rewrite lookup_insert_eq in Hm. by injection Hm as <-.
    - rewrite lookup_insert_ne in Hm by done.
      destruct (Hsome h p Hm) as [Hp1 Hp2].
      split; (eapply table_side_other; [done|right; done|done]). }
  assert (Hreal' : ∀ (m : gmap Z (Z * Z)) p0 h p,
    m = <[h0 := p0]> e2f → m !! h = Some p →
    ∃ i' j' v1' v2', quad_edge F_compact i' j' v1' v2' ∧ edge_key numV v1' v2' = h).
  { intros m p0 h p -> Hm. destruct (decide (h = h0)) as [->|Hne].
    - by exists i, j, v1, v2.
    - rewrite lookup_insert_ne in Hm by done. by eapply Hreal. }
  pose proof (table_side_new _ _ _ _ Hc) as Hnew. fold h0 in Hnew.
  destruct (decide (v1 < v2)) as [Hup|Hup].
  - rewrite bool_decide_true in Hnew by done.
    destruct (e2f !! h0) as [p|] eqn:E.
    + eexists. split; [done|]. split_and!; cbn [fst snd].
      * exact Hdir'.
      * intros h. by eapply Hnone'.
      * intros h p'. eapply Hsome'; [done|exact Hnew|]. cbn [snd].
        destruct (Hsome h0 p E) as [_ Hp2].
        eapply table_side_other; [done| |done]. left.
        by rewrite bool_decide_true.
      * intros h p'. by eapply Hreal'.
    + eexists. split; [done|]. split_and!; cbn [fst snd].
      * exact Hdir'.
      * intros h. by eapply Hnone'.
      * intros h p'. eapply Hsome'; [done|exact Hnew|]. cbn [snd].
        eapply table_side_none; [done|by rewrite bool_decide_true|].
        intros i' j' v1' v2' Hc' Hkey. by apply (Hnone h0 E i' j' v1' v2').
      * intros h p'. by eapply Hreal'.
  - rewrite bool_decide_false in Hnew by done.
    destruct (e2f !! h0) as [p|] eqn:E.
    + eexists. split; [done|]. split_and!; cbn [fst snd].
      * exact Hdir'.
      * intros h. by eapply Hnone'.
      * intros h p'. eapply Hsome'; [done| |exact Hnew]. cbn [fst].
        destruct (Hsome h0 p E) as [Hp1 _].
        eapply table_side_other; [done| |done]. left.
        by rewrite bool_decide_false.
      * intros h p'. by eapply Hreal'.
    + eexists. split; [done|]. split_and!; cbn [fst snd].
      * exact Hdir'.
      * intros h. by eapply Hnone'.
      * intros h p'. eapply Hsome'; [done| |exact Hnew]. cbn [fst].
        eapply table_side_none; [done|by rewrite bool_decide_false|].
        intros i' j' v1' v2' Hc' Hkey. by apply (Hnone h0 E i' j' v1' v2').
      * intros h p'. by eapply Hreal'.
Qed.

Lemma hole_table_loop (k : nat) :
  (k ≤ length F_compact)%nat →
  ∃ st,
    for_loop k 0 (λ i, for_loop 4 0 (hole_table_corner numV F_compact i)) (∅, ∅)
    = Ok st ∧
    hole_table_inv numV F_compact (Z.of_nat k * 4) st.
Proof.
  induction k as [|k IH]; intros Hk.
  - eexists. split; [done|]. split_and!; cbn [fst snd].
    + intros x. split; [by intros ?%elem_of_empty|].
      intros (i & j & v1 & v2 & Hc & Hlt & _).
      apply quad_edge_index in Hc. lia.
    + intros h _ i j v1 v2 Hc _. apply quad_edge_index in Hc. lia.
    + intros h p Hp. by rewrite lookup_empty in Hp.
    + intros h p Hp. by rewrite lookup_empty in Hp.
  - destruct IH as (st & Hrun & I); [lia|].
    rewrite for_loop_snoc, Hrun, rbind_Ok_l, Z.add_0_l.
    assert (Hi : 0 ≤ Z.of_nat k < vsize F_compact) by (unfold vsize; lia).
    replace (Z.of_nat k * 4) with (Z.of_nat k * 4 + 0) in I by lia.
    destruct (hole_table_corner_inv _ 0 _ Hi ltac:(lia) I) as (st1 & H1 & I1).
    replace (Z.of_nat k * 4 + 0 + 1) with (Z.of_nat k * 4 + 1) in I1 by lia.
    destruct (hole_table_corner_inv _ 1 _ Hi ltac:(lia) I1) as (st2 & H2 & I2).
    replace (Z.of_nat k * 4 + 1 + 1) with (Z.of_nat k * 4 + 2) in I2 by lia.
    destruct (hole_table_corner_inv _ 2 _ Hi ltac:(lia) I2) as (st3 & H3 & I3).
    replace (Z.of_nat k * 4 + 2 + 1) with (Z.of_nat k * 4 + 3) in I3 by lia.
    destruct (hole_table_corner_inv _ 3 _ Hi ltac:(lia) I3) as (st4 & H4 & I4).
    exists st4. cbn [for_loop].
    rewrite H1, rbind_Ok_l. change (0 + 1) with 1. rewrite H2, rbind_Ok_l.
    change (1 + 1) with 2. rewrite H3, rbind_Ok_l.
    change (2 + 1) with 3. rewrite H4, rbind_Ok_l. split; [done|].
    by replace (Z.of_nat (S k) * 4) with (Z.of_nat k * 4 + 3 + 1) by lia.
Qed.

Lemma table_side_last up h x :
  table_side numV F_compact up (Z.of_nat (length F_compact) * 4) h x →
  last_slot numV F_compact up h x.
Proof.
  intros [[-> Hnone]|(i & j & v1 & v2 & Hc & Hup & Hkey & -> & Hlt & Hmax)].
  - left. split; [done|]. intros i j v1 v2 Hc Hup Hkey.
    pose proof (Hnone _ _ _ _ Hc Hup Hkey).
    apply quad_edge_index in Hc. unfold vsize in Hc. lia.
  - right. exists i, j, v1, v2. split_and!; [done..|].
    intros i' j' v1' v2' Hc' Hup' Hkey'. apply (Hmax i' j' v1' v2'); [done..|].
    apply quad_edge_index in Hc'. unfold vsize in Hc'. lia.
Qed.

Lemma last_slot_unset up h x :
  last_slot numV F_compact up h x →
  x = -1 ↔ ∀ i j v1 v2, quad_edge F_compact i j v1 v2 →
                        bool_decide (v1 < v2) = up → edge_key numV v1 v2 ≠ h.
Proof.
  intros [[-> Hnone]|(i & j & v1 & v2 & Hc & Hup & Hkey & -> & _)].
  - done.
  - split.
    + intros Hx. apply quad_edge_index in Hc. lia.
    + intros Hno. by destruct (Hno _ _ _ _ Hc Hup).
Qed.

(** X20. The edge table of [FixHoles] (lines 946-971).  The loops over
    the quads never fail.  [directed_edges] holds the keys
    [numV * v1 + v2] of the corners.  [edge_to_faces] has an entry for a
    key exactly when some corner has that key; its first component is
    the slot [i * 4 + j] of the last corner with [v1 < v2] on that key
    and its second that of the last other corner, -1 when there is none,
    so the test of line 976 finds the keys that are not used on both
    sides. *)
Theorem hole_table_records_last_corner_per_side :
  ∃ edge_to_faces directed_edges,
    hole_table numV F_compact = Ok (edge_to_faces, directed_edges) ∧
    (∀ k, k ∈ directed_edges ↔
          ∃ i j v1 v2, quad_edge F_compact i j v1 v2 ∧ k = numV * v1 + v2) ∧
    (∀ h, edge_to_faces !! h = None ↔
          ∀ i j v1 v2, quad_edge F_compact i j v1 v2 → edge_key numV v1 v2 ≠ h) ∧
    (∀ h p, edge_to_faces !! h = Some p →
       last_slot numV F_compact true h p.1 ∧
       last_slot numV F_compact false h p.2 ∧
       ((p.1 = -1 ∨ p.2 = -1) ↔
        ¬ ((∃ i j v1 v2, quad_edge F_compact i j v1 v2 ∧ v1 < v2 ∧
                         edge_key numV v1 v2 = h) ∧
           (∃ i j v1 v2, quad_edge F_compact i j v1 v2 ∧ ¬ v1 < v2 ∧
                         edge_key numV v1 v2 = h)))).
Proof.
  destruct (hole_table_loop (length F_compact) ltac:(lia))
    as ([e2f dir] & Hrun & Hdir & Hnone & Hsome & Hreal). cbn [fst snd] in *.
  exists e2f, dir. split_and!.
  - exact Hrun.
  - intros k. rewrite Hdir. split.
    + intros (i & j & v1 & v2 & Hc & _ & ->). by exists i, j, v1, v2.
    + intros (i & j & v1 & v2 & Hc & ->). exists i, j, v1, v2.
      split_and!; [done| |done]. apply quad_edge_index in Hc. unfold vsize in Hc. lia.
  - intros h. split.
    + intros E i j v1 v2 Hc Hkey. pose proof (Hnone h E _ _ _ _ Hc Hkey).
      apply quad_edge_index in Hc. unfold vsize in Hc. lia.
    + intros Hno. destruct (e2f !! h) as [p|] eqn:E; [|done].
      destruct (Hreal h p E) as (i & j & v1 & v2 & Hc & Hkey).
      by destruct (Hno _ _ _ _ Hc).
  - intros h p E. destruct (Hsome h p E) as [H1 H2].
    apply table_side_last in H1, H2. split_and!; [done..|].
    split.
    + rewrite (last_slot_unset _ _ _ H1), (last_slot_unset _ _ _ H2).
      intros [Hno|Hno]
        [(i & j & v1 & v2 & Hc & Hlt & Hkey) (i' & j' & v1' & v2' & Hc' & Hlt' & Hkey')].
      * apply (Hno i j v1 v2 Hc); [by apply bool_decide_eq_true_2|done].
      * apply (Hno i' j' v1' v2' Hc'); [by apply bool_decide_eq_false_2|done].
    + intros Hnot.
      destruct H1 as [[-> _]|(i & j & v1 & v2 & Hc & Hup & Hkey & _)]; [by left|].
      destruct H2 as [[-> _]|(i' & j' & v1' & v2' & Hc' & Hup' & Hkey' & _)]; [by right|].
      destruct Hnot. split.
      * exists i, j, v1, v2. split_and!; [done| |done]. by apply bool_decide_eq_true in Hup.
      * exists i', j', v1', v2'. split_and!; [done| |done].
        by apply bool_decide_eq_false in Hup'.
Qed.
End HoleTable.

(** ** The unit range of [edge_diff] from the clamp to the output *)

(** X21.  Every update of [edge_diff] in the sources keeps both components
    of every edge in [{-1,0,1}]:
    - the clamp of [ComputeIndexMap] puts there every diff whose components
      are [int]s other than the least one, and changes nothing that is
      there already;
    - the perturbation of [BuildIntegerConstraints], when it returns, keeps
      the range;
    - [collapse] leaves [edge_diff] as it is;
    - a call of [CheckMove] with [edge_len = 1] that returns, accepted or
      not and whatever [check_face] is, keeps the range (and the
      well-formedness of [parent_edge], so that calls can be chained);
    - the loop [for (; edge_len < 2; edge_len += 1)] started at 1 runs its
      round once, with [edge_len = 1], and leaves [edge_len = 1], so that
      [FixFlipAdvance] runs every [CheckMove] with [edge_len = 1];
    - the final propagation along [parent_edge] keeps the range. *)
Theorem edge_diff_updates_keep_unit_range :
  (∀ edge_diff,
     (Forall (λ d : Vector2i, clampable d.1 ∧ clampable d.2) edge_diff →
      Forall in_unit_range (clamp_edge_diff edge_diff)) ∧
     (Forall in_unit_range edge_diff → clamp_edge_diff edge_diff = edge_diff)) ∧
  (∀ random_shuffle constraints_index constraints_sign edge_values edge_diff
     target_flow variables total_flow cuts edge_diff',
     (∀ l, random_shuffle l ≡ₚ l) →
     Forall in_unit_range edge_diff →
     length edge_values = length edge_diff →
     perturb_edge_diff random_shuffle constraints_index constraints_sign
       edge_values edge_diff target_flow
       = Ok (variables, total_flow, cuts, edge_diff') →
     Forall in_unit_range edge_diff') ∧
  (∀ (DisjointTree : Type) (tree_Parent : DisjointTree → Z → Z)
     (tree_MergeFromTo : DisjointTree → Z → Z → DisjointTree)
     F face_edgeIds fuel v1 v2 (st : FixFlip.State) u st',
     wf_forest (FixFlip.parent_edge st) →
     FixFlip.collapse tree_Parent tree_MergeFromTo F face_edgeIds fuel v1 v2 st
       = Ok (u, st') →
     FixFlip.edge_diff st' = FixFlip.edge_diff st ∧
     wf_forest (FixFlip.parent_edge st')) ∧
  (∀ (DisjointTree : Type) (tree_Parent : DisjointTree → Z → Z)
     (tree_MergeFromTo : DisjointTree → Z → Z → DisjointTree)
     F edge_values face_edgeIds face_edgeOrients fuel v1 v2 pid check_face
     (st : FixFlip.State) accepted st',
     wf_forest (FixFlip.parent_edge st) →
     Forall in_unit_range (FixFlip.edge_diff st) →
     FixFlip.CheckMove tree_Parent tree_MergeFromTo F edge_values face_edgeIds
       face_edgeOrients 1 fuel v1 v2 pid check_face st = Ok (accepted, st') →
     Forall in_unit_range (FixFlip.edge_diff st') ∧
     wf_forest (FixFlip.parent_edge st')) ∧
  (∀ (St : Type) fuel (round : Z → St → result St) s,
     edge_len_loop (S fuel) round 1 s = (s' ← round 1 s; Ok (1, s'))) ∧
  (∀ (DisjointTree : Type) (st : @FixFlip.State DisjointTree) u st',
     Forall in_unit_range (FixFlip.edge_diff st) →
     FixFlip.final_propagation st = Ok (u, st') →
     Forall in_unit_range (FixFlip.edge_diff st')).
Proof.
  split_and!.
  - intros ed. split; [apply clamp_edge_diff_unit_range | apply clamp_edge_diff_fixes].
  - intros shuffle ci cs ev ed tf vars total cuts ed' Hperm Hunit Hlen H.
    by eapply perturb_edge_diff_unit_range.
  - intros D tp tm F ids fuel v1 v2 st u st' Hwf H. by eapply collapse_edge_diff.
  - intros D tp tm F ev ids os fuel v1 v2 pid cf st b st' Hwf Hunit H.
    by eapply CheckMove_unit_range.
  - intros St fuel round s. apply edge_len_loop_once.
  - intros D st u st' Hunit H. by eapply final_propagation_unit_range.
Qed.

Lemma edge_diff_updates_keep_unit_range_witness :
  Forall in_unit_range (clamp_edge_diff [(3, 0); (-1, -5); (0, 1)]) ∧
  ∃ st',
    FixFlip.CheckMove ex_Parent ex_MergeFromTo fan_F fan_edge_values fan_face_edgeIds
      fan_face_edgeOrients 1 20%nat 0 1 0 1 fan_flipped = Ok (true, st') ∧
    Forall in_unit_range (FixFlip.edge_diff st') ∧
    wf_forest (FixFlip.parent_edge st').
Proof.
  destruct edge_diff_updates_keep_unit_range as (Hclamp & _ & _ & Hmove & _).
  split.
  - apply (Hclamp [(3, 0); (-1, -5); (0, 1)]).
    repeat constructor; unfold INT_MIN, INT_MAX; simpl; lia.
  - assert (∃ st', FixFlip.CheckMove ex_Parent ex_MergeFromTo fan_F fan_edge_values
                     fan_face_edgeIds fan_face_edgeOrients 1 20%nat 0 1 0 1 fan_flipped
                   = Ok (true, st'))
      as [st' Hrun] by (eexists; vm_compute; reflexivity).
    exists st'. split; [exact Hrun|].
    apply (Hmove _ ex_Parent ex_MergeFromTo fan_F fan_edge_values fan_face_edgeIds
             fan_face_edgeOrients 20%nat 0 1 0 1 fan_flipped true st').
    + apply wf_forestb_sound. vm_compute. reflexivity.
    + repeat constructor; simpl; lia.
    + exact Hrun.
Defined.
